(** * MachUpX [Scene]: vortex-influence assembly and circulation solvers

    A shallow embedding of [machupX/scene.py].  Conventions:

    - numpy float arrays are index functions into the reals: shape [(N,)]
      is [nat -> R], [(N,3)] is [nat -> vec3], [(N,N)] is
      [nat -> nat -> R] and [(N,N,3)] is [nat -> nat -> vec3]; only the
      indices below [N] are meaningful.  Floating point is idealised as
      exact real arithmetic, so rounding, [inf] and [nan] are outside the
      model;
    - attributes of [self] keep their Python names, grouped in records by
      the method that assigns them;
    - Python [int]s are [Z], [str]s are [string]; the error-state [dict]
      and keyword arguments are [gmap string _], the aircraft [dict],
      whose insertion order fixes the array layout, is an association
      list;
    - a method that can raise returns an [outcome] together with the
      mutated scene, since Python keeps the mutations made before a raise. *)

From Stdlib Require Import Reals Lra Lia ZArith String List Bool.
From stdpp Require Import base gmap strings.

Open Scope R_scope.

(** ** Three-component vectors (the trailing axis of the numpy arrays) *)

Module Vec3.

Record vec3 : Type := mk3 { vx : R; vy : R; vz : R }.

Definition vzero : vec3 := mk3 0 0 0.

Definition vadd (a b : vec3) : vec3 :=
  mk3 (vx a + vx b) (vy a + vy b) (vz a + vz b).

Definition vsub (a b : vec3) : vec3 :=
  mk3 (vx a - vx b) (vy a - vy b) (vz a - vz b).

Definition vopp (a : vec3) : vec3 := mk3 (- vx a) (- vy a) (- vz a).

(** [s[:,np.newaxis]*a] *)
Definition scale (s : R) (a : vec3) : vec3 :=
  mk3 (s * vx a) (s * vy a) (s * vz a).

(** [a/d[:,:,np.newaxis]] and [np.true_divide(a, d[:,:,np.newaxis])] *)
Definition vdiv (a : vec3) (d : R) : vec3 :=
  mk3 (vx a / d) (vy a / d) (vz a / d).

(** [np.einsum('...k,...k->...', a, b)] *)
Definition dot (a b : vec3) : R := vx a * vx b + vy a * vy b + vz a * vz b.

(** [np.cross(a, b)] *)
Definition cross (a b : vec3) : vec3 :=
  mk3 (vy a * vz b - vz a * vy b)
      (vz a * vx b - vx a * vz b)
      (vx a * vy b - vy a * vx b).

(** [np.linalg.norm(a, axis=-1)] *)
Definition norm (a : vec3) : R := sqrt (dot a a).

Lemma vec3_eq (a b : vec3) :
  vx a = vx b -> vy a = vy b -> vz a = vz b -> a = b.
Proof. destruct a, b; simpl; intros -> -> ->; reflexivity. Qed.

Lemma vec3_neq_z (a b : vec3) : vz a <> vz b -> a <> b.
Proof. intros H ->. apply H. reflexivity. Qed.

(** The norm of a vector whose squared length is a known square. *)
Lemma norm_of_square (a : vec3) (n : R) : 0 <= n -> dot a a = n * n -> norm a = n.
Proof. intros Hn H. unfold norm. rewrite H. apply sqrt_square, Hn. Qed.

End Vec3.

Export Vec3.

(** ** Array helpers *)

(** [p.any()] over a one-dimensional boolean array of length [n] *)
Fixpoint any_upto (n : nat) (p : nat -> bool) : bool :=
  match n with
  | O => false
  | S k => any_upto k p || p k
  end.

(** [p.any()] over an [(N,N)] boolean array *)
Definition any2 (N : nat) (p : nat -> nat -> bool) : bool :=
  any_upto N (fun i => any_upto N (p i)).

(** [np.sum] of a length-[n] array *)
Fixpoint sum_upto (n : nat) (f : nat -> R) : R :=
  match n with
  | O => 0
  | S k => sum_upto k f + f k
  end.

(** Sum of [n] vectors, the contraction of an [einsum] over one index *)
Fixpoint vsum_upto (n : nat) (f : nat -> vec3) : vec3 :=
  match n with
  | O => vzero
  | S k => vadd (vsum_upto k f) (f k)
  end.

(** [np.linalg.norm] of a length-[N] array *)
Definition norm_n (N : nat) (f : nat -> R) : R :=
  sqrt (sum_upto N (fun i => f i * f i)).

Definition Rltb (x y : R) : bool := if Rlt_dec x y then true else false.

Lemma Rltb_true (x y : R) : Rltb x y = true <-> x < y.
Proof. unfold Rltb. destruct (Rlt_dec x y); split; intros; try easy. Qed.

Lemma any_upto_true (n : nat) (p : nat -> bool) :
  any_upto n p = true <-> exists k, (k < n)%nat /\ p k = true.
Proof.
  induction n as [|n IH]; simpl.
  - split; [discriminate | intros (k & Hk & _); lia].
  - rewrite orb_true_iff, IH. split.
    + intros [(k & Hk & Hp) | Hp]; [exists k | exists n]; split; auto; lia.
    + intros (k & Hk & Hp).
      destruct (Nat.eq_dec k n) as [-> | Hne]; [right; exact Hp|].
      left. exists k. split; [lia | exact Hp].
Qed.

Lemma any2_true (N : nat) (p : nat -> nat -> bool) :
  any2 N p = true <->
  exists i j, (i < N)%nat /\ (j < N)%nat /\ p i j = true.
Proof.
  unfold any2. rewrite any_upto_true. split.
  - intros (i & Hi & H). apply any_upto_true in H as (j & Hj & H).
    exists i, j. auto.
  - intros (i & j & Hi & Hj & H). exists i. split; [exact Hi|].
    apply any_upto_true. exists j. auto.
Qed.

(** ** Scene parameters ([Scene._load_params]) *)

Record Config : Type := {
  _solver_type : string;
  _solver_convergence : R;
  _solver_relaxation : R;
  _max_solver_iterations : Z;
  _use_swept_sections : bool;
  _use_total_velocity : bool;
  _use_in_plane : bool;
  _match_machup_pro : bool;
  _impingement_threshold : R;
  has_FS : bool;
  FS_biplane_boundary : bool;
  submergence : R;
  use_wave_corrections : bool
}.

(** ** Geometry arrays

    The attributes filled by [_perform_geometry_and_atmos_calcs] before it
    computes the influence of the bound and jointed segments.  They are
    filled through [quat_inv_trans] and [reflect_vector_3d] from the
    aircraft objects; here they are the stored arrays themselves. *)

Record Geometry : Type := {
  _PC : nat -> vec3;
  _r_CG : nat -> vec3;
  _dl : nat -> vec3;
  _u_a : nat -> vec3;
  _u_n : nat -> vec3;
  _u_s : nat -> vec3;
  _r_0 : nat -> nat -> vec3;
  _r_1 : nat -> nat -> vec3;
  _r_0_joint : nat -> nat -> vec3;
  _r_1_joint : nat -> nat -> vec3;
  _r_0_mag : nat -> nat -> R;
  _r_0_joint_mag : nat -> nat -> R;
  _r_1_mag : nat -> nat -> R;
  _r_1_joint_mag : nat -> nat -> R;
  _r_0_r_0_joint_mag : nat -> nat -> R;
  _r_0_r_1_mag : nat -> nat -> R;
  _r_1_r_1_joint_mag : nat -> nat -> R;
  _r_0_image : nat -> nat -> vec3;
  _r_1_image : nat -> nat -> vec3;
  _r_0_joint_image : nat -> nat -> vec3;
  _r_1_joint_image : nat -> nat -> vec3;
  _r_0_mag_image : nat -> nat -> R;
  _r_0_joint_mag_image : nat -> nat -> R;
  _r_1_mag_image : nat -> nat -> R;
  _r_1_joint_mag_image : nat -> nat -> R;
  _r_0_r_0_joint_mag_image : nat -> nat -> R;
  _r_0_r_1_mag_image : nat -> nat -> R;
  _r_1_r_1_joint_mag_image : nat -> nat -> R;
  _rho : nat -> R;
  _nu : nat -> R;
  _a : nat -> R
}.

(** ** Freestream arrays

    The attributes assigned by the first half of
    [_calc_invariant_flow_properties] (velocities and trailing-vortex
    directions), before the influence tensor is completed. *)

Record Freestream : Type := {
  _v_inf : nat -> vec3;
  _v_inf_and_rot : nat -> vec3;
  _u_trailing_0 : nat -> vec3;
  _u_trailing_1 : nat -> vec3;
  _u_trailing_0_image : nat -> vec3;
  _u_trailing_1_image : nat -> vec3
}.

(** ** Influence of the bound and jointed vortex segments
    ([_perform_geometry_and_atmos_calcs], under [np.errstate]) *)

Module Bound.

Section WithGeometry.

Variable g : Geometry.

Definition bound_numer (i j : nat) : vec3 :=
  scale (_r_0_mag g i j + _r_1_mag g i j) (cross (_r_0 g i j) (_r_1 g i j)).

Definition bound_denom (i j : nat) : R :=
  _r_0_r_1_mag g i j * (_r_0_r_1_mag g i j + dot (_r_0 g i j) (_r_1 g i j)).

(** [V_ji_bound = np.true_divide(numer, denom[:,:,np.newaxis])] followed by
    [V_ji_bound[np.diag_indices(self._N)] = 0.0] *)
Definition V_ji_bound (i j : nat) : vec3 :=
  if (i =? j)%nat then vzero else vdiv (bound_numer i j) (bound_denom i j).

(** Jointed inbound trailing vortex (subscript 0) *)
Definition V_ji_joint_0 (i j : nat) : vec3 :=
  vdiv (scale (_r_0_joint_mag g i j + _r_0_mag g i j)
              (cross (_r_0_joint g i j) (_r_0 g i j)))
       (_r_0_r_0_joint_mag g i j *
        (_r_0_r_0_joint_mag g i j + dot (_r_0_joint g i j) (_r_0 g i j))).

(** Jointed outbound trailing vortex (subscript 1) *)
Definition V_ji_joint_1 (i j : nat) : vec3 :=
  vdiv (scale (_r_1_joint_mag g i j + _r_1_mag g i j)
              (cross (_r_1 g i j) (_r_1_joint g i j)))
       (_r_1_r_1_joint_mag g i j *
        (_r_1_r_1_joint_mag g i j + dot (_r_1 g i j) (_r_1_joint g i j))).

Definition V_ji_bound_image (i j : nat) : vec3 :=
  if (i =? j)%nat then vzero
  else vdiv (scale (_r_0_mag_image g i j + _r_1_mag_image g i j)
                   (cross (_r_0_image g i j) (_r_1_image g i j)))
            (_r_0_r_1_mag_image g i j *
             (_r_0_r_1_mag_image g i j +
              dot (_r_0_image g i j) (_r_1_image g i j))).

Definition V_ji_joint_0_image (i j : nat) : vec3 :=
  vdiv (scale (_r_0_joint_mag_image g i j + _r_0_mag_image g i j)
              (cross (_r_0_joint_image g i j) (_r_0_image g i j)))
       (_r_0_r_0_joint_mag_image g i j *
        (_r_0_r_0_joint_mag_image g i j +
         dot (_r_0_joint_image g i j) (_r_0_image g i j))).

Definition V_ji_joint_1_image (i j : nat) : vec3 :=
  vdiv (scale (_r_1_joint_mag_image g i j + _r_1_mag_image g i j)
              (cross (_r_1_image g i j) (_r_1_joint_image g i j)))
       (_r_1_r_1_joint_mag_image g i j *
        (_r_1_r_1_joint_mag_image g i j +
         dot (_r_1_image g i j) (_r_1_joint_image g i j))).

(** [self._V_ji_const_image] *)
Definition _V_ji_const_image (i j : nat) : vec3 :=
  vadd (vadd (V_ji_bound_image i j) (V_ji_joint_0_image i j))
       (V_ji_joint_1_image i j).

(** [self._V_ji_const] *)
Definition _V_ji_const (i j : nat) : vec3 :=
  vadd (vadd (V_ji_bound i j) (V_ji_joint_0 i j)) (V_ji_joint_1 i j).

(** In-plane projection matrices [I - u_s u_s^T], applied to a vector:
    [np.matmul(self._P_in_plane, v[:,:,np.newaxis])] at control point [i] *)
Definition P_in_plane_apply (i : nat) (v : vec3) : vec3 :=
  let u := _u_s g i in
  mk3 ((1 - vx u * vx u) * vx v + (0 - vx u * vy u) * vy v
       + (0 - vx u * vz u) * vz v)
      ((0 - vy u * vx u) * vx v + (1 - vy u * vy u) * vy v
       + (0 - vy u * vz u) * vz v)
      ((0 - vz u * vx u) * vx v + (0 - vz u * vy u) * vy v
       + (1 - vz u * vz u) * vz v).

End WithGeometry.

(** The stored magnitudes are the norms of the stored node vectors, as
    the aircraft objects provide them and as the cross-aircraft blocks
    compute them ([np.sqrt(np.einsum(...))] and the products). *)
Definition mags_consistent (g : Geometry) (i j : nat) : Prop :=
  _r_0_mag g i j = norm (_r_0 g i j) /\
  _r_1_mag g i j = norm (_r_1 g i j) /\
  _r_0_r_1_mag g i j = _r_0_mag g i j * _r_1_mag g i j.

End Bound.

(** ** Completing the influence tensor
    ([_calc_invariant_flow_properties], from [# Calculate V_ji] on) *)

(** The exceptions the modelled methods raise or let through.
    [SolverNotConvergedError(self._solver_type, error)] is built from two
    arguments, the solver type and the final error. *)
Inductive exn : Type :=
  | RuntimeError (message : string)
  | SolverNotConvergedError (solver_type : string) (final_error : R)
  | DatabaseBoundsError
  | LinAlgError
  | NameError
  | KeyError
  | KeyboardInterrupt.

Inductive outcome (A : Type) : Type :=
  | Return (a : A)
  | Raise (e : exn).

Arguments Return {A} a.
Arguments Raise {A} e.

(** What [warnings.warn] is called with. *)
Inductive warning : Type :=
  | ImpingementWarning
      (* MachUpX detected a trailing vortex impinging upon a control point *)
  | ErrorWarning (e : exn).
      (* [warnings.warn(str(error))] *)

Module Trailing.

(** [np.nan_to_num]: the identity on the finite values of the model *)
Definition nan_to_num (v : vec3) : vec3 := v.

(** [x**1.5] for a non-negative [x] *)
Definition pow_1_5 (x : R) : R := x * sqrt x.

Section WithArrays.

(** [scipy.special.k0] and [scipy.special.k1] *)
Variables sp_k0 sp_k1 : R -> R.

Variable c : Config.
Variable g : Geometry.
Variable f : Freestream.
Variable N : nat.

(** [self._V_inf = np.linalg.norm(self._v_inf, axis=1)] *)
Definition _V_inf (i : nat) : R := norm (_v_inf f i).

Definition denom0 (i j : nat) : R :=
  _r_0_joint_mag g i j *
  (_r_0_joint_mag g i j - dot (_u_trailing_0 f j) (_r_0_joint g i j)).

(** [(np.abs(denom0)<self._impingement_threshold).any()] *)
Definition impinging_0 : bool :=
  any2 N (fun i j => Rltb (Rabs (denom0 i j)) (_impingement_threshold c)).

Definition V_ji_due_to_0 (i j : nat) : vec3 :=
  if Rgt_dec (denom0 i j) 1e-13
  then nan_to_num
         (vdiv (vopp (cross (_u_trailing_0 f j) (_r_0_joint g i j)))
               (denom0 i j))
  else vzero.

Definition denom1 (i j : nat) : R :=
  _r_1_joint_mag g i j *
  (_r_1_joint_mag g i j - dot (_u_trailing_1 f j) (_r_1_joint g i j)).

Definition impinging_1 : bool :=
  any2 N (fun i j => Rltb (Rabs (denom1 i j)) (_impingement_threshold c)).

Definition V_ji_due_to_1 (i j : nat) : vec3 :=
  if Rgt_dec (denom1 i j) 1e-13
  then nan_to_num
         (vdiv (cross (_u_trailing_1 f j) (_r_1_joint g i j)) (denom1 i j))
  else vzero.

(** The warnings raised while the two trailing legs are computed, in
    program order. *)
Definition impingement_warnings : list warning :=
  (if impinging_0 then [ImpingementWarning] else []) ++
  (if impinging_1 then [ImpingementWarning] else []).

(** Image vortex influence, inbound.  The source takes the dot product
    with [_u_trailing_1_image] here. *)
Definition denom0_image (i j : nat) : R :=
  _r_0_joint_mag_image g i j *
  (_r_0_joint_mag_image g i j -
   dot (_u_trailing_1_image f j) (_r_0_joint_image g i j)).

Definition V_ji_due_to_0_image (i j : nat) : vec3 :=
  if Rgt_dec (denom0_image i j) 1e-13
  then nan_to_num
         (vdiv (vopp (cross (_u_trailing_0_image f j)
                            (_r_0_joint_image g i j)))
               (denom0_image i j))
  else vzero.

(** Image vortex influence, outbound *)
Definition denom1_image (i j : nat) : R :=
  _r_1_joint_mag_image g i j *
  (_r_1_joint_mag_image g i j -
   dot (_u_trailing_1_image f j) (_r_1_joint_image g i j)).

Definition V_ji_due_to_1_image (i j : nat) : vec3 :=
  if Rgt_dec (denom1_image i j) 1e-13
  then nan_to_num
         (vdiv (cross (_u_trailing_1_image f j) (_r_1_joint_image g i j))
               (denom1_image i j))
  else vzero.

(** Wave potential influence *)
Definition grav : R := 9.81.

Definition K0 (i : nat) : R := _V_inf i * _V_inf i / grav.

Definition y_CP (i : nat) : R := vy (_PC g i).

Definition arg_K (i : nat) : R :=
  1 / 2 * K0 i * sqrt (y_CP i * y_CP i + 4 * (submergence c * submergence c)).

Definition V_ji_due_to_wave (i : nat) : R :=
  let s := submergence c in
  let y := y_CP i in
  - (4 * (s * s) - y * y) /
    ((4 * (s * s) + y * y) * (4 * (s * s) + y * y))
  + (K0 i * 2) / 2 * exp (- K0 i * s) *
    ((1 + 4 * (s * s) / (y * y + 4 * (s * s))) * sp_k0 (arg_K i)
     + 2 * (2 * s / sqrt (4 * (s * s) + y * y)
            - 1 / (K0 i * sqrt (4 * (s * s) + y * y))
            + 8 * (s * s) / (K0 i * pow_1_5 (4 * (s * s) + y * y)))
       * sp_k1 (arg_K i)).

(** The real contributions [V_ji_due_to_0+self._V_ji_const+V_ji_due_to_1] *)
Definition real_sum (i j : nat) : vec3 :=
  vadd (vadd (V_ji_due_to_0 i j) (Bound._V_ji_const g i j))
       (V_ji_due_to_1 i j).

(** The image contributions
    [V_ji_due_to_0_image+self._V_ji_const_image+V_ji_due_to_1_image] *)
Definition image_sum (i j : nat) : vec3 :=
  vadd (vadd (V_ji_due_to_0_image i j) (Bound._V_ji_const_image g i j))
       (V_ji_due_to_1_image i j).

(** The [# Sum] block: [self._V_ji] before the wave correction *)
Definition V_ji_sum (i j : nat) : vec3 :=
  if has_FS c && FS_biplane_boundary c
  then scale (1 / (4 * PI)) (vadd (real_sum i j) (image_sum i j))
  else if has_FS c && negb (FS_biplane_boundary c)
  then scale (1 / (4 * PI)) (vsub (real_sum i j) (image_sum i j))
  else scale (1 / (4 * PI)) (real_sum i j).

(** [fin_array]: row [i] of [template] number [i] holds
    [[0,0,V_ji_due_to_wave[i]]], everything else is zero *)
Definition fin_array (i j : nat) : vec3 :=
  if (i =? j)%nat then mk3 0 0 (V_ji_due_to_wave i) else vzero.

(** [self._V_ji] as the method leaves it.  With wave corrections asked
    for and no free surface, [V_ji_due_to_wave] is unbound and the method
    stops with a [NameError]: [None]. *)
Definition _V_ji : option (nat -> nat -> vec3) :=
  if use_wave_corrections c
  then if has_FS c
       then Some (fun i j =>
                    vadd (V_ji_sum i j) (scale (1 / (4 * PI)) (fin_array i j)))
       else None
  else Some V_ji_sum.

End WithArrays.

End Trailing.

(** ** Aircraft objects, as the scene uses them

    [machupX.airplane.Airplane] is a collaborator.  The control points of
    an aircraft are numbered [0 .. N-1] over its wing segments in order,
    so the per-segment coefficient getters are one function of the local
    control-point index.  Airfoil queries are taken within the bounds of
    their database. *)

Module Airplane.

Record t : Type := {
  name : string;
  N : nat;
  get_num_cps : Z;
  c_bar : nat -> R;
  dS : nat -> R;
  section_sweep : nat -> R;
  get_cp_CLa : nat -> R -> R -> R -> R;
  get_cp_CL : nat -> R -> R -> R -> R;
  get_cp_CLRe : nat -> R -> R -> R -> R;
  get_cp_CLM : nat -> R -> R -> R -> R;
  get_cp_CD : nat -> R -> R -> R -> R;
  get_cp_Cm : nat -> R -> R -> R -> R;
  get_cp_aL0 : nat -> R -> R -> R
}.

End Airplane.

(** Entry [i] of a scene array assembled from the aircraft, one slice
    [index:index+airplane_N] after the other over an array of zeros. *)
Fixpoint at_cp {A : Type} (objs : list Airplane.t) (dflt : A)
    (field : Airplane.t -> nat -> A) (i : nat) : A :=
  match objs with
  | [] => dflt
  | a :: rest =>
      if (i <? Airplane.N a)%nat then field a i
      else at_cp rest dflt field (i - Airplane.N a)
  end.

(** ** Section properties ([Scene._store_aircraft_properties]) *)

Record Sections : Type := {
  _c_bar : nat -> R;
  _dS : nat -> R;
  _section_sweep : nat -> R;
  _C_sweep_inv : nat -> R   (* assigned only with swept sections *)
}.

Definition _store_aircraft_properties (c : Config) (objs : list Airplane.t)
  : Sections :=
  let c_bar0 := at_cp objs 0 Airplane.c_bar in
  let sweep := at_cp objs 0 Airplane.section_sweep in
  let C_lambda := fun i => cos (sweep i) in
  {| _c_bar := fun i =>
       if _use_swept_sections c then c_bar0 i * C_lambda i else c_bar0 i;
     _dS := at_cp objs 0 Airplane.dS;
     _section_sweep := sweep;
     _C_sweep_inv := fun i => 1.0 / C_lambda i |}.

(** ** Airfoil parameters and solver variables

    The arrays the flow-state evaluation, the residual and the force
    integration assign. *)

Record Aero : Type := {
  _V_ji : nat -> nat -> vec3;
  _gamma : nat -> R;
  _Re : nat -> R;
  _M : nat -> R;
  _aL0 : nat -> R;
  _CLa : nat -> R;
  _CLRe : nat -> R;
  _CLM : nat -> R;
  _CL : nat -> R;
  _CD : nat -> R;
  _Cm : nat -> R;
  _alpha_inf : nat -> R;
  _alpha : nat -> R;
  _v_i : nat -> vec3;
  _w_i : nat -> vec3;
  _w_i_mag : nat -> R;
  _v_i_in_plane : nat -> vec3;
  _V_i_in_plane_2 : nat -> R;
  _V_i_in_plane : nat -> R;
  _V_i_2 : nat -> R;
  _V_i : nat -> R;
  _v_a : nat -> R;
  _v_n : nat -> R;
  _u_i : nat -> vec3
}.

Definition set_gamma (ae : Aero) (gamma : nat -> R) : Aero :=
  {| _V_ji := _V_ji ae; _gamma := gamma; _Re := _Re ae; _M := _M ae;
     _aL0 := _aL0 ae; _CLa := _CLa ae; _CLRe := _CLRe ae; _CLM := _CLM ae;
     _CL := _CL ae; _CD := _CD ae; _Cm := _Cm ae;
     _alpha_inf := _alpha_inf ae; _alpha := _alpha ae; _v_i := _v_i ae;
     _w_i := _w_i ae; _w_i_mag := _w_i_mag ae;
     _v_i_in_plane := _v_i_in_plane ae;
     _V_i_in_plane_2 := _V_i_in_plane_2 ae;
     _V_i_in_plane := _V_i_in_plane ae; _V_i_2 := _V_i_2 ae;
     _V_i := _V_i ae; _v_a := _v_a ae; _v_n := _v_n ae;
     _u_i := _u_i ae |}.

Definition set_CL (ae : Aero) (CL : nat -> R) : Aero :=
  {| _V_ji := _V_ji ae; _gamma := _gamma ae; _Re := _Re ae; _M := _M ae;
     _aL0 := _aL0 ae; _CLa := _CLa ae; _CLRe := _CLRe ae; _CLM := _CLM ae;
     _CL := CL; _CD := _CD ae; _Cm := _Cm ae;
     _alpha_inf := _alpha_inf ae; _alpha := _alpha ae; _v_i := _v_i ae;
     _w_i := _w_i ae; _w_i_mag := _w_i_mag ae;
     _v_i_in_plane := _v_i_in_plane ae;
     _V_i_in_plane_2 := _V_i_in_plane_2 ae;
     _V_i_in_plane := _V_i_in_plane ae; _V_i_2 := _V_i_2 ae;
     _V_i := _V_i ae; _v_a := _v_a ae; _v_n := _v_n ae;
     _u_i := _u_i ae |}.

Definition set_V_ji (ae : Aero) (V : nat -> nat -> vec3) : Aero :=
  {| _V_ji := V; _gamma := _gamma ae; _Re := _Re ae; _M := _M ae;
     _aL0 := _aL0 ae; _CLa := _CLa ae; _CLRe := _CLRe ae; _CLM := _CLM ae;
     _CL := _CL ae; _CD := _CD ae; _Cm := _Cm ae;
     _alpha_inf := _alpha_inf ae; _alpha := _alpha ae; _v_i := _v_i ae;
     _w_i := _w_i ae; _w_i_mag := _w_i_mag ae;
     _v_i_in_plane := _v_i_in_plane ae;
     _V_i_in_plane_2 := _V_i_in_plane_2 ae;
     _V_i_in_plane := _V_i_in_plane ae; _V_i_2 := _V_i_2 ae;
     _V_i := _V_i ae; _v_a := _v_a ae; _v_n := _v_n ae;
     _u_i := _u_i ae |}.

(** The differential forces and moments of the force integration *)
Record Forces : Type := {
  _dF_inv : nat -> vec3;
  _Re_unswept : nat -> R;
  _redim_full : nat -> R;
  _redim_in_plane : nat -> R;
  _dM_inv : nat -> vec3;
  _dF_visc : nat -> vec3;
  _dM_visc : nat -> vec3
}.

(** What one run of [_solve_nonlinear] leaves behind: how it ended, the arrays,
    and the value of the local counter [iteration] when it ended. *)
Record nonlinear_result : Type := {
  nl_outcome : outcome unit;
  nl_aero : Aero;
  nl_iteration : Z
}.

(** [np.arctan2(y, x)] (signed zeros aside) *)
Definition arctan2 (y x : R) : R :=
  if Rlt_dec 0 x then atan (y / x)
  else if Rlt_dec x 0
       then if Rle_dec 0 y then atan (y / x) + PI else atan (y / x) - PI
       else if Rlt_dec 0 y then PI / 2
            else if Rlt_dec y 0 then - (PI / 2)
                 else 0.

(** ** Flow state, residual and the two circulation solvers *)

Module Solver.

Section WithScene.

(** [np.linalg.solve] on an [N]x[N] system; [None] is [LinAlgError]. *)
Variable linalg_solve :
  nat -> (nat -> nat -> R) -> (nat -> R) -> option (nat -> R).

Variables sp_k0 sp_k1 : R -> R.

Variable c : Config.
Variable objs : list Airplane.t.      (* [self._airplane_objects] *)
Variable sec : Sections.
Variable g : Geometry.
Variable f : Freestream.
Variable N : nat.

(** *** Freestream magnitudes ([_calc_invariant_flow_properties]) *)

Definition _V_inf (i : nat) : R := Trailing._V_inf f i.

Definition _V_inf_and_rot (i : nat) : R := norm (_v_inf_and_rot f i).

Definition _u_inf (i : nat) : vec3 := vdiv (_v_inf f i) (_V_inf i).

Definition _v_inf_in_plane (i : nat) : vec3 :=
  Bound.P_in_plane_apply g i (_v_inf f i).

Definition _V_inf_in_plane (i : nat) : R := norm (_v_inf_in_plane i).

Definition _v_inf_and_rot_in_plane (i : nat) : vec3 :=
  Bound.P_in_plane_apply g i (_v_inf_and_rot f i).

Definition _V_inf_and_rot_in_plane (i : nat) : R :=
  norm (_v_inf_and_rot_in_plane i).

(** *** [_correct_CL_for_sweep] *)
Definition _correct_CL_for_sweep (ae : Aero) : Aero :=
  set_CL ae (fun i =>
    _CL ae i + _CLa ae i * (_aL0 ae i - _aL0 ae i * _C_sweep_inv sec i)).

(** From [# Get effective freesream] to the loop over the segments:
    initial [Re], [M], angle of attack and section coefficients. *)
Definition airfoil_estimates (ae : Aero) : Aero :=
  let Re := fun i =>
    if _use_in_plane c
    then _V_inf_and_rot_in_plane i * _c_bar sec i / _nu g i
    else _V_inf i * _c_bar sec i / _nu g i in
  let M := fun i =>
    if _use_in_plane c then _V_inf_in_plane i / _a g i
    else _V_inf i / _a g i in
  let alpha_inf := fun i =>
    arctan2 (dot (_v_inf_and_rot f i) (_u_n g i))
            (dot (_v_inf_and_rot f i) (_u_a g i)) in
  {| _V_ji := _V_ji ae; _gamma := _gamma ae; _Re := Re; _M := M;
     _aL0 := fun i =>
       at_cp objs (_aL0 ae i)
             (fun a k => Airplane.get_cp_aL0 a k (Re i) (M i)) i;
     _CLa := fun i =>
       at_cp objs (_CLa ae i)
             (fun a k => Airplane.get_cp_CLa a k (alpha_inf i) (Re i) (M i)) i;
     _CLRe := _CLRe ae; _CLM := _CLM ae;
     _CL := fun i =>
       at_cp objs (_CL ae i)
             (fun a k => Airplane.get_cp_CL a k (alpha_inf i) (Re i) (M i)) i;
     _CD := _CD ae; _Cm := _Cm ae;
     _alpha_inf := alpha_inf; _alpha := _alpha ae; _v_i := _v_i ae;
     _w_i := _w_i ae; _w_i_mag := _w_i_mag ae;
     _v_i_in_plane := _v_i_in_plane ae;
     _V_i_in_plane_2 := _V_i_in_plane_2 ae;
     _V_i_in_plane := _V_i_in_plane ae; _V_i_2 := _V_i_2 ae;
     _V_i := _V_i ae; _v_a := _v_a ae; _v_n := _v_n ae;
     _u_i := _u_i ae |}.

(** *** [_calc_invariant_flow_properties], from [# Calculate V_ji] on

    Returns how the method ends, the arrays it leaves and the warnings it
    gave.  The airfoil queries being taken within bounds, the one
    exception left is the [NameError] of the wave correction. *)
Definition _calc_invariant_flow_properties (ae : Aero)
  : outcome unit * Aero * list warning :=
  let ws := Trailing.impingement_warnings c g f N in
  match Trailing._V_ji sp_k0 sp_k1 c g f with
  | None => (Raise NameError, set_V_ji ae (Trailing.V_ji_sum c g f), ws)
  | Some V =>
      let ae1 := airfoil_estimates (set_V_ji ae V) in
      (Return tt,
       if _use_swept_sections c then _correct_CL_for_sweep ae1 else ae1,
       ws)
  end.

(** *** [_calc_v_i]: [np.einsum('ijk,j->ik', self._V_ji, self._gamma)] *)
Definition _calc_v_i (ae : Aero) (i : nat) : vec3 :=
  vadd (_v_inf_and_rot f i)
       (vsum_upto N (fun j => scale (_gamma ae j) (_V_ji ae i j))).

(** *** [_get_section_lift] *)
Definition _get_section_lift (ae : Aero) : Aero * (nat -> R) :=
  let v_i_in_plane := fun i => Bound.P_in_plane_apply g i (_v_i ae i) in
  let V_i_in_plane_2 := fun i => dot (v_i_in_plane i) (v_i_in_plane i) in
  let V_i_in_plane := fun i => sqrt (V_i_in_plane_2 i) in
  let V_i_2 := fun i => dot (_v_i ae i) (_v_i ae i) in
  let V_i := fun i => sqrt (V_i_2 i) in
  let Re := fun i =>
    if _use_in_plane c then V_i_in_plane i * _c_bar sec i / _nu g i
    else V_i i * _c_bar sec i / _nu g i in
  let M := fun i =>
    if _use_in_plane c then V_i_in_plane i / _a g i
    else V_i i / _a g i in
  let v_a := fun i => dot (_v_i ae i) (_u_a g i) in
  let v_n := fun i => dot (_v_i ae i) (_u_n g i) in
  let alpha := fun i => arctan2 (v_n i) (v_a i) in
  let ae1 :=
    {| _V_ji := _V_ji ae; _gamma := _gamma ae; _Re := Re; _M := M;
       _aL0 := _aL0 ae;
       _CLa := fun i =>
         at_cp objs (_CLa ae i)
               (fun a k => Airplane.get_cp_CLa a k (alpha i) (Re i) (M i)) i;
       _CLRe := fun i =>
         at_cp objs (_CLRe ae i)
               (fun a k => Airplane.get_cp_CLRe a k (alpha i) (Re i) (M i)) i;
       _CLM := fun i =>
         at_cp objs (_CLM ae i)
               (fun a k => Airplane.get_cp_CLM a k (alpha i) (Re i) (M i)) i;
       _CL := fun i =>
         at_cp objs (_CL ae i)
               (fun a k => Airplane.get_cp_CL a k (alpha i) (Re i) (M i)) i;
       _CD := _CD ae; _Cm := _Cm ae;
       _alpha_inf := _alpha_inf ae; _alpha := alpha; _v_i := _v_i ae;
       _w_i := _w_i ae; _w_i_mag := _w_i_mag ae;
       _v_i_in_plane :=
         if _use_in_plane c then v_i_in_plane else _v_i_in_plane ae;
       _V_i_in_plane_2 :=
         if _use_in_plane c then V_i_in_plane_2 else _V_i_in_plane_2 ae;
       _V_i_in_plane :=
         if _use_in_plane c then V_i_in_plane else _V_i_in_plane ae;
       _V_i_2 := if _use_in_plane c then _V_i_2 ae else V_i_2;
       _V_i := if _use_in_plane c then _V_i ae else V_i;
       _v_a := v_a; _v_n := v_n; _u_i := _u_i ae |} in
  if _match_machup_pro c
  then (ae1, fun i => _V_inf i * _V_inf i * _CL ae1 i * _dS sec i)
  else
    let ae2 := if _use_swept_sections c then _correct_CL_for_sweep ae1
               else ae1 in
    (ae2,
     if _use_total_velocity c
     then if _use_in_plane c
          then fun i => _V_i_in_plane_2 ae2 i * _CL ae2 i * _dS sec i
          else fun i => _V_i_2 ae2 i * _CL ae2 i * _dS sec i
     else if _use_in_plane c
          then fun i =>
                 _V_inf_in_plane i * _V_inf_in_plane i * _CL ae2 i * _dS sec i
          else fun i => _V_inf i * _V_inf i * _CL ae2 i * _dS sec i).

(** *** [_lifting_line_residual], its airfoil queries within bounds *)
Definition _lifting_line_residual (ae : Aero) (gamma : nat -> R)
  : Aero * (nat -> R) :=
  let ae0 := set_gamma ae gamma in
  let v_i := _calc_v_i ae0 in
  let w_i := fun i => cross (v_i i) (_dl g i) in
  let w_i_mag := fun i => norm (w_i i) in
  let ae1 :=
    {| _V_ji := _V_ji ae0; _gamma := _gamma ae0; _Re := _Re ae0;
       _M := _M ae0; _aL0 := _aL0 ae0; _CLa := _CLa ae0;
       _CLRe := _CLRe ae0; _CLM := _CLM ae0; _CL := _CL ae0;
       _CD := _CD ae0; _Cm := _Cm ae0; _alpha_inf := _alpha_inf ae0;
       _alpha := _alpha ae0; _v_i := v_i; _w_i := w_i;
       _w_i_mag := w_i_mag; _v_i_in_plane := _v_i_in_plane ae0;
       _V_i_in_plane_2 := _V_i_in_plane_2 ae0;
       _V_i_in_plane := _V_i_in_plane ae0; _V_i_2 := _V_i_2 ae0;
       _V_i := _V_i ae0; _v_a := _v_a ae0; _v_n := _v_n ae0;
       _u_i := _u_i ae0 |} in
  let L_vortex := fun i => 2.0 * w_i_mag i * gamma i in
  let '(ae2, L_section) := _get_section_lift ae1 in
  (ae2, fun i => L_vortex i - L_section i).

(** *** [_solve_linear] *)

(** [V_ji_dot_u_n = np.einsum('ijk,ik->ij', self._V_ji, self._u_n)] *)
Definition V_ji_dot_u_n (ae : Aero) (i j : nat) : R :=
  dot (_V_ji ae i j) (_u_n g i).

(** The [A] matrix after [A[self._diag_ind] += ...] *)
Definition linear_A (ae : Aero) (i j : nat) : R :=
  let A0 :=
    if _use_in_plane c
    then - (_V_inf_in_plane i * _CLa ae i * _dS sec i) * V_ji_dot_u_n ae i j
    else - (_V_inf i * _CLa ae i * _dS sec i) * V_ji_dot_u_n ae i j in
  if (i =? j)%nat
  then A0 + 2.0 * norm (cross (_v_inf_and_rot f i) (_dl g i))
  else A0.

Definition linear_b (ae : Aero) (i : nat) : R :=
  if _use_in_plane c
  then _V_inf_in_plane i * _V_inf_in_plane i * _dS sec i * _CL ae i
  else _V_inf i * _V_inf i * _dS sec i * _CL ae i.

Definition _solve_linear (ae : Aero) : outcome unit * Aero * list warning :=
  match _calc_invariant_flow_properties ae with
  | (Raise e, ae1, ws) => (Raise e, ae1, ws)
  | (Return _, ae1, ws) =>
      match linalg_solve N (linear_A ae1) (linear_b ae1) with
      | None => (Raise LinAlgError, ae1, ws)
      | Some gamma => (Return tt, set_gamma ae1 gamma, ws)
      end
  end.

(** *** [_solve_nonlinear] *)

(** The derivative of induced velocity with respect to vortex strength.
    [np.matmul] broadcasts the [(N,3,3)] stack of projections against the
    [(N,N,3,1)] stack of columns along the last stack axis, the vortex
    index. *)
Definition V_ji_for_jacobian (ae : Aero) (i j : nat) : vec3 :=
  if _use_in_plane c then Bound.P_in_plane_apply g j (_V_ji ae i j)
  else _V_ji ae i j.

(** The Jacobian assembled in one pass of the loop, from the arrays the
    residual evaluation left.  [np.cross(V_ji, self._dl)] and the product
    [self._CLRe[:,np.newaxis]*self._c_bar] broadcast [_dl] and [_c_bar]
    along the vortex index. *)
Definition jacobian (V : nat -> nat -> vec3) (ae : Aero) (i j : nat) : R :=
  let v_iji :=
    if _use_in_plane c then dot (_v_i_in_plane ae i) (V i j)
    else dot (_v_i ae i) (V i j) in
  let J0 :=
    (2 * _gamma ae i / _w_i_mag ae i) *
    dot (_w_i ae i) (cross (V i j) (_dl g j)) in
  let J1 :=
    if _use_total_velocity c
    then J0 - (2 * _dS sec i * _CL ae i) * v_iji
    else J0 in
  let CL_gamma_Re :=
    if _use_in_plane c
    then _CLRe ae i * _c_bar sec j / (_nu g i * _V_i_in_plane ae i) * v_iji
    else _CLRe ae i * _c_bar sec j / (_nu g i * _V_i ae i) * v_iji in
  let CL_gamma_M :=
    if _use_in_plane c
    then _CLM ae i / (_a g i * _V_i_in_plane ae i) * v_iji
    else _CLM ae i / (_a g i * _V_i ae i) * v_iji in
  let CL_gamma_alpha :=
    _CLa ae i *
    (_v_a ae i * dot (V i j) (_u_n g i) - _v_n ae i * dot (V i j) (_u_a g i))
    / (_v_n ae i * _v_n ae i + _v_a ae i * _v_a ae i) in
  let J2 :=
    if _use_total_velocity c
    then if _use_in_plane c
         then J1 - (_V_i_in_plane_2 ae i * _dS sec i)
                   * (CL_gamma_alpha + CL_gamma_Re + CL_gamma_M)
         else J1 - (_V_i_2 ae i * _dS sec i)
                   * (CL_gamma_alpha + CL_gamma_Re + CL_gamma_M)
    else if _use_in_plane c
         then J1 - (_V_inf_in_plane i * _V_inf_in_plane i * _dS sec i)
                   * (CL_gamma_alpha + CL_gamma_Re + CL_gamma_M)
         else J1 - (_V_inf i * _V_inf i * _dS sec i)
                   * (CL_gamma_alpha + CL_gamma_Re + CL_gamma_M) in
  if (i =? j)%nat then J2 + 2 * _w_i_mag ae i else J2.

(** One update [self._gamma = self._gamma+self._solver_relaxation*dGamma] *)
Definition update_gamma (ae : Aero) (dGamma : nat -> R) : Aero :=
  set_gamma ae (fun i => _gamma ae i + _solver_relaxation c * dGamma i).

(** The [while error > self._solver_convergence: ... else: ...] loop.
    [fuel] bounds the passes; [None] only when it runs out. *)
Fixpoint nonlinear_loop (V : nat -> nat -> vec3) (fuel : nat)
    (iteration : Z) (error : R) (ae : Aero) : option nonlinear_result :=
  if Rgt_dec error (_solver_convergence c)
  then
    match fuel with
    | O => None
    | S fuel' =>
        let iteration := (iteration + 1)%Z in
        let '(ae1, R_) := _lifting_line_residual ae (_gamma ae) in
        let error := norm_n N R_ in
        match linalg_solve N (jacobian V ae1) (fun i => - R_ i) with
        | None =>
            Some {| nl_outcome := Raise LinAlgError; nl_aero := ae1;
                    nl_iteration := iteration |}
        | Some dGamma =>
            let ae2 := update_gamma ae1 dGamma in
            if (iteration >=? _max_solver_iterations c)%Z
            then
              let '(ae3, R') := _lifting_line_residual ae2 (_gamma ae2) in
              Some {| nl_outcome :=
                        Raise (SolverNotConvergedError (_solver_type c)
                                                       (norm_n N R'));
                      nl_aero := ae3; nl_iteration := iteration |}
            else nonlinear_loop V fuel' iteration error ae2
        end
    end
  else
    let '(ae1, _) := _lifting_line_residual ae (_gamma ae) in
    Some {| nl_outcome := Return tt; nl_aero := ae1;
            nl_iteration := iteration |}.

(** Passes that are always enough: the loop raises once [iteration]
    reaches [_max_solver_iterations], and it makes at least one pass. *)
Definition nonlinear_fuel : nat :=
  Z.to_nat (Z.max 1 (_max_solver_iterations c)).

(** [iteration = 0], [error = 100], then the loop *)
Definition _solve_nonlinear (ae : Aero) : option nonlinear_result :=
  nonlinear_loop (V_ji_for_jacobian ae) nonlinear_fuel 0%Z 100 ae.

(** *** [_integrate_forces_and_moments], up to the differential forces
    and moments; the per-aircraft sums and frame rotations that fill
    [self._FM] go through [quat_trans] and are left to [build_FM] below. *)

(** [quat_inv_trans(q, airplane_object.u_a_unswept)] and
    [quat_inv_trans(q, airplane_object.u_n_unswept)], per control point *)
Variables u_a_unswept u_n_unswept : nat -> vec3.

Definition _integrate_forces_and_moments (ae : Aero) : Aero * Forces :=
  let gamma := fun i =>
    if _match_machup_pro c
    then _gamma ae i *
         ((_V_inf_and_rot i / _V_inf i) * (_V_inf_and_rot i / _V_inf i))
    else _gamma ae i in
  let ae0 := set_gamma ae gamma in
  let recompute := _use_total_velocity c || _match_machup_pro c in
  let v_i := if recompute then _calc_v_i ae0 else _v_i ae0 in
  let V_i_2 :=
    if recompute then fun i => dot (v_i i) (v_i i) else _V_i_2 ae0 in
  let V_i := if recompute then fun i => sqrt (V_i_2 i) else _V_i ae0 in
  let u_i := if recompute then fun i => vdiv (v_i i) (V_i i) else _u_i ae0 in
  let v_i_in_plane :=
    if recompute && _use_in_plane c
    then fun i => Bound.P_in_plane_apply g i (v_i i)
    else _v_i_in_plane ae0 in
  let V_i_in_plane_2 :=
    if recompute && _use_in_plane c
    then fun i => dot (v_i_in_plane i) (v_i_in_plane i)
    else _V_i_in_plane_2 ae0 in
  let dF_inv := fun i => scale (_rho g i * gamma i) (cross (v_i i) (_dl g i)) in
  let v_a := fun i => dot (v_i i) (_u_a g i) in
  let v_n := fun i => dot (v_i i) (_u_n g i) in
  let alpha := fun i => arctan2 (v_n i) (v_a i) in
  let Re_unswept := fun i =>
    if _use_swept_sections c
    then V_i i * _c_bar sec i * _C_sweep_inv sec i / _nu g i
    else V_i i * _c_bar sec i / _nu g i in
  let alpha_unswept := fun i =>
    arctan2 (dot (v_i i) (u_n_unswept i)) (dot (v_i i) (u_a_unswept i)) in
  let V_i_in_plane :=
    if _use_in_plane c then fun i => sqrt (V_i_in_plane_2 i)
    else _V_i_in_plane ae0 in
  let Re := fun i =>
    if _use_in_plane c then V_i_in_plane i * _c_bar sec i / _nu g i
    else V_i i * _c_bar sec i / _nu g i in
  let M := fun i =>
    if _use_in_plane c then V_i_in_plane i / _a g i else V_i i / _a g i in
  let redim_full := fun i =>
    if _use_total_velocity c then 0.5 * _rho g i * V_i_2 i * _dS sec i
    else 0.5 * _rho g i * _V_inf i * _V_inf i * _dS sec i in
  let redim_in_plane := fun i =>
    if _use_total_velocity c
    then 0.5 * _rho g i * V_i_in_plane_2 i * _dS sec i
    else 0.5 * _rho g i * _V_inf_in_plane i * _V_inf_in_plane i * _dS sec i in
  let CD := fun i =>
    if _use_swept_sections c
    then at_cp objs (_CD ae0 i)
           (fun a k => Airplane.get_cp_CD a k (alpha_unswept i)
                                          (Re_unswept i) (M i)) i
    else at_cp objs (_CD ae0 i)
           (fun a k => Airplane.get_cp_CD a k (alpha i) (Re_unswept i) (M i)) i
  in
  let Cm0 := fun i =>
    at_cp objs (_Cm ae0 i)
      (fun a k => Airplane.get_cp_Cm a k (alpha i) (Re i) (M i)) i in
  let Cm := fun i =>
    if _use_swept_sections c then Cm0 i * _C_sweep_inv sec i else Cm0 i in
  let dM_section := fun i =>
    if _use_in_plane c
    then scale (redim_in_plane i * _c_bar sec i * Cm i) (_u_s g i)
    else scale (redim_full i * _c_bar sec i * Cm i) (_u_s g i) in
  let dM_vortex := fun i => cross (_r_CG g i) (dF_inv i) in
  let dD := fun i => redim_full i * CD i in
  let dF_visc := fun i =>
    if recompute then scale (dD i) (u_i i) else scale (dD i) (_u_inf i) in
  ({| _V_ji := _V_ji ae0; _gamma := gamma; _Re := Re; _M := M;
      _aL0 := _aL0 ae0; _CLa := _CLa ae0; _CLRe := _CLRe ae0;
      _CLM := _CLM ae0; _CL := _CL ae0; _CD := CD; _Cm := Cm;
      _alpha_inf := _alpha_inf ae0; _alpha := alpha; _v_i := v_i;
      _w_i := _w_i ae0; _w_i_mag := _w_i_mag ae0;
      _v_i_in_plane := v_i_in_plane; _V_i_in_plane_2 := V_i_in_plane_2;
      _V_i_in_plane := V_i_in_plane; _V_i_2 := V_i_2; _V_i := V_i;
      _v_a := v_a; _v_n := v_n; _u_i := u_i |},
   {| _dF_inv := dF_inv; _Re_unswept := Re_unswept;
      _redim_full := redim_full; _redim_in_plane := redim_in_plane;
      _dM_inv := fun i => vadd (dM_vortex i) (dM_section i);
      _dF_visc := dF_visc;
      _dM_visc := fun i => cross (_r_CG g i) (dF_visc i) |}).

End WithScene.

End Solver.

(** ** The scene object *)

(** Insertion-ordered [dict] with string keys *)
Module Dict.

Section WithValue.

Context {V : Type}.

Fixpoint get (d : list (string * V)) (k : string) : option V :=
  match d with
  | [] => None
  | (k', v) :: rest => if String.eqb k k' then Some v else get rest k
  end.

(** [d[k] = v]: an existing key keeps its place *)
Fixpoint set (d : list (string * V)) (k : string) (v : V)
  : list (string * V) :=
  match d with
  | [] => [(k, v)]
  | (k', v') :: rest =>
      if String.eqb k k' then (k, v) :: rest else (k', v') :: set rest k v
  end.

(** [d.pop(k)]: [None] is [KeyError], with [d] untouched *)
Fixpoint pop (d : list (string * V)) (k : string)
  : option (V * list (string * V)) :=
  match d with
  | [] => None
  | (k', v) :: rest =>
      if String.eqb k k' then Some (v, rest)
      else match pop rest k with
           | None => None
           | Some (x, rest') => Some (x, (k', v) :: rest')
           end
  end.

(** [d.items()] values, in order *)
Definition values (d : list (string * V)) : list V := map snd d.

End WithValue.

End Dict.

(** Keyword arguments of [solve_forces] that steer the solve *)
Record SolveKwargs : Type := {
  initial_guess : string;     (* default "linear" *)
  verbose : bool              (* default False *)
}.

Module SceneOps.

Section WithCollaborators.

(** The forces-and-moments dictionary [self._FM], [{}] and how the loop
    over the aircraft fills it from the differential forces. *)
Variable FM : Type.
Variable FM_empty : FM.
Variable build_FM : list Airplane.t -> Aero -> Forces -> SolveKwargs -> FM.

Record Scene : Type := {
  config : Config;
  _airplanes : list (string * Airplane.t);
  _N : Z;
  _num_aircraft : Z;
  _solved : bool;
  _err_state : gmap string string;
  _airplane_objects : list Airplane.t;
  sections : Sections;
  geometry : Geometry;
  freestream : Freestream;
  aero : Aero;
  forces : option Forces;
  _FM : option FM          (* [None]: not assigned yet *)
}.

(** [np.linalg.solve], [scipy.special.k0/k1] *)
Variable linalg_solve :
  nat -> (nat -> nat -> R) -> (nat -> R) -> option (nat -> R).
Variables sp_k0 sp_k1 : R -> R.

(** [scipy.optimize.fsolve(fun, x0, full_output=True)]: the solution, the
    flag [ier], and the point of its last call of [fun]. *)
Variable fsolve :
  ((nat -> R) -> (nat -> R)) -> (nat -> R) -> (nat -> R) * Z * (nat -> R).

(** The array-filling half of [_perform_geometry_and_atmos_calcs] and the
    velocity half of [_calc_invariant_flow_properties]; both go through
    the quaternion helpers and the aircraft states. *)
Variable fill_geometry : Config -> list Airplane.t -> Z -> Geometry.
Variable fill_freestream : Config -> list Airplane.t -> Geometry -> Freestream.
Variable fill_unswept : list Airplane.t -> (nat -> vec3) * (nat -> vec3).

(** The arrays of a scene in which nothing has been evaluated yet *)
Definition zeros_aero : Aero :=
  {| _V_ji := fun _ _ => vzero; _gamma := fun _ => 0; _Re := fun _ => 0;
     _M := fun _ => 0; _aL0 := fun _ => 0; _CLa := fun _ => 0;
     _CLRe := fun _ => 0; _CLM := fun _ => 0; _CL := fun _ => 0;
     _CD := fun _ => 0; _Cm := fun _ => 0; _alpha_inf := fun _ => 0;
     _alpha := fun _ => 0; _v_i := fun _ => vzero; _w_i := fun _ => vzero;
     _w_i_mag := fun _ => 0; _v_i_in_plane := fun _ => vzero;
     _V_i_in_plane_2 := fun _ => 0; _V_i_in_plane := fun _ => 0;
     _V_i_2 := fun _ => 0; _V_i := fun _ => 0; _v_a := fun _ => 0;
     _v_n := fun _ => 0; _u_i := fun _ => vzero |}.

(** What a method leaves: how it ended, the scene, the warnings given. *)
Record result (A : Type) : Type := {
  r_outcome : outcome A;
  r_scene : Scene;
  r_warnings : list warning
}.

Arguments r_outcome {A} r.
Arguments r_scene {A} r.
Arguments r_warnings {A} r.

Definition with_aero (s : Scene) (ae : Aero) (f : Freestream) : Scene :=
  {| config := config s; _airplanes := _airplanes s; _N := _N s;
     _num_aircraft := _num_aircraft s; _solved := _solved s;
     _err_state := _err_state s;
     _airplane_objects := _airplane_objects s; sections := sections s;
     geometry := geometry s; freestream := f; aero := ae;
     forces := forces s; _FM := _FM s |}.

Definition with_FM (s : Scene) (fo : option Forces) (fm : option FM)
  : Scene :=
  {| config := config s; _airplanes := _airplanes s; _N := _N s;
     _num_aircraft := _num_aircraft s; _solved := _solved s;
     _err_state := _err_state s;
     _airplane_objects := _airplane_objects s; sections := sections s;
     geometry := geometry s; freestream := freestream s; aero := aero s;
     forces := fo; _FM := fm |}.

Definition with_solved (s : Scene) (b : bool) : Scene :=
  {| config := config s; _airplanes := _airplanes s; _N := _N s;
     _num_aircraft := _num_aircraft s; _solved := b;
     _err_state := _err_state s;
     _airplane_objects := _airplane_objects s; sections := sections s;
     geometry := geometry s; freestream := freestream s; aero := aero s;
     forces := forces s; _FM := _FM s |}.

(** *** [set_err_state]

    [kwargs.get(key, "raise")] for the two keys; the airfoils' own error
    state lives in the aircraft objects. *)
Definition set_err_state (s : Scene) (kwargs : gmap string string) : Scene :=
  {| config := config s; _airplanes := _airplanes s; _N := _N s;
     _num_aircraft := _num_aircraft s; _solved := _solved s;
     _err_state :=
       <["database_bounds" := default "raise" (kwargs !! "database_bounds")]>
       (<["not_converged" := default "raise" (kwargs !! "not_converged")]> ∅);
     _airplane_objects := _airplane_objects s; sections := sections s;
     geometry := geometry s; freestream := freestream s; aero := aero s;
     forces := forces s; _FM := _FM s |}.

(** *** [_handle_error] *)
Definition error_key (e : exn) : option string :=
  match e with
  | SolverNotConvergedError _ _ => Some "not_converged"
  | DatabaseBoundsError => Some "database_bounds"
  | _ => None
  end.

Definition _handle_error (s : Scene) (e : exn) : outcome unit * list warning :=
  match error_key e with
  | None => (Raise e, [])
  | Some key =>
      match _err_state s !! key with
      | None => (Raise KeyError, [])
      | Some instruction =>
          if String.eqb instruction "raise" then (Raise e, [])
          else if String.eqb instruction "warn"
               then (Return tt, [ErrorWarning e])
               else if String.eqb instruction "ignore" then (Return tt, [])
                    else (Raise (RuntimeError
                            ("MachUpX got an incorrect error handling instruction. '"
                             ++ instruction ++ "' is invalid.")%string), [])
      end
  end.

(** *** Rebuilding the arrays

    [_initialize_storage_arrays], [_store_aircraft_properties] and
    [_perform_geometry_and_atmos_calcs], called in this order by
    [add_aircraft] and [remove_aircraft]; array shapes are taken to
    agree, so the three calls return. *)

(** [_initialize_storage_arrays] zeroes the arrays it lists; attributes
    assigned elsewhere keep their value. *)
Definition initialize_freestream (f : Freestream) : Freestream :=
  {| _v_inf := fun _ => vzero; _v_inf_and_rot := fun _ => vzero;
     _u_trailing_0 := _u_trailing_0 f; _u_trailing_1 := _u_trailing_1 f;
     _u_trailing_0_image := _u_trailing_0_image f;
     _u_trailing_1_image := _u_trailing_1_image f |}.

Definition initialize_aero (ae : Aero) : Aero :=
  {| _V_ji := _V_ji ae; _gamma := fun _ => 0; _Re := fun _ => 0;
     _M := fun _ => 0; _aL0 := fun _ => 0; _CLa := fun _ => 0;
     _CLRe := fun _ => 0; _CLM := fun _ => 0; _CL := fun _ => 0;
     _CD := fun _ => 0; _Cm := fun _ => 0; _alpha_inf := _alpha_inf ae;
     _alpha := _alpha ae; _v_i := _v_i ae; _w_i := _w_i ae;
     _w_i_mag := _w_i_mag ae; _v_i_in_plane := _v_i_in_plane ae;
     _V_i_in_plane_2 := _V_i_in_plane_2 ae;
     _V_i_in_plane := _V_i_in_plane ae; _V_i_2 := _V_i_2 ae;
     _V_i := _V_i ae; _v_a := _v_a ae; _v_n := _v_n ae; _u_i := _u_i ae |}.

Definition reinitialize (s : Scene) : Scene :=
  let objs := Dict.values (_airplanes s) in
  {| config := config s; _airplanes := _airplanes s; _N := _N s;
     _num_aircraft := _num_aircraft s; _solved := false;
     _err_state := _err_state s; _airplane_objects := objs;
     sections := _store_aircraft_properties (config s) objs;
     geometry := fill_geometry (config s) objs (_N s);
     freestream := initialize_freestream (freestream s);
     aero := initialize_aero (aero s);
     forces := forces s; _FM := _FM s |}.

Definition with_airplanes (s : Scene) (d : list (string * Airplane.t))
    (n : Z) (count : Z) : Scene :=
  {| config := config s; _airplanes := d; _N := n; _num_aircraft := count;
     _solved := _solved s; _err_state := _err_state s;
     _airplane_objects := _airplane_objects s; sections := sections s;
     geometry := geometry s; freestream := freestream s; aero := aero s;
     forces := forces s; _FM := _FM s |}.

(** *** [add_aircraft], given the constructed [Airplane] object *)
Definition add_aircraft (s : Scene) (airplane_name : string)
    (airplane : Airplane.t) : result unit :=
  let s1 := with_airplanes s
              (Dict.set (_airplanes s) airplane_name airplane)
              (_N s + Z.of_nat (Airplane.N airplane))
              (_num_aircraft s + 1) in
  {| r_outcome := Return tt; r_scene := reinitialize s1; r_warnings := [] |}.

(** *** [remove_aircraft] *)
Definition remove_aircraft (s : Scene) (airplane_name : string)
  : result unit :=
  match Dict.pop (_airplanes s) airplane_name with
  | None =>
      {| r_outcome :=
           Raise (RuntimeError ("The scene has no aircraft named "
                                ++ airplane_name ++ ".")%string);
         r_scene := s; r_warnings := [] |}
  | Some (deleted_aircraft, rest) =>
      let s1 := with_airplanes s rest
                  (_N s - Airplane.get_num_cps deleted_aircraft)
                  (_num_aircraft s - 1) in
      {| r_outcome := Return tt;
         r_scene := if (_num_aircraft s1 =? 0)%Z then s1 else reinitialize s1;
         r_warnings := [] |}
  end.

(** *** The solver steps on the scene *)

Definition N_of (s : Scene) : nat := Z.to_nat (_N s).

Definition _calc_invariant_flow_properties (s : Scene) : result unit :=
  let f := fill_freestream (config s) (_airplane_objects s) (geometry s) in
  let '(o, ae, ws) :=
    Solver._calc_invariant_flow_properties sp_k0 sp_k1 (config s)
      (_airplane_objects s) (sections s) (geometry s) f (N_of s) (aero s) in
  {| r_outcome := o;
     r_scene := match o with
                | Return _ => with_solved (with_aero s ae f) false
                | Raise _ => with_aero s ae f
                end;
     r_warnings := ws |}.

Definition _solve_linear (s : Scene) : result unit :=
  let f := fill_freestream (config s) (_airplane_objects s) (geometry s) in
  let '(o, ae, ws) :=
    Solver._solve_linear linalg_solve sp_k0 sp_k1 (config s)
      (_airplane_objects s) (sections s) (geometry s) f (N_of s) (aero s) in
  {| r_outcome := o;
     r_scene := match o with
                | Raise NameError => with_aero s ae f
                | _ => with_solved (with_aero s ae f) false
                end;
     r_warnings := ws |}.

(** [_solve_w_scipy]; the value returned is whether it returned [-1]. *)
Definition _solve_w_scipy (s : Scene) (kw : SolveKwargs) : result bool :=
  let r := _calc_invariant_flow_properties s in
  match r_outcome r with
  | Raise e =>
      {| r_outcome := Raise e; r_scene := r_scene r;
         r_warnings := r_warnings r |}
  | Return _ =>
      let s1 := r_scene r in
      let residual := fun ae x =>
        Solver._lifting_line_residual (config s1) (_airplane_objects s1)
          (sections s1) (geometry s1) (freestream s1) (N_of s1) ae x in
      let '(gamma, ier, last) :=
        fsolve (fun x => snd (residual (aero s1) x)) (fun _ => 0) in
      let ae := set_gamma (fst (residual (aero s1) last)) gamma in
      {| r_outcome := Return (verbose kw && negb (ier =? 1)%Z);
         r_scene := with_aero s1 ae (freestream s1);
         r_warnings := r_warnings r |}
  end.

Definition _solve_nonlinear (s : Scene) : option (result unit) :=
  match Solver._solve_nonlinear linalg_solve (config s) (_airplane_objects s)
          (sections s) (geometry s) (freestream s) (N_of s) (aero s) with
  | None => None
  | Some nr =>
      Some {| r_outcome := nl_outcome nr;
              r_scene := with_aero s (nl_aero nr) (freestream s);
              r_warnings := [] |}
  end.

(** The arrays the integration reads are taken to be assigned and, as
    everywhere, the airfoil queries within bounds: the step returns. *)
Definition _integrate_forces_and_moments (s : Scene) (kw : SolveKwargs)
  : result unit :=
  let '(ae, fo) :=
    Solver._integrate_forces_and_moments (config s) (_airplane_objects s)
      (sections s) (geometry s) (freestream s) (N_of s)
      (fst (fill_unswept (_airplane_objects s)))
      (snd (fill_unswept (_airplane_objects s))) (aero s) in
  {| r_outcome := Return tt;
     r_scene := with_FM (with_aero s ae (freestream s)) (Some fo)
                  (Some (build_FM (_airplane_objects s) ae fo kw));
     r_warnings := [] |}.

(** *** [solve_forces] *)

(** [except Exception] lets [KeyboardInterrupt] through. *)
Definition is_Exception (e : exn) : bool :=
  match e with
  | KeyboardInterrupt => false
  | _ => true
  end.

Definition ok (s : Scene) (ws : list warning) : result unit :=
  {| r_outcome := Return tt; r_scene := s; r_warnings := ws |}.

(** The inner [try]: the nonlinear improvement, with Ctrl-C swallowed. *)
Definition nonlinear_improvement (s : Scene) (kw : SolveKwargs)
  : option (result unit) :=
  let r := if String.eqb (initial_guess kw) "previous"
           then _calc_invariant_flow_properties s else ok s [] in
  match r_outcome r with
  | Raise KeyboardInterrupt => Some (ok (r_scene r) (r_warnings r))
  | Raise e =>
      Some {| r_outcome := Raise e; r_scene := r_scene r;
              r_warnings := r_warnings r |}
  | Return _ =>
      match _solve_nonlinear (r_scene r) with
      | None => None
      | Some r' =>
          Some {| r_outcome := match r_outcome r' with
                               | Raise KeyboardInterrupt => Return tt
                               | o => o
                               end;
                  r_scene := r_scene r';
                  r_warnings := r_warnings r ++ r_warnings r' |}
      end
  end.

(** The body of the first [try] of [solve_forces] *)
Definition solve_circulation (s : Scene) (kw : SolveKwargs)
  : option (result unit) :=
  let solver_type := _solver_type (config s) in
  let r1 := if String.eqb solver_type "scipy_fsolve"
            then _solve_w_scipy s kw
            else {| r_outcome := Return false; r_scene := s;
                    r_warnings := [] |} in
  match r_outcome r1 with
  | Raise e =>
      Some {| r_outcome := Raise e; r_scene := r_scene r1;
              r_warnings := r_warnings r1 |}
  | Return fsolve_failed =>
      let r2 :=
        if String.eqb solver_type "linear"
           || (String.eqb solver_type "nonlinear"
               && String.eqb (initial_guess kw) "linear")
           || fsolve_failed
        then _solve_linear (r_scene r1) else ok (r_scene r1) [] in
      match r_outcome r2 with
      | Raise e =>
          Some {| r_outcome := Raise e; r_scene := r_scene r2;
                  r_warnings := r_warnings r1 ++ r_warnings r2 |}
      | Return _ =>
          if String.eqb solver_type "nonlinear" || fsolve_failed
          then
            match nonlinear_improvement (r_scene r2) kw with
            | None => None
            | Some r3 =>
                Some {| r_outcome := r_outcome r3; r_scene := r_scene r3;
                        r_warnings :=
                          r_warnings r1 ++ r_warnings r2 ++ r_warnings r3 |}
            end
          else Some (ok (r_scene r2) (r_warnings r1 ++ r_warnings r2))
      end
  end.

Definition no_aircraft_message : string :=
  "There are no aircraft in this scene. No calculations can be performed.".

(** [try: ... except Exception as e: self._handle_error(e)] around a
    step that ended with [o] on the scene [s] *)
Definition handled (s : Scene) (o : outcome unit)
  : outcome unit * list warning :=
  match o with
  | Return _ => (Return tt, [])
  | Raise e =>
      if is_Exception e then _handle_error s e else (Raise e, [])
  end.

(** [solve_forces]; [None] only if the nonlinear loop ran out of fuel.
    Each of the two [try] blocks hands its exception to [_handle_error];
    the timing report and the export to [filename] are left out. *)
Definition solve_forces (s : Scene) (kw : SolveKwargs)
  : option (result (option FM)) :=
  if (_num_aircraft s =? 0)%Z
  then Some {| r_outcome := Raise (RuntimeError no_aircraft_message);
               r_scene := s; r_warnings := [] |}
  else
    let s0 := with_FM s (forces s) (Some FM_empty) in
    match solve_circulation s0 kw with
    | None => None
    | Some r =>
        let '(o, ws) := handled (r_scene r) (r_outcome r) in
        match o with
        | Raise e =>
            Some {| r_outcome := Raise e; r_scene := r_scene r;
                    r_warnings := r_warnings r ++ ws |}
        | Return _ =>
            let r' := _integrate_forces_and_moments (r_scene r) kw in
            let '(o', ws') := handled (r_scene r') (r_outcome r') in
            match o' with
            | Raise e =>
                Some {| r_outcome := Raise e; r_scene := r_scene r';
                        r_warnings :=
                          r_warnings r ++ ws ++ r_warnings r' ++ ws' |}
            | Return _ =>
                let s' := with_solved (r_scene r') true in
                Some {| r_outcome := Return (_FM s'); r_scene := s';
                        r_warnings :=
                          r_warnings r ++ ws ++ r_warnings r' ++ ws' |}
            end
        end
    end.

End WithCollaborators.

Arguments r_outcome {FM A} r.
Arguments r_scene {FM A} r.
Arguments r_warnings {FM A} r.

End SceneOps.

(** * Properties *)

(** ** Example scenes

    Geometry with the same node vectors for every pair of indices, the
    stored magnitudes given next to the vectors they belong to; with
    [N = 1] this is a scene of one control point and one horseshoe
    vortex. *)

Module Examples.

Record nodes : Type := {
  n_r_0 : vec3; n_r_1 : vec3; n_r_0_joint : vec3; n_r_1_joint : vec3;
  n_r_0_mag : R; n_r_1_mag : R; n_r_0_joint_mag : R; n_r_1_joint_mag : R
}.

Record section_axes : Type := {
  x_PC : vec3; x_dl : vec3; x_u_a : vec3; x_u_n : vec3; x_u_s : vec3
}.

Definition uniform_geometry (ax : section_axes) (real image : nodes)
    (rho nu a : R) : Geometry :=
  {| _PC := fun _ => x_PC ax; _r_CG := fun _ => x_PC ax;
     _dl := fun _ => x_dl ax; _u_a := fun _ => x_u_a ax;
     _u_n := fun _ => x_u_n ax; _u_s := fun _ => x_u_s ax;
     _r_0 := fun _ _ => n_r_0 real; _r_1 := fun _ _ => n_r_1 real;
     _r_0_joint := fun _ _ => n_r_0_joint real;
     _r_1_joint := fun _ _ => n_r_1_joint real;
     _r_0_mag := fun _ _ => n_r_0_mag real;
     _r_0_joint_mag := fun _ _ => n_r_0_joint_mag real;
     _r_1_mag := fun _ _ => n_r_1_mag real;
     _r_1_joint_mag := fun _ _ => n_r_1_joint_mag real;
     _r_0_r_0_joint_mag := fun _ _ => n_r_0_mag real * n_r_0_joint_mag real;
     _r_0_r_1_mag := fun _ _ => n_r_0_mag real * n_r_1_mag real;
     _r_1_r_1_joint_mag := fun _ _ => n_r_1_mag real * n_r_1_joint_mag real;
     _r_0_image := fun _ _ => n_r_0 image;
     _r_1_image := fun _ _ => n_r_1 image;
     _r_0_joint_image := fun _ _ => n_r_0_joint image;
     _r_1_joint_image := fun _ _ => n_r_1_joint image;
     _r_0_mag_image := fun _ _ => n_r_0_mag image;
     _r_0_joint_mag_image := fun _ _ => n_r_0_joint_mag image;
     _r_1_mag_image := fun _ _ => n_r_1_mag image;
     _r_1_joint_mag_image := fun _ _ => n_r_1_joint_mag image;
     _r_0_r_0_joint_mag_image :=
       fun _ _ => n_r_0_mag image * n_r_0_joint_mag image;
     _r_0_r_1_mag_image := fun _ _ => n_r_0_mag image * n_r_1_mag image;
     _r_1_r_1_joint_mag_image :=
       fun _ _ => n_r_1_mag image * n_r_1_joint_mag image;
     _rho := fun _ => rho; _nu := fun _ => nu; _a := fun _ => a |}.

(** Axes of an unswept section: chord along x, span along y. *)
Definition flat_axes : section_axes :=
  {| x_PC := mk3 0 0 0; x_dl := mk3 0 2 0; x_u_a := mk3 1 0 0;
     x_u_n := mk3 0 0 1; x_u_s := mk3 0 1 0 |}.

(** A control point at the origin; bound nodes at [(-3/4, -1, 0)] and
    [(-3/4, 1, 0)], joints [3/4] downstream of them at [(0, -1, 0)] and
    [(0, 1, 0)]. *)
Definition hook_nodes : nodes :=
  {| n_r_0 := mk3 (3/4) 1 0; n_r_1 := mk3 (3/4) (-1) 0;
     n_r_0_joint := mk3 0 1 0; n_r_1_joint := mk3 0 (-1) 0;
     n_r_0_mag := 5/4; n_r_1_mag := 5/4;
     n_r_0_joint_mag := 1; n_r_1_joint_mag := 1 |}.

(** The same nodes mirrored in the plane [z = 2]. *)
Definition hook_nodes_image : nodes :=
  {| n_r_0 := mk3 (3/4) 1 (-4); n_r_1 := mk3 (3/4) (-1) (-4);
     n_r_0_joint := mk3 0 1 (-4); n_r_1_joint := mk3 0 (-1) (-4);
     n_r_0_mag := sqrt (281/16); n_r_1_mag := sqrt (281/16);
     n_r_0_joint_mag := sqrt 17; n_r_1_joint_mag := sqrt 17 |}.

Definition hook_geometry : Geometry :=
  uniform_geometry flat_axes hook_nodes hook_nodes_image 1.225 1.5e-5 340.

(** Trailing vortices leaving along x. *)
Definition wake_along_x : Freestream :=
  {| _v_inf := fun _ => mk3 1 0 0; _v_inf_and_rot := fun _ => mk3 1 0 0;
     _u_trailing_0 := fun _ => mk3 1 0 0;
     _u_trailing_1 := fun _ => mk3 1 0 0;
     _u_trailing_0_image := fun _ => mk3 1 0 0;
     _u_trailing_1_image := fun _ => mk3 1 0 0 |}.

(** The default solver parameters of [_load_params]. *)
Definition default_config : Config :=
  {| _solver_type := "nonlinear"; _solver_convergence := 1e-10;
     _solver_relaxation := 1.0; _max_solver_iterations := 100;
     _use_swept_sections := true; _use_total_velocity := true;
     _use_in_plane := true; _match_machup_pro := false;
     _impingement_threshold := 1e-10; has_FS := false;
     FS_biplane_boundary := false; submergence := 0;
     use_wave_corrections := false |}.

Lemma hook_nodes_consistent :
  n_r_0_mag hook_nodes = norm (n_r_0 hook_nodes) /\
  n_r_1_mag hook_nodes = norm (n_r_1 hook_nodes) /\
  n_r_0_joint_mag hook_nodes = norm (n_r_0_joint hook_nodes) /\
  n_r_1_joint_mag hook_nodes = norm (n_r_1_joint hook_nodes).
Proof.
  repeat split; symmetry; apply norm_of_square;
    unfold dot; simpl; lra.
Qed.

End Examples.

(** ** Bound-segment influence *)

Section BoundInfluence.

Variable g : Geometry.

Lemma V_ji_bound_diag (i : nat) : Bound.V_ji_bound g i i = vzero.
Proof. unfold Bound.V_ji_bound. rewrite Nat.eqb_refl. reflexivity. Qed.

Lemma V_ji_bound_off_diag (i j : nat) :
  i <> j ->
  Bound.V_ji_bound g i j =
  vdiv (Bound.bound_numer g i j) (Bound.bound_denom g i j).
Proof.
  intros Hne. unfold Bound.V_ji_bound.
  destruct (Nat.eqb_spec i j) as [Heq | _]; [contradiction | reflexivity].
Qed.

(** C2. For every pair of control point [i] and vortex [j] the
    bound-segment influence is zero when [i = j], and otherwise, the
    stored magnitudes being the norms of [r0] and [r1], it is
    [(|r0|+|r1|) (r0 x r1)] divided by [|r0||r1| (|r0||r1| + r0.r1)].
    Nothing depends on the size of the scene. *)
Theorem bound_influence_formula (i j : nat) :
  (i = j -> Bound.V_ji_bound g i j = vzero) /\
  (i <> j -> Bound.mags_consistent g i j ->
   let r0 := _r_0 g i j in
   let r1 := _r_1 g i j in
   Bound.V_ji_bound g i j =
   vdiv (scale (norm r0 + norm r1) (cross r0 r1))
        (norm r0 * norm r1 * (norm r0 * norm r1 + dot r0 r1))).
Proof.
  split.
  - intros ->. apply V_ji_bound_diag.
  - intros Hne (H0 & H1 & H01). cbv zeta.
    rewrite V_ji_bound_off_diag by exact Hne.
    unfold Bound.bound_numer, Bound.bound_denom.
    rewrite H01, H0, H1. reflexivity.
Qed.

End BoundInfluence.

Lemma bound_influence_formula_witness :
  Bound.V_ji_bound Examples.hook_geometry 0 0 = vzero /\
  Bound.V_ji_bound Examples.hook_geometry 0 1 =
  vdiv (scale (norm (mk3 (3/4) 1 0) + norm (mk3 (3/4) (-1) 0))
              (cross (mk3 (3/4) 1 0) (mk3 (3/4) (-1) 0)))
       (norm (mk3 (3/4) 1 0) * norm (mk3 (3/4) (-1) 0) *
        (norm (mk3 (3/4) 1 0) * norm (mk3 (3/4) (-1) 0)
         + dot (mk3 (3/4) 1 0) (mk3 (3/4) (-1) 0))).
Proof.
  split.
  - apply (proj1 (bound_influence_formula Examples.hook_geometry 0 0)).
    reflexivity.
  - apply (proj2 (bound_influence_formula Examples.hook_geometry 0 1)).
    + discriminate.
    + destruct Examples.hook_nodes_consistent as (H0 & H1 & _).
      repeat split; [exact H0 | exact H1].
Defined.

(** ** Semi-infinite trailing legs *)

(** The contribution of one trailing leg as the specification words it:
    [sign (r_joint_mag + r_bound_mag) (u_trailing x r_joint)] over
    [r_joint_mag (r_joint_mag - u_trailing . r_joint)], with [sign] the
    [-1] of the inbound leg or the [+1] of the outbound one. *)
Definition spec_trailing_leg (sign r_joint_mag r_bound_mag : R)
    (u_trailing r_joint : vec3) : vec3 :=
  vdiv (scale (sign * (r_joint_mag + r_bound_mag)) (cross u_trailing r_joint))
       (r_joint_mag * (r_joint_mag - dot u_trailing r_joint)).

Section TrailingLegs.

Variable c : Config.
Variable g : Geometry.
Variable f : Freestream.

Lemma V_ji_due_to_0_kept (i j : nat) :
  Trailing.denom0 g f i j > 1e-13 ->
  Trailing.V_ji_due_to_0 g f i j =
  vdiv (vopp (cross (_u_trailing_0 f j) (_r_0_joint g i j)))
       (Trailing.denom0 g f i j).
Proof.
  intros H. unfold Trailing.V_ji_due_to_0.
  destruct (Rgt_dec _ _) as [_ | Hn]; [reflexivity | contradiction].
Qed.

Lemma V_ji_due_to_1_kept (i j : nat) :
  Trailing.denom1 g f i j > 1e-13 ->
  Trailing.V_ji_due_to_1 g f i j =
  vdiv (cross (_u_trailing_1 f j) (_r_1_joint g i j))
       (Trailing.denom1 g f i j).
Proof.
  intros H. unfold Trailing.V_ji_due_to_1.
  destruct (Rgt_dec _ _) as [_ | Hn]; [reflexivity | contradiction].
Qed.

Lemma V_ji_due_to_0_zeroed (i j : nat) :
  Trailing.denom0 g f i j <= 1e-13 -> Trailing.V_ji_due_to_0 g f i j = vzero.
Proof.
  intros H. unfold Trailing.V_ji_due_to_0.
  destruct (Rgt_dec _ _) as [Hy | _]; [lra | reflexivity].
Qed.

Lemma V_ji_due_to_1_zeroed (i j : nat) :
  Trailing.denom1 g f i j <= 1e-13 -> Trailing.V_ji_due_to_1 g f i j = vzero.
Proof.
  intros H. unfold Trailing.V_ji_due_to_1.
  destruct (Rgt_dec _ _) as [Hy | _]; [lra | reflexivity].
Qed.

Lemma impingement_warnings_iff (N : nat) :
  In ImpingementWarning (Trailing.impingement_warnings c g f N) <->
  exists i j, (i < N)%nat /\ (j < N)%nat /\
    (Rabs (Trailing.denom0 g f i j) < _impingement_threshold c \/
     Rabs (Trailing.denom1 g f i j) < _impingement_threshold c).
Proof.
  unfold Trailing.impingement_warnings. rewrite in_app_iff. split.
  - intros [H | H].
    + destruct (Trailing.impinging_0 c g f N) eqn:E; [|destruct H].
      apply any2_true in E as (i & j & Hi & Hj & E).
      apply Rltb_true in E. exists i, j. auto.
    + destruct (Trailing.impinging_1 c g f N) eqn:E; [|destruct H].
      apply any2_true in E as (i & j & Hi & Hj & E).
      apply Rltb_true in E. exists i, j. auto.
  - intros (i & j & Hi & Hj & [H | H]).
    + left. replace (Trailing.impinging_0 c g f N) with true; [left; reflexivity|].
      symmetry. apply any2_true. exists i, j.
      rewrite Rltb_true. auto.
    + right. replace (Trailing.impinging_1 c g f N) with true; [left; reflexivity|].
      symmetry. apply any2_true. exists i, j.
      rewrite Rltb_true. auto.
Qed.

(** C1, as the code has it.  For every control point [i] and vortex [j],
    whenever the denominator [r_joint_mag (r_joint_mag - u_trailing .
    r_joint)] of a leg is above [1e-13], the contribution of the inbound
    leg is [-(u_trailing_0 x r_0_joint)] over that denominator and the
    contribution of the outbound leg is [+(u_trailing_1 x r_1_joint)]
    over its own: no factor [r_joint_mag + r_bound_mag]. *)
Theorem trailing_leg_formula (i j : nat) :
  (_r_0_joint_mag g i j *
     (_r_0_joint_mag g i j - dot (_u_trailing_0 f j) (_r_0_joint g i j))
   > 1e-13 ->
   Trailing.V_ji_due_to_0 g f i j =
   vdiv (vopp (cross (_u_trailing_0 f j) (_r_0_joint g i j)))
        (_r_0_joint_mag g i j *
         (_r_0_joint_mag g i j - dot (_u_trailing_0 f j) (_r_0_joint g i j))))
  /\
  (_r_1_joint_mag g i j *
     (_r_1_joint_mag g i j - dot (_u_trailing_1 f j) (_r_1_joint g i j))
   > 1e-13 ->
   Trailing.V_ji_due_to_1 g f i j =
   vdiv (cross (_u_trailing_1 f j) (_r_1_joint g i j))
        (_r_1_joint_mag g i j *
         (_r_1_joint_mag g i j - dot (_u_trailing_1 f j) (_r_1_joint g i j)))).
Proof.
  split; intros H.
  - apply V_ji_due_to_0_kept. exact H.
  - apply V_ji_due_to_1_kept. exact H.
Qed.

End TrailingLegs.

Lemma hook_denom0 :
  Trailing.denom0 Examples.hook_geometry Examples.wake_along_x 0 0 = 1.
Proof. unfold Trailing.denom0, dot. simpl. lra. Qed.

Lemma hook_denom1 :
  Trailing.denom1 Examples.hook_geometry Examples.wake_along_x 0 0 = 1.
Proof. unfold Trailing.denom1, dot. simpl. lra. Qed.

Lemma trailing_leg_formula_witness :
  Trailing.V_ji_due_to_0 Examples.hook_geometry Examples.wake_along_x 0 0 =
    vdiv (vopp (cross (mk3 1 0 0) (mk3 0 1 0))) (1 * (1 - dot (mk3 1 0 0) (mk3 0 1 0)))
  /\
  Trailing.V_ji_due_to_1 Examples.hook_geometry Examples.wake_along_x 0 0 =
    vdiv (cross (mk3 1 0 0) (mk3 0 (-1) 0))
         (1 * (1 - dot (mk3 1 0 0) (mk3 0 (-1) 0))).
Proof.
  split.
  - apply (proj1 (trailing_leg_formula Examples.hook_geometry
                    Examples.wake_along_x 0 0)).
    unfold dot. simpl. lra.
  - apply (proj2 (trailing_leg_formula Examples.hook_geometry
                    Examples.wake_along_x 0 0)).
    unfold dot. simpl. lra.
Defined.

(** C1, as the specification states it, fails: with the denominator at
    [1], far from zero, the inbound leg of the hook contributes
    [(0, 0, -1)], and the stated formula gives [(0, 0, -9/4)]. *)
Lemma trailing_leg_counterexample :
  Trailing.denom0 Examples.hook_geometry Examples.wake_along_x 0 0 = 1 /\
  Trailing.V_ji_due_to_0 Examples.hook_geometry Examples.wake_along_x 0 0
    = mk3 0 0 (-1) /\
  spec_trailing_leg (-1) 1 (5/4) (mk3 1 0 0) (mk3 0 1 0) = mk3 0 0 (-9/4) /\
  Trailing.V_ji_due_to_0 Examples.hook_geometry Examples.wake_along_x 0 0
    <> spec_trailing_leg (-1)
         (_r_0_joint_mag Examples.hook_geometry 0 0)
         (_r_0_mag Examples.hook_geometry 0 0)
         (_u_trailing_0 Examples.wake_along_x 0)
         (_r_0_joint Examples.hook_geometry 0 0).
Proof.
  assert (Hv : Trailing.V_ji_due_to_0 Examples.hook_geometry
                 Examples.wake_along_x 0 0 = mk3 0 0 (-1)).
  { rewrite V_ji_due_to_0_kept by (rewrite hook_denom0; lra).
    rewrite hook_denom0. apply vec3_eq; simpl; lra. }
  assert (Hs : spec_trailing_leg (-1) 1 (5/4) (mk3 1 0 0) (mk3 0 1 0)
               = mk3 0 0 (-9/4)).
  { unfold spec_trailing_leg, dot. apply vec3_eq; simpl; lra. }
  repeat split; [apply hook_denom0 | exact Hv | exact Hs |].
  rewrite Hv. simpl. rewrite Hs. apply vec3_neq_z. simpl. lra.
Qed.

(** ** Impingement *)

Module Grazing.

(** A control point [2e-6] to the side of the trailing ray of the
    inbound joint, one length downstream of the joint: the vector from
    the joint to the control point is a unit vector almost along the
    wake. *)
Definition r_joint : vec3 :=
  mk3 (999999999999 / 1000000000001) (2000000 / 1000000000001) 0.

Definition grazing_nodes : Examples.nodes :=
  {| Examples.n_r_0 := mk3 (999999999999 / 1000000000001 + 3/4)
                           (2000000 / 1000000000001) 0;
     Examples.n_r_1 := mk3 (3/4) (-1) 0;
     Examples.n_r_0_joint := r_joint;
     Examples.n_r_1_joint := mk3 0 (-1) 0;
     Examples.n_r_0_mag :=
       norm (mk3 (999999999999 / 1000000000001 + 3/4)
                 (2000000 / 1000000000001) 0);
     Examples.n_r_1_mag := 5/4;
     Examples.n_r_0_joint_mag := 1;
     Examples.n_r_1_joint_mag := 1 |}.

Definition grazing_geometry : Geometry :=
  Examples.uniform_geometry Examples.flat_axes grazing_nodes
    Examples.hook_nodes_image 1.225 1.5e-5 340.

Lemma r_joint_unit : norm r_joint = 1.
Proof.
  apply norm_of_square; [lra|]. unfold dot, r_joint. simpl. field.
Qed.

Lemma grazing_denom0 :
  Trailing.denom0 grazing_geometry Examples.wake_along_x 0 0
  = 2 / 1000000000001.
Proof. unfold Trailing.denom0, dot. simpl. field. Qed.

End Grazing.

(** C5, as the specification states it, fails.  With the default
    [impingement_threshold] of [1e-10], the denominator of the inbound leg
    is [2/1000000000001], below the threshold: the warning is given, and
    the contribution of the leg is [(0, 0, -1000000)], not zero. *)
Lemma impingement_counterexample :
  Rabs (Trailing.denom0 Grazing.grazing_geometry Examples.wake_along_x 0 0)
    < _impingement_threshold Examples.default_config /\
  In ImpingementWarning
     (Trailing.impingement_warnings Examples.default_config
        Grazing.grazing_geometry Examples.wake_along_x 1) /\
  Trailing.V_ji_due_to_0 Grazing.grazing_geometry Examples.wake_along_x 0 0
    = mk3 0 0 (-1000000) /\
  Trailing.V_ji_due_to_0 Grazing.grazing_geometry Examples.wake_along_x 0 0
    <> vzero.
Proof.
  assert (Hd : Rabs (Trailing.denom0 Grazing.grazing_geometry
                       Examples.wake_along_x 0 0)
               < _impingement_threshold Examples.default_config).
  { rewrite Grazing.grazing_denom0. simpl.
    rewrite Rabs_pos_eq by lra. lra. }
  assert (Hv : Trailing.V_ji_due_to_0 Grazing.grazing_geometry
                 Examples.wake_along_x 0 0 = mk3 0 0 (-1000000)).
  { rewrite V_ji_due_to_0_kept by (rewrite Grazing.grazing_denom0; lra).
    rewrite Grazing.grazing_denom0. apply vec3_eq; simpl; field. }
  repeat split; [exact Hd | | exact Hv |].
  - apply impingement_warnings_iff. exists 0%nat, 0%nat.
    repeat split; [lia | lia | left; exact Hd].
  - rewrite Hv. apply vec3_neq_z. simpl. lra.
Qed.

Section FlowStateWarnings.

Variables sp_k0 sp_k1 : R -> R.
Variable c : Config.
Variable objs : list Airplane.t.
Variable sec : Sections.
Variable g : Geometry.
Variable f : Freestream.
Variable N : nat.

Lemma flow_state_warnings (ae : Aero) :
  snd (Solver._calc_invariant_flow_properties sp_k0 sp_k1 c objs sec g f N ae)
  = Trailing.impingement_warnings c g f N.
Proof.
  unfold Solver._calc_invariant_flow_properties.
  destruct (Trailing._V_ji sp_k0 sp_k1 c g f); reflexivity.
Qed.

Lemma flow_state_returns (ae : Aero) :
  (use_wave_corrections c = true -> has_FS c = true) ->
  fst (fst (Solver._calc_invariant_flow_properties
              sp_k0 sp_k1 c objs sec g f N ae)) = Return tt.
Proof.
  intros H. unfold Solver._calc_invariant_flow_properties, Trailing._V_ji.
  destruct (use_wave_corrections c); [rewrite H by reflexivity|]; reflexivity.
Qed.

End FlowStateWarnings.

Section Impingement.

Variable FM : Type.
Variables sp_k0 sp_k1 : R -> R.
Variable fill_freestream : Config -> list Airplane.t -> Geometry -> Freestream.

Local Abbreviation Scene := (SceneOps.Scene FM).
Local Abbreviation flow_state :=
  (SceneOps._calc_invariant_flow_properties FM sp_k0 sp_k1 fill_freestream).

Lemma scene_flow_warnings (s : Scene) :
  SceneOps.r_warnings (flow_state s)
  = Trailing.impingement_warnings (SceneOps.config FM s) (SceneOps.geometry FM s)
      (fill_freestream (SceneOps.config FM s) (SceneOps._airplane_objects FM s)
                       (SceneOps.geometry FM s))
      (SceneOps.N_of FM s).
Proof.
  unfold SceneOps._calc_invariant_flow_properties.
  rewrite <- (flow_state_warnings sp_k0 sp_k1 _
                (SceneOps._airplane_objects FM s) (SceneOps.sections FM s)
                _ _ _ (SceneOps.aero FM s)).
  destruct (Solver._calc_invariant_flow_properties _ _ _ _ _ _ _ _ _)
    as [[o ae] ws]. reflexivity.
Qed.

Lemma scene_flow_outcome (s : Scene) :
  (use_wave_corrections (SceneOps.config FM s) = true ->
   has_FS (SceneOps.config FM s) = true) ->
  SceneOps.r_outcome (flow_state s) = Return tt.
Proof.
  intros H. unfold SceneOps._calc_invariant_flow_properties.
  pose proof (flow_state_returns sp_k0 sp_k1 _
                (SceneOps._airplane_objects FM s) (SceneOps.sections FM s)
                (SceneOps.geometry FM s)
                (fill_freestream (SceneOps.config FM s)
                   (SceneOps._airplane_objects FM s) (SceneOps.geometry FM s))
                (SceneOps.N_of FM s) (SceneOps.aero FM s) H) as Ho.
  destruct (Solver._calc_invariant_flow_properties _ _ _ _ _ _ _ _ _)
    as [[o ae] ws]. exact Ho.
Qed.

Lemma err_state_keys (s : Scene) (kwargs : gmap string string) :
  dom (SceneOps._err_state FM (SceneOps.set_err_state FM s kwargs))
  = ({["not_converged"; "database_bounds"]} : gset string).
Proof.
  unfold SceneOps.set_err_state. simpl.
  rewrite !dom_insert_L, dom_empty_L. set_solver.
Qed.

Lemma scene_flow_warned (s : Scene) (i j : nat) :
  let c := SceneOps.config FM s in
  let g := SceneOps.geometry FM s in
  let f := fill_freestream c (SceneOps._airplane_objects FM s) g in
  (i < SceneOps.N_of FM s)%nat -> (j < SceneOps.N_of FM s)%nat ->
  Rabs (Trailing.denom0 g f i j) < _impingement_threshold c \/
  Rabs (Trailing.denom1 g f i j) < _impingement_threshold c ->
  In ImpingementWarning (SceneOps.r_warnings (flow_state s)).
Proof.
  cbv zeta. intros Hi Hj H. rewrite scene_flow_warnings.
  apply impingement_warnings_iff. exists i, j. auto.
Qed.

Lemma tensor_completed (c : Config) (g : Geometry) (f : Freestream) :
  Trailing._V_ji sp_k0 sp_k1 c g f = None <->
  use_wave_corrections c = true /\ has_FS c = false.
Proof.
  unfold Trailing._V_ji.
  destruct (use_wave_corrections c), (has_FS c); split;
    try discriminate; try tauto; intros [H1 H2]; discriminate.
Qed.

(** C5, as the code has it.  In the flow-state evaluation of any scene:
    a trailing-leg term whose denominator is at most [1e-13] is exactly
    the zero vector; a term whose denominator lies between [1e-13] and
    [impingement_threshold] is warned about and kept at its value, the
    cross product over that small denominator; the impingement warning
    is given exactly when some denominator is below
    [impingement_threshold] in absolute value, whether the evaluation
    then returns or raises; completing the tensor itself fails on no
    geometry, only when wave corrections are asked for without a free
    surface; and the warning does not depend on the error policy, whose
    keys are [not_converged] and [database_bounds] only. *)
Theorem impingement_behaviour (s : Scene) (kwargs : gmap string string) :
  let c := SceneOps.config FM s in
  let g := SceneOps.geometry FM s in
  let f := fill_freestream c (SceneOps._airplane_objects FM s) g in
  let N := SceneOps.N_of FM s in
  (forall i j,
     _r_0_joint_mag g i j *
       (_r_0_joint_mag g i j - dot (_u_trailing_0 f j) (_r_0_joint g i j))
     <= 1e-13 ->
     Trailing.V_ji_due_to_0 g f i j = vzero) /\
  (forall i j,
     _r_1_joint_mag g i j *
       (_r_1_joint_mag g i j - dot (_u_trailing_1 f j) (_r_1_joint g i j))
     <= 1e-13 ->
     Trailing.V_ji_due_to_1 g f i j = vzero) /\
  (forall i j, (i < N)%nat -> (j < N)%nat ->
     1e-13 < Trailing.denom0 g f i j < _impingement_threshold c ->
     In ImpingementWarning (SceneOps.r_warnings (flow_state s)) /\
     Trailing.V_ji_due_to_0 g f i j =
     vdiv (vopp (cross (_u_trailing_0 f j) (_r_0_joint g i j)))
          (Trailing.denom0 g f i j)) /\
  (forall i j, (i < N)%nat -> (j < N)%nat ->
     1e-13 < Trailing.denom1 g f i j < _impingement_threshold c ->
     In ImpingementWarning (SceneOps.r_warnings (flow_state s)) /\
     Trailing.V_ji_due_to_1 g f i j =
     vdiv (cross (_u_trailing_1 f j) (_r_1_joint g i j))
          (Trailing.denom1 g f i j)) /\
  (In ImpingementWarning (SceneOps.r_warnings (flow_state s)) <->
   exists i j, (i < N)%nat /\ (j < N)%nat /\
     (Rabs (Trailing.denom0 g f i j) < _impingement_threshold c \/
      Rabs (Trailing.denom1 g f i j) < _impingement_threshold c)) /\
  (Trailing._V_ji sp_k0 sp_k1 c g f = None <->
   use_wave_corrections c = true /\ has_FS c = false) /\
  SceneOps.r_warnings (flow_state (SceneOps.set_err_state FM s kwargs))
    = SceneOps.r_warnings (flow_state s) /\
  dom (SceneOps._err_state FM (SceneOps.set_err_state FM s kwargs))
    = ({["not_converged"; "database_bounds"]} : gset string).
Proof.
  assert (Hcut : 0 < 1e-13) by (unfold Q2R; simpl; lra).
  cbv zeta.
  split; [|split; [|split; [|split; [|split; [|split; [|split]]]]]].
  - intros i j H. apply V_ji_due_to_0_zeroed. exact H.
  - intros i j H. apply V_ji_due_to_1_zeroed. exact H.
  - intros i j Hi Hj [Hlo Hhi]. split.
    + apply (scene_flow_warned s i j Hi Hj). left.
      rewrite Rabs_pos_eq by lra. exact Hhi.
    + apply V_ji_due_to_0_kept. lra.
  - intros i j Hi Hj [Hlo Hhi]. split.
    + apply (scene_flow_warned s i j Hi Hj). right.
      rewrite Rabs_pos_eq by lra. exact Hhi.
    + apply V_ji_due_to_1_kept. lra.
  - rewrite scene_flow_warnings. apply impingement_warnings_iff.
  - apply tensor_completed.
  - rewrite !scene_flow_warnings. reflexivity.
  - apply err_state_keys.
Qed.

End Impingement.

(** ** Example aircraft and scenes *)

Module ExampleScenes.

(** An aircraft of [n] control points of unit chord and area two, whose
    sections have constant coefficients. *)
Definition constant_section_plane (name : string) (n : nat)
    (sweep CL CLa aL0 : R) : Airplane.t :=
  {| Airplane.name := name; Airplane.N := n;
     Airplane.get_num_cps := Z.of_nat n;
     Airplane.c_bar := fun _ => 1; Airplane.dS := fun _ => 2;
     Airplane.section_sweep := fun _ => sweep;
     Airplane.get_cp_CLa := fun _ _ _ _ => CLa;
     Airplane.get_cp_CL := fun _ _ _ _ => CL;
     Airplane.get_cp_CLRe := fun _ _ _ _ => 0;
     Airplane.get_cp_CLM := fun _ _ _ _ => 0;
     Airplane.get_cp_CD := fun _ _ _ _ => 0.01;
     Airplane.get_cp_Cm := fun _ _ _ _ => 0;
     Airplane.get_cp_aL0 := fun _ _ _ => aL0 |}.

(** A scene over the given aircraft dictionary and arrays, with the error
    state [Scene.__init__] sets and nothing solved yet. *)
Definition scene_of (c : Config) (d : list (string * Airplane.t))
    (g : Geometry) (f : Freestream) (ae : Aero) : SceneOps.Scene unit :=
  {| SceneOps.config := c; SceneOps._airplanes := d;
     SceneOps._N :=
       fold_right (fun a n => (Z.of_nat (Airplane.N (snd a)) + n)%Z) 0%Z d;
     SceneOps._num_aircraft := Z.of_nat (length d);
     SceneOps._solved := false;
     SceneOps._err_state :=
       <["database_bounds" := "raise"]> (<["not_converged" := "raise"]> ∅);
     SceneOps._airplane_objects := Dict.values d;
     SceneOps.sections := _store_aircraft_properties c (Dict.values d);
     SceneOps.geometry := g; SceneOps.freestream := f; SceneOps.aero := ae;
     SceneOps.forces := None; SceneOps._FM := None |}.

Definition one_plane : list (string * Airplane.t) :=
  [("wing", constant_section_plane "wing" 1 0 1 1 0)].

(** A control point on the trailing ray of the inbound joint. *)
Definition on_wake_nodes : Examples.nodes :=
  {| Examples.n_r_0 := mk3 (7/4) 0 0; Examples.n_r_1 := mk3 (3/4) (-1) 0;
     Examples.n_r_0_joint := mk3 1 0 0;
     Examples.n_r_1_joint := mk3 0 (-1) 0;
     Examples.n_r_0_mag := 7/4; Examples.n_r_1_mag := 5/4;
     Examples.n_r_0_joint_mag := 1; Examples.n_r_1_joint_mag := 1 |}.

Definition on_wake_geometry : Geometry :=
  Examples.uniform_geometry Examples.flat_axes on_wake_nodes
    Examples.hook_nodes_image 1.225 1.5e-5 340.

Definition on_wake_scene : SceneOps.Scene unit :=
  scene_of Examples.default_config one_plane on_wake_geometry
    Examples.wake_along_x (SceneOps.zeros_aero).

End ExampleScenes.

Lemma impingement_behaviour_witness :
  Trailing.V_ji_due_to_0 ExampleScenes.on_wake_geometry
    Examples.wake_along_x 0 0 = vzero /\
  In ImpingementWarning
     (SceneOps.r_warnings
        (SceneOps._calc_invariant_flow_properties unit (fun _ => 0)
           (fun _ => 0) (fun _ _ _ => Examples.wake_along_x)
           ExampleScenes.on_wake_scene)) /\
  Trailing._V_ji (fun _ => 0) (fun _ => 0) Examples.default_config
    ExampleScenes.on_wake_geometry Examples.wake_along_x <> None.
Proof.
  pose proof (impingement_behaviour unit (fun _ => 0) (fun _ => 0)
                (fun _ _ _ => Examples.wake_along_x)
                ExampleScenes.on_wake_scene ∅)
    as (H0 & _ & _ & _ & Hw & Hc & _).
  split; [|split].
  - apply H0. unfold dot. simpl. lra.
  - apply Hw. exists 0%nat, 0%nat. split; [|split].
    + unfold SceneOps.N_of. simpl. lia.
    + unfold SceneOps.N_of. simpl. lia.
    + left. unfold Trailing.denom0, dot. simpl.
      replace (1 * (1 - (1 * 1 + 0 * 0 + 0 * 0))) with 0 by lra.
      rewrite Rabs_R0. lra.
  - intros Hnone. apply Hc in Hnone as [Hwave _]. discriminate Hwave.
Defined.

(** ** The completed influence tensor *)

(** The tensor as the specification words it: [1/(4 pi)] times the real
    contributions, plus the image contributions under the biplane
    boundary condition and minus them otherwise when there is a free
    surface. *)
Definition spec_tensor (c : Config) (g : Geometry) (f : Freestream)
    (i j : nat) : vec3 :=
  let real :=
    vadd (vadd (Trailing.V_ji_due_to_0 g f i j)
               (vadd (vadd (Bound.V_ji_bound g i j) (Bound.V_ji_joint_0 g i j))
                     (Bound.V_ji_joint_1 g i j)))
         (Trailing.V_ji_due_to_1 g f i j) in
  let image :=
    vadd (vadd (Trailing.V_ji_due_to_0_image g f i j)
               (vadd (vadd (Bound.V_ji_bound_image g i j)
                           (Bound.V_ji_joint_0_image g i j))
                     (Bound.V_ji_joint_1_image g i j)))
         (Trailing.V_ji_due_to_1_image g f i j) in
  if has_FS c
  then if FS_biplane_boundary c
       then scale (1 / (4 * PI)) (vadd real image)
       else scale (1 / (4 * PI)) (vsub real image)
  else scale (1 / (4 * PI)) real.

Section Tensor.

Variables sp_k0 sp_k1 : R -> R.
Variable c : Config.
Variable g : Geometry.
Variable f : Freestream.

Lemma V_ji_sum_spec (i j : nat) :
  Trailing.V_ji_sum c g f i j = spec_tensor c g f i j.
Proof.
  unfold Trailing.V_ji_sum, spec_tensor.
  destruct (has_FS c), (FS_biplane_boundary c); reflexivity.
Qed.

Lemma V_ji_without_wave :
  use_wave_corrections c = false ->
  Trailing._V_ji sp_k0 sp_k1 c g f = Some (Trailing.V_ji_sum c g f).
Proof. unfold Trailing._V_ji. intros ->. reflexivity. Qed.

Lemma V_ji_with_wave :
  use_wave_corrections c = true -> has_FS c = true ->
  Trailing._V_ji sp_k0 sp_k1 c g f =
  Some (fun i j =>
          vadd (Trailing.V_ji_sum c g f i j)
               (scale (1 / (4 * PI))
                      (Trailing.fin_array sp_k0 sp_k1 c g f i j))).
Proof. unfold Trailing._V_ji. intros -> ->. reflexivity. Qed.

(** C8, as the code has it.  With wave corrections off (the default) the
    completed tensor is [1/(4 pi)] times the real contributions, plus the
    image contributions under the biplane flag and minus them without it
    when a free surface is configured, and the real contributions alone
    otherwise.  With wave corrections on and a free surface,
    [1/(4 pi) (0, 0, V_ji_due_to_wave[i])] is added to entry [i,i]. *)
Theorem influence_tensor_sum :
  (use_wave_corrections c = false ->
   exists V, Trailing._V_ji sp_k0 sp_k1 c g f = Some V /\
     forall i j, V i j = spec_tensor c g f i j) /\
  (use_wave_corrections c = true -> has_FS c = true ->
   exists V, Trailing._V_ji sp_k0 sp_k1 c g f = Some V /\
     forall i j,
       V i j =
       vadd (spec_tensor c g f i j)
            (scale (1 / (4 * PI))
               (if (i =? j)%nat
                then mk3 0 0 (Trailing.V_ji_due_to_wave sp_k0 sp_k1 c g f i)
                else vzero))).
Proof.
  split.
  - intros Hw. exists (Trailing.V_ji_sum c g f).
    split; [apply V_ji_without_wave, Hw | apply V_ji_sum_spec].
  - intros Hw Hfs. eexists. split; [apply V_ji_with_wave; assumption|].
    intros i j. cbv beta. rewrite V_ji_sum_spec. reflexivity.
Qed.

End Tensor.

Module WaveExample.

(** A free surface treated as a rigid wall, one length above the foil,
    with the wave corrections switched on. *)
Definition wave_config : Config :=
  {| _solver_type := "nonlinear"; _solver_convergence := 1e-10;
     _solver_relaxation := 1.0; _max_solver_iterations := 100;
     _use_swept_sections := true; _use_total_velocity := true;
     _use_in_plane := true; _match_machup_pro := false;
     _impingement_threshold := 1e-10; has_FS := true;
     FS_biplane_boundary := false; submergence := 1;
     use_wave_corrections := true |}.

(** The control point two lengths out along the span. *)
Definition outboard_axes : Examples.section_axes :=
  {| Examples.x_PC := mk3 0 2 0; Examples.x_dl := mk3 0 2 0;
     Examples.x_u_a := mk3 1 0 0; Examples.x_u_n := mk3 0 0 1;
     Examples.x_u_s := mk3 0 1 0 |}.

Definition wave_geometry : Geometry :=
  Examples.uniform_geometry outboard_axes Examples.hook_nodes
    Examples.hook_nodes_image 1000 1e-6 1500.

Lemma unit_speed : Trailing._V_inf Examples.wake_along_x 0 = 1.
Proof.
  unfold Trailing._V_inf. apply norm_of_square; [lra|].
  unfold dot. simpl. lra.
Qed.

(** For any [k0] and [k1] that are positive on the positive reals, as the
    modified Bessel functions are, the wave term at this control point is
    positive. *)
Lemma wave_term_positive (k0 k1 : R -> R) :
  (forall x, 0 < x -> 0 < k0 x) ->
  (forall x, 0 < x -> 0 < k1 x) ->
  0 < Trailing.V_ji_due_to_wave k0 k1 wave_config wave_geometry
        Examples.wake_along_x 0.
Proof.
  intros Hk0 Hk1.
  unfold Trailing.V_ji_due_to_wave, Trailing.arg_K, Trailing.K0,
    Trailing.y_CP, Trailing.pow_1_5, Trailing.grav.
  rewrite unit_speed. simpl.
  replace (4 * (1 * 1) + 2 * 2) with 8 by lra.
  replace (2 * 2 + 4 * (1 * 1)) with 8 by lra.
  assert (Hq : 0 < sqrt 8) by (apply sqrt_lt_R0; lra).
  set (q := sqrt 8) in *.
  set (K := 1 * 1 / 9.81).
  assert (HK : 0 < K) by (unfold K; lra).
  assert (Harg : 0 < 1 / 2 * K * q) by nra.
  specialize (Hk0 _ Harg). specialize (Hk1 _ Harg).
  set (a0 := k0 (1 / 2 * K * q)) in *.
  set (a1 := k1 (1 / 2 * K * q)) in *.
  replace (2 * (2 * 1 / q - 1 / (K * q) + 8 * (1 * 1) / (K * (8 * q))))
    with (4 / q) by (field; split; lra).
  replace (- (4 * (1 * 1) - 8 + 4 * (1 * 1)) / (8 * 8)) with 0 by lra.
  assert (He : 0 < exp (- K * 1)) by apply exp_pos.
  assert (Hq' : 0 < 4 / q) by (apply Rdiv_lt_0_compat; lra).
  assert (Hs : 0 < (1 + 4 * (1 * 1) / 8) * a0 + 4 / q * a1) by nra.
  assert (Hp : 0 < K * 2 / 2 * exp (- K * 1)) by nra.
  nra.
Qed.

End WaveExample.

(** C8, as the specification states it, fails: it is not so that for
    every free-surface scene, whatever [scipy.special.k0] and [k1]
    return, the completed tensor is the stated sum.  With wave corrections
    on, entry [0,0] carries the wave term, which is positive as soon as
    [k0] and [k1] are positive on the positive reals. *)
Lemma wave_correction_counterexample :
  ~ (forall (k0 k1 : R -> R) (c : Config) (g : Geometry) (f : Freestream),
       has_FS c = true ->
       exists V, Trailing._V_ji k0 k1 c g f = Some V /\
         forall i j, V i j = spec_tensor c g f i j).
Proof.
  intros H.
  destruct (H (fun _ => 1) (fun _ => 1) WaveExample.wave_config
              WaveExample.wave_geometry Examples.wake_along_x eq_refl)
    as (V & HV & Hspec).
  rewrite (V_ji_with_wave (fun _ => 1) (fun _ => 1) WaveExample.wave_config
             WaveExample.wave_geometry Examples.wake_along_x eq_refl eq_refl)
    in HV.
  injection HV as <-.
  specialize (Hspec 0%nat 0%nat). cbv beta in Hspec.
  rewrite V_ji_sum_spec in Hspec.
  pose proof (WaveExample.wave_term_positive (fun _ => 1) (fun _ => 1)
                (fun _ _ => Rlt_0_1) (fun _ _ => Rlt_0_1)) as Hpos.
  apply (f_equal vz) in Hspec. unfold Trailing.fin_array in Hspec.
  simpl in Hspec.
  assert (Hpi : 0 < 1 / (4 * PI)).
  { apply Rdiv_lt_0_compat; [lra|]. pose proof PI_RGT_0. lra. }
  nra.
Qed.

Lemma influence_tensor_sum_witness :
  (exists V, Trailing._V_ji (fun _ => 0) (fun _ => 0) Examples.default_config
               Examples.hook_geometry Examples.wake_along_x = Some V /\
     forall i j, V i j = spec_tensor Examples.default_config
                           Examples.hook_geometry Examples.wake_along_x i j) /\
  (exists V, Trailing._V_ji (fun _ => 0) (fun _ => 0) WaveExample.wave_config
               WaveExample.wave_geometry Examples.wake_along_x = Some V /\
     forall i j,
       V i j =
       vadd (spec_tensor WaveExample.wave_config WaveExample.wave_geometry
               Examples.wake_along_x i j)
            (scale (1 / (4 * PI))
               (if (i =? j)%nat
                then mk3 0 0 (Trailing.V_ji_due_to_wave (fun _ => 0)
                                (fun _ => 0) WaveExample.wave_config
                                WaveExample.wave_geometry
                                Examples.wake_along_x i)
                else vzero))).
Proof.
  split.
  - apply (proj1 (influence_tensor_sum (fun _ => 0) (fun _ => 0)
                    Examples.default_config Examples.hook_geometry
                    Examples.wake_along_x)).
    reflexivity.
  - apply (proj2 (influence_tensor_sum (fun _ => 0) (fun _ => 0)
                    WaveExample.wave_config WaveExample.wave_geometry
                    Examples.wake_along_x)); reflexivity.
Defined.

(** ** Swept-section correction *)

Section Sweep.

Variable c : Config.
Variable objs : list Airplane.t.
Variable g : Geometry.
Variable f : Freestream.
Variable N : nat.

Let sec := _store_aircraft_properties c objs.

Lemma C_sweep_inv_cos (i : nat) :
  _C_sweep_inv sec i = 1 / cos (_section_sweep sec i).
Proof. unfold sec, _store_aircraft_properties. simpl. lra. Qed.

Lemma c_bar_swept (i : nat) :
  _use_swept_sections c = true ->
  _c_bar sec i = at_cp objs 0 Airplane.c_bar i * cos (_section_sweep sec i).
Proof. intros H. unfold sec, _store_aircraft_properties. simpl. rewrite H. reflexivity. Qed.

Lemma correct_CL_for_sweep_CL (ae : Aero) (i : nat) :
  _CL (Solver._correct_CL_for_sweep sec ae) i =
  _CL ae i + _CLa ae i * _aL0 ae i * (1 - 1 / cos (_section_sweep sec i)).
Proof.
  unfold Solver._correct_CL_for_sweep, set_CL. cbn [_CL].
  rewrite C_sweep_inv_cos. ring.
Qed.

(** The section lift of the residual with the legacy flag off *)
Lemma section_lift_swept_CL (ae : Aero) (i : nat) :
  _use_swept_sections c = true ->
  _match_machup_pro c = false ->
  let ae' := fst (Solver._get_section_lift c objs sec g f ae) in
  _CL ae' i =
  at_cp objs (_CL ae i)
    (fun a k => Airplane.get_cp_CL a k (_alpha ae' i) (_Re ae' i) (_M ae' i)) i
  + _CLa ae' i * _aL0 ae' i * (1 - 1 / cos (_section_sweep sec i)).
Proof.
  intros Hs Hm. unfold Solver._get_section_lift. rewrite Hs, Hm. cbv zeta.
  unfold fst. rewrite correct_CL_for_sweep_CL. reflexivity.
Qed.

(** The legacy flag makes the section lift return before the correction. *)
Lemma section_lift_legacy_CL (ae : Aero) (i : nat) :
  _match_machup_pro c = true ->
  let ae' := fst (Solver._get_section_lift c objs sec g f ae) in
  _CL ae' i =
  at_cp objs (_CL ae i)
    (fun a k => Airplane.get_cp_CL a k (_alpha ae' i) (_Re ae' i) (_M ae' i)) i.
Proof.
  intros Hm. unfold Solver._get_section_lift. rewrite Hm. reflexivity.
Qed.

Lemma flow_state_swept_CL (sp_k0 sp_k1 : R -> R) (ae : Aero) (i : nat) :
  _use_swept_sections c = true ->
  (use_wave_corrections c = true -> has_FS c = true) ->
  let ae' := snd (fst (Solver._calc_invariant_flow_properties
                         sp_k0 sp_k1 c objs sec g f N ae)) in
  _CL ae' i =
  at_cp objs (_CL ae i)
    (fun a k =>
       Airplane.get_cp_CL a k (_alpha_inf ae' i) (_Re ae' i) (_M ae' i)) i
  + _CLa ae' i * _aL0 ae' i * (1 - 1 / cos (_section_sweep sec i)).
Proof.
  intros Hs Hw. unfold Solver._calc_invariant_flow_properties.
  assert (HV : exists V, Trailing._V_ji sp_k0 sp_k1 c g f = Some V).
  { unfold Trailing._V_ji. destruct (use_wave_corrections c); [|eauto].
    rewrite Hw by reflexivity. eauto. }
  destruct HV as (V & ->). rewrite Hs. cbv zeta. unfold fst, snd.
  rewrite correct_CL_for_sweep_CL. reflexivity.
Qed.

Lemma integration_keeps_CL (u_a_unswept u_n_unswept : nat -> vec3)
    (ae : Aero) :
  _CL (fst (Solver._integrate_forces_and_moments c objs sec g f N
              u_a_unswept u_n_unswept ae)) = _CL ae.
Proof. reflexivity. Qed.

Lemma integration_scales_Cm (u_a_unswept u_n_unswept : nat -> vec3)
    (ae : Aero) (i : nat) :
  _use_swept_sections c = true ->
  let ae' := fst (Solver._integrate_forces_and_moments c objs sec g f N
                    u_a_unswept u_n_unswept ae) in
  _Cm ae' i =
  at_cp objs (_Cm ae i)
    (fun a k => Airplane.get_cp_Cm a k (_alpha ae' i) (_Re ae' i) (_M ae' i)) i
  * (1 / cos (_section_sweep sec i)).
Proof.
  intros Hs. unfold Solver._integrate_forces_and_moments, set_gamma.
  cbv zeta. unfold fst. cbn [_Cm _alpha _Re _M].
  rewrite Hs. rewrite C_sweep_inv_cos. reflexivity.
Qed.

End Sweep.

Section Residual.

Variable c : Config.
Variable objs : list Airplane.t.
Variable sec : Sections.
Variable g : Geometry.
Variable f : Freestream.
Variable N : nat.

(** The arrays [_lifting_line_residual] hands to [_get_section_lift] *)
Definition residual_inputs (ae : Aero) (gamma : nat -> R) : Aero :=
  let ae0 := set_gamma ae gamma in
  {| _V_ji := _V_ji ae0; _gamma := _gamma ae0; _Re := _Re ae0;
     _M := _M ae0; _aL0 := _aL0 ae0; _CLa := _CLa ae0;
     _CLRe := _CLRe ae0; _CLM := _CLM ae0; _CL := _CL ae0;
     _CD := _CD ae0; _Cm := _Cm ae0; _alpha_inf := _alpha_inf ae0;
     _alpha := _alpha ae0; _v_i := Solver._calc_v_i f N ae0;
     _w_i := fun i => cross (Solver._calc_v_i f N ae0 i) (_dl g i);
     _w_i_mag := fun i => norm (cross (Solver._calc_v_i f N ae0 i) (_dl g i));
     _v_i_in_plane := _v_i_in_plane ae0;
     _V_i_in_plane_2 := _V_i_in_plane_2 ae0;
     _V_i_in_plane := _V_i_in_plane ae0; _V_i_2 := _V_i_2 ae0;
     _V_i := _V_i ae0; _v_a := _v_a ae0; _v_n := _v_n ae0;
     _u_i := _u_i ae0 |}.

Lemma residual_aero (ae : Aero) (gamma : nat -> R) :
  fst (Solver._lifting_line_residual c objs sec g f N ae gamma) =
  fst (Solver._get_section_lift c objs sec g f (residual_inputs ae gamma)).
Proof.
  unfold Solver._lifting_line_residual. cbv zeta.
  fold (residual_inputs ae gamma).
  destruct (Solver._get_section_lift c objs sec g f (residual_inputs ae gamma)).
  reflexivity.
Qed.

Lemma residual_value (ae : Aero) (gamma : nat -> R) (i : nat) :
  snd (Solver._lifting_line_residual c objs sec g f N ae gamma) i =
  2.0 * _w_i_mag (residual_inputs ae gamma) i * gamma i
  - snd (Solver._get_section_lift c objs sec g f (residual_inputs ae gamma)) i.
Proof.
  unfold Solver._lifting_line_residual. cbv zeta.
  fold (residual_inputs ae gamma).
  destruct (Solver._get_section_lift c objs sec g f (residual_inputs ae gamma)).
  reflexivity.
Qed.

End Residual.

Section SweepClaim.

Variable c : Config.
Variable objs : list Airplane.t.
Variable g : Geometry.
Variable f : Freestream.
Variable N : nat.

Let sec := _store_aircraft_properties c objs.

(** C7, as the code has it.  With swept-section correction enabled: the
    local chord of every control point is the aircraft's chord times
    [cos(sweep)]; the CL evaluated in the flow-state evaluation and the CL
    evaluated in the residual (legacy MachUp Pro matching off) each get
    the increment [CLa aL0 (1 - 1/cos(sweep))] from the one function
    [_correct_CL_for_sweep]; the force and moment integration leaves CL as
    it is, and scales the section moment coefficient by
    [1/cos(sweep)]. *)
Theorem sweep_correction (sp_k0 sp_k1 : R -> R)
    (u_a_unswept u_n_unswept : nat -> vec3) (ae : Aero) (gamma : nat -> R) :
  _use_swept_sections c = true ->
  (forall i,
     _c_bar sec i = at_cp objs 0 Airplane.c_bar i * cos (_section_sweep sec i))
  /\
  ((use_wave_corrections c = true -> has_FS c = true) ->
   let ae' := snd (fst (Solver._calc_invariant_flow_properties
                          sp_k0 sp_k1 c objs sec g f N ae)) in
   forall i,
     _CL ae' i =
     at_cp objs (_CL ae i)
       (fun a k =>
          Airplane.get_cp_CL a k (_alpha_inf ae' i) (_Re ae' i) (_M ae' i)) i
     + _CLa ae' i * _aL0 ae' i * (1 - 1 / cos (_section_sweep sec i)))
  /\
  (_match_machup_pro c = false ->
   let ae' := fst (Solver._lifting_line_residual c objs sec g f N ae gamma) in
   forall i,
     _CL ae' i =
     at_cp objs (_CL ae i)
       (fun a k =>
          Airplane.get_cp_CL a k (_alpha ae' i) (_Re ae' i) (_M ae' i)) i
     + _CLa ae' i * _aL0 ae' i * (1 - 1 / cos (_section_sweep sec i)))
  /\
  (let ae' := fst (Solver._integrate_forces_and_moments c objs sec g f N
                     u_a_unswept u_n_unswept ae) in
   _CL ae' = _CL ae /\
   forall i,
     _Cm ae' i =
     at_cp objs (_Cm ae i)
       (fun a k =>
          Airplane.get_cp_Cm a k (_alpha ae' i) (_Re ae' i) (_M ae' i)) i
     * (1 / cos (_section_sweep sec i))).
Proof.
  intros Hs. split; [|split; [|split]].
  - intros i. apply c_bar_swept, Hs.
  - intros Hw ae' i. apply flow_state_swept_CL; assumption.
  - intros Hm ae' i. unfold ae'. rewrite residual_aero.
    apply (section_lift_swept_CL c objs g f (residual_inputs g f N ae gamma)
             i Hs Hm).
  - cbv zeta. split.
    + apply integration_keeps_CL.
    + intros i. apply integration_scales_Cm, Hs.
Qed.

End SweepClaim.

Module SweptExample.

(** One section swept by sixty degrees, with [CL = CLa = aL0 = 1]. *)
Definition swept_plane : Airplane.t :=
  ExampleScenes.constant_section_plane "swept" 1 (PI / 3) 1 1 1.

Definition swept_sections : Sections :=
  _store_aircraft_properties Examples.default_config [swept_plane].

(** Arrays as a solve leaves them: [CL = 1], [CLa = 1], [aL0 = 1]. *)
Definition solved_aero : Aero :=
  {| _V_ji := fun _ _ => vzero; _gamma := fun _ => 1; _Re := fun _ => 0;
     _M := fun _ => 0; _aL0 := fun _ => 1; _CLa := fun _ => 1;
     _CLRe := fun _ => 0; _CLM := fun _ => 0; _CL := fun _ => 1;
     _CD := fun _ => 0; _Cm := fun _ => 0; _alpha_inf := fun _ => 0;
     _alpha := fun _ => 0; _v_i := fun _ => mk3 1 0 0;
     _w_i := fun _ => vzero; _w_i_mag := fun _ => 0;
     _v_i_in_plane := fun _ => mk3 1 0 0;
     _V_i_in_plane_2 := fun _ => 1; _V_i_in_plane := fun _ => 1;
     _V_i_2 := fun _ => 1; _V_i := fun _ => 1; _v_a := fun _ => 1;
     _v_n := fun _ => 0; _u_i := fun _ => mk3 1 0 0 |}.

Lemma swept_increment :
  _CLa solved_aero 0%nat * _aL0 solved_aero 0%nat
  * (1 - 1 / cos (_section_sweep swept_sections 0)) = -1.
Proof.
  unfold swept_sections, _store_aircraft_properties. simpl.
  rewrite cos_PI3. lra.
Qed.

End SweptExample.

(** C7, as the specification states it, fails: the force and moment
    integration does not apply the CL correction.  On a section swept by
    sixty degrees with [CLa = aL0 = 1] the increment is [-1]; the residual
    correction turns [CL = 1] into [0], the integration leaves it at
    [1]. *)
Lemma sweep_correction_counterexample :
  _use_swept_sections Examples.default_config = true /\
  _CL (Solver._correct_CL_for_sweep SweptExample.swept_sections
         SweptExample.solved_aero) 0%nat = 0 /\
  _CL (fst (Solver._integrate_forces_and_moments Examples.default_config
              [SweptExample.swept_plane] SweptExample.swept_sections
              Examples.hook_geometry Examples.wake_along_x 1
              (fun _ => mk3 1 0 0) (fun _ => mk3 0 0 1)
              SweptExample.solved_aero)) 0%nat = 1 /\
  _CL (fst (Solver._integrate_forces_and_moments Examples.default_config
              [SweptExample.swept_plane] SweptExample.swept_sections
              Examples.hook_geometry Examples.wake_along_x 1
              (fun _ => mk3 1 0 0) (fun _ => mk3 0 0 1)
              SweptExample.solved_aero)) 0%nat
  <> _CL SweptExample.solved_aero 0%nat
     + _CLa SweptExample.solved_aero 0%nat * _aL0 SweptExample.solved_aero 0%nat
       * (1 - 1 / cos (_section_sweep SweptExample.swept_sections 0)).
Proof.
  split; [reflexivity|]. split; [|split].
  - unfold SweptExample.swept_sections.
    rewrite correct_CL_for_sweep_CL.
    fold SweptExample.swept_sections.
    rewrite SweptExample.swept_increment. simpl. lra.
  - reflexivity.
  - rewrite SweptExample.swept_increment.
    unfold SweptExample.swept_sections. rewrite integration_keeps_CL.
    simpl. lra.
Qed.

Lemma sweep_correction_witness :
  _c_bar SweptExample.swept_sections 0
  = at_cp [SweptExample.swept_plane] 0 Airplane.c_bar 0
    * cos (_section_sweep SweptExample.swept_sections 0) /\
  (let ae' := fst (Solver._lifting_line_residual Examples.default_config
                     [SweptExample.swept_plane] SweptExample.swept_sections
                     Examples.hook_geometry Examples.wake_along_x 1
                     SweptExample.solved_aero (fun _ => 1)) in
   forall i,
     _CL ae' i =
     at_cp [SweptExample.swept_plane] (_CL SweptExample.solved_aero i)
       (fun a k =>
          Airplane.get_cp_CL a k (_alpha ae' i) (_Re ae' i) (_M ae' i)) i
     + _CLa ae' i * _aL0 ae' i
       * (1 - 1 / cos (_section_sweep SweptExample.swept_sections i))).
Proof.
  destruct (sweep_correction Examples.default_config
              [SweptExample.swept_plane] Examples.hook_geometry
              Examples.wake_along_x 1 (fun _ => 0) (fun _ => 0)
              (fun _ => mk3 1 0 0) (fun _ => mk3 0 0 1)
              SweptExample.solved_aero (fun _ => 1) eq_refl)
    as (Hc & _ & Hr & _).
  split.
  - apply Hc.
  - apply Hr. reflexivity.
Defined.

(** ** The linear solver *)

(** The system as the specification words it, with the freestream speed
    [V_inf] throughout. *)
Definition spec_linear_b (sec : Sections) (f : Freestream) (ae : Aero)
    (i : nat) : R :=
  Trailing._V_inf f i * Trailing._V_inf f i * _dS sec i * _CL ae i.

Section LinearSolve.

Variable linalg_solve :
  nat -> (nat -> nat -> R) -> (nat -> R) -> option (nat -> R).
Variables sp_k0 sp_k1 : R -> R.
Variable c : Config.
Variable objs : list Airplane.t.
Variable sec : Sections.
Variable g : Geometry.
Variable f : Freestream.
Variable N : nat.

(** The freestream speed the linear system is built with *)
Definition linear_speed (i : nat) : R :=
  if _use_in_plane c then Solver._V_inf_in_plane g f i
  else Trailing._V_inf f i.

Lemma linear_A_entries (ae : Aero) (i j : nat) :
  Solver.linear_A c sec g f ae i j =
  - (linear_speed i * _CLa ae i * _dS sec i) * dot (_V_ji ae i j) (_u_n g i)
  + (if (i =? j)%nat
     then 2 * norm (cross (_v_inf_and_rot f i) (_dl g i)) else 0).
Proof.
  unfold Solver.linear_A, linear_speed, Solver.V_ji_dot_u_n, Solver._V_inf.
  cbv zeta. destruct (_use_in_plane c), (i =? j)%nat; unfold Q2R; simpl; field.
Qed.

Lemma linear_b_entries (ae : Aero) (i : nat) :
  Solver.linear_b c sec g f ae i =
  linear_speed i * linear_speed i * _dS sec i * _CL ae i.
Proof.
  unfold Solver.linear_b, linear_speed, Solver._V_inf.
  destruct (_use_in_plane c); reflexivity.
Qed.

Lemma solve_linear_steps (ae : Aero) :
  (use_wave_corrections c = true -> has_FS c = true) ->
  let flow := Solver._calc_invariant_flow_properties
                sp_k0 sp_k1 c objs sec g f N ae in
  let ae1 := snd (fst flow) in
  Solver._solve_linear linalg_solve sp_k0 sp_k1 c objs sec g f N ae =
  match linalg_solve N (Solver.linear_A c sec g f ae1)
                       (Solver.linear_b c sec g f ae1) with
  | Some gamma => (Return tt, set_gamma ae1 gamma, snd flow)
  | None => (Raise LinAlgError, ae1, snd flow)
  end.
Proof.
  intros Hw. cbv zeta. unfold Solver._solve_linear.
  pose proof (flow_state_returns sp_k0 sp_k1 c objs sec g f N ae Hw) as Ho.
  destruct (Solver._calc_invariant_flow_properties
              sp_k0 sp_k1 c objs sec g f N ae) as [[o ae1] ws].
  simpl in Ho. subst o. reflexivity.
Qed.

Lemma flow_state_aL0 (ae : Aero) (i : nat) :
  (use_wave_corrections c = true -> has_FS c = true) ->
  let ae' := snd (fst (Solver._calc_invariant_flow_properties
                         sp_k0 sp_k1 c objs sec g f N ae)) in
  _aL0 ae' i =
  at_cp objs (_aL0 ae i)
    (fun a k => Airplane.get_cp_aL0 a k (_Re ae' i) (_M ae' i)) i /\
  _CLa ae' i =
  at_cp objs (_CLa ae i)
    (fun a k =>
       Airplane.get_cp_CLa a k (_alpha_inf ae' i) (_Re ae' i) (_M ae' i)) i /\
  _CL ae' i =
  at_cp objs (_CL ae i)
    (fun a k =>
       Airplane.get_cp_CL a k (_alpha_inf ae' i) (_Re ae' i) (_M ae' i)) i
  + (if _use_swept_sections c
     then _CLa ae' i * (_aL0 ae' i - _aL0 ae' i * _C_sweep_inv sec i)
     else 0).
Proof.
  intros Hw. unfold Solver._calc_invariant_flow_properties.
  assert (HV : exists V, Trailing._V_ji sp_k0 sp_k1 c g f = Some V).
  { unfold Trailing._V_ji. destruct (use_wave_corrections c); [|eauto].
    rewrite Hw by reflexivity. eauto. }
  destruct HV as (V & ->). cbv zeta. unfold fst, snd.
  destruct (_use_swept_sections c).
  - repeat split.
  - repeat split. symmetry. apply Rplus_0_r.
Qed.

(** C6, as the code has it.  After the flow-state evaluation the linear
    solver builds [A] with entries [-V CLa dS (V_ji[i,j] . u_n[i])], adds
    [2 |v_inf_and_rot x dl|] on the diagonal, and [b = V^2 dS CL], where
    [V] is the in-plane freestream speed when in-plane projection is on
    (the default) and [V_inf] otherwise, and [v_inf_and_rot] is the
    freestream with the rigid-body rotation; [CL] is the section lift
    coefficient at the freestream angle of attack, with the sweep
    increment when swept sections are on; gamma is the result of one
    [np.linalg.solve] of that system. *)
Theorem linear_system (ae : Aero) :
  (use_wave_corrections c = true -> has_FS c = true) ->
  let flow := Solver._calc_invariant_flow_properties
                sp_k0 sp_k1 c objs sec g f N ae in
  let ae1 := snd (fst flow) in
  let A := Solver.linear_A c sec g f ae1 in
  let b := Solver.linear_b c sec g f ae1 in
  (forall i j,
     A i j =
     - (linear_speed i * _CLa ae1 i * _dS sec i)
       * dot (_V_ji ae1 i j) (_u_n g i)
     + (if (i =? j)%nat
        then 2 * norm (cross (_v_inf_and_rot f i) (_dl g i)) else 0)) /\
  (forall i, b i = linear_speed i * linear_speed i * _dS sec i * _CL ae1 i) /\
  (forall i,
     _CL ae1 i =
     at_cp objs (_CL ae i)
       (fun a k =>
          Airplane.get_cp_CL a k (_alpha_inf ae1 i) (_Re ae1 i) (_M ae1 i)) i
     + (if _use_swept_sections c
        then _CLa ae1 i * (_aL0 ae1 i - _aL0 ae1 i * _C_sweep_inv sec i)
        else 0)) /\
  (forall gamma,
     linalg_solve N A b = Some gamma ->
     Solver._solve_linear linalg_solve sp_k0 sp_k1 c objs sec g f N ae
     = (Return tt, set_gamma ae1 gamma, snd flow)) /\
  (linalg_solve N A b = None ->
   fst (fst (Solver._solve_linear linalg_solve sp_k0 sp_k1 c objs sec g f N ae))
   = Raise LinAlgError).
Proof.
  intros Hw. cbv zeta. split; [|split; [|split; [|split]]].
  - intros i j. apply linear_A_entries.
  - intros i. apply linear_b_entries.
  - intros i. apply (flow_state_aL0 ae i Hw).
  - intros gamma Hg. rewrite (solve_linear_steps ae Hw). cbv zeta.
    rewrite Hg. reflexivity.
  - intros Hn. rewrite (solve_linear_steps ae Hw). cbv zeta.
    rewrite Hn. reflexivity.
Qed.

End LinearSolve.

Module SideslipExample.

(** A freestream of speed five with a spanwise component of four. *)
Definition sideslip_flow : Freestream :=
  {| _v_inf := fun _ => mk3 3 4 0; _v_inf_and_rot := fun _ => mk3 3 4 0;
     _u_trailing_0 := fun _ => mk3 (3/5) (4/5) 0;
     _u_trailing_1 := fun _ => mk3 (3/5) (4/5) 0;
     _u_trailing_0_image := fun _ => mk3 (3/5) (4/5) 0;
     _u_trailing_1_image := fun _ => mk3 (3/5) (4/5) 0 |}.

Definition objs : list Airplane.t := Dict.values ExampleScenes.one_plane.

Definition sec : Sections :=
  _store_aircraft_properties Examples.default_config objs.

(** The arrays after the flow-state evaluation of the linear solver *)
Definition flow_aero : Aero :=
  snd (fst (Solver._calc_invariant_flow_properties (fun _ => 0) (fun _ => 0)
              Examples.default_config objs sec Examples.hook_geometry
              sideslip_flow 1 SceneOps.zeros_aero)).

Lemma speed : Trailing._V_inf sideslip_flow 0 = 5.
Proof.
  unfold Trailing._V_inf. apply norm_of_square; [lra|].
  unfold dot. simpl. lra.
Qed.

Lemma speed_in_plane :
  Solver._V_inf_in_plane Examples.hook_geometry sideslip_flow 0 = 3.
Proof.
  unfold Solver._V_inf_in_plane. apply norm_of_square; [lra|].
  unfold dot, Solver._v_inf_in_plane, Bound.P_in_plane_apply. simpl. lra.
Qed.

Lemma flow_CL : _CL flow_aero 0%nat = 1.
Proof.
  unfold flow_aero.
  destruct (flow_state_aL0 (fun _ => 0) (fun _ => 0) Examples.default_config
              objs sec Examples.hook_geometry sideslip_flow 1
              SceneOps.zeros_aero 0%nat) as (Ha & Hla & Hl);
    [discriminate|].
  cbv zeta in Ha, Hla, Hl. rewrite Hl, Hla, Ha. simpl. lra.
Qed.

End SideslipExample.

(** C6, as the specification states it, fails under the default
    in-plane projection: with a freestream of speed five whose in-plane
    part has speed three, area two and [CL = 1], the right-hand side is
    [3^2 * 2 * 1 = 18], not [V_inf^2 dS CL = 50]. *)
Lemma linear_system_counterexample :
  _use_in_plane Examples.default_config = true /\
  Solver.linear_b Examples.default_config SideslipExample.sec
    Examples.hook_geometry SideslipExample.sideslip_flow
    SideslipExample.flow_aero 0 = 18 /\
  spec_linear_b SideslipExample.sec SideslipExample.sideslip_flow
    SideslipExample.flow_aero 0 = 50 /\
  Solver.linear_b Examples.default_config SideslipExample.sec
    Examples.hook_geometry SideslipExample.sideslip_flow
    SideslipExample.flow_aero 0
  <> spec_linear_b SideslipExample.sec SideslipExample.sideslip_flow
       SideslipExample.flow_aero 0.
Proof.
  assert (Hb : Solver.linear_b Examples.default_config SideslipExample.sec
                 Examples.hook_geometry SideslipExample.sideslip_flow
                 SideslipExample.flow_aero 0 = 18).
  { rewrite linear_b_entries. unfold linear_speed.
    cbn [_use_in_plane Examples.default_config].
    rewrite SideslipExample.speed_in_plane, SideslipExample.flow_CL.
    simpl. lra. }
  assert (Hs : spec_linear_b SideslipExample.sec
                 SideslipExample.sideslip_flow SideslipExample.flow_aero 0
               = 50).
  { unfold spec_linear_b.
    rewrite SideslipExample.speed, SideslipExample.flow_CL. simpl. lra. }
  split; [reflexivity|]. split; [exact Hb|]. split; [exact Hs|].
  rewrite Hb, Hs. lra.
Qed.

(** ** The nonlinear solver *)

Section NonlinearLoop.

Variable linalg_solve :
  nat -> (nat -> nat -> R) -> (nat -> R) -> option (nat -> R).
Variable c : Config.
Variable objs : list Airplane.t.
Variable sec : Sections.
Variable g : Geometry.
Variable f : Freestream.
Variable N : nat.

Local Abbreviation residual := (Solver._lifting_line_residual c objs sec g f N).
Local Abbreviation loop := (Solver.nonlinear_loop linalg_solve c objs sec g f N).

Lemma loop_converged (V : nat -> nat -> vec3) (fuel : nat) (it : Z)
    (err : R) (ae : Aero) :
  err <= _solver_convergence c ->
  loop V fuel it err ae =
  Some {| nl_outcome := Return tt;
          nl_aero := fst (residual ae (_gamma ae));
          nl_iteration := it |}.
Proof.
  intros H. destruct fuel; simpl;
    (destruct (Rgt_dec err (_solver_convergence c)) as [Hgt | _]; [lra|]);
    destruct (residual ae (_gamma ae)); reflexivity.
Qed.

Lemma loop_singular (V : nat -> nat -> vec3) (fuel : nat) (it : Z)
    (err : R) (ae : Aero) :
  err > _solver_convergence c ->
  linalg_solve N (Solver.jacobian c sec g f V (fst (residual ae (_gamma ae))))
               (fun i => - snd (residual ae (_gamma ae)) i) = None ->
  loop V (S fuel) it err ae =
  Some {| nl_outcome := Raise LinAlgError;
          nl_aero := fst (residual ae (_gamma ae));
          nl_iteration := (it + 1)%Z |}.
Proof.
  intros H Hs. simpl.
  destruct (Rgt_dec err (_solver_convergence c)) as [_ | Hn]; [|contradiction].
  destruct (residual ae (_gamma ae)) as [ae1 R_]. simpl in Hs.
  rewrite Hs. reflexivity.
Qed.

Lemma loop_pass (V : nat -> nat -> vec3) (fuel : nat) (it : Z)
    (err : R) (ae : Aero) (dGamma : nat -> R) :
  err > _solver_convergence c ->
  linalg_solve N (Solver.jacobian c sec g f V (fst (residual ae (_gamma ae))))
               (fun i => - snd (residual ae (_gamma ae)) i) = Some dGamma ->
  (it + 1 < _max_solver_iterations c)%Z ->
  loop V (S fuel) it err ae =
  loop V fuel (it + 1)%Z (norm_n N (snd (residual ae (_gamma ae))))
       (Solver.update_gamma c (fst (residual ae (_gamma ae))) dGamma).
Proof.
  intros H Hs Hit. cbn [Solver.nonlinear_loop].
  destruct (Rgt_dec err (_solver_convergence c)) as [_ | Hn]; [|contradiction].
  destruct (residual ae (_gamma ae)) as [ae1 R_]. simpl in Hs.
  rewrite Hs.
  destruct (Z.geb_spec (it + 1) (_max_solver_iterations c)); [lia|].
  reflexivity.
Qed.

Lemma loop_max_iterations (V : nat -> nat -> vec3) (fuel : nat) (it : Z)
    (err : R) (ae : Aero) (dGamma : nat -> R) :
  err > _solver_convergence c ->
  linalg_solve N (Solver.jacobian c sec g f V (fst (residual ae (_gamma ae))))
               (fun i => - snd (residual ae (_gamma ae)) i) = Some dGamma ->
  (it + 1 >= _max_solver_iterations c)%Z ->
  let ae2 := Solver.update_gamma c (fst (residual ae (_gamma ae))) dGamma in
  loop V (S fuel) it err ae =
  Some {| nl_outcome :=
            Raise (SolverNotConvergedError (_solver_type c)
                     (norm_n N (snd (residual ae2 (_gamma ae2)))));
          nl_aero := fst (residual ae2 (_gamma ae2));
          nl_iteration := (it + 1)%Z |}.
Proof.
  intros H Hs Hit. cbn [Solver.nonlinear_loop]. cbv zeta.
  destruct (Rgt_dec err (_solver_convergence c)) as [_ | Hn]; [|contradiction].
  destruct (residual ae (_gamma ae)) as [ae1 R_]. simpl in Hs.
  rewrite Hs. cbn [fst snd].
  destruct (Z.geb_spec (it + 1) (_max_solver_iterations c)); [|lia].
  destruct (residual (Solver.update_gamma c ae1 dGamma)
              (_gamma (Solver.update_gamma c ae1 dGamma))).
  reflexivity.
Qed.

(** The loop never runs out of passes when started with enough of them:
    every pass either raises or leaves [iteration] below the maximum. *)
Lemma loop_total (V : nat -> nat -> vec3) (fuel : nat) :
  forall (it : Z) (err : R) (ae : Aero),
    (1 <= fuel)%nat ->
    (_max_solver_iterations c <= it + Z.of_nat fuel)%Z ->
    exists r, loop V fuel it err ae = Some r.
Proof.
  induction fuel as [|fuel IH]; intros it err ae Hf Hmax; [lia|].
  destruct (Rgt_dec err (_solver_convergence c)) as [Hgt | Hle].
  - destruct (linalg_solve N
                (Solver.jacobian c sec g f V (fst (residual ae (_gamma ae))))
                (fun i => - snd (residual ae (_gamma ae)) i))
      as [dGamma|] eqn:Hs.
    + destruct (Z_lt_ge_dec (it + 1) (_max_solver_iterations c)) as [Hlt | Hge].
      * rewrite (loop_pass V fuel it err ae dGamma Hgt Hs Hlt).
        apply IH; lia.
      * rewrite (loop_max_iterations V fuel it err ae dGamma Hgt Hs Hge).
        eauto.
    + rewrite (loop_singular V fuel it err ae Hgt Hs). eauto.
  - rewrite loop_converged by lra. eauto.
Qed.

Lemma solve_nonlinear_total (ae : Aero) :
  exists r,
    Solver._solve_nonlinear linalg_solve c objs sec g f N ae = Some r.
Proof.
  unfold Solver._solve_nonlinear. apply loop_total;
    unfold Solver.nonlinear_fuel; lia.
Qed.

(** A run that got past the check at the top of a pass ends with a
    larger [iteration]. *)
Lemma loop_iteration_grows (V : nat -> nat -> vec3) (fuel : nat) :
  forall (it : Z) (err : R) (ae : Aero) (r : nonlinear_result),
    loop V fuel it err ae = Some r ->
    (it <= nl_iteration r)%Z /\
    (err > _solver_convergence c -> (it < nl_iteration r)%Z).
Proof.
  induction fuel as [|fuel IH]; intros it err ae r Hr.
  - simpl in Hr.
    destruct (Rgt_dec err (_solver_convergence c)) as [Hgt | Hle];
      [discriminate|].
    destruct (residual ae (_gamma ae)). injection Hr as <-. simpl.
    split; [lia | intros; contradiction].
  - destruct (Rgt_dec err (_solver_convergence c)) as [Hgt | Hle].
    + destruct (linalg_solve N
                  (Solver.jacobian c sec g f V (fst (residual ae (_gamma ae))))
                  (fun i => - snd (residual ae (_gamma ae)) i))
        as [dGamma|] eqn:Hs.
      * destruct (Z_lt_ge_dec (it + 1) (_max_solver_iterations c))
          as [Hlt | Hge].
        -- rewrite (loop_pass V fuel it err ae dGamma Hgt Hs Hlt) in Hr.
           apply IH in Hr as [Hr _]. split; intros; lia.
        -- rewrite (loop_max_iterations V fuel it err ae dGamma Hgt Hs Hge)
             in Hr.
           injection Hr as <-. simpl. split; intros; lia.
      * rewrite (loop_singular V fuel it err ae Hgt Hs) in Hr.
        injection Hr as <-. simpl. split; intros; lia.
    + rewrite loop_converged in Hr by lra. injection Hr as <-. simpl.
      split; [lia | intros; contradiction].
Qed.

Lemma residual_keeps_gamma (ae : Aero) (gamma : nat -> R) :
  _gamma (fst (residual ae gamma)) = gamma.
Proof.
  rewrite residual_aero. unfold Solver._get_section_lift. cbv zeta.
  destruct (_match_machup_pro c); [reflexivity|].
  destruct (_use_swept_sections c); reflexivity.
Qed.

End NonlinearLoop.

(** A solve of one-by-one systems, as [np.linalg.solve] does them: it
    refuses a singular matrix, and every other size is left out. *)
Definition solve_1x1 (n : nat) (A : nat -> nat -> R) (b : nat -> R)
  : option (nat -> R) :=
  match n with
  | 1%nat =>
      if Req_dec_T (A 0%nat 0%nat) 0 then None
      else Some (fun _ => b 0%nat / A 0%nat 0%nat)
  | _ => None
  end.

Lemma solve_1x1_sound (n : nat) (A : nat -> nat -> R) (b x : nat -> R) :
  solve_1x1 n A b = Some x ->
  forall i, (i < n)%nat -> sum_upto n (fun j => A i j * x j) = b i.
Proof.
  unfold solve_1x1. destruct n as [|[|n]]; try discriminate.
  destruct (Req_dec_T (A 0%nat 0%nat) 0) as [|Hne]; [discriminate|].
  intros Hx i Hi. injection Hx as <-.
  assert (i = 0%nat) as -> by lia. simpl. field. exact Hne.
Qed.

Module SolverExample.

(** The default parameters with the given tolerance, relaxation and
    iteration limit. *)
Definition config (tol relax : R) (maxit : Z) : Config :=
  {| _solver_type := "nonlinear"; _solver_convergence := tol;
     _solver_relaxation := relax; _max_solver_iterations := maxit;
     _use_swept_sections := true; _use_total_velocity := true;
     _use_in_plane := true; _match_machup_pro := false;
     _impingement_threshold := 1e-10; has_FS := false;
     FS_biplane_boundary := false; submergence := 0;
     use_wave_corrections := false |}.

(** One unswept section of area two with [CL = 1/4] at every angle. *)
Definition plane : Airplane.t :=
  ExampleScenes.constant_section_plane "wing" 1 0 (1/4) 0 0.

Definition objs : list Airplane.t := [plane].

Section WithParameters.

Variables tol relax : R.
Variable maxit : Z.

Let cfg := config tol relax maxit.
Let sec := _store_aircraft_properties cfg objs.
Let g := Examples.hook_geometry.
Let f := Examples.wake_along_x.

(** The arrays [solve_forces] hands to the nonlinear solver with
    [initial_guess = "previous"] on a fresh scene: zero circulation and
    the flow-state evaluation. *)
Definition start : Aero :=
  snd (fst (Solver._calc_invariant_flow_properties (fun _ => 0) (fun _ => 0)
              cfg objs sec g f 1 SceneOps.zeros_aero)).

Lemma start_fields :
  _gamma start 0%nat = 0 /\ vx (_V_ji start 0%nat 0%nat) = 0.
Proof.
  unfold start, Solver._calc_invariant_flow_properties, Trailing._V_ji.
  cbn [use_wave_corrections cfg config _use_swept_sections fst snd].
  split; [reflexivity|].
  cbn [_V_ji Solver._correct_CL_for_sweep set_CL Solver.airfoil_estimates
       set_V_ji].
  unfold Trailing.V_ji_sum. cbn [has_FS cfg config andb].
  unfold Trailing.real_sum, Trailing.V_ji_due_to_0, Trailing.V_ji_due_to_1,
    Bound._V_ji_const, Bound.V_ji_bound, Bound.V_ji_joint_0,
    Bound.V_ji_joint_1, Trailing.nan_to_num.
  destruct (Rgt_dec _ _), (Rgt_dec _ _); simpl; unfold Rdiv; ring.
Qed.

Lemma v_i_at (ae : Aero) :
  _gamma ae 0%nat = 0 -> Solver._calc_v_i f 1 ae 0 = mk3 1 0 0.
Proof.
  intros H. unfold Solver._calc_v_i. apply vec3_eq; simpl; rewrite H; ring.
Qed.

Lemma residual_at (ae : Aero) :
  _gamma ae 0%nat = 0 ->
  snd (Solver._lifting_line_residual cfg objs sec g f 1 ae (_gamma ae)) 0%nat
  = - (1/2).
Proof.
  intros H. rewrite residual_value, H.
  unfold Solver._get_section_lift.
  cbn [_match_machup_pro _use_swept_sections _use_total_velocity
       _use_in_plane cfg config snd].
  unfold Solver._correct_CL_for_sweep, set_CL.
  cbn [_V_i_in_plane_2 _CL _CLa _aL0 _v_i residual_inputs set_gamma _gamma].
  rewrite (v_i_at (set_gamma ae (_gamma ae)) H).
  unfold dot, Bound.P_in_plane_apply. simpl. lra.
Qed.

Lemma residual_norm_at (ae : Aero) :
  _gamma ae 0%nat = 0 ->
  norm_n 1 (snd (Solver._lifting_line_residual cfg objs sec g f 1 ae
                   (_gamma ae))) = 1/2.
Proof.
  intros H. unfold norm_n. cbn [sum_upto]. rewrite (residual_at ae H).
  replace (0 + - (1 / 2) * - (1 / 2)) with ((1/2) * (1/2)) by lra.
  apply sqrt_square. lra.
Qed.

Lemma jacobian_at (V0 ae : Aero) :
  vx (_V_ji V0 0%nat 0%nat) = 0 ->
  _gamma ae 0%nat = 0 ->
  Solver.jacobian cfg sec g f (Solver.V_ji_for_jacobian cfg g V0)
    (fst (Solver._lifting_line_residual cfg objs sec g f 1 ae (_gamma ae)))
    0 0 = 4.
Proof.
  intros HV H. rewrite residual_aero.
  unfold Solver.jacobian, Solver.V_ji_for_jacobian, Solver._get_section_lift.
  cbn [_match_machup_pro _use_swept_sections _use_total_velocity
       _use_in_plane cfg config fst Nat.eqb].
  unfold Solver._correct_CL_for_sweep, set_CL.
  cbn [_V_i_in_plane_2 _V_i_in_plane _CL _CLa _CLRe _CLM _aL0 _v_i _w_i
       _w_i_mag _v_i_in_plane _v_a _v_n _gamma residual_inputs set_gamma].
  rewrite (v_i_at (set_gamma ae (_gamma ae)) H), H.
  assert (Hw : norm (cross (mk3 1 0 0) (_dl g 0)) = 2).
  { apply norm_of_square; [lra|]. unfold dot. simpl. lra. }
  rewrite Hw.
  unfold dot, Bound.P_in_plane_apply. simpl. rewrite HV.
  unfold Rdiv. ring.
Qed.

Lemma solve_at (V0 ae : Aero) :
  vx (_V_ji V0 0%nat 0%nat) = 0 ->
  _gamma ae 0%nat = 0 ->
  exists dGamma,
    solve_1x1 1
      (Solver.jacobian cfg sec g f (Solver.V_ji_for_jacobian cfg g V0)
         (fst (Solver._lifting_line_residual cfg objs sec g f 1 ae (_gamma ae))))
      (fun i =>
         - snd (Solver._lifting_line_residual cfg objs sec g f 1 ae (_gamma ae))
             i)
    = Some dGamma /\ dGamma 0%nat = 1/8.
Proof.
  intros HV H. unfold solve_1x1.
  rewrite (jacobian_at V0 ae HV H), (residual_at ae H).
  destruct (Req_dec_T 4 0) as [Hz | _]; [lra|].
  eexists. split; [reflexivity|]. simpl. lra.
Qed.

End WithParameters.

End SolverExample.

Section NonlinearClaim.

Variable linalg_solve :
  nat -> (nat -> nat -> R) -> (nat -> R) -> option (nat -> R).
Variable c : Config.
Variable objs : list Airplane.t.
Variable sec : Sections.
Variable g : Geometry.
Variable f : Freestream.
Variable N : nat.

(** What [np.linalg.solve] returns solves the system. *)
Hypothesis linalg_solve_sound :
  forall n A b x,
    linalg_solve n A b = Some x ->
    forall i, (i < n)%nat -> sum_upto n (fun j => A i j * x j) = b i.

Local Abbreviation residual := (Solver._lifting_line_residual c objs sec g f N).
Local Abbreviation loop := (Solver.nonlinear_loop linalg_solve c objs sec g f N).

(** C3, as the code has it.  At the top of a pass with counter
    [iteration] and current [error] (100 before the first pass, afterwards
    the Euclidean norm of the residual computed in the previous pass,
    before the update of that pass): the loop ends as converged, without
    another pass, exactly when [error] is not greater than the tolerance.
    Otherwise the pass evaluates the residual [R] at the current gamma,
    assembles the Jacobian [J], and when [np.linalg.solve(J, -R)] returns
    [dGamma], so that [J dGamma = -R], it sets gamma to
    [gamma + relaxation dGamma] and, below the iteration limit, goes to
    the top of the next pass with the norm of [R] as [error].  The solver
    always ends. *)
Theorem nonlinear_iteration (V : nat -> nat -> vec3) (fuel : nat) (it : Z)
    (err : R) (ae : Aero) :
  let ae1 := fst (residual ae (_gamma ae)) in
  let R_ := snd (residual ae (_gamma ae)) in
  let J := Solver.jacobian c sec g f V ae1 in
  (err <= _solver_convergence c ->
   loop V fuel it err ae =
   Some {| nl_outcome := Return tt; nl_aero := ae1; nl_iteration := it |}) /\
  (err > _solver_convergence c ->
   forall r, loop V fuel it err ae = Some r -> (it < nl_iteration r)%Z) /\
  (err > _solver_convergence c ->
   forall dGamma,
     linalg_solve N J (fun i => - R_ i) = Some dGamma ->
     let ae2 := Solver.update_gamma c ae1 dGamma in
     (forall i, (i < N)%nat ->
        sum_upto N (fun j => J i j * dGamma j) = - R_ i) /\
     (forall i, _gamma ae2 i = _gamma ae i + _solver_relaxation c * dGamma i) /\
     ((it + 1 < _max_solver_iterations c)%Z ->
      loop V (S fuel) it err ae = loop V fuel (it + 1)%Z (norm_n N R_) ae2)) /\
  (Solver._solve_nonlinear linalg_solve c objs sec g f N ae =
   loop (Solver.V_ji_for_jacobian c g ae) (Solver.nonlinear_fuel c) 0%Z 100 ae
   /\ exists r, Solver._solve_nonlinear linalg_solve c objs sec g f N ae
                = Some r).
Proof.
  cbv zeta. split; [|split; [|split]].
  - apply loop_converged.
  - intros Hgt r Hr.
    apply (loop_iteration_grows linalg_solve c objs sec g f N V fuel
             it err ae r Hr). exact Hgt.
  - intros Hgt dGamma Hs. split; [|split].
    + intros i Hi. apply (linalg_solve_sound _ _ _ _ Hs i Hi).
    + intros i. unfold Solver.update_gamma, set_gamma. cbn [_gamma].
      rewrite residual_keeps_gamma. reflexivity.
    + intros Hit. apply loop_pass; assumption.
  - split; [reflexivity | apply solve_nonlinear_total].
Qed.

End NonlinearClaim.

Module BoundaryExample.

(** Tolerance one half; the residual norm of the first pass is one
    half. *)
Definition cfg : Config := SolverExample.config (1/2) 1 100.

Definition sec : Sections := _store_aircraft_properties cfg SolverExample.objs.

Definition start : Aero := SolverExample.start (1/2) 1 100.

Definition first_residual : nat -> R :=
  snd (Solver._lifting_line_residual cfg SolverExample.objs sec
         Examples.hook_geometry Examples.wake_along_x 1 start (_gamma start)).

Lemma first_residual_norm : norm_n 1 first_residual = 1/2.
Proof.
  apply SolverExample.residual_norm_at, SolverExample.start_fields.
Qed.

Lemma run :
  exists r,
    Solver._solve_nonlinear solve_1x1 cfg SolverExample.objs sec
      Examples.hook_geometry Examples.wake_along_x 1 start = Some r /\
    nl_outcome r = Return tt /\ nl_iteration r = 1%Z.
Proof.
  destruct (SolverExample.start_fields (1/2) 1 100) as (Hg & HV).
  destruct (SolverExample.solve_at (1/2) 1 100 start start HV Hg)
    as (dGamma & Hs & _).
  unfold Solver._solve_nonlinear.
  change (Solver.nonlinear_fuel cfg) with (S 99).
  rewrite (loop_pass solve_1x1 cfg SolverExample.objs sec
             Examples.hook_geometry Examples.wake_along_x 1 _ 99 0 100
             start dGamma); [| simpl; lra | exact Hs | simpl; lia].
  fold first_residual. rewrite first_residual_norm.
  rewrite loop_converged by (simpl; lra).
  eexists. split; [reflexivity|]. split; reflexivity.
Qed.

End BoundaryExample.

(** C3, as the specification states it, fails: with tolerance [1/2] the
    solver makes one pass, in which the Euclidean norm of the residual is
    exactly [1/2], and ends as converged although that norm is not below
    the tolerance. *)
Lemma nonlinear_convergence_counterexample :
  (exists r,
     Solver._solve_nonlinear solve_1x1 BoundaryExample.cfg SolverExample.objs
       BoundaryExample.sec Examples.hook_geometry Examples.wake_along_x 1
       BoundaryExample.start = Some r /\
     nl_outcome r = Return tt /\ nl_iteration r = 1%Z) /\
  norm_n 1 BoundaryExample.first_residual
    = _solver_convergence BoundaryExample.cfg /\
  ~ norm_n 1 BoundaryExample.first_residual
      < _solver_convergence BoundaryExample.cfg.
Proof.
  split; [apply BoundaryExample.run|].
  rewrite BoundaryExample.first_residual_norm. simpl. split; lra.
Qed.

Lemma nonlinear_iteration_witness :
  Solver.nonlinear_loop solve_1x1 BoundaryExample.cfg SolverExample.objs
    BoundaryExample.sec Examples.hook_geometry Examples.wake_along_x 1
    (Solver.V_ji_for_jacobian BoundaryExample.cfg Examples.hook_geometry
       BoundaryExample.start)
    99 1 (1/2) BoundaryExample.start
  = Some {| nl_outcome := Return tt;
            nl_aero :=
              fst (Solver._lifting_line_residual BoundaryExample.cfg
                     SolverExample.objs BoundaryExample.sec
                     Examples.hook_geometry Examples.wake_along_x 1
                     BoundaryExample.start (_gamma BoundaryExample.start));
            nl_iteration := 1 |}.
Proof.
  apply (proj1 (nonlinear_iteration solve_1x1 BoundaryExample.cfg
                  SolverExample.objs BoundaryExample.sec
                  Examples.hook_geometry Examples.wake_along_x 1
                  solve_1x1_sound _ 99 1 (1/2) BoundaryExample.start)).
  simpl. lra.
Defined.

(** ** The aircraft dictionary *)

Section DictFacts.

Context {V : Type}.

Lemma pop_none (d : list (string * V)) (k : string) :
  Dict.get d k = None -> Dict.pop d k = None.
Proof.
  induction d as [|[k' v] d IH]; simpl; [reflexivity|].
  destruct (String.eqb k k'); [discriminate|].
  intros H. rewrite (IH H). reflexivity.
Qed.

Lemma pop_some (d : list (string * V)) (k : string) (v : V) :
  Dict.get d k = Some v ->
  exists rest, Dict.pop d k = Some (v, rest) /\
               S (length rest) = length d.
Proof.
  induction d as [|[k' v'] d IH]; simpl; [discriminate|].
  destruct (String.eqb k k').
  - intros [= ->]. eauto.
  - intros H. destruct (IH H) as (rest & -> & Hl).
    eexists. split; [reflexivity|]. simpl. lia.
Qed.

Lemma set_fresh_length (d : list (string * V)) (k : string) (v : V) :
  Dict.get d k = None -> length (Dict.set d k v) = S (length d).
Proof.
  induction d as [|[k' v'] d IH]; simpl; [reflexivity|].
  destruct (String.eqb k k'); [discriminate|].
  intros H. simpl. rewrite (IH H). reflexivity.
Qed.

End DictFacts.

Section SceneClaims.

Variable FM : Type.
Variable FM_empty : FM.
Variable build_FM : list Airplane.t -> Aero -> Forces -> SolveKwargs -> FM.
Variable linalg_solve :
  nat -> (nat -> nat -> R) -> (nat -> R) -> option (nat -> R).
Variables sp_k0 sp_k1 : R -> R.
Variable fsolve :
  ((nat -> R) -> (nat -> R)) -> (nat -> R) -> (nat -> R) * Z * (nat -> R).
Variable fill_geometry : Config -> list Airplane.t -> Z -> Geometry.
Variable fill_freestream : Config -> list Airplane.t -> Geometry -> Freestream.
Variable fill_unswept : list Airplane.t -> (nat -> vec3) * (nat -> vec3).

Local Abbreviation Scene := (SceneOps.Scene FM).
Local Abbreviation solve_forces :=
  (SceneOps.solve_forces FM FM_empty build_FM linalg_solve sp_k0 sp_k1 fsolve
     fill_freestream fill_unswept).
Local Abbreviation remove_aircraft := (SceneOps.remove_aircraft FM fill_geometry).
Local Abbreviation add_aircraft := (SceneOps.add_aircraft FM fill_geometry).

(** The aircraft counter agrees with the dictionary. *)
Definition count_ok (s : Scene) : Prop :=
  SceneOps._num_aircraft FM s = Z.of_nat (length (SceneOps._airplanes FM s)).

Lemma add_aircraft_count_ok (s : Scene) (name : string) (a : Airplane.t) :
  Dict.get (SceneOps._airplanes FM s) name = None ->
  count_ok s -> count_ok (SceneOps.r_scene (add_aircraft s name a)).
Proof.
  unfold count_ok. intros Hfresh H. simpl.
  rewrite (set_fresh_length _ _ _ Hfresh), H. lia.
Qed.


Lemma remove_aircraft_absent (s : Scene) (name : string) :
  Dict.get (SceneOps._airplanes FM s) name = None ->
  remove_aircraft s name =
  {| SceneOps.r_outcome :=
       Raise (RuntimeError ("The scene has no aircraft named "
                            ++ name ++ ".")%string);
     SceneOps.r_scene := s; SceneOps.r_warnings := [] |}.
Proof.
  intros H. unfold SceneOps.remove_aircraft. rewrite (pop_none _ _ H).
  reflexivity.
Qed.

Lemma remove_aircraft_present (s : Scene) (name : string) (a : Airplane.t) :
  Dict.get (SceneOps._airplanes FM s) name = Some a ->
  let s' := SceneOps.r_scene (remove_aircraft s name) in
  SceneOps.r_outcome (remove_aircraft s name) = Return tt /\
  SceneOps._N FM s' = (SceneOps._N FM s - Airplane.get_num_cps a)%Z /\
  SceneOps._num_aircraft FM s' = (SceneOps._num_aircraft FM s - 1)%Z /\
  exists rest,
    Dict.pop (SceneOps._airplanes FM s) name = Some (a, rest) /\
    SceneOps._airplanes FM s' = rest /\
    S (length rest) = length (SceneOps._airplanes FM s).
Proof.
  intros H. destruct (pop_some _ _ _ H) as (rest & Hp & Hl).
  unfold SceneOps.remove_aircraft. rewrite Hp. cbv zeta.
  cbn [SceneOps.r_outcome SceneOps.r_scene].
  destruct (_ =? 0)%Z; cbn; repeat split; eauto.
Qed.

Lemma remove_aircraft_count_ok (s : Scene) (name : string) :
  count_ok s -> count_ok (SceneOps.r_scene (remove_aircraft s name)).
Proof.
  intros Hc. destruct (Dict.get (SceneOps._airplanes FM s) name) as [a|] eqn:E.
  - destruct (remove_aircraft_present s name a E)
      as (_ & _ & Hn & rest & _ & Hr & Hl).
    unfold count_ok in *. rewrite Hn, Hr, Hc. lia.
  - rewrite (remove_aircraft_absent s name E). exact Hc.
Qed.

(** C10.  For a name that is not in the scene, [remove_aircraft] raises
    [RuntimeError] and leaves the scene as it was; for a name that is,
    it returns, [_N] has gone down by [get_num_cps()] of the aircraft
    taken out, [_num_aircraft] by one, and the dictionary is the old one
    without that entry. *)
Theorem remove_aircraft_spec (s : Scene) (name : string) :
  (Dict.get (SceneOps._airplanes FM s) name = None ->
   remove_aircraft s name =
   {| SceneOps.r_outcome :=
        Raise (RuntimeError ("The scene has no aircraft named "
                             ++ name ++ ".")%string);
      SceneOps.r_scene := s; SceneOps.r_warnings := [] |}) /\
  (forall a,
     Dict.get (SceneOps._airplanes FM s) name = Some a ->
     let s' := SceneOps.r_scene (remove_aircraft s name) in
     SceneOps.r_outcome (remove_aircraft s name) = Return tt /\
     SceneOps._N FM s' = (SceneOps._N FM s - Airplane.get_num_cps a)%Z /\
     SceneOps._num_aircraft FM s' = (SceneOps._num_aircraft FM s - 1)%Z /\
     exists rest,
       Dict.pop (SceneOps._airplanes FM s) name = Some (a, rest) /\
       SceneOps._airplanes FM s' = rest /\
       S (length rest) = length (SceneOps._airplanes FM s)).
Proof.
  split.
  - apply remove_aircraft_absent.
  - intros a H. apply remove_aircraft_present. exact H.
Qed.

End SceneClaims.

(** ** Not converged *)

Module StalledExample.

(** Relaxation zero: the circulation never moves and the residual norm
    stays at one half, above the default tolerance. *)
Section WithLimit.

Variable maxit : Z.

Definition cfg : Config := SolverExample.config 1e-10 0 maxit.

Definition sec : Sections := _store_aircraft_properties cfg SolverExample.objs.

Definition start : Aero := SolverExample.start 1e-10 0 maxit.

Local Abbreviation residual :=
  (Solver._lifting_line_residual cfg SolverExample.objs sec
     Examples.hook_geometry Examples.wake_along_x 1).

Lemma update_stays (ae : Aero) (dGamma : nat -> R) :
  _gamma ae 0%nat = 0 ->
  _gamma (Solver.update_gamma cfg
            (fst (residual ae (_gamma ae))) dGamma) 0%nat = 0.
Proof.
  intros H. unfold Solver.update_gamma, set_gamma. cbn [_gamma].
  rewrite residual_keeps_gamma, H. simpl. lra.
Qed.

(** One pass from a state of zero circulation: the solve succeeds, and
    the state after the update has zero circulation and residual norm one
    half again. *)
Lemma pass (ae : Aero) :
  _gamma ae 0%nat = 0 ->
  exists dGamma,
    solve_1x1 1
      (Solver.jacobian cfg sec Examples.hook_geometry Examples.wake_along_x
         (Solver.V_ji_for_jacobian cfg Examples.hook_geometry start)
         (fst (residual ae (_gamma ae))))
      (fun i => - snd (residual ae (_gamma ae)) i) = Some dGamma /\
    let ae2 := Solver.update_gamma cfg (fst (residual ae (_gamma ae))) dGamma in
    _gamma ae2 0%nat = 0 /\
    norm_n 1 (snd (residual ae2 (_gamma ae2))) = 1/2.
Proof.
  intros H.
  destruct (SolverExample.start_fields 1e-10 0 maxit) as (_ & HV).
  destruct (SolverExample.solve_at 1e-10 0 maxit start ae HV H)
    as (dGamma & Hs & _).
  exists dGamma. split; [exact Hs|]. cbv zeta.
  pose proof (update_stays ae dGamma H) as H2.
  split; [exact H2|].
  apply (SolverExample.residual_norm_at 1e-10 0 maxit _ H2).
Qed.

End WithLimit.

Lemma run_limit_1 :
  exists r,
    Solver._solve_nonlinear solve_1x1 (cfg 1) SolverExample.objs (sec 1)
      Examples.hook_geometry Examples.wake_along_x 1 (start 1) = Some r /\
    nl_iteration r = 1%Z /\
    nl_outcome r = Raise (SolverNotConvergedError "nonlinear" (1/2)).
Proof.
  destruct (SolverExample.start_fields 1e-10 0 1) as (Hg & _).
  destruct (pass 1 (start 1) Hg) as (dGamma & Hs & _ & Hn).
  unfold Solver._solve_nonlinear.
  change (Solver.nonlinear_fuel (cfg 1)) with (S 0).
  rewrite (loop_max_iterations solve_1x1 (cfg 1) SolverExample.objs (sec 1)
             Examples.hook_geometry Examples.wake_along_x 1 _ 0 0 100
             (start 1) dGamma); [| simpl; lra | exact Hs | simpl; lia].
  cbv zeta in Hn. rewrite Hn.
  eexists. split; [reflexivity|]. split; reflexivity.
Qed.

Lemma run_limit_2 :
  exists r,
    Solver._solve_nonlinear solve_1x1 (cfg 2) SolverExample.objs (sec 2)
      Examples.hook_geometry Examples.wake_along_x 1 (start 2) = Some r /\
    nl_iteration r = 2%Z /\
    nl_outcome r = Raise (SolverNotConvergedError "nonlinear" (1/2)).
Proof.
  destruct (SolverExample.start_fields 1e-10 0 2) as (Hg & _).
  destruct (pass 2 (start 2) Hg) as (dGamma & Hs & Hg2 & Hn).
  cbv zeta in Hg2, Hn.
  destruct (pass 2 _ Hg2) as (dGamma2 & Hs2 & _ & Hn2).
  cbv zeta in Hn2.
  unfold Solver._solve_nonlinear.
  change (Solver.nonlinear_fuel (cfg 2)) with (S 1).
  rewrite (loop_pass solve_1x1 (cfg 2) SolverExample.objs (sec 2)
             Examples.hook_geometry Examples.wake_along_x 1 _ 1 0 100
             (start 2) dGamma); [| simpl; lra | exact Hs | simpl; lia].
  rewrite (loop_max_iterations solve_1x1 (cfg 2) SolverExample.objs (sec 2)
             Examples.hook_geometry Examples.wake_along_x 1 _ 0 _ _
             _ dGamma2); [| | exact Hs2 | simpl; lia].
  - rewrite Hn2. eexists. split; [reflexivity|]. split; reflexivity.
  - pose proof (SolverExample.residual_norm_at 1e-10 0 2 (start 2) Hg) as Hn0.
    fold (cfg 2) in Hn0. fold (sec 2) in Hn0.
    rewrite Hn0. simpl. lra.
Qed.

End StalledExample.

(** C4, as the specification states it, fails: the error does not carry
    the iteration count.  With relaxation zero the solver stopped after
    one pass and the solver stopped after two passes raise the same
    [SolverNotConvergedError], made of the solver type and the final
    residual norm [1/2]. *)
Lemma not_converged_counterexample :
  exists r1 r2,
    Solver._solve_nonlinear solve_1x1 (StalledExample.cfg 1)
      SolverExample.objs (StalledExample.sec 1) Examples.hook_geometry
      Examples.wake_along_x 1 (StalledExample.start 1) = Some r1 /\
    Solver._solve_nonlinear solve_1x1 (StalledExample.cfg 2)
      SolverExample.objs (StalledExample.sec 2) Examples.hook_geometry
      Examples.wake_along_x 1 (StalledExample.start 2) = Some r2 /\
    nl_iteration r1 = 1%Z /\ nl_iteration r2 = 2%Z /\
    nl_outcome r1 = Raise (SolverNotConvergedError "nonlinear" (1/2)) /\
    nl_outcome r2 = nl_outcome r1.
Proof.
  destruct StalledExample.run_limit_1 as (r1 & H1 & Hi1 & Ho1).
  destruct StalledExample.run_limit_2 as (r2 & H2 & Hi2 & Ho2).
  exists r1, r2. rewrite Ho1, Ho2. repeat split; assumption.
Qed.

Section NotConverged.

Variable FM : Type.
Variable FM_empty : FM.
Variable build_FM : list Airplane.t -> Aero -> Forces -> SolveKwargs -> FM.
Variable linalg_solve :
  nat -> (nat -> nat -> R) -> (nat -> R) -> option (nat -> R).
Variables sp_k0 sp_k1 : R -> R.
Variable fsolve :
  ((nat -> R) -> (nat -> R)) -> (nat -> R) -> (nat -> R) * Z * (nat -> R).
Variable fill_freestream : Config -> list Airplane.t -> Geometry -> Freestream.
Variable fill_unswept : list Airplane.t -> (nat -> vec3) * (nat -> vec3).

Local Abbreviation Scene := (SceneOps.Scene FM).
Local Abbreviation solve_forces :=
  (SceneOps.solve_forces FM FM_empty build_FM linalg_solve sp_k0 sp_k1 fsolve
     fill_freestream fill_unswept).
Local Abbreviation solve_circulation :=
  (SceneOps.solve_circulation FM linalg_solve sp_k0 sp_k1 fsolve
     fill_freestream).
Local Abbreviation integrate :=
  (SceneOps._integrate_forces_and_moments FM build_FM fill_unswept).
Local Abbreviation policy :=
  (fun s : Scene => SceneOps._err_state FM s !! "not_converged").

Lemma handle_not_converged (s : Scene) (t : string) (e : R)
    (instruction : string) :
  policy s = Some instruction ->
  SceneOps._handle_error FM s (SolverNotConvergedError t e) =
  if String.eqb instruction "raise"
  then (Raise (SolverNotConvergedError t e), [])
  else if String.eqb instruction "warn"
       then (Return tt, [ErrorWarning (SolverNotConvergedError t e)])
       else if String.eqb instruction "ignore" then (Return tt, [])
            else (Raise (RuntimeError
                    ("MachUpX got an incorrect error handling instruction. '"
                     ++ instruction ++ "' is invalid.")%string), []).
Proof.
  intros H. unfold SceneOps._handle_error. cbn [SceneOps.error_key].
  rewrite H. reflexivity.
Qed.

(** Only the two custom errors are subject to the policy. *)
Lemma handle_other (s : Scene) (e : exn) :
  SceneOps.error_key e = None -> SceneOps._handle_error FM s e = (Raise e, []).
Proof. intros H. unfold SceneOps._handle_error. rewrite H. reflexivity. Qed.

Lemma solve_forces_handled (s : Scene) (kw : SolveKwargs)
    (r : SceneOps.result FM unit) (e : exn) (ws : list warning) :
  SceneOps._num_aircraft FM s <> 0%Z ->
  solve_circulation
    (SceneOps.with_FM FM s (SceneOps.forces FM s) (Some FM_empty)) kw = Some r ->
  SceneOps.r_outcome r = Raise e ->
  SceneOps.is_Exception e = true ->
  SceneOps._handle_error FM (SceneOps.r_scene r) e = (Return tt, ws) ->
  let done := SceneOps.with_solved FM
                (SceneOps.r_scene (integrate (SceneOps.r_scene r) kw)) true in
  solve_forces s kw =
  Some {| SceneOps.r_outcome := Return (SceneOps._FM FM done);
          SceneOps.r_scene := done;
          SceneOps.r_warnings := SceneOps.r_warnings r ++ ws |}.
Proof.
  intros Hn Hc Ho He Hh. cbv zeta. unfold SceneOps.solve_forces.
  destruct (Z.eqb_spec (SceneOps._num_aircraft FM s) 0) as [|_];
    [contradiction|].
  rewrite Hc. unfold SceneOps.handled at 1. rewrite Ho, He, Hh.
  unfold SceneOps._integrate_forces_and_moments.
  destruct (Solver._integrate_forces_and_moments _ _ _ _ _ _ _ _ _)
    as [ae fo].
  cbn [SceneOps.handled SceneOps.r_outcome SceneOps.r_warnings
       SceneOps.r_scene app].
  rewrite app_nil_r. reflexivity.
Qed.

Lemma solve_forces_reraised (s : Scene) (kw : SolveKwargs)
    (r : SceneOps.result FM unit) (e e' : exn) (ws : list warning) :
  SceneOps._num_aircraft FM s <> 0%Z ->
  solve_circulation
    (SceneOps.with_FM FM s (SceneOps.forces FM s) (Some FM_empty)) kw = Some r ->
  SceneOps.r_outcome r = Raise e ->
  SceneOps.is_Exception e = true ->
  SceneOps._handle_error FM (SceneOps.r_scene r) e = (Raise e', ws) ->
  solve_forces s kw =
  Some {| SceneOps.r_outcome := Raise e';
          SceneOps.r_scene := SceneOps.r_scene r;
          SceneOps.r_warnings := SceneOps.r_warnings r ++ ws |}.
Proof.
  intros Hn Hc Ho He Hh. unfold SceneOps.solve_forces.
  destruct (Z.eqb_spec (SceneOps._num_aircraft FM s) 0) as [|_];
    [contradiction|].
  rewrite Hc. unfold SceneOps.handled. rewrite Ho, He, Hh. reflexivity.
Qed.

Lemma integrate_keeps_gamma (s : Scene) (kw : SolveKwargs) (i : nat) :
  _match_machup_pro (SceneOps.config FM s) = false ->
  _gamma (SceneOps.aero FM (SceneOps.r_scene (integrate s kw))) i
  = _gamma (SceneOps.aero FM s) i.
Proof.
  intros Hm. unfold SceneOps._integrate_forces_and_moments,
    Solver._integrate_forces_and_moments. cbv zeta.
  cbn [SceneOps.r_scene SceneOps.aero SceneOps.with_FM SceneOps.with_aero
       _gamma].
  rewrite Hm. reflexivity.
Qed.

(** C4, as the code has it.  A pass of the nonlinear solver that brings
    the iteration count to [max_iterations] raises
    [SolverNotConvergedError] made of the solver type and the Euclidean
    norm of the residual at the gamma just updated; it carries no
    iteration count.  In [solve_forces] that error goes through the
    policy under the key [not_converged]: under [raise] it propagates;
    under [warn] one warning with the error is given and the forces are
    integrated on the scene as the solver left it, with its last gamma;
    under [ignore] the same without the warning. *)
Theorem not_converged_policy :
  (forall c objs sec g f N V fuel it err ae dGamma,
     let residual := Solver._lifting_line_residual c objs sec g f N in
     err > _solver_convergence c ->
     linalg_solve N (Solver.jacobian c sec g f V (fst (residual ae (_gamma ae))))
                  (fun i => - snd (residual ae (_gamma ae)) i) = Some dGamma ->
     (it + 1 >= _max_solver_iterations c)%Z ->
     let ae2 := Solver.update_gamma c (fst (residual ae (_gamma ae))) dGamma in
     Solver.nonlinear_loop linalg_solve c objs sec g f N V (S fuel) it err ae =
     Some {| nl_outcome :=
               Raise (SolverNotConvergedError (_solver_type c)
                        (norm_n N (snd (residual ae2 (_gamma ae2)))));
             nl_aero := fst (residual ae2 (_gamma ae2));
             nl_iteration := (it + 1)%Z |} /\
     forall i,
       _gamma (fst (residual ae2 (_gamma ae2))) i
       = _gamma ae i + _solver_relaxation c * dGamma i) /\
  (forall (s : Scene) (kw : SolveKwargs) (r : SceneOps.result FM unit)
          (t : string) (e : R),
     SceneOps._num_aircraft FM s <> 0%Z ->
     solve_circulation
       (SceneOps.with_FM FM s (SceneOps.forces FM s) (Some FM_empty)) kw
     = Some r ->
     SceneOps.r_outcome r = Raise (SolverNotConvergedError t e) ->
     let done := SceneOps.with_solved FM
                   (SceneOps.r_scene (integrate (SceneOps.r_scene r) kw))
                   true in
     (policy (SceneOps.r_scene r) = Some "raise" ->
      solve_forces s kw =
      Some {| SceneOps.r_outcome := Raise (SolverNotConvergedError t e);
              SceneOps.r_scene := SceneOps.r_scene r;
              SceneOps.r_warnings := SceneOps.r_warnings r |}) /\
     (policy (SceneOps.r_scene r) = Some "warn" ->
      solve_forces s kw =
      Some {| SceneOps.r_outcome := Return (SceneOps._FM FM done);
              SceneOps.r_scene := done;
              SceneOps.r_warnings :=
                SceneOps.r_warnings r
                ++ [ErrorWarning (SolverNotConvergedError t e)] |}) /\
     (policy (SceneOps.r_scene r) = Some "ignore" ->
      solve_forces s kw =
      Some {| SceneOps.r_outcome := Return (SceneOps._FM FM done);
              SceneOps.r_scene := done;
              SceneOps.r_warnings := SceneOps.r_warnings r |}) /\
     (_match_machup_pro (SceneOps.config FM (SceneOps.r_scene r)) = false ->
      forall i,
        _gamma (SceneOps.aero FM done) i
        = _gamma (SceneOps.aero FM (SceneOps.r_scene r)) i)).
Proof.
  split.
  - intros c objs sec g f N V fuel it err ae dGamma residual Hgt Hs Hit ae2.
    subst ae2 residual. split.
    + apply loop_max_iterations; assumption.
    + intros i. rewrite residual_keeps_gamma.
      unfold Solver.update_gamma, set_gamma. cbn [_gamma].
      rewrite residual_keeps_gamma. reflexivity.
  - intros s kw r t e Hn Hc Ho done. split; [|split; [|split]].
    + intros Hp.
      rewrite (solve_forces_reraised s kw r _ (SolverNotConvergedError t e) []
                 Hn Hc Ho eq_refl).
      * rewrite app_nil_r. reflexivity.
      * rewrite (handle_not_converged _ t e "raise" Hp). reflexivity.
    + intros Hp.
      rewrite (solve_forces_handled s kw r _
                 [ErrorWarning (SolverNotConvergedError t e)] Hn Hc Ho eq_refl).
      * reflexivity.
      * rewrite (handle_not_converged _ t e "warn" Hp). reflexivity.
    + intros Hp.
      rewrite (solve_forces_handled s kw r _ [] Hn Hc Ho eq_refl).
      * rewrite app_nil_r. reflexivity.
      * rewrite (handle_not_converged _ t e "ignore" Hp). reflexivity.
    + intros Hm i. unfold done.
      apply (integrate_keeps_gamma (SceneOps.r_scene r) kw i Hm).
Qed.

End NotConverged.

Section SceneSolve.

Variable FM : Type.
Variable linalg_solve :
  nat -> (nat -> nat -> R) -> (nat -> R) -> option (nat -> R).
Variables sp_k0 sp_k1 : R -> R.
Variable fsolve :
  ((nat -> R) -> (nat -> R)) -> (nat -> R) -> (nat -> R) * Z * (nat -> R).
Variable fill_freestream : Config -> list Airplane.t -> Geometry -> Freestream.

Local Abbreviation Scene := (SceneOps.Scene FM).
Local Abbreviation flow_state :=
  (SceneOps._calc_invariant_flow_properties FM sp_k0 sp_k1 fill_freestream).

(** What the flow-state evaluation of a scene leaves when it returns. *)
Definition flow_state_scene (s : Scene) : Scene :=
  let f := fill_freestream (SceneOps.config FM s)
             (SceneOps._airplane_objects FM s) (SceneOps.geometry FM s) in
  SceneOps.with_solved FM
    (SceneOps.with_aero FM s
       (snd (fst (Solver._calc_invariant_flow_properties sp_k0 sp_k1
                    (SceneOps.config FM s) (SceneOps._airplane_objects FM s)
                    (SceneOps.sections FM s) (SceneOps.geometry FM s) f
                    (SceneOps.N_of FM s) (SceneOps.aero FM s))))
       f)
    false.

Lemma flow_state_result (s : Scene) :
  (use_wave_corrections (SceneOps.config FM s) = true ->
   has_FS (SceneOps.config FM s) = true) ->
  flow_state s =
  {| SceneOps.r_outcome := Return tt;
     SceneOps.r_scene := flow_state_scene s;
     SceneOps.r_warnings :=
       Trailing.impingement_warnings (SceneOps.config FM s)
         (SceneOps.geometry FM s)
         (fill_freestream (SceneOps.config FM s)
            (SceneOps._airplane_objects FM s) (SceneOps.geometry FM s))
         (SceneOps.N_of FM s) |}.
Proof.
  intros Hw. unfold SceneOps._calc_invariant_flow_properties, flow_state_scene.
  cbv zeta.
  pose proof (flow_state_returns sp_k0 sp_k1 _
                (SceneOps._airplane_objects FM s) (SceneOps.sections FM s)
                (SceneOps.geometry FM s)
                (fill_freestream (SceneOps.config FM s)
                   (SceneOps._airplane_objects FM s) (SceneOps.geometry FM s))
                (SceneOps.N_of FM s) (SceneOps.aero FM s) Hw) as Ho.
  pose proof (flow_state_warnings sp_k0 sp_k1 (SceneOps.config FM s)
                (SceneOps._airplane_objects FM s) (SceneOps.sections FM s)
                (SceneOps.geometry FM s)
                (fill_freestream (SceneOps.config FM s)
                   (SceneOps._airplane_objects FM s) (SceneOps.geometry FM s))
                (SceneOps.N_of FM s) (SceneOps.aero FM s)) as Hws.
  destruct (Solver._calc_invariant_flow_properties _ _ _ _ _ _ _ _ _)
    as [[o ae] ws].
  simpl in Ho, Hws. subst o ws. reflexivity.
Qed.

(** The first [try] of [solve_forces] for the nonlinear solver started
    from the previous circulation. *)
Lemma solve_circulation_from_previous (s : Scene) (kw : SolveKwargs)
    (nr : nonlinear_result) :
  _solver_type (SceneOps.config FM s) = "nonlinear" ->
  initial_guess kw = "previous" ->
  (use_wave_corrections (SceneOps.config FM s) = true ->
   has_FS (SceneOps.config FM s) = true) ->
  let s1 := flow_state_scene s in
  Solver._solve_nonlinear linalg_solve (SceneOps.config FM s1)
    (SceneOps._airplane_objects FM s1) (SceneOps.sections FM s1)
    (SceneOps.geometry FM s1) (SceneOps.freestream FM s1)
    (SceneOps.N_of FM s1) (SceneOps.aero FM s1) = Some nr ->
  nl_outcome nr <> Raise KeyboardInterrupt ->
  SceneOps.solve_circulation FM linalg_solve sp_k0 sp_k1 fsolve
    fill_freestream s kw =
  Some {| SceneOps.r_outcome := nl_outcome nr;
          SceneOps.r_scene :=
            SceneOps.with_aero FM s1 (nl_aero nr) (SceneOps.freestream FM s1);
          SceneOps.r_warnings :=
            Trailing.impingement_warnings (SceneOps.config FM s)
              (SceneOps.geometry FM s)
              (fill_freestream (SceneOps.config FM s)
                 (SceneOps._airplane_objects FM s) (SceneOps.geometry FM s))
              (SceneOps.N_of FM s) |}.
Proof.
  intros Ht Hg Hw s1 Hnl Hk.
  unfold SceneOps.solve_circulation. rewrite Ht, Hg.
  cbn [String.eqb Ascii.eqb Bool.eqb orb andb SceneOps.r_outcome
       SceneOps.r_scene SceneOps.r_warnings SceneOps.ok].
  unfold SceneOps.nonlinear_improvement. rewrite Hg.
  cbn [String.eqb Ascii.eqb Bool.eqb].
  rewrite (flow_state_result s Hw).
  cbn [SceneOps.r_outcome SceneOps.r_scene SceneOps.r_warnings].
  fold s1. unfold SceneOps._solve_nonlinear. rewrite Hnl.
  cbn [SceneOps.r_outcome SceneOps.r_scene SceneOps.r_warnings app].
  rewrite app_nil_r.
  destruct (nl_outcome nr) as [u | e]; [reflexivity|].
  destruct e; try reflexivity. contradiction.
Qed.

End SceneSolve.

Module StalledScene.

(** Stand-ins for the collaborators of a scene with one control point. *)
Definition fsolve (residual : (nat -> R) -> nat -> R) (x0 : nat -> R)
  : (nat -> R) * Z * (nat -> R) := (x0, 1%Z, x0).

Definition fill_geometry (c : Config) (objs : list Airplane.t) (n : Z)
  : Geometry := Examples.hook_geometry.

Definition fill_freestream (c : Config) (objs : list Airplane.t)
    (g : Geometry) : Freestream := Examples.wake_along_x.

Definition fill_unswept (objs : list Airplane.t)
  : (nat -> vec3) * (nat -> vec3) := (fun _ => mk3 1 0 0, fun _ => mk3 0 0 1).

Definition build_FM (objs : list Airplane.t) (ae : Aero) (fo : Forces)
    (kw : SolveKwargs) : unit := tt.

(** One wing, relaxation zero, one iteration allowed, and
    [set_err_state(not_converged="warn")]. *)
Definition scene : SceneOps.Scene unit :=
  SceneOps.set_err_state unit
    (ExampleScenes.scene_of (StalledExample.cfg 1)
       [("wing", SolverExample.plane)] Examples.hook_geometry
       Examples.wake_along_x SceneOps.zeros_aero)
    {["not_converged" := "warn"]}.

Definition kw : SolveKwargs :=
  {| initial_guess := "previous"; verbose := false |}.


Lemma no_impingement :
  Trailing.impingement_warnings (StalledExample.cfg 1) Examples.hook_geometry
    Examples.wake_along_x 1 = [].
Proof.
  unfold Trailing.impingement_warnings, Trailing.impinging_0,
    Trailing.impinging_1, any2. cbn [any_upto orb].
  rewrite hook_denom0, hook_denom1. unfold Rltb.
  destruct (Rlt_dec _ _) as [H | H]; [|reflexivity].
  simpl in H. rewrite Rabs_pos_eq in H by lra. lra.
Qed.

Lemma circulation :
  exists r,
    SceneOps.solve_circulation unit solve_1x1 (fun _ => 0) (fun _ => 0)
      fsolve fill_freestream
      (SceneOps.with_FM unit scene (SceneOps.forces unit scene) (Some tt)) kw
    = Some r /\
    SceneOps.r_outcome r = Raise (SolverNotConvergedError "nonlinear" (1/2)) /\
    SceneOps.r_warnings r = [] /\
    SceneOps._err_state unit (SceneOps.r_scene r) !! "not_converged"
    = Some "warn".
Proof.
  destruct StalledExample.run_limit_1 as (r1 & H1 & _ & Ho1).
  eexists. split; [|split; [|split]].
  - apply (solve_circulation_from_previous unit solve_1x1 (fun _ => 0)
             (fun _ => 0) fsolve fill_freestream _ kw r1);
      [reflexivity | reflexivity | discriminate | exact H1 |].
    rewrite Ho1. discriminate.
  - exact Ho1.
  - apply no_impingement.
  - reflexivity.
Qed.

End StalledScene.

Lemma not_converged_policy_witness :
  exists r,
    SceneOps.solve_forces unit tt StalledScene.build_FM solve_1x1
      (fun _ => 0) (fun _ => 0) StalledScene.fsolve
      StalledScene.fill_freestream StalledScene.fill_unswept
      StalledScene.scene StalledScene.kw = Some r /\
    SceneOps.r_outcome r = Return (Some tt) /\
    SceneOps.r_warnings r
    = [ErrorWarning (SolverNotConvergedError "nonlinear" (1/2))].
Proof.
  destruct StalledScene.circulation as (r & Hc & Ho & Hw & Hp).
  destruct (proj2 (not_converged_policy unit tt StalledScene.build_FM
                     solve_1x1 (fun _ => 0) (fun _ => 0) StalledScene.fsolve
                     StalledScene.fill_freestream StalledScene.fill_unswept)
              StalledScene.scene StalledScene.kw r "nonlinear" (1/2))
    as (_ & Hwarn & _); [discriminate | exact Hc | exact Ho |].
  eexists. split; [apply Hwarn; exact Hp|].
  cbn [SceneOps.r_outcome SceneOps.r_warnings]. rewrite Hw.
  split; reflexivity.
Defined.


Lemma remove_aircraft_spec_witness :
  SceneOps.r_outcome
    (SceneOps.remove_aircraft unit StalledScene.fill_geometry
       StalledScene.scene "glider")
  = Raise (RuntimeError "The scene has no aircraft named glider.") /\
  SceneOps.r_scene
    (SceneOps.remove_aircraft unit StalledScene.fill_geometry
       StalledScene.scene "glider") = StalledScene.scene /\
  SceneOps._N unit
    (SceneOps.r_scene
       (SceneOps.remove_aircraft unit StalledScene.fill_geometry
          StalledScene.scene "wing")) = 0%Z /\
  SceneOps._num_aircraft unit
    (SceneOps.r_scene
       (SceneOps.remove_aircraft unit StalledScene.fill_geometry
          StalledScene.scene "wing")) = 0%Z.
Proof.
  pose proof (proj1 (remove_aircraft_spec unit StalledScene.fill_geometry
                       StalledScene.scene "glider") eq_refl) as Habsent.
  destruct (proj2 (remove_aircraft_spec unit StalledScene.fill_geometry
                     StalledScene.scene "wing") SolverExample.plane eq_refl)
    as (_ & HN & Hcount & _).
  split; [|split; [|split]].
  - rewrite Habsent. reflexivity.
  - rewrite Habsent. reflexivity.
  - rewrite HN. reflexivity.
  - rewrite Hcount. reflexivity.
Defined.

Module LinearExample.

Definition cfg : Config := SolverExample.config 1e-10 1 100.

Definition sec : Sections := _store_aircraft_properties cfg SolverExample.objs.

Lemma unit_speed_in_plane :
  linear_speed cfg Examples.hook_geometry Examples.wake_along_x 0 = 1.
Proof.
  unfold linear_speed. cbn [_use_in_plane cfg SolverExample.config].
  unfold Solver._V_inf_in_plane. apply norm_of_square; [lra|].
  unfold dot, Solver._v_inf_in_plane, Bound.P_in_plane_apply. simpl. lra.
Qed.

Lemma self_term :
  norm (cross (_v_inf_and_rot Examples.wake_along_x 0)
              (_dl Examples.hook_geometry 0)) = 2.
Proof. apply norm_of_square; [lra|]. unfold dot. simpl. lra. Qed.

End LinearExample.

Lemma linear_system_witness :
  exists gamma,
    Solver._solve_linear solve_1x1 (fun _ => 0) (fun _ => 0)
      LinearExample.cfg SolverExample.objs LinearExample.sec
      Examples.hook_geometry Examples.wake_along_x 1 SceneOps.zeros_aero
    = (Return tt, set_gamma (SolverExample.start 1e-10 1 100) gamma,
       Trailing.impingement_warnings LinearExample.cfg Examples.hook_geometry
         Examples.wake_along_x 1) /\
    gamma 0%nat = 1/8.
Proof.
  assert (Hw : use_wave_corrections LinearExample.cfg = true ->
               has_FS LinearExample.cfg = true) by discriminate.
  destruct (linear_system solve_1x1 (fun _ => 0) (fun _ => 0)
              LinearExample.cfg SolverExample.objs LinearExample.sec
              Examples.hook_geometry Examples.wake_along_x 1
              SceneOps.zeros_aero Hw) as (HA & Hb & HCL & Hsolve & _).
  destruct (flow_state_aL0 (fun _ => 0) (fun _ => 0) LinearExample.cfg
              SolverExample.objs LinearExample.sec Examples.hook_geometry
              Examples.wake_along_x 1 SceneOps.zeros_aero 0%nat Hw)
    as (_ & HCLa & _).
  cbv zeta in HA, Hb, HCL, Hsolve, HCLa.
  specialize (HA 0%nat 0%nat). specialize (Hb 0%nat). specialize (HCL 0%nat).
  cbn [at_cp SolverExample.objs SolverExample.plane
       ExampleScenes.constant_section_plane Airplane.N Airplane.get_cp_CLa
       Airplane.get_cp_CL Nat.ltb Nat.leb] in HCLa, HCL.
  rewrite HCLa in HCL, HA.
  rewrite LinearExample.unit_speed_in_plane in HA, Hb.
  cbn [Nat.eqb] in HA. rewrite LinearExample.self_term in HA.
  match type of HA with
  | ?l = _ => assert (HA4 : l = 4) by (etransitivity; [exact HA | ring])
  end.
  match type of Hb with
  | ?l = _ => assert (Hb2 : l = 1/2)
  end.
  { etransitivity; [exact Hb|].
    etransitivity; [apply f_equal; exact HCL|].
    cbn [_use_swept_sections LinearExample.cfg SolverExample.config].
    simpl. lra. }
  eexists. split.
  - apply Hsolve. unfold solve_1x1.
    destruct (Req_dec_T _ 0) as [Hz | _]; [|reflexivity].
    pose proof (eq_trans (eq_sym HA4) Hz). lra.
  - cbv beta. etransitivity; [exact (f_equal2 Rdiv Hb2 HA4) | lra].
Defined.

(** * Further properties of the scene *)

(** ** Vector identities used below *)

Lemma dot_comm (a b : vec3) : dot a b = dot b a.
Proof. unfold dot. ring. Qed.







Lemma cross_perp_l (a b : vec3) : dot (cross a b) a = 0.
Proof. unfold dot, cross. simpl. ring. Qed.

Lemma cross_perp_r (a b : vec3) : dot (cross a b) b = 0.
Proof. unfold dot, cross. simpl. ring. Qed.

Lemma dot_vdiv_l (a b : vec3) (d : R) : dot (vdiv a d) b = dot a b / d.
Proof. unfold dot, vdiv, Rdiv. simpl. ring. Qed.

Lemma dot_scale_l (s : R) (a b : vec3) : dot (scale s a) b = s * dot a b.
Proof. unfold dot, scale. simpl. ring. Qed.

Lemma dot_vopp_l (a b : vec3) : dot (vopp a) b = - dot a b.
Proof. unfold dot, vopp. simpl. ring. Qed.

Lemma dot_vzero_l (b : vec3) : dot vzero b = 0.
Proof. unfold dot, vzero. simpl. ring. Qed.

(** ** The in-plane projection *)

Section InPlaneProjection.

Variable g : Geometry.
Variable f : Freestream.

Local Abbreviation P := (Bound.P_in_plane_apply g).

(** [I - u_s u_s^T] applied to [v] is [v - (u_s . v) u_s]. *)
Lemma in_plane_rejection (i : nat) (v : vec3) :
  P i v = vsub v (scale (dot (_u_s g i) v) (_u_s g i)).
Proof.
  unfold Bound.P_in_plane_apply, vsub, scale, dot. cbv zeta.
  apply vec3_eq; simpl; ring.
Qed.

Lemma in_plane_dot_u_s (i : nat) (v : vec3) :
  dot (P i v) (_u_s g i)
  = dot v (_u_s g i) * (1 - dot (_u_s g i) (_u_s g i)).
Proof.
  rewrite in_plane_rejection. unfold vsub, scale, dot. simpl. ring.
Qed.

Lemma in_plane_dot_self (i : nat) (v : vec3) :
  dot (_u_s g i) (_u_s g i) = 1 ->
  dot (P i v) (P i v) = dot v v - dot (_u_s g i) v * dot (_u_s g i) v.
Proof.
  intros Hu. rewrite in_plane_rejection.
  set (u := _u_s g i) in *. set (k := dot u v).
  assert (E : dot (vsub v (scale k u)) (vsub v (scale k u))
              = dot v v - 2 * k * dot u v + k * k * dot u u)
    by (unfold vsub, scale, dot; simpl; ring).
  rewrite E, Hu. unfold k. ring.
Qed.

(** X1.  Where the spanwise axis [u_s] of a section is a unit vector, the
    in-plane projection removes the spanwise component of a vector, is
    idempotent and never lengthens a vector; so the in-plane freestream
    speed [V_inf_in_plane] is at most the freestream speed [V_inf]. *)
Theorem in_plane_projection (i : nat) (v : vec3) :
  dot (_u_s g i) (_u_s g i) = 1 ->
  dot (P i v) (_u_s g i) = 0 /\
  P i (P i v) = P i v /\
  norm (P i v) <= norm v /\
  Solver._V_inf_in_plane g f i <= Solver._V_inf f i.
Proof.
  intros Hu.
  assert (H0 : forall w, dot (P i w) (_u_s g i) = 0)
    by (intros w; rewrite in_plane_dot_u_s, Hu; ring).
  assert (Hn : forall w, norm (P i w) <= norm w).
  { intros w. unfold norm. apply sqrt_le_1_alt.
    rewrite in_plane_dot_self by exact Hu.
    pose proof (Rle_0_sqr (dot (_u_s g i) w)) as Hs. unfold Rsqr in Hs. lra. }
  split; [apply H0|]. split; [|split; [apply Hn|]].
  - rewrite (in_plane_rejection i (P i v)).
    rewrite (dot_comm (_u_s g i) (P i v)), H0.
    unfold vsub, scale. apply vec3_eq; simpl; ring.
  - unfold Solver._V_inf_in_plane, Solver._v_inf_in_plane, Solver._V_inf,
      Trailing._V_inf. apply Hn.
Qed.

End InPlaneProjection.

Lemma in_plane_projection_witness :
  dot (_u_s Examples.hook_geometry 0) (_u_s Examples.hook_geometry 0) = 1 /\
  Solver._V_inf_in_plane Examples.hook_geometry Examples.wake_along_x 0
  <= Solver._V_inf Examples.wake_along_x 0.
Proof.
  assert (H : dot (_u_s Examples.hook_geometry 0)
                  (_u_s Examples.hook_geometry 0) = 1)
    by (unfold dot; simpl; ring).
  split; [exact H|].
  apply (in_plane_projection Examples.hook_geometry Examples.wake_along_x
           0%nat vzero H).
Defined.

(** ** Geometry of the trailing legs *)

Section TrailingGeometry.

Variable g : Geometry.
Variable f : Freestream.

(** X2.  Every trailing-leg contribution, kept or cut to zero, is
    perpendicular to the direction of its trailing vortex and to the
    vector from the joint to the control point: a straight vortex induces
    no velocity along itself.  This holds for the image legs too, with
    [_u_trailing_0_image] and [_u_trailing_1_image]. *)
Theorem trailing_leg_perpendicular (i j : nat) :
  dot (Trailing.V_ji_due_to_0 g f i j) (_u_trailing_0 f j) = 0 /\
  dot (Trailing.V_ji_due_to_0 g f i j) (_r_0_joint g i j) = 0 /\
  dot (Trailing.V_ji_due_to_1 g f i j) (_u_trailing_1 f j) = 0 /\
  dot (Trailing.V_ji_due_to_1 g f i j) (_r_1_joint g i j) = 0 /\
  dot (Trailing.V_ji_due_to_0_image g f i j) (_u_trailing_0_image f j) = 0 /\
  dot (Trailing.V_ji_due_to_0_image g f i j) (_r_0_joint_image g i j) = 0 /\
  dot (Trailing.V_ji_due_to_1_image g f i j) (_u_trailing_1_image f j) = 0 /\
  dot (Trailing.V_ji_due_to_1_image g f i j) (_r_1_joint_image g i j) = 0.
Proof.
  unfold Trailing.V_ji_due_to_0, Trailing.V_ji_due_to_1,
    Trailing.V_ji_due_to_0_image, Trailing.V_ji_due_to_1_image,
    Trailing.nan_to_num.
  repeat split;
    match goal with
    | |- context [Rgt_dec ?a ?b] => destruct (Rgt_dec a b)
    end;
    rewrite ?dot_vzero_l, ?dot_vdiv_l, ?dot_vopp_l,
      ?cross_perp_l, ?cross_perp_r; unfold Rdiv; ring.
Qed.



End TrailingGeometry.


(** ** Induced velocity and the Kutta-Joukowski force *)

Section InducedVelocity.

Variable c : Config.
Variable objs : list Airplane.t.
Variable sec : Sections.
Variable g : Geometry.
Variable f : Freestream.
Variable N : nat.

(** The velocity the vortices induce: [_calc_v_i] without the freestream *)
Definition induced_velocity (ae : Aero) (gamma : nat -> R) (i : nat) : vec3 :=
  vsub (Solver._calc_v_i f N (set_gamma ae gamma) i) (_v_inf_and_rot f i).

Lemma vsum_upto_ext (n : nat) (u v : nat -> vec3) :
  (forall j, (j < n)%nat -> u j = v j) -> vsum_upto n u = vsum_upto n v.
Proof.
  induction n as [|n IH]; intros H; simpl; [reflexivity|].
  rewrite IH by (intros; apply H; lia). rewrite H by lia. reflexivity.
Qed.

Lemma vsum_upto_linear (n : nat) (a b : R) (u v : nat -> vec3) :
  vsum_upto n (fun j => vadd (scale a (u j)) (scale b (v j)))
  = vadd (scale a (vsum_upto n u)) (scale b (vsum_upto n v)).
Proof.
  induction n as [|n IH]; simpl.
  - unfold vadd, scale, vzero. apply vec3_eq; simpl; ring.
  - rewrite IH. unfold vadd, scale. apply vec3_eq; simpl; ring.
Qed.

Lemma induced_velocity_sum (ae : Aero) (gamma : nat -> R) (i : nat) :
  induced_velocity ae gamma i
  = vsum_upto N (fun j => scale (gamma j) (_V_ji ae i j)).
Proof.
  unfold induced_velocity, Solver._calc_v_i, set_gamma.
  cbn [_gamma _V_ji]. unfold vsub, vadd. apply vec3_eq; simpl; ring.
Qed.

(** X4.  [_calc_v_i] is the freestream (with rotation) plus a part linear
    in the circulation: with zero circulation it returns the freestream
    itself, and the induced parts of two circulation distributions
    superpose. *)
Theorem calc_v_i_superposition (ae : Aero) (a b : R)
    (gamma1 gamma2 : nat -> R) (i : nat) :
  Solver._calc_v_i f N (set_gamma ae (fun _ => 0)) i = _v_inf_and_rot f i /\
  induced_velocity ae (fun j => a * gamma1 j + b * gamma2 j) i
  = vadd (scale a (induced_velocity ae gamma1 i))
         (scale b (induced_velocity ae gamma2 i)).
Proof.
  split.
  - assert (H : induced_velocity ae (fun _ => 0) i = vzero).
    { rewrite induced_velocity_sum.
      rewrite (vsum_upto_ext N _
                 (fun j => vadd (scale 0 (_V_ji ae i j))
                                (scale 0 (_V_ji ae i j)))).
      - rewrite vsum_upto_linear. unfold vadd, scale, vzero.
        apply vec3_eq; simpl; ring.
      - intros j _. unfold vadd, scale. apply vec3_eq; simpl; ring. }
    unfold induced_velocity, vsub, vzero in H.
    apply vec3_eq;
      [apply (f_equal vx) in H | apply (f_equal vy) in H
       | apply (f_equal vz) in H]; cbn [vx vy vz] in H; lra.
  - rewrite !induced_velocity_sum, <- vsum_upto_linear.
    apply vsum_upto_ext. intros j _. unfold vadd, scale.
    apply vec3_eq; simpl; ring.
Qed.

Variables u_a_unswept u_n_unswept : nat -> vec3.

Local Abbreviation integrate :=
  (Solver._integrate_forces_and_moments c objs sec g f N
     u_a_unswept u_n_unswept).

(** X5.  The inviscid force the integration assigns to a section is
    perpendicular to the bound segment [dl] and to the local velocity
    [_v_i] it stores, vanishes where the circulation does, and the
    viscous moment arm never adds a component along the viscous force. *)
Theorem inviscid_force_perpendicular (ae : Aero) (i : nat) :
  dot (_dF_inv (snd (integrate ae)) i) (_dl g i) = 0 /\
  dot (_dF_inv (snd (integrate ae)) i) (_v_i (fst (integrate ae)) i) = 0 /\
  (_gamma (fst (integrate ae)) i = 0 ->
   _dF_inv (snd (integrate ae)) i = vzero) /\
  dot (_dM_visc (snd (integrate ae)) i) (_dF_visc (snd (integrate ae)) i) = 0.
Proof.
  unfold Solver._integrate_forces_and_moments. cbv zeta.
  cbn [fst snd _dF_inv _v_i _gamma _dM_visc _dF_visc].
  repeat split.
  - rewrite dot_scale_l, cross_perp_r. ring.
  - rewrite dot_scale_l, cross_perp_l. ring.
  - intros H. rewrite H. unfold scale, vzero. apply vec3_eq; simpl; ring.
  - apply cross_perp_r.
Qed.

End InducedVelocity.

(** ** The chord behind the swept-section scaling *)

(** [distributions]: the ["chord"] entry of a segment, per control point
    (the ["swept_chord"] entry is [_c_bar] itself) *)
Definition distributions_chord (c : Config) (sec : Sections) (i : nat) : R :=
  if _use_swept_sections c then _c_bar sec i * _C_sweep_inv sec i
  else _c_bar sec i.

Section UnsweptChord.

Variable c : Config.
Variable objs : list Airplane.t.
Variable g : Geometry.
Variable f : Freestream.
Variable N : nat.
Variables u_a_unswept u_n_unswept : nat -> vec3.

Local Abbreviation sec := (_store_aircraft_properties c objs).

Local Abbreviation integrate :=
  (Solver._integrate_forces_and_moments c objs sec g f N
     u_a_unswept u_n_unswept).

Lemma distributions_chord_unswept (i : nat) :
  (_use_swept_sections c = true ->
   cos (at_cp objs 0 Airplane.section_sweep i) <> 0) ->
  distributions_chord c sec i = at_cp objs 0 Airplane.c_bar i.
Proof.
  intros Hcos. unfold distributions_chord, _store_aircraft_properties.
  cbv zeta. cbn [_c_bar _C_sweep_inv].
  destruct (_use_swept_sections c); [|reflexivity].
  specialize (Hcos eq_refl).
  transitivity (at_cp objs 0 Airplane.c_bar i
                * (cos (at_cp objs 0 Airplane.section_sweep i)
                   * / cos (at_cp objs 0 Airplane.section_sweep i))).
  - unfold Rdiv.
    replace (1.0) with 1 by (unfold Q2R; simpl; lra). ring.
  - rewrite Rinv_r by exact Hcos. ring.
Qed.

(** X6.  The chord scaling of the swept-section correction is undone
    where the unswept chord is wanted: at every control point whose sweep
    has a non-zero cosine, the ["chord"] that [distributions] reports and
    the chord in the Reynolds number used for the drag lookup are the
    aircraft's own chord, with and without swept sections. *)
Theorem unswept_chord_recovered (ae : Aero) (i : nat) :
  (_use_swept_sections c = true ->
   cos (at_cp objs 0 Airplane.section_sweep i) <> 0) ->
  distributions_chord c sec i = at_cp objs 0 Airplane.c_bar i /\
  _Re_unswept (snd (integrate ae)) i
  = _V_i (fst (integrate ae)) i * at_cp objs 0 Airplane.c_bar i / _nu g i.
Proof.
  intros Hcos. pose proof (distributions_chord_unswept i Hcos) as Hd.
  split; [exact Hd|]. rewrite <- Hd.
  unfold Solver._integrate_forces_and_moments. cbv zeta.
  cbn [fst snd _Re_unswept _V_i]. unfold distributions_chord.
  destruct (_use_swept_sections c); unfold Rdiv; ring.
Qed.

End UnsweptChord.

Lemma unswept_chord_recovered_witness :
  distributions_chord Examples.default_config
    (_store_aircraft_properties Examples.default_config SolverExample.objs)
    0
  = at_cp SolverExample.objs 0 Airplane.c_bar 0.
Proof.
  refine (proj1 (unswept_chord_recovered Examples.default_config
                   SolverExample.objs Examples.hook_geometry
                   Examples.wake_along_x 1 (fun _ => vzero) (fun _ => vzero)
                   SceneOps.zeros_aero 0%nat _)).
  intros _. cbn. rewrite cos_0. lra.
Defined.

(** ** Counting the passes of the nonlinear solver *)

Section PassCount.

Variable linalg_solve :
  nat -> (nat -> nat -> R) -> (nat -> R) -> option (nat -> R).
Variable c : Config.
Variable objs : list Airplane.t.
Variable sec : Sections.
Variable g : Geometry.
Variable f : Freestream.
Variable N : nat.

Local Abbreviation residual := (Solver._lifting_line_residual c objs sec g f N).
Local Abbreviation loop := (Solver.nonlinear_loop linalg_solve c objs sec g f N).

(** The [iteration] a run of the loop ends with, by the way it ends. *)
Definition pass_count_ok (it : Z) (err : R) (r : nonlinear_result) : Prop :=
  match nl_outcome r with
  | Return _ =>
      (nl_iteration r = it /\ err <= _solver_convergence c) \/
      (it < nl_iteration r < _max_solver_iterations c)%Z
  | Raise (SolverNotConvergedError t _) =>
      t = _solver_type c /\
      nl_iteration r = Z.max (it + 1) (_max_solver_iterations c)
  | Raise LinAlgError =>
      (it < nl_iteration r <= Z.max (it + 1) (_max_solver_iterations c))%Z
  | Raise _ =>
      (it <= nl_iteration r <= Z.max (it + 1) (_max_solver_iterations c))%Z
  end.

Lemma loop_pass_count (V : nat -> nat -> vec3) (fuel : nat) :
  forall (it : Z) (err : R) (ae : Aero) (r : nonlinear_result),
    loop V fuel it err ae = Some r -> pass_count_ok it err r.
Proof.
  induction fuel as [|fuel IH]; intros it err ae r Hr.
  - simpl in Hr.
    destruct (Rgt_dec err (_solver_convergence c)) as [Hgt | Hle];
      [discriminate|].
    destruct (residual ae (_gamma ae)). injection Hr as <-.
    unfold pass_count_ok. simpl. left. split; [reflexivity | lra].
  - destruct (Rgt_dec err (_solver_convergence c)) as [Hgt | Hle].
    + destruct (linalg_solve N
                  (Solver.jacobian c sec g f V (fst (residual ae (_gamma ae))))
                  (fun i => - snd (residual ae (_gamma ae)) i))
        as [dGamma|] eqn:Hs.
      * destruct (Z_lt_ge_dec (it + 1) (_max_solver_iterations c))
          as [Hlt | Hge].
        -- rewrite (loop_pass linalg_solve c objs sec g f N V fuel it err ae
                      dGamma Hgt Hs Hlt) in Hr.
           apply IH in Hr. unfold pass_count_ok in *.
           destruct (nl_outcome r) as [[]|[]];
             try (destruct Hr as [[Hr _] | Hr]; right; lia);
             try (destruct Hr as [Ht Hr]; split; [exact Ht | lia]);
             lia.
        -- rewrite (loop_max_iterations linalg_solve c objs sec g f N V fuel
                      it err ae dGamma Hgt Hs Hge) in Hr.
           injection Hr as <-. unfold pass_count_ok. simpl.
           split; [reflexivity | lia].
      * rewrite (loop_singular linalg_solve c objs sec g f N V fuel it err ae
                   Hgt Hs) in Hr.
        injection Hr as <-. unfold pass_count_ok. simpl. lia.
    + rewrite loop_converged in Hr by lra. injection Hr as <-.
      unfold pass_count_ok. simpl. left. split; [reflexivity | lra].
Qed.

(** X7.  As long as the airfoil queries of the residual return, the
    nonlinear solver ends after at most [max(1, max_iterations)] passes.
    When it raises the not-converged error, the error holds the solver
    type and the pass is number [max(1, max_iterations)]; a failure of
    [np.linalg.solve] comes in a pass that was started.  When it returns,
    either no pass was made, the tolerance being 100 or more, or fewer
    than [max_iterations] passes were: the pass that reaches
    [max_iterations] raises whatever its residual, so with a limit of 1
    and a tolerance below 100 the solver never returns. *)
Theorem nonlinear_pass_count (ae : Aero) :
  exists r,
    Solver._solve_nonlinear linalg_solve c objs sec g f N ae = Some r /\
    (0 <= nl_iteration r <= Z.max 1 (_max_solver_iterations c))%Z /\
    match nl_outcome r with
    | Return _ =>
        (nl_iteration r = 0%Z /\ 100 <= _solver_convergence c /\
         nl_aero r = fst (residual ae (_gamma ae))) \/
        (1 <= nl_iteration r < _max_solver_iterations c)%Z
    | Raise (SolverNotConvergedError t _) =>
        t = _solver_type c /\
        nl_iteration r = Z.max 1 (_max_solver_iterations c)
    | Raise LinAlgError => (1 <= nl_iteration r)%Z
    | Raise _ => True
    end.
Proof.
  destruct (solve_nonlinear_total linalg_solve c objs sec g f N ae)
    as [r Hr].
  exists r. split; [exact Hr|].
  unfold Solver._solve_nonlinear in Hr.
  pose proof (loop_pass_count _ _ _ _ _ _ Hr) as Hc.
  unfold pass_count_ok in Hc.
  destruct (Rgt_dec 100 (_solver_convergence c)) as [Hgt | Hle].
  - destruct (nl_outcome r) as [[]|[]];
      try (split; [simpl in Hc; lia | exact I]).
    + destruct Hc as [[_ Hc] | Hc]; [lra|]. split; [lia | right; lia].
    + destruct Hc as [Ht Hc]. simpl in Hc. split; [lia | split; assumption].
    + split; lia.
  - rewrite loop_converged in Hr by lra. injection Hr as <-. simpl.
    split; [lia|]. left. split; [reflexivity|]. split; [lra | reflexivity].
Qed.

End PassCount.

(** ** The error policy after [set_err_state] *)

Section ErrorPolicy.

Variable FM : Type.

Local Abbreviation Scene := (SceneOps.Scene FM).

(** [kwargs.get(key, "raise")] *)
Definition instruction_for (kwargs : gmap string string) (key : string)
  : string := default "raise" (kwargs !! key).

Lemma err_state_lookup (s : Scene) (kwargs : gmap string string)
    (e : exn) (key : string) :
  SceneOps.error_key e = Some key ->
  SceneOps._err_state FM (SceneOps.set_err_state FM s kwargs) !! key
  = Some (instruction_for kwargs key).
Proof.
  intros Hk. unfold SceneOps.set_err_state, instruction_for.
  cbn [SceneOps._err_state].
  destruct e; try discriminate; injection Hk as <-.
  - rewrite lookup_insert_ne by discriminate. apply lookup_insert_eq.
  - apply lookup_insert_eq.
Qed.

Lemma handle_after_set (s : Scene) (kwargs : gmap string string)
    (e : exn) (key : string) :
  SceneOps.error_key e = Some key ->
  SceneOps._handle_error FM (SceneOps.set_err_state FM s kwargs) e =
  let instruction := instruction_for kwargs key in
  if String.eqb instruction "raise" then (Raise e, [])
  else if String.eqb instruction "warn" then (Return tt, [ErrorWarning e])
       else if String.eqb instruction "ignore" then (Return tt, [])
            else (Raise (RuntimeError
                    ("MachUpX got an incorrect error handling instruction. '"
                     ++ instruction ++ "' is invalid.")%string), []).
Proof.
  intros Hk. unfold SceneOps._handle_error.
  rewrite Hk, (err_state_lookup s kwargs e key Hk). reflexivity.
Qed.

Local Ltac solve_policy :=
  repeat match goal with
         | |- _ /\ _ => split
         | |- _ <-> _ => split
         | |- _ -> _ => intro
         | H : exists _, _ |- _ => destruct H
         | H : _ /\ _ |- _ => destruct H
         | H : _ \/ _ |- _ => destruct H
         | H : Some _ = Some _ |- _ => injection H as H; subst
         end;
  try discriminate; try congruence; eauto 6.

(** X8.  After [set_err_state] with keyword arguments [kwargs], whatever
    was set before:
    [_handle_error] returns exactly for a not-converged or
    database-bounds error whose instruction, [kwargs.get(key, "raise")],
    is ["warn"] or ["ignore"]; it warns exactly under ["warn"], with that
    error; every other call raises, either the error itself or, for an
    instruction that is none of the three words, a [RuntimeError]; a
    missing key never shows as a [KeyError]. *)
Theorem error_policy (s : Scene) (kwargs : gmap string string) (e : exn) :
  let h := SceneOps._handle_error FM (SceneOps.set_err_state FM s kwargs) e in
  (fst h = Return tt <->
   exists key, SceneOps.error_key e = Some key /\
               (instruction_for kwargs key = "warn" \/
                instruction_for kwargs key = "ignore")) /\
  (snd h <> [] <->
   exists key, SceneOps.error_key e = Some key /\
               instruction_for kwargs key = "warn") /\
  (snd h = [] \/ snd h = [ErrorWarning e]) /\
  (fst h = Return tt \/ fst h = Raise e \/
   exists key, SceneOps.error_key e = Some key /\
     instruction_for kwargs key <> "raise" /\
     fst h = Raise (RuntimeError
               ("MachUpX got an incorrect error handling instruction. '"
                ++ instruction_for kwargs key ++ "' is invalid.")%string)) /\
  (e <> KeyError -> fst h <> Raise KeyError).
Proof.
  cbv zeta. destruct (SceneOps.error_key e) as [key|] eqn:Hk.
  - rewrite (handle_after_set s kwargs e key Hk). cbv zeta.
    destruct (String.eqb_spec (instruction_for kwargs key) "raise") as [Hr|Hr];
      [|destruct (String.eqb_spec (instruction_for kwargs key) "warn")
          as [Hw|Hw];
        [|destruct (String.eqb_spec (instruction_for kwargs key) "ignore")
            as [Hi|Hi]]];
      cbn [fst snd]; solve_policy.
  - unfold SceneOps._handle_error. rewrite Hk. cbn [fst snd]. solve_policy.
Qed.

End ErrorPolicy.

(** ** What [solve_forces] does with the stored results and the solver
    inputs *)

Section SolveForces.

Variable FM : Type.
Variable FM_empty : FM.
Variable build_FM : list Airplane.t -> Aero -> Forces -> SolveKwargs -> FM.
Variable linalg_solve :
  nat -> (nat -> nat -> R) -> (nat -> R) -> option (nat -> R).
Variables sp_k0 sp_k1 : R -> R.
Variable fsolve :
  ((nat -> R) -> (nat -> R)) -> (nat -> R) -> (nat -> R) * Z * (nat -> R).
Variable fill_freestream : Config -> list Airplane.t -> Geometry -> Freestream.
Variable fill_unswept : list Airplane.t -> (nat -> vec3) * (nat -> vec3).

Local Abbreviation Scene := (SceneOps.Scene FM).
Local Abbreviation solve_forces :=
  (SceneOps.solve_forces FM FM_empty build_FM linalg_solve sp_k0 sp_k1 fsolve
     fill_freestream fill_unswept).
Local Abbreviation solve_circulation :=
  (SceneOps.solve_circulation FM linalg_solve sp_k0 sp_k1 fsolve
     fill_freestream).
Local Abbreviation integrate :=
  (SceneOps._integrate_forces_and_moments FM build_FM fill_unswept).
Local Abbreviation flow_state :=
  (SceneOps._calc_invariant_flow_properties FM sp_k0 sp_k1 fill_freestream).
Local Abbreviation solve_linear :=
  (SceneOps._solve_linear FM linalg_solve sp_k0 sp_k1 fill_freestream).
Local Abbreviation solve_w_scipy :=
  (SceneOps._solve_w_scipy FM sp_k0 sp_k1 fsolve fill_freestream).
Local Abbreviation solve_nonlinear := (SceneOps._solve_nonlinear FM linalg_solve).
Local Abbreviation nonlinear_improvement :=
  (SceneOps.nonlinear_improvement FM linalg_solve sp_k0 sp_k1 fill_freestream).

(** The attributes no solver step assigns. *)
Definition same_results (s s' : Scene) : Prop :=
  SceneOps._FM FM s' = SceneOps._FM FM s /\
  SceneOps.forces FM s' = SceneOps.forces FM s /\
  SceneOps.config FM s' = SceneOps.config FM s /\
  SceneOps._num_aircraft FM s' = SceneOps._num_aircraft FM s /\
  SceneOps._err_state FM s' = SceneOps._err_state FM s.

Lemma same_results_refl (s : Scene) : same_results s s.
Proof. unfold same_results. auto. Qed.

Lemma same_results_trans (s1 s2 s3 : Scene) :
  same_results s1 s2 -> same_results s2 s3 -> same_results s1 s3.
Proof.
  unfold same_results. intros (A1 & A2 & A3 & A4 & A5) (B1 & B2 & B3 & B4 & B5).
  repeat split; congruence.
Qed.

Lemma flow_state_same_results (s : Scene) :
  same_results s (SceneOps.r_scene (flow_state s)).
Proof.
  unfold SceneOps._calc_invariant_flow_properties.
  destruct (Solver._calc_invariant_flow_properties _ _ _ _ _ _ _ _ _)
    as [[[|e] ae] ws]; unfold same_results; cbn; auto.
Qed.

Lemma solve_linear_same_results (s : Scene) :
  same_results s (SceneOps.r_scene (solve_linear s)).
Proof.
  unfold SceneOps._solve_linear.
  destruct (Solver._solve_linear _ _ _ _ _ _ _ _ _ _)
    as [[[|[]] ae] ws]; unfold same_results; cbn; auto.
Qed.

Lemma solve_w_scipy_same_results (s : Scene) (kw : SolveKwargs) :
  same_results s (SceneOps.r_scene (solve_w_scipy s kw)).
Proof.
  unfold SceneOps._solve_w_scipy.
  pose proof (flow_state_same_results s) as H.
  destruct (SceneOps.r_outcome (flow_state s)); [|exact H].
  destruct (fsolve _ _) as [[gamma ier] last].
  eapply same_results_trans; [exact H|].
  unfold same_results; cbn; auto.
Qed.

Lemma solve_nonlinear_same_results (s : Scene) (r : SceneOps.result FM unit) :
  solve_nonlinear s = Some r -> same_results s (SceneOps.r_scene r).
Proof.
  unfold SceneOps._solve_nonlinear.
  destruct (Solver._solve_nonlinear _ _ _ _ _ _ _ _); [|discriminate].
  intros H. injection H as <-. unfold same_results; cbn; auto.
Qed.

Lemma solve_nonlinear_scene_total (s : Scene) :
  exists r, solve_nonlinear s = Some r.
Proof.
  unfold SceneOps._solve_nonlinear.
  destruct (solve_nonlinear_total linalg_solve (SceneOps.config FM s)
              (SceneOps._airplane_objects FM s) (SceneOps.sections FM s)
              (SceneOps.geometry FM s) (SceneOps.freestream FM s)
              (SceneOps.N_of FM s) (SceneOps.aero FM s)) as [nr ->].
  eauto.
Qed.

Lemma nonlinear_improvement_same_results (s : Scene) (kw : SolveKwargs) :
  exists r, nonlinear_improvement s kw = Some r /\
            same_results s (SceneOps.r_scene r).
Proof.
  unfold SceneOps.nonlinear_improvement.
  set (r0 := if String.eqb (initial_guess kw) "previous"
             then flow_state s else SceneOps.ok FM s []).
  assert (H0 : same_results s (SceneOps.r_scene r0)).
  { unfold r0. destruct (String.eqb _ _);
      [apply flow_state_same_results | apply same_results_refl]. }
  destruct (SceneOps.r_outcome r0) as [[]|e].
  - destruct (solve_nonlinear_scene_total (SceneOps.r_scene r0)) as [r' Hr'].
    rewrite Hr'. eexists. split; [reflexivity|]. cbn [SceneOps.r_scene].
    eapply same_results_trans; [exact H0|].
    apply solve_nonlinear_same_results. exact Hr'.
  - destruct e; eexists; (split; [reflexivity | exact H0]).
Qed.

Lemma solve_circulation_same_results (s : Scene) (kw : SolveKwargs) :
  exists r, solve_circulation s kw = Some r /\
            same_results s (SceneOps.r_scene r).
Proof.
  unfold SceneOps.solve_circulation. cbv zeta.
  set (r1 := if String.eqb (_solver_type (SceneOps.config FM s)) "scipy_fsolve"
             then solve_w_scipy s kw
             else {| SceneOps.r_outcome := Return false; SceneOps.r_scene := s;
                     SceneOps.r_warnings := [] |}).
  assert (H1 : same_results s (SceneOps.r_scene r1)).
  { unfold r1. destruct (String.eqb _ _);
      [apply solve_w_scipy_same_results | apply same_results_refl]. }
  clearbody r1.
  destruct (SceneOps.r_outcome r1) as [failed|e];
    [|eexists; split; [reflexivity | exact H1]].
  match goal with
  | |- context [SceneOps.r_outcome (if ?b then ?x else ?y)] =>
      set (r2 := if b then x else y)
  end.
  assert (H2 : same_results s (SceneOps.r_scene r2)).
  { eapply same_results_trans; [exact H1|]. unfold r2.
    destruct (_ || _);
      [apply solve_linear_same_results | apply same_results_refl]. }
  clearbody r2.
  destruct (SceneOps.r_outcome r2) as [[]|e];
    [|eexists; split; [reflexivity | exact H2]].
  destruct (_ || _); [|eexists; split; [reflexivity | exact H2]].
  destruct (nonlinear_improvement_same_results (SceneOps.r_scene r2) kw)
    as (r3 & -> & H3).
  eexists. split; [reflexivity|]. cbn [SceneOps.r_scene].
  eapply same_results_trans; eassumption.
Qed.

(** X9.  In a scene with aircraft, [solve_forces] first replaces the
    stored forces and moments by an empty dictionary, and no solver step
    assigns them.  So when the solver stage ends in an error that is
    raised again (one outside the policy, or one whose instruction is
    not ["warn"] or ["ignore"]), [solve_forces] raises without
    integrating and the scene holds the empty dictionary: the results of
    an earlier solve are gone.  Whenever [solve_forces] returns, it
    returns the dictionary the scene holds, and the scene is marked
    solved. *)
Theorem solve_forces_results (s : Scene) (kw : SolveKwargs) :
  SceneOps._num_aircraft FM s <> 0%Z ->
  exists r0,
    solve_circulation
      (SceneOps.with_FM FM s (SceneOps.forces FM s) (Some FM_empty)) kw
    = Some r0 /\
    SceneOps._FM FM (SceneOps.r_scene r0) = Some FM_empty /\
    (forall e' ws,
       SceneOps.handled FM (SceneOps.r_scene r0) (SceneOps.r_outcome r0)
       = (Raise e', ws) ->
       solve_forces s kw =
       Some {| SceneOps.r_outcome := Raise e';
               SceneOps.r_scene := SceneOps.r_scene r0;
               SceneOps.r_warnings := SceneOps.r_warnings r0 ++ ws |}) /\
    (forall r fm,
       solve_forces s kw = Some r ->
       SceneOps.r_outcome r = Return fm ->
       fm = SceneOps._FM FM (SceneOps.r_scene r) /\
       SceneOps._solved FM (SceneOps.r_scene r) = true).
Proof.
  intros Hn.
  destruct (solve_circulation_same_results
              (SceneOps.with_FM FM s (SceneOps.forces FM s) (Some FM_empty)) kw)
    as (r0 & Hc & HFM & _).
  cbn [SceneOps._FM SceneOps.with_FM] in HFM.
  exists r0. split; [exact Hc|]. split; [exact HFM|].
  unfold SceneOps.solve_forces.
  destruct (Z.eqb_spec (SceneOps._num_aircraft FM s) 0) as [|_];
    [contradiction|].
  rewrite Hc. split.
  - intros e' ws Hh. rewrite Hh. reflexivity.
  - intros r fm Hr Ho.
    destruct (SceneOps.handled FM (SceneOps.r_scene r0)
                (SceneOps.r_outcome r0)) as [[[]|e] ws].
    + destruct (SceneOps.handled FM _ _) as [[[]|e] ws'] in Hr;
        injection Hr as <-; cbn [SceneOps.r_outcome] in Ho;
        [|discriminate].
      injection Ho as <-. split; reflexivity.
    + injection Hr as <-. discriminate Ho.
Qed.


(** X11.  With the solver type ["scipy_fsolve"] and [verbose] off, the
    solver stage of [solve_forces] is the [fsolve] step and nothing
    else: it ends as that step ends, raising what it raises, and when
    the step returns, the circulation is what [fsolve] returned whether
    or not it reports success.  The flag is looked at only under
    [verbose], so the linear and nonlinear solvers can run as a
    fall-back only then. *)
Theorem scipy_without_fallback (s : Scene) (kw : SolveKwargs) :
  _solver_type (SceneOps.config FM s) = "scipy_fsolve" ->
  let r1 := solve_w_scipy s kw in
  (forall failed, SceneOps.r_outcome r1 = Return failed ->
     (failed = true -> verbose kw = true) /\
     let s1 := SceneOps.r_scene (flow_state s) in
     let residual := fun x =>
       snd (Solver._lifting_line_residual (SceneOps.config FM s1)
              (SceneOps._airplane_objects FM s1) (SceneOps.sections FM s1)
              (SceneOps.geometry FM s1) (SceneOps.freestream FM s1)
              (SceneOps.N_of FM s1) (SceneOps.aero FM s1) x) in
     _gamma (SceneOps.aero FM (SceneOps.r_scene r1))
     = fst (fst (fsolve residual (fun _ => 0)))) /\
  (verbose kw = false ->
   solve_circulation s kw =
   Some {| SceneOps.r_outcome :=
             match SceneOps.r_outcome r1 with
             | Return _ => Return tt
             | Raise e => Raise e
             end;
           SceneOps.r_scene := SceneOps.r_scene r1;
           SceneOps.r_warnings := SceneOps.r_warnings r1 |}).
Proof.
  intros Ht. cbv zeta. split.
  - intros failed. unfold SceneOps._solve_w_scipy.
    destruct (SceneOps.r_outcome (flow_state s)) as [[]|e];
      [|discriminate].
    cbv zeta. destruct (fsolve _ _) as [[gamma ier] last].
    cbn [SceneOps.r_outcome SceneOps.r_scene SceneOps.aero
         SceneOps.with_aero _gamma set_gamma fst].
    intros H. injection H as <-. split; [|reflexivity].
    intros Hf. apply andb_true_iff in Hf as [Hv _]. exact Hv.
  - intros Hv. unfold SceneOps.solve_circulation. cbv zeta.
    rewrite Ht. cbn [String.eqb Ascii.eqb Bool.eqb andb orb].
    unfold SceneOps._solve_w_scipy.
    destruct (SceneOps.r_outcome (flow_state s)) as [[]|e].
    + cbv zeta. destruct (fsolve _ _) as [[gamma ier] last]. rewrite Hv.
      cbn [andb SceneOps.r_outcome orb SceneOps.ok SceneOps.r_scene
           SceneOps.r_warnings].
      rewrite app_nil_r. reflexivity.
    + reflexivity.
Qed.

End SolveForces.

(** ** Adding and removing aircraft *)

Section DictRoundTrip.

Context {V : Type}.

Lemma get_set_same (d : list (string * V)) (k : string) (v : V) :
  Dict.get (Dict.set d k v) k = Some v.
Proof.
  induction d as [|[k' v'] d IH]; simpl.
  - rewrite String.eqb_refl. reflexivity.
  - destruct (String.eqb k k') eqn:E; simpl.
    + rewrite String.eqb_refl. reflexivity.
    + rewrite E. exact IH.
Qed.

Lemma pop_set_fresh (d : list (string * V)) (k : string) (v : V) :
  Dict.get d k = None -> Dict.pop (Dict.set d k v) k = Some (v, d).
Proof.
  induction d as [|[k' v'] d IH]; simpl; intros H.
  - rewrite String.eqb_refl. reflexivity.
  - destruct (String.eqb k k') eqn:E; [discriminate|]. simpl.
    rewrite E, (IH H). reflexivity.
Qed.

Lemma set_existing_length (d : list (string * V)) (k : string) (v old : V) :
  Dict.get d k = Some old -> length (Dict.set d k v) = length d.
Proof.
  induction d as [|[k' v'] d IH]; simpl; intros H; [discriminate|].
  destruct (String.eqb k k'); simpl; [reflexivity|].
  rewrite (IH H). reflexivity.
Qed.

End DictRoundTrip.

Section AddRemove.

Variable FM : Type.
Variable fill_geometry : Config -> list Airplane.t -> Z -> Geometry.

Local Abbreviation Scene := (SceneOps.Scene FM).
Local Abbreviation remove_aircraft := (SceneOps.remove_aircraft FM fill_geometry).
Local Abbreviation add_aircraft := (SceneOps.add_aircraft FM fill_geometry).

Lemma add_aircraft_fields (s : Scene) (name : string) (a : Airplane.t) :
  let s1 := SceneOps.r_scene (add_aircraft s name a) in
  SceneOps._airplanes FM s1 = Dict.set (SceneOps._airplanes FM s) name a /\
  SceneOps._N FM s1 = (SceneOps._N FM s + Z.of_nat (Airplane.N a))%Z /\
  SceneOps._num_aircraft FM s1 = (SceneOps._num_aircraft FM s + 1)%Z.
Proof. cbn. auto. Qed.

Lemma remove_aircraft_fields (s : Scene) (name : string) (a : Airplane.t)
    (rest : list (string * Airplane.t)) :
  Dict.pop (SceneOps._airplanes FM s) name = Some (a, rest) ->
  let r := remove_aircraft s name in
  SceneOps.r_outcome r = Return tt /\
  SceneOps._airplanes FM (SceneOps.r_scene r) = rest /\
  SceneOps._N FM (SceneOps.r_scene r)
  = (SceneOps._N FM s - Airplane.get_num_cps a)%Z /\
  SceneOps._num_aircraft FM (SceneOps.r_scene r)
  = (SceneOps._num_aircraft FM s - 1)%Z.
Proof.
  intros Hp. unfold SceneOps.remove_aircraft. rewrite Hp. cbv zeta.
  cbn [SceneOps.r_outcome SceneOps.r_scene].
  destruct (_ =? 0)%Z; cbn; auto.
Qed.

(** X12.  Adding an aircraft under a fresh name and removing it again
    gives back the aircraft dictionary and the aircraft count.  The
    control-point total comes back only when the aircraft's [N] and its
    [get_num_cps()] agree: [add_aircraft] adds the one, [remove_aircraft]
    takes off the other. *)
Theorem add_remove_round_trip (s : Scene) (name : string) (a : Airplane.t) :
  Dict.get (SceneOps._airplanes FM s) name = None ->
  let s1 := SceneOps.r_scene (add_aircraft s name a) in
  let r := remove_aircraft s1 name in
  Dict.get (SceneOps._airplanes FM s1) name = Some a /\
  SceneOps.r_outcome r = Return tt /\
  SceneOps._airplanes FM (SceneOps.r_scene r) = SceneOps._airplanes FM s /\
  SceneOps._num_aircraft FM (SceneOps.r_scene r) = SceneOps._num_aircraft FM s /\
  SceneOps._N FM (SceneOps.r_scene r)
  = (SceneOps._N FM s + Z.of_nat (Airplane.N a) - Airplane.get_num_cps a)%Z.
Proof.
  intros Hfresh. cbv zeta.
  destruct (add_aircraft_fields s name a) as (Hd & HN & Hc).
  split; [rewrite Hd; apply get_set_same|].
  destruct (remove_aircraft_fields
              (SceneOps.r_scene (add_aircraft s name a)) name a
              (SceneOps._airplanes FM s)) as (Ho & Hd' & HN' & Hc').
  { rewrite Hd. apply pop_set_fresh. exact Hfresh. }
  rewrite Ho, Hd', HN', Hc', HN, Hc. repeat split; lia.
Qed.

(** X13.  Adding an aircraft under a name the scene already has replaces
    that aircraft in place, yet counts it again: the dictionary keeps its
    length while [_num_aircraft] goes up by one and [_N] by the new
    aircraft's [N], the replaced aircraft's control points still
    included.  The counter then no longer agrees with the dictionary, and
    removing the aircraft leaves the counter where it was before with one
    aircraft fewer in the dictionary. *)
Theorem add_aircraft_existing_name (s : Scene) (name : string)
    (old a : Airplane.t) :
  Dict.get (SceneOps._airplanes FM s) name = Some old ->
  let s1 := SceneOps.r_scene (add_aircraft s name a) in
  let s2 := SceneOps.r_scene (remove_aircraft s1 name) in
  Dict.get (SceneOps._airplanes FM s1) name = Some a /\
  length (SceneOps._airplanes FM s1) = length (SceneOps._airplanes FM s) /\
  SceneOps._num_aircraft FM s1 = (SceneOps._num_aircraft FM s + 1)%Z /\
  SceneOps._N FM s1 = (SceneOps._N FM s + Z.of_nat (Airplane.N a))%Z /\
  (count_ok FM s -> ~ count_ok FM s1) /\
  S (length (SceneOps._airplanes FM s2)) = length (SceneOps._airplanes FM s) /\
  SceneOps._num_aircraft FM s2 = SceneOps._num_aircraft FM s.
Proof.
  intros Hold. cbv zeta.
  destruct (add_aircraft_fields s name a) as (Hd & HN & Hc).
  assert (Hg : Dict.get (SceneOps._airplanes FM
                           (SceneOps.r_scene (add_aircraft s name a))) name
               = Some a) by (rewrite Hd; apply get_set_same).
  assert (Hl : length (SceneOps._airplanes FM
                         (SceneOps.r_scene (add_aircraft s name a)))
               = length (SceneOps._airplanes FM s))
    by (rewrite Hd; apply (set_existing_length _ _ _ old Hold)).
  destruct (pop_some _ _ _ Hg) as (rest & Hp & Hrest).
  destruct (remove_aircraft_fields _ name a rest Hp) as (_ & Hd' & _ & Hc').
  split; [exact Hg|]. split; [exact Hl|]. split; [exact Hc|].
  split; [exact HN|]. split; [|split].
  - unfold count_ok. intros H H1. rewrite Hc, Hl, H in H1. lia.
  - rewrite Hd', Hrest, Hl. reflexivity.
  - rewrite Hc', Hc. lia.
Qed.

End AddRemove.

(** ** The layout of the scene arrays *)

(** [index] after the aircraft of [objs] have been stored *)
Definition total_N (objs : list Airplane.t) : nat :=
  fold_right (fun a n => (Airplane.N a + n)%nat) 0%nat objs.

Section ArrayLayout.

Context {A : Type}.
Variable dflt : A.
Variable field : Airplane.t -> nat -> A.

Lemma at_cp_offset (before : list Airplane.t) (rest : list Airplane.t)
    (k : nat) :
  at_cp (before ++ rest) dflt field (total_N before + k)
  = at_cp rest dflt field k.
Proof.
  induction before as [|b before IH]; simpl; [reflexivity|].
  destruct (Nat.ltb_spec (Airplane.N b + total_N before + k) (Airplane.N b));
    [lia|].
  replace (Airplane.N b + total_N before + k - Airplane.N b)%nat
    with (total_N before + k)%nat by lia.
  exact IH.
Qed.

Lemma at_cp_beyond (objs : list Airplane.t) (i : nat) :
  (total_N objs <= i)%nat -> at_cp objs dflt field i = dflt.
Proof.
  revert i. induction objs as [|a objs IH]; simpl; intros i H; [reflexivity|].
  destruct (Nat.ltb_spec i (Airplane.N a)); [lia|]. apply IH. lia.
Qed.

Lemma at_cp_slice (before after : list Airplane.t) (a : Airplane.t) (k : nat) :
  (k < Airplane.N a)%nat ->
  at_cp (before ++ a :: after) dflt field (total_N before + k) = field a k.
Proof.
  intros Hk. rewrite at_cp_offset. simpl.
  destruct (Nat.ltb_spec k (Airplane.N a)); [reflexivity | lia].
Qed.

End ArrayLayout.

(** X14.  [_store_aircraft_properties] lays the aircraft out one after
    the other in dictionary order: control point [k] of an aircraft sits
    at the sum of the [N] of the aircraft before it plus [k], where the
    section area and sweep are that aircraft's own and the chord is its
    own chord, times the cosine of the sweep with swept sections; beyond
    the last aircraft the arrays keep the zeros they were created
    with. *)
Theorem store_aircraft_properties_layout (c : Config)
    (before after : list Airplane.t) (a : Airplane.t) (k : nat) :
  (k < Airplane.N a)%nat ->
  let objs := before ++ a :: after in
  let sec := _store_aircraft_properties c objs in
  let i := (total_N before + k)%nat in
  _dS sec i = Airplane.dS a k /\
  _section_sweep sec i = Airplane.section_sweep a k /\
  _c_bar sec i
  = (if _use_swept_sections c
     then Airplane.c_bar a k * cos (Airplane.section_sweep a k)
     else Airplane.c_bar a k) /\
  forall m, (total_N objs <= m)%nat ->
            _dS sec m = 0 /\ _section_sweep sec m = 0 /\ _c_bar sec m = 0.
Proof.
  intros Hk. cbv zeta. unfold _store_aircraft_properties. cbv zeta.
  cbn [_dS _section_sweep _c_bar].
  rewrite !(at_cp_slice _ _ before after a k Hk).
  repeat split; try reflexivity;
    rewrite ?(at_cp_beyond _ _ _ m H); try reflexivity.
  destruct (_use_swept_sections c); ring.
Qed.

(** * [machupX/airfoil.py]: the linear airfoil

    The coefficient getters of [Airfoil] take one array [inputs]: angle
    of attack, Reynolds number, Mach number, flap efficiency and flap
    deflection.  The array is a list here, an index past its end is the
    [IndexError] numpy raises, and [_CL_max], whose default is [np.inf],
    is a real or infinity. *)

Module Airfoil.

Inductive error : Type :=
  | IndexError.

(** What a getter gives: a value, the [None] a Python function returns
    when it falls off its end, or an error. *)
Inductive returned (A : Type) : Type :=
  | Value (a : A)
  | ReturnsNone
  | Raises (e : error).

Arguments Value {A} a.
Arguments ReturnsNone {A}.
Arguments Raises {A} e.

Inductive limit : Type :=
  | Finite (x : R)
  | Infinity.         (* [np.inf] *)

Record t : Type := {
  name : string;
  _type : string;
  _aL0 : R;
  _CLa : R;
  _CmL0 : R;
  _Cma : R;
  _CD0 : R;
  _CD1 : R;
  _CD2 : R;
  _CL_max : limit;
  _CLM : R;
  _CLRe : R
}.

(** [np.sign] *)
Definition sign (x : R) : R :=
  if Rlt_dec 0 x then 1 else if Rlt_dec x 0 then -1 else 0.

(** [CL > self._CL_max or CL < -self._CL_max] and the assignment it
    guards *)
Definition limited (CL : R) (CL_max : limit) : R :=
  match CL_max with
  | Infinity => CL
  | Finite m =>
      if Rltb m CL || Rltb CL (- m) then sign CL * m else CL
  end.

Definition get_CL (a : t) (inputs : list R) : returned R :=
  if String.eqb (_type a) "linear"
  then match nth_error inputs 0, nth_error inputs 3, nth_error inputs 4 with
       | Some alpha, Some eff, Some deflection =>
           Value (limited (_CLa a * (alpha - _aL0 a + eff * deflection))
                          (_CL_max a))
       | _, _, _ => Raises IndexError
       end
  else ReturnsNone.

(** [inputs_wo_flap = copy.copy(inputs); inputs_wo_flap[3:] = 0.0] *)
Definition inputs_wo_flap (inputs : list R) : list R :=
  firstn 3 inputs ++ map (fun _ => 0) (skipn 3 inputs).

Definition get_CD (a : t) (inputs : list R) : returned R :=
  if String.eqb (_type a) "linear"
  then match nth_error inputs 4 with
       | None => Raises IndexError
       | Some delta_flap =>
           match get_CL a (inputs_wo_flap inputs) with
           | Value CL =>
               let CD_flap := 0.002 * Rabs delta_flap * 180 / PI in
               Value (_CD0 a + _CD1 a * CL + _CD2 a * CL * CL + CD_flap)
           | ReturnsNone => ReturnsNone
           | Raises e => Raises e
           end
       end
  else ReturnsNone.

Definition get_Cm (a : t) (inputs : list R) : returned R :=
  if String.eqb (_type a) "linear"
  then match nth_error inputs 0, nth_error inputs 3, nth_error inputs 4 with
       | Some alpha, Some eff, Some deflection =>
           Value (_Cma a * alpha + _CmL0 a + eff * deflection)
       | _, _, _ => Raises IndexError
       end
  else ReturnsNone.

Definition get_aL0 (a : t) (inputs : list R) : returned R :=
  if String.eqb (_type a) "linear" then Value (_aL0 a) else ReturnsNone.

Definition get_CLM (a : t) (inputs : list R) : returned R :=
  if String.eqb (_type a) "linear" then Value (_CLM a) else ReturnsNone.

Definition get_CLRe (a : t) (inputs : list R) : returned R :=
  if String.eqb (_type a) "linear" then Value (_CLRe a) else ReturnsNone.

Definition get_CLa (a : t) (inputs : list R) : returned R :=
  if String.eqb (_type a) "linear" then Value (_CLa a) else ReturnsNone.

End Airfoil.

(** ** Properties of the linear airfoil *)

Module AirfoilExample.

(** The defaults of [_initialize_data] with a lift limit of [1.2]. *)
Definition limited_airfoil : Airfoil.t :=
  {| Airfoil.name := "default"; Airfoil._type := "linear";
     Airfoil._aL0 := 0; Airfoil._CLa := 2 * PI; Airfoil._CmL0 := 0;
     Airfoil._Cma := 0; Airfoil._CD0 := 0; Airfoil._CD1 := 0;
     Airfoil._CD2 := 0; Airfoil._CL_max := Airfoil.Finite (6/5);
     Airfoil._CLM := 0; Airfoil._CLRe := 0 |}.

End AirfoilExample.

Section AirfoilFacts.

Variable a : Airfoil.t.
Hypothesis linear : Airfoil._type a = "linear".

(** The lift before the limit is applied *)
Definition unlimited_CL (alpha eff deflection : R) : R :=
  Airfoil._CLa a * (alpha - Airfoil._aL0 a + eff * deflection).

Lemma get_CL_value (alpha Re M eff deflection : R) (rest : list R) :
  Airfoil.get_CL a (alpha :: Re :: M :: eff :: deflection :: rest)
  = Airfoil.Value (Airfoil.limited (unlimited_CL alpha eff deflection)
                                   (Airfoil._CL_max a)).
Proof. unfold Airfoil.get_CL. rewrite linear. reflexivity. Qed.

Lemma limited_cases (CL m : R) :
  0 <= m ->
  (m < CL -> Airfoil.limited CL (Airfoil.Finite m) = m) /\
  (CL < - m -> Airfoil.limited CL (Airfoil.Finite m) = - m) /\
  (- m <= CL <= m -> Airfoil.limited CL (Airfoil.Finite m) = CL).
Proof.
  intros Hm. unfold Airfoil.limited, Airfoil.sign, Rltb.
  repeat split; intros H;
    destruct (Rlt_dec m CL); destruct (Rlt_dec CL (- m));
    destruct (Rlt_dec 0 CL); destruct (Rlt_dec CL 0);
    cbn [orb]; lra.
Qed.

Lemma limited_bound (CL m : R) :
  0 <= m -> - m <= Airfoil.limited CL (Airfoil.Finite m) <= m.
Proof.
  intros Hm. destruct (limited_cases CL m Hm) as (H1 & H2 & H3).
  destruct (Rlt_dec m CL) as [Hgt|]; [rewrite (H1 Hgt); lra|].
  destruct (Rlt_dec CL (- m)) as [Hlt|]; [rewrite (H2 Hlt); lra|].
  rewrite H3; lra.
Qed.

Lemma limited_monotone (x y : R) (l : Airfoil.limit) :
  match l with Airfoil.Finite m => 0 <= m | Airfoil.Infinity => True end ->
  x <= y -> Airfoil.limited x l <= Airfoil.limited y l.
Proof.
  destruct l as [m|]; intros Hm Hxy; [|exact Hxy].
  destruct (limited_cases x m Hm) as (X1 & X2 & X3).
  destruct (limited_cases y m Hm) as (Y1 & Y2 & Y3).
  destruct (Rlt_dec m x) as [Hx1|Hx1]; [rewrite (X1 Hx1), Y1; lra|].
  destruct (Rlt_dec x (- m)) as [Hx2|Hx2].
  - rewrite (X2 Hx2). pose proof (limited_bound y m Hm). lra.
  - rewrite X3 by lra.
    destruct (Rlt_dec m y) as [Hy1|Hy1]; [rewrite (Y1 Hy1); lra|].
    rewrite Y3; lra.
Qed.

(** X15.  With a finite, non-negative [CL_max], [get_CL] is the linear
    lift [CLa*(alpha - aL0 + eff*deflection)] cut off at plus and minus
    [CL_max]: it returns the linear value unchanged inside the limits,
    [CL_max] above them and [-CL_max] below, so its magnitude never
    exceeds [CL_max]. *)
Theorem get_CL_limited (m alpha Re M eff deflection : R) (rest : list R) :
  Airfoil._CL_max a = Airfoil.Finite m ->
  0 <= m ->
  exists CL,
    Airfoil.get_CL a (alpha :: Re :: M :: eff :: deflection :: rest)
    = Airfoil.Value CL /\
    Rabs CL <= m /\
    (m < unlimited_CL alpha eff deflection -> CL = m) /\
    (unlimited_CL alpha eff deflection < - m -> CL = - m) /\
    (- m <= unlimited_CL alpha eff deflection <= m ->
     CL = unlimited_CL alpha eff deflection).
Proof.
  intros Hmax Hm. eexists. split; [apply get_CL_value|]. rewrite Hmax.
  split; [apply Rabs_le, limited_bound, Hm|].
  apply limited_cases, Hm.
Qed.

(** X16.  For a non-negative lift slope and a lift limit that is infinite
    or non-negative, the lift [get_CL] returns never decreases with the
    angle of attack, the other inputs held fixed; without a finite limit
    it is the linear value, so it vanishes at [alpha = aL0] with no flap
    deflection. *)
Theorem get_CL_monotone (alpha1 alpha2 Re M eff deflection : R)
    (rest : list R) :
  0 <= Airfoil._CLa a ->
  match Airfoil._CL_max a with
  | Airfoil.Finite m => 0 <= m
  | Airfoil.Infinity => True
  end ->
  alpha1 <= alpha2 ->
  exists CL1 CL2,
    Airfoil.get_CL a (alpha1 :: Re :: M :: eff :: deflection :: rest)
    = Airfoil.Value CL1 /\
    Airfoil.get_CL a (alpha2 :: Re :: M :: eff :: deflection :: rest)
    = Airfoil.Value CL2 /\
    CL1 <= CL2 /\
    Airfoil.get_CL a (Airfoil._aL0 a :: Re :: M :: eff :: 0 :: rest)
    = Airfoil.Value 0.
Proof.
  intros Ha Hm Hle. do 2 eexists.
  split; [apply get_CL_value|]. split; [apply get_CL_value|]. split.
  - apply limited_monotone; [exact Hm|]. unfold unlimited_CL. nra.
  - rewrite get_CL_value. f_equal.
    assert (E : unlimited_CL (Airfoil._aL0 a) eff 0 = 0)
      by (unfold unlimited_CL; ring).
    rewrite E. destruct (Airfoil._CL_max a) as [m|]; [|reflexivity].
    apply limited_cases; [exact Hm | lra].
Qed.

Lemma get_CD_value (alpha Re M eff deflection : R) (rest : list R) :
  Airfoil.get_CD a (alpha :: Re :: M :: eff :: deflection :: rest)
  = let CL := Airfoil.limited (unlimited_CL alpha 0 0) (Airfoil._CL_max a) in
    Airfoil.Value (Airfoil._CD0 a + Airfoil._CD1 a * CL
                   + Airfoil._CD2 a * CL * CL
                   + 0.002 * Rabs deflection * 180 / PI).
Proof.
  unfold Airfoil.get_CD. rewrite linear, String.eqb_refl.
  cbn [nth_error Airfoil.inputs_wo_flap firstn skipn map app].
  rewrite get_CL_value. reflexivity.
Qed.

(** X17.  The drag of [get_CD] is the polar [CD0 + CD1*CL + CD2*CL^2]
    at the lift of the airfoil without its flap, plus
    [0.002*|deflection|*180/pi]: it does not depend on the flap
    efficiency, it is the same for a deflection and its opposite, and a
    deflected flap never lowers it below the drag at zero deflection. *)
Theorem get_CD_flap (alpha Re M eff eff' deflection : R) (rest rest' : list R) :
  exists CD CD_clean,
    Airfoil.get_CD a (alpha :: Re :: M :: eff :: deflection :: rest)
    = Airfoil.Value CD /\
    Airfoil.get_CD a (alpha :: Re :: M :: eff' :: - deflection :: rest')
    = Airfoil.Value CD /\
    Airfoil.get_CD a (alpha :: Re :: M :: eff' :: 0 :: rest')
    = Airfoil.Value CD_clean /\
    CD = CD_clean + 0.002 * Rabs deflection * 180 / PI /\
    CD_clean <= CD.
Proof.
  do 2 eexists. rewrite !get_CD_value. cbv zeta.
  split; [reflexivity|]. split; [rewrite Rabs_Ropp; reflexivity|].
  split; [reflexivity|].
  pose proof (Rabs_pos deflection) as Hd. pose proof PI_RGT_0 as Hpi.
  rewrite Rabs_R0.
  assert (E : 0.002 * 0 * 180 / PI = 0) by (unfold Rdiv; ring).
  rewrite E. split; [ring|].
  assert (0 <= 0.002 * Rabs deflection * 180 / PI); [|lra].
  apply Rmult_le_pos; [|left; apply Rinv_0_lt_compat, Hpi].
  assert (0 <= 0.002) by (unfold Q2R; simpl; lra). nra.
Qed.

Lemma get_Cm_value (alpha Re M eff deflection : R) (rest : list R) :
  Airfoil.get_Cm a (alpha :: Re :: M :: eff :: deflection :: rest)
  = Airfoil.Value (Airfoil._Cma a * alpha + Airfoil._CmL0 a
                   + eff * deflection).
Proof. unfold Airfoil.get_Cm. rewrite linear. reflexivity. Qed.

(** X18.  The lift, drag and moment getters need all five inputs: on a
    shorter array each raises [IndexError], on an array of five or more
    each returns a number; the getters of the stored constants never look
    at the array. *)
Theorem getters_need_five_inputs (inputs : list R) :
  ((length inputs < 5)%nat <->
   Airfoil.get_CL a inputs = Airfoil.Raises Airfoil.IndexError) /\
  ((length inputs < 5)%nat <->
   Airfoil.get_CD a inputs = Airfoil.Raises Airfoil.IndexError) /\
  ((length inputs < 5)%nat <->
   Airfoil.get_Cm a inputs = Airfoil.Raises Airfoil.IndexError) /\
  ((5 <= length inputs)%nat ->
   exists CL CD Cm,
     Airfoil.get_CL a inputs = Airfoil.Value CL /\
     Airfoil.get_CD a inputs = Airfoil.Value CD /\
     Airfoil.get_Cm a inputs = Airfoil.Value Cm) /\
  Airfoil.get_aL0 a inputs = Airfoil.Value (Airfoil._aL0 a) /\
  Airfoil.get_CLa a inputs = Airfoil.Value (Airfoil._CLa a) /\
  Airfoil.get_CLM a inputs = Airfoil.Value (Airfoil._CLM a) /\
  Airfoil.get_CLRe a inputs = Airfoil.Value (Airfoil._CLRe a).
Proof.
  unfold Airfoil.get_aL0, Airfoil.get_CLa, Airfoil.get_CLM, Airfoil.get_CLRe.
  rewrite linear, String.eqb_refl.
  destruct inputs as [|x0 [|x1 [|x2 [|x3 [|x4 rest]]]]];
    try (unfold Airfoil.get_CL, Airfoil.get_CD, Airfoil.get_Cm;
         rewrite linear, String.eqb_refl; cbn;
         repeat split; auto; try (intros; lia); try (intros; discriminate);
         fail).
  rewrite get_CL_value, get_CD_value, get_Cm_value. cbn [length]. cbv zeta.
  repeat split; try (intros; lia); try (intros; discriminate); eauto.
  intros _. do 3 eexists. repeat split.
Qed.

End AirfoilFacts.

(** * [machupX/wing_segment.py]: the spanwise grid of a wing segment

    [WingSegment._initialize_params] places [N + 1] nodes and [N] control
    points along the span fraction from 0 to 1, by cosine clustering
    between discontinuities, by linear spacing or as the user lists them.
    Python lists and numpy arrays of floats are lists of reals. *)

Module WingSegment.

(** Why the grid is refused: the [IOError]s of [_initialize_params], the
    [ValueError] of [np.linspace] for a negative number of samples, and
    the [ZeroDivisionError] of [1/(2*self.N)]. *)
Inductive io_reason : Type :=
  | WrongLength (got needed : Z)
      (* User specified distribution must have length of 2*N+1. *)
  | BadEndpoints
      (* User specified distribution must begin at 0 and end at 1. *)
  | NotIncreasing
      (* User specified distribution must be monotonically increasing. *)
  | NotRecognized.
      (* Distribution type ... not recognized for wing segment ... *)

Inductive error : Type :=
  | IOError (reason : io_reason)
  | ValueError
  | ZeroDivisionError.

Inductive returned (A : Type) : Type :=
  | Value (a : A)
  | Raises (e : error).

Arguments Value {A} a.
Arguments Raises {A} e.

(** [grid_dict.get("distribution", "cosine_cluster")]: a string, a list,
    or something else *)
Inductive distribution_spec : Type :=
  | Name (s : string)
  | Spans (l : list R)
  | OtherValue.

(** The ["control_surface"] dictionary, as far as the grid reads it *)
Record control_surface : Type := {
  root_span : option R;
  tip_span : option R
}.

(** The inputs of the grid, after the [.get] calls with their defaults *)
Record params : Type := {
  N : Z;                                       (* default 40 *)
  distribution : distribution_spec;            (* default "cosine_cluster" *)
  flap_edge_cluster : bool;                    (* default True *)
  extra_discont : list R;                      (* "cluster_points", default [] *)
  flap_dict : option control_surface;          (* default None *)
  side : string
}.

Definition Reqb (x y : R) : bool := if Req_dec_T x y then true else false.

(** [discont.sort()] *)
Fixpoint insert_sorted (x : R) (l : list R) : list R :=
  match l with
  | [] => [x]
  | y :: l' => if Rle_dec x y then x :: l else y :: insert_sorted x l'
  end.

Definition sort (l : list R) : list R := fold_right insert_sorted [] l.

(** The list [discont] after the flap edges and the user's cluster
    points have been appended *)
Definition clustering (p : params) : list R :=
  (if flap_edge_cluster p
   then match flap_dict p with
        | Some d => [default 0.0 (root_span d); default 1.0 (tip_span d)]
        | None => []
        end
   else []) ++ extra_discont p.

(** The list [discont] when the sections are counted *)
Definition discontinuities (p : params) : list R :=
  let discont := List.filter (fun x => negb (Reqb x 1.0)) (clustering p) in
  let discont := List.filter (fun x => negb (Reqb x 0.0)) discont in
  0.0 :: sort discont ++ [1.0].

(** The pairs [(discont[i], discont[i+1])] for [i] in [range(num_sec)] *)
Definition sections (discont : list R) : list (R * R) :=
  combine discont (tl discont).

(** [int(round(x))]: Python rounds a half to the even neighbour *)
Definition py_round (x : R) : Z :=
  if Rlt_dec (frac_part x) (1/2) then Int_part x
  else if Rlt_dec (1/2) (frac_part x) then (Int_part x + 1)%Z
       else if Z.even (Int_part x) then Int_part x else (Int_part x + 1)%Z.

Definition sum_Z (l : list Z) : Z := fold_right Z.add 0%Z l.

(** [num_control_pts], with the root section making up the difference *)
Definition num_control_pts (n : Z) (discont : list R) : list Z :=
  let counts :=
    map (fun s => py_round (IZR n * (snd s - fst s))) (sections discont) in
  let diff := (sum_Z counts - n)%Z in
  if (diff =? 0)%Z then counts
  else match counts with
       | [] => counts
       | n0 :: rest => (n0 - diff)%Z :: rest
       end.

(** [np.linspace(start, stop, num)] *)
Definition linspace (start stop : R) (num : nat) : list R :=
  map (fun k => start + INR k * ((stop - start) / INR (num - 1)))
      (seq 0 num).

(** [s = 0.5*(1-np.cos(theta))] and the span location it gives *)
Definition span_location (lo hi theta : R) : R :=
  lo + 0.5 * (1 - cos theta) * (hi - lo).

(** The nodes and control points of one section with [n > 0] control
    points *)
Definition section_nodes (lo hi : R) (n : nat) : list R :=
  map (span_location lo hi) (tl (linspace 0.0 PI (n + 1))).

Definition section_cps (lo hi : R) (n : nat) : list R :=
  map (span_location lo hi)
      (map (fun theta => theta - PI / (2 * INR n))
           (linspace (PI / INR n) PI n)).

(** One span-location grid: the nodes, the control points, and the
    sections a warning was given for *)
Record grid : Type := {
  node_span_locs : list R;
  cp_span_locs : list R;
  warned : list (R * R)
}.

(** The loop over the sections *)
Fixpoint cosine_loop (secs : list (R * R)) (counts : list Z) (acc : grid)
  : returned grid :=
  match secs, counts with
  | (lo, hi) :: secs', n :: counts' =>
      if (n =? 0)%Z
      then cosine_loop secs' counts'
             {| node_span_locs := node_span_locs acc;
                cp_span_locs := cp_span_locs acc;
                warned := warned acc ++ [(lo, hi)] |}
      else if (n <? 0)%Z then Raises ValueError
           else cosine_loop secs' counts'
                  {| node_span_locs :=
                       node_span_locs acc ++ section_nodes lo hi (Z.to_nat n);
                     cp_span_locs :=
                       cp_span_locs acc ++ section_cps lo hi (Z.to_nat n);
                     warned := warned acc |}
  | _, _ => Value acc
  end.

(** [distribution[0::2]] and [distribution[1::2]] *)
Fixpoint evens (l : list R) : list R :=
  match l with
  | [] => []
  | x :: l' => x :: match l' with [] => [] | _ :: l'' => evens l'' end
  end.

Definition odds (l : list R) : list R := evens (tl l).

(** [all(distribution[i]<distribution[i+1] for i in range(len-1))] *)
Fixpoint increasing (l : list R) : bool :=
  match l with
  | x :: (y :: _) as l' => Rltb x y && increasing l'
  | _ => true
  end.

Definition _initialize_params (p : params) : returned grid :=
  let located :=
    match distribution p with
    | Name s =>
        if String.eqb s "cosine_cluster"
        then cosine_loop (sections (discontinuities p))
               (num_control_pts (N p) (discontinuities p))
               {| node_span_locs := [0.0]; cp_span_locs := [];
                  warned := [] |}
        else if String.eqb s "linear"
        then if (N p + 1 <? 0)%Z then Raises ValueError
             else if (N p =? 0)%Z then Raises ZeroDivisionError
             else if (N p <? 0)%Z then Raises ValueError
             else Value
                    {| node_span_locs :=
                         linspace 0.0 1.0 (Z.to_nat (N p + 1));
                       cp_span_locs :=
                         linspace (1 / (2 * IZR (N p)))
                                  (1.0 - 1 / (2 * IZR (N p)))
                                  (Z.to_nat (N p));
                       warned := [] |}
        else Raises (IOError NotRecognized)
    | Spans l =>
        if negb (Z.of_nat (length l) =? N p * 2 + 1)%Z
        then Raises (IOError (WrongLength (Z.of_nat (length l))
                                          (N p * 2 + 1)))
        else if negb (Reqb (hd 0 l) 0.0) || negb (Reqb (List.last l 0) 1.0)
        then Raises (IOError BadEndpoints)
        else if negb (increasing l) then Raises (IOError NotIncreasing)
        else Value {| node_span_locs := evens l; cp_span_locs := odds l;
                      warned := [] |}
    | OtherValue => Raises (IOError NotRecognized)
    end in
  match located with
  | Value g =>
      if String.eqb (side p) "left"
      then Value {| node_span_locs := rev (node_span_locs g);
                    cp_span_locs := rev (cp_span_locs g);
                    warned := warned g |}
      else Value g
  | Raises e => Raises e
  end.

(** [dS] of [_setup_cp_data]:
    [abs(node_span_locs[1:]-node_span_locs[:-1])*self.b*self.c_bar_cp],
    with [c_bar_cp] the mean of the chords at the two nodes
    ([_get_cp_avg_chord_lengths]) *)
Definition _get_cp_avg_chord_lengths (get_chord : R -> R) (nodes : list R)
  : list R :=
  map (fun s => (get_chord (snd s) + get_chord (fst s)) / 2)
      (combine nodes (tl nodes)).

Definition dS (get_chord : R -> R) (b : R) (nodes : list R) : list R :=
  map (fun sc => Rabs (snd (fst sc) - fst (fst sc)) * b * snd sc)
      (combine (combine nodes (tl nodes))
               (_get_cp_avg_chord_lengths get_chord nodes)).

(** *** Coefficients of a segment with a distribution of airfoils

    [_initialize_airfoils] cuts the control points into one slice per
    pair of neighbouring airfoils, [_get_control_point_coef] evaluates
    the two airfoils of a slice at its control points, and
    [_airfoil_interpolator] blends the two along the span.  The airfoils
    named are taken to be in [airfoil_dict], and their coefficient
    functions to return, one value per control point they are given. *)

(** The [airfoil] entry of the segment: one name, or an array with one
    row per airfoil, its span location first *)
Inductive airfoil_spec : Type :=
| ConstantAirfoil
| AirfoilDistribution (spans : list R).

Definition _num_airfoils (airfoil : airfoil_spec) : nat :=
  match airfoil with
  | ConstantAirfoil => 1
  | AirfoilDistribution spans => length spans
  end.

Definition _airfoil_spans (airfoil : airfoil_spec) : list R :=
  match airfoil with
  | ConstantAirfoil => []
  | AirfoilDistribution spans => spans
  end.

(** [np.sum(mask.astype(int))] *)
Definition count (mask : R -> bool) (l : list R) : nat :=
  length (List.filter mask l).

(** The loops over [self._airfoil_spans] that skip the first span *)
Fixpoint slices_right (prev_slice_end : nat) (spans cps : list R)
  : list (nat * nat) :=
  match spans with
  | [] => []
  | s :: rest =>
      let num_less := count (fun c => Rltb c s) cps in
      (prev_slice_end, num_less) :: slices_right num_less rest cps
  end.

Fixpoint slices_left (prev_slice_end : nat) (spans cps : list R)
  : list (nat * nat) :=
  match spans with
  | [] => []
  | s :: rest =>
      let num_greater := count (fun c => Rltb s c) cps in
      (num_greater, prev_slice_end) :: slices_left num_greater rest cps
  end.

(** [self._airfoil_slices], each [slice(start, stop)] as a pair; [cps]
    is [self.cp_span_locs], of length [self.N] *)
Definition _airfoil_slices (segment_side : string) (airfoil : airfoil_spec)
    (cps : list R) : list (nat * nat) :=
  match airfoil with
  | ConstantAirfoil => [(0%nat, length cps)]
  | AirfoilDistribution spans =>
      if String.eqb segment_side "right"
      then slices_right 0 (tl spans) cps
      else slices_left (length cps) (tl spans) cps
  end.

Definition in_slice (sl : nat * nat) (k : nat) : bool :=
  (fst sl <=? k)%nat && (k <? snd sl)%nat.

Section WithAirfoils.

(** The coefficient asked for, of airfoil [j] at the inputs of control
    point [k]: [getattr(self._airfoils[j], coef_func)(...)] *)
Variable airfoil_coef : nat -> nat -> R.

(** [coefs[cur_slice,j] = ...] for one airfoil *)
Definition assign (coefs : nat -> nat -> R) (sl : nat * nat) (j : nat)
  : nat -> nat -> R :=
  fun k c => if in_slice sl k && (c =? j)%nat then airfoil_coef j k
             else coefs k c.

(** The loop [for j, cur_slice in enumerate(self._airfoil_slices)] *)
Fixpoint fill_coefs (j : nat) (slices : list (nat * nat))
    (coefs : nat -> nat -> R) : nat -> nat -> R :=
  match slices with
  | [] => coefs
  | sl :: rest =>
      fill_coefs (S j) rest (assign (assign coefs sl j) sl (S j))
  end.

(** [np.searchsorted(a, v)] on an ascending [a]: the number of entries
    below [v] *)
Definition searchsorted (a : list R) (v : R) : nat :=
  count (fun x => Rltb x v) a.

(** One entry of [_airfoil_interpolator].  The subtraction on [nat]
    stops at 0, as [np.where(j<0, 0, j)] does; [None] is the
    [IndexError] of [sample_spans[j+1]]. *)
Definition interpolate_at (sample_spans : list R) (vals : nat -> nat -> R)
    (i : nat) (span : R) : option R :=
  let j := (searchsorted sample_spans span - 1)%nat in
  match nth_error sample_spans j, nth_error sample_spans (j + 1) with
  | Some s_j, Some s_j1 =>
      let d := (span - s_j) / (s_j1 - s_j) in
      Some ((1 - d) * vals i j + d * vals i (j + 1)%nat)
  | _, _ => None
  end.

Fixpoint all_some (l : list (option R)) : option (list R) :=
  match l with
  | [] => Some []
  | None :: _ => None
  | Some x :: rest =>
      match all_some rest with
      | Some xs => Some (x :: xs)
      | None => None
      end
  end.

Definition _airfoil_interpolator (interp_spans sample_spans : list R)
    (vals : nat -> nat -> R) : option (list R) :=
  all_some (map (fun ix => interpolate_at sample_spans vals (fst ix) (snd ix))
                (combine (seq 0 (length interp_spans)) interp_spans)).

Definition _get_control_point_coef (segment_side : string)
    (airfoil : airfoil_spec) (cps : list R) : option (list R) :=
  if (_num_airfoils airfoil =? 1)%nat
  then Some (map (airfoil_coef 0) (seq 0 (length cps)))
  else
    let coefs :=
      fill_coefs 0 (_airfoil_slices segment_side airfoil cps)
        (fun _ _ => 0) in
    _airfoil_interpolator cps (_airfoil_spans airfoil) coefs.

End WithAirfoils.

End WingSegment.

(** ** Properties of the spanwise grid *)

Section GridFacts.

Import WingSegment.

Lemma decimal_0 : 0.0 = 0.
Proof. unfold Q2R. simpl. lra. Qed.

Lemma decimal_1 : 1.0 = 1.
Proof. unfold Q2R. simpl. lra. Qed.

Lemma decimal_half : 0.5 = 1 / 2.
Proof. unfold Q2R. simpl. lra. Qed.

Lemma py_round_IZR (z : Z) : py_round (IZR z) = z.
Proof.
  destruct (Int_part_frac_part_spec (IZR z) z 0) as [Hi Hf]; [lra | ring|].
  unfold py_round. rewrite <- Hf, <- Hi.
  destruct (Rlt_dec 0 (1 / 2)); [reflexivity | lra].
Qed.

(** *** The control points are all handed out *)

Lemma sum_num_control_pts (n : Z) (discont : list R) :
  sections discont <> [] -> sum_Z (num_control_pts n discont) = n.
Proof.
  intros Hne. unfold num_control_pts. cbv zeta.
  set (counts := map _ (sections discont)).
  assert (Hc : counts <> []) by (unfold counts; destruct (sections discont);
                                 [contradiction | discriminate]).
  destruct (Z.eqb_spec (sum_Z counts - n) 0) as [H0 | _]; [lia|].
  destruct counts as [|n0 rest]; [contradiction|]. simpl. lia.
Qed.

Lemma linspace_length (start stop : R) (num : nat) :
  length (linspace start stop num) = num.
Proof. unfold linspace. rewrite length_map, length_seq. reflexivity. Qed.

Lemma section_nodes_length (lo hi : R) (n : nat) :
  length (section_nodes lo hi n) = n.
Proof.
  unfold section_nodes, linspace. rewrite Nat.add_1_r. simpl.
  rewrite !length_map, length_seq. reflexivity.
Qed.

Lemma section_cps_length (lo hi : R) (n : nat) :
  length (section_cps lo hi n) = n.
Proof.
  unfold section_cps. rewrite !length_map. apply linspace_length.
Qed.

Lemma cosine_loop_lengths (secs : list (R * R)) :
  forall (counts : list Z) (acc g : grid),
    length secs = length counts ->
    cosine_loop secs counts acc = Value g ->
    Z.of_nat (length (cp_span_locs g))
    = (Z.of_nat (length (cp_span_locs acc)) + sum_Z counts)%Z /\
    Z.of_nat (length (node_span_locs g))
    = (Z.of_nat (length (node_span_locs acc)) + sum_Z counts)%Z.
Proof.
  induction secs as [|[lo hi] secs IH]; intros counts acc g Hl Hg.
  - destruct counts; [|discriminate]. injection Hg as <-. simpl. lia.
  - destruct counts as [|n counts]; [discriminate|]. simpl in Hl, Hg.
    destruct (Z.eqb_spec n 0) as [-> | Hn0].
    + apply IH in Hg; [|lia]. simpl in *. lia.
    + destruct (Z.ltb_spec n 0) as [|Hn]; [discriminate|].
      apply IH in Hg; [|lia]. cbn [cp_span_locs node_span_locs] in Hg.
      rewrite !length_app, section_nodes_length, section_cps_length in Hg.
      simpl. lia.
Qed.

Lemma discontinuities_sections (p : params) :
  sections (discontinuities p) <> [].
Proof.
  unfold discontinuities. cbv zeta. set (l := sort _).
  unfold sections. destruct l; discriminate.
Qed.

Lemma sections_length (p : params) :
  length (sections (discontinuities p))
  = length (num_control_pts (N p) (discontinuities p)).
Proof.
  unfold num_control_pts. cbv zeta.
  set (counts := map _ (sections (discontinuities p))).
  assert (Hl : length counts = length (sections (discontinuities p)))
    by (unfold counts; apply length_map).
  destruct (_ =? 0)%Z; [lia|].
  destruct counts; simpl in *; lia.
Qed.

(** X19.  Whatever the clustering, a cosine-clustered grid that is built
    has exactly [N] control points and [N + 1] nodes: the root section
    takes up what rounding the counts of the sections leaves over or
    short, and a section left without control points adds no node
    either. *)
Theorem cosine_cluster_counts (p : params) (g : grid) :
  distribution p = Name "cosine_cluster" ->
  _initialize_params p = Value g ->
  Z.of_nat (length (cp_span_locs g)) = N p /\
  Z.of_nat (length (node_span_locs g)) = (N p + 1)%Z.
Proof.
  intros Hd. unfold _initialize_params. rewrite Hd. cbv zeta.
  rewrite String.eqb_refl.
  destruct (cosine_loop _ _ _) as [g0|e] eqn:Hloop; [|discriminate].
  apply cosine_loop_lengths in Hloop; [|apply sections_length].
  rewrite (sum_num_control_pts _ _ (discontinuities_sections p)) in Hloop.
  cbn [cp_span_locs node_span_locs length] in Hloop.
  destruct (String.eqb (side p) "left"); intros H; injection H as <-;
    cbn [cp_span_locs node_span_locs]; rewrite ?length_rev; lia.
Qed.

End GridFacts.

(** *** Every control point lies inside its own panel *)

Section GridOrder.

Import WingSegment.

(** Nodes and control points alternate, going up from [prev]. *)
Fixpoint alternating (prev : R) (nodes cps : list R) : Prop :=
  match nodes, cps with
  | [], [] => True
  | n :: ns, c :: cs => prev < c /\ c < n /\ alternating n ns cs
  | _, _ => False
  end.

(** Control point [k] lies strictly between node [k] and node [k+1]. *)
Definition interleaved (nodes cps : list R) : Prop :=
  length nodes = S (length cps) /\
  forall k, (k < length cps)%nat ->
            nth k nodes 0 < nth k cps 0 < nth (S k) nodes 0.

Lemma last_default_irrelevant (l : list R) :
  forall x d d', List.last (x :: l) d = List.last (x :: l) d'.
Proof.
  induction l as [|y l IH]; intros x d d'; [reflexivity|].
  change (List.last (y :: l) d = List.last (y :: l) d'). apply IH.
Qed.

Lemma last_cons_default (n p : R) (ns : list R) :
  List.last (n :: ns) p = List.last ns n.
Proof.
  destruct ns as [|m ns]; [reflexivity|].
  change (List.last (m :: ns) p = List.last (m :: ns) n).
  apply last_default_irrelevant.
Qed.

Lemma last_app_cons (l xs : list R) (x d : R) :
  List.last (l ++ x :: xs) d = List.last (x :: xs) d.
Proof.
  induction l as [|y l IH]; [reflexivity|].
  change ((y :: l) ++ x :: xs) with (y :: (l ++ x :: xs)).
  rewrite last_cons_default.
  destruct (l ++ x :: xs) as [|z zs] eqn:E;
    [destruct l; discriminate|].
  rewrite (last_default_irrelevant zs z y d). exact IH.
Qed.

Lemma alternating_interleaved (n0 : R) (ns cps : list R) :
  alternating n0 ns cps -> interleaved (n0 :: ns) cps.
Proof.
  revert n0 cps. induction ns as [|n ns IH]; intros n0 [|c cs] H;
    try contradiction.
  - split; [reflexivity | intros k Hk; simpl in Hk; lia].
  - destruct H as (H1 & H2 & H3). destruct (IH n cs H3) as [Hl Hn].
    split; [simpl in *; lia|].
    intros [|k] Hk; [simpl; lra|]. apply Hn. simpl in Hk. lia.
Qed.

Lemma alternating_app (p : R) (ns cs ns' cs' : list R) :
  alternating p ns cs -> alternating (List.last ns p) ns' cs' ->
  alternating p (ns ++ ns') (cs ++ cs').
Proof.
  revert p cs. induction ns as [|n ns IH]; intros p [|c cs] H H';
    try contradiction.
  - exact H'.
  - destruct H as (H1 & H2 & H3). simpl. split; [exact H1|].
    split; [exact H2|]. apply IH; [exact H3|].
    rewrite <- (last_cons_default n p ns). exact H'.
Qed.

Lemma alternating_last_le (p : R) (ns cs : list R) :
  alternating p ns cs -> p <= List.last ns p.
Proof.
  revert p cs. induction ns as [|n ns IH]; intros p [|c cs] H;
    try contradiction; [simpl; lra|].
  destruct H as (H1 & H2 & H3). specialize (IH n cs H3).
  rewrite last_cons_default. lra.
Qed.

(** Two sequences [X (start+1) .. X (start+n)] and
    [Y start .. Y (start+n-1)] that alternate *)
Lemma alternating_seq (X Y : nat -> R) (n : nat) :
  forall (start : nat) (prev : R),
    prev < Y start ->
    (forall k, (start <= k < start + n)%nat -> Y k < X (S k)) ->
    (forall k, (start < k < start + n)%nat -> X k < Y k) ->
    alternating prev (map X (seq (S start) n)) (map Y (seq start n)).
Proof.
  induction n as [|n IH]; intros start prev H0 H1 H2; simpl; [exact I|].
  split; [exact H0|]. split; [apply H1; lia|].
  destruct n as [|n]; [exact I|].
  apply IH.
  - apply H2. lia.
  - intros k Hk. apply H1. lia.
  - intros k Hk. apply H2. lia.
Qed.

Lemma last_map_seq (X : nat -> R) (n start : nat) (d : R) :
  List.last (map X (seq start (S n))) d = X (start + n)%nat.
Proof.
  revert start d. induction n as [|n IH]; intros start d.
  - simpl. f_equal. lia.
  - change (seq start (S (S n))) with (start :: seq (S start) (S n)).
    rewrite map_cons, last_cons_default.
    rewrite (IH (S start)). f_equal. lia.
Qed.

(** The span location rises with [theta] between 0 and pi. *)
Lemma span_location_increasing (lo hi t1 t2 : R) :
  lo < hi -> 0 <= t1 -> t1 < t2 -> t2 <= PI ->
  span_location lo hi t1 < span_location lo hi t2.
Proof.
  intros Hlh H1 H12 H2. unfold span_location. rewrite decimal_half.
  assert (Hc : cos t2 < cos t1) by (apply cos_decreasing_1; lra).
  nra.
Qed.

Lemma span_location_0 (lo hi : R) : span_location lo hi 0 = lo.
Proof. unfold span_location. rewrite cos_0. ring. Qed.

Lemma span_location_PI (lo hi : R) : span_location lo hi PI = hi.
Proof. unfold span_location. rewrite cos_PI, decimal_half. field. Qed.

(** The angles of the nodes and control points of a section *)
Definition node_theta (n k : nat) : R := INR k * PI / INR n.

Definition cp_theta (n k : nat) : R := (2 * INR k + 1) * PI / (2 * INR n).

Lemma section_nodes_map (lo hi : R) (n : nat) :
  (0 < n)%nat ->
  section_nodes lo hi n
  = map (fun k => span_location lo hi (node_theta n k)) (seq 1 n).
Proof.
  intros Hn. unfold section_nodes, linspace. rewrite Nat.add_1_r.
  cbn [seq map tl]. rewrite map_map. apply map_ext. intros k.
  f_equal. unfold node_theta. rewrite decimal_0.
  replace (S n - 1)%nat with n by lia.
  assert (INR n <> 0) by (apply not_0_INR; lia). field. assumption.
Qed.

Lemma section_cps_map (lo hi : R) (n : nat) :
  (0 < n)%nat ->
  section_cps lo hi n
  = map (fun k => span_location lo hi (cp_theta n k)) (seq 0 n).
Proof.
  intros Hn. unfold section_cps, linspace. rewrite !map_map.
  apply map_ext_in. intros k Hk. apply in_seq in Hk. f_equal.
  unfold cp_theta.
  assert (Hn0 : INR n <> 0) by (apply not_0_INR; lia).
  destruct (Nat.eq_dec n 1%nat) as [-> | Hn1].
  - replace k with 0%nat by lia. simpl. rewrite Rmult_0_l. field.
  - assert (Hm : INR (n - 1) = INR n - 1)
      by (rewrite minus_INR by lia; simpl; ring).
    rewrite Hm.
    assert (INR n - 1 <> 0).
    { assert (2 <= INR n); [|lra].
      change 2 with (INR 2). apply le_INR. lia. }
    field. split; assumption.
Qed.

Lemma section_alternating (prev lo hi : R) (n : nat) :
  prev <= lo -> lo < hi -> (0 < n)%nat ->
  alternating prev (section_nodes lo hi n) (section_cps lo hi n) /\
  List.last (section_nodes lo hi n) prev = hi.
Proof.
  intros Hp Hlh Hn.
  rewrite (section_nodes_map lo hi n Hn), (section_cps_map lo hi n Hn).
  assert (Hn0 : 0 < INR n) by (apply lt_0_INR; lia).
  pose proof PI_RGT_0 as Hpi.
  assert (Hnode : forall k, (k <= n)%nat ->
                            0 <= node_theta n k <= PI).
  { intros k Hk. apply le_INR in Hk. pose proof (pos_INR k).
    unfold node_theta. split.
    - apply Rmult_le_pos; [nra | left; apply Rinv_0_lt_compat; lra].
    - apply (Rmult_le_reg_r (INR n)); [lra|]. field_simplify; [nra | lra]. }
  assert (Hlt1 : forall k, node_theta n k < cp_theta n k).
  { intros k. unfold node_theta, cp_theta.
    apply (Rmult_lt_reg_r (2 * INR n)); [lra|]. field_simplify; [|lra|lra].
    nra. }
  assert (Hlt2 : forall k, cp_theta n k < node_theta n (S k)).
  { intros k. unfold node_theta, cp_theta. rewrite S_INR.
    apply (Rmult_lt_reg_r (2 * INR n)); [lra|]. field_simplify; [|lra|lra].
    nra. }
  split.
  - apply alternating_seq.
    + apply Rle_lt_trans with (span_location lo hi 0);
        [rewrite span_location_0; exact Hp|].
      apply span_location_increasing; [exact Hlh | lra | |].
      * pose proof (Hlt1 0%nat) as H. unfold node_theta in H. simpl in H.
        replace (0 * PI / INR n) with 0 in H by (field; lra). exact H.
      * pose proof (Hlt2 0%nat). pose proof (Hnode 1%nat ltac:(lia)). lra.
    + intros k Hk. apply span_location_increasing; [exact Hlh | | |].
      * pose proof (Hlt1 k). pose proof (Hnode k ltac:(lia)). lra.
      * apply Hlt2.
      * apply (Hnode (S k)). lia.
    + intros k Hk. apply span_location_increasing; [exact Hlh | | |].
      * apply (Hnode k). lia.
      * apply Hlt1.
      * pose proof (Hlt2 k). pose proof (Hnode (S k) ltac:(lia)). lra.
  - destruct n as [|n]; [lia|]. rewrite last_map_seq.
    replace (node_theta (S n) (1 + n)) with PI;
      [apply span_location_PI|].
    unfold node_theta. change (1 + n)%nat with (S n). field. lra.
Qed.

End GridOrder.

Section GridCosine.

Import WingSegment.

(** What the loop needs of the discontinuities and the counts: the
    discontinuities do not go down, and a section that has control points
    has a positive width. *)
Fixpoint sections_ok (discont : list R) (counts : list Z) : Prop :=
  match discont with
  | d0 :: (d1 :: _) as rest =>
      d0 <= d1 /\
      (forall n, hd_error counts = Some n -> n <> 0%Z -> d0 < d1) /\
      sections_ok rest (tl counts)
  | _ => True
  end.

Lemma sections_ok_last (rest : list R) :
  forall (d0 : R) (counts : list Z),
    sections_ok (d0 :: rest) counts -> d0 <= List.last rest d0.
Proof.
  induction rest as [|d1 rest IH]; intros d0 counts H; [simpl; lra|].
  destruct H as (Hle & _ & Hok). rewrite last_cons_default.
  specialize (IH d1 _ Hok). lra.
Qed.

Lemma cosine_loop_alternating (rest : list R) :
  forall (d0 : R) (counts : list Z) (acc g : grid) (n0 : R) (ns : list R),
    node_span_locs acc = n0 :: ns ->
    alternating n0 ns (cp_span_locs acc) ->
    List.last ns n0 <= d0 ->
    sections_ok (d0 :: rest) counts ->
    cosine_loop (sections (d0 :: rest)) counts acc = Value g ->
    exists ns',
      node_span_locs g = n0 :: ns' /\
      alternating n0 ns' (cp_span_locs g) /\
      List.last ns' n0 <= List.last rest d0.
Proof.
  induction rest as [|d1 rest IH]; intros d0 counts acc g n0 ns Hn Ha Hl Hok Hg.
  - simpl in Hg. injection Hg as <-. exists ns. auto.
  - change (sections (d0 :: d1 :: rest))
      with ((d0, d1) :: sections (d1 :: rest)) in Hg.
    pose proof (sections_ok_last _ _ _ Hok) as Hsorted.
    destruct Hok as (Hle & Hlt & Hok).
    destruct counts as [|n counts].
    { simpl in Hg. injection Hg as <-. exists ns.
      split; [exact Hn|]. split; [exact Ha|]. lra. }
    rewrite (last_cons_default d1 d0 rest). cbn [tl] in Hok.
    specialize (Hlt n eq_refl).
    cbn [cosine_loop] in Hg.
    destruct (Z.eqb_spec n 0) as [-> | Hn0].
    + apply (IH d1 counts _ g n0 ns) in Hg; auto. lra.
    + destruct (Z.ltb_spec n 0) as [|Hpos]; [discriminate|].
      destruct (section_alternating (List.last ns n0) d0 d1 (Z.to_nat n))
        as [Hsec Hlast]; [exact Hl | apply Hlt, Hn0 | lia|].
      apply (IH d1 counts _ g n0 (ns ++ section_nodes d0 d1 (Z.to_nat n)))
        in Hg; auto.
      * cbn [node_span_locs]. rewrite Hn. reflexivity.
      * cbn [cp_span_locs]. apply alternating_app; assumption.
      * assert (Hne : section_nodes d0 d1 (Z.to_nat n) <> []).
        { intros E. apply (f_equal (@length R)) in E.
          rewrite section_nodes_length in E. simpl in E. lia. }
        destruct (section_nodes d0 d1 (Z.to_nat n)) as [|x xs] eqn:Ex;
          [contradiction|].
        rewrite last_app_cons.
        rewrite (last_default_irrelevant xs x n0 (List.last ns n0)).
        rewrite Hlast. lra.
Qed.

End GridCosine.

Section GridDiscontinuities.

Import WingSegment.

Fixpoint nondecreasing (l : list R) : Prop :=
  match l with
  | x :: (y :: _) as l' => x <= y /\ nondecreasing l'
  | _ => True
  end.

Lemma insert_sorted_In (x y : R) (l : list R) :
  In y (insert_sorted x l) <-> y = x \/ In y l.
Proof.
  induction l as [|z l IH]; simpl.
  - split; [intros [H | []]; auto | intros [H | []]; auto].
  - destruct (Rle_dec x z); simpl; [|rewrite IH]; intuition auto.
Qed.

Lemma sort_In (y : R) (l : list R) : In y (sort l) <-> In y l.
Proof.
  induction l as [|x l IH]; simpl; [reflexivity|].
  rewrite insert_sorted_In, IH. intuition auto.
Qed.

Lemma nondecreasing_cons (x : R) (l : list R) :
  nondecreasing l -> (forall y, In y l -> x <= y) -> nondecreasing (x :: l).
Proof.
  destruct l as [|y l]; intros Hl Hx; [exact I|].
  split; [apply Hx; left; reflexivity | exact Hl].
Qed.

Lemma nondecreasing_head (x : R) (l : list R) :
  nondecreasing (x :: l) -> forall y, In y l -> x <= y.
Proof.
  revert x. induction l as [|z l IH]; intros x H y Hy; [destruct Hy|].
  destruct H as [Hxz Hl]. destruct Hy as [<- | Hy]; [exact Hxz|].
  specialize (IH z Hl y Hy). lra.
Qed.

Lemma insert_sorted_nondecreasing (x : R) (l : list R) :
  nondecreasing l -> nondecreasing (insert_sorted x l).
Proof.
  induction l as [|z l IH]; intros Hl; [exact I|]. simpl.
  destruct (Rle_dec x z) as [Hle | Hgt]; [split; assumption|].
  apply nondecreasing_cons.
  - apply IH. destruct l; [exact I | apply Hl].
  - intros y Hy. apply insert_sorted_In in Hy as [-> | Hy]; [lra|].
    apply (nondecreasing_head z l Hl y Hy).
Qed.

Lemma sort_nondecreasing (l : list R) : nondecreasing (sort l).
Proof.
  induction l as [|x l IH]; [exact I|].
  apply insert_sorted_nondecreasing, IH.
Qed.

Lemma nondecreasing_snoc (l : list R) (hi : R) :
  nondecreasing l -> (forall y, In y l -> y <= hi) ->
  nondecreasing (l ++ [hi]).
Proof.
  induction l as [|x l IH]; intros Hl Hhi; [exact I|].
  change ((x :: l) ++ [hi]) with (x :: (l ++ [hi])).
  apply nondecreasing_cons.
  - apply IH; [destruct l; [exact I | apply Hl]|].
    intros y Hy. apply Hhi. right. exact Hy.
  - intros y Hy. apply in_app_or in Hy as [Hy | [<- | []]].
    + apply (nondecreasing_head x l Hl y Hy).
    + apply Hhi. left. reflexivity.
Qed.

(** The cluster points that are kept lie strictly inside the span. *)
Lemma kept_cluster_points (p : params) (x : R) :
  (forall y, In y (clustering p) -> 0 <= y <= 1) ->
  In x (sort (List.filter (fun x => negb (Reqb x 0.0))
                (List.filter (fun x => negb (Reqb x 1.0)) (clustering p)))) ->
  0 < x < 1.
Proof.
  intros H Hx. apply (proj1 (sort_In _ _)) in Hx.
  apply filter_In in Hx as [Hx H0]. apply filter_In in Hx as [Hx H1].
  specialize (H x Hx). unfold Reqb in H0, H1.
  rewrite decimal_0 in H0. rewrite decimal_1 in H1.
  destruct (Req_dec_T x 0); [discriminate|].
  destruct (Req_dec_T x 1); [discriminate|]. lra.
Qed.

Lemma discontinuities_nondecreasing (p : params) :
  (forall y, In y (clustering p) -> 0 <= y <= 1) ->
  nondecreasing (discontinuities p) /\
  exists d1 rest, discontinuities p = 0 :: d1 :: rest /\ 0 < d1 /\
                  List.last (d1 :: rest) 0 = 1.
Proof.
  intros H. unfold discontinuities. cbv zeta.
  set (s := sort _).
  assert (Hs : forall x, In x s -> 0 < x < 1)
    by (intros x; apply kept_cluster_points; exact H).
  assert (Hn : nondecreasing s) by apply sort_nondecreasing.
  rewrite decimal_0, decimal_1. clearbody s. split.
  - apply nondecreasing_cons.
    + apply nondecreasing_snoc; [exact Hn|].
      intros y Hy. specialize (Hs y Hy). lra.
    + intros y Hy. apply in_app_or in Hy as [Hy | [<- | []]]; [|lra].
      specialize (Hs y Hy). lra.
  - destruct s as [|d1 rest].
    + exists 1, []. split; [reflexivity|]. split; [lra | reflexivity].
    + exists d1, (rest ++ [1]). split; [reflexivity|].
      split; [apply Hs; left; reflexivity|].
      change (d1 :: rest ++ [1]) with ((d1 :: rest) ++ [1]).
      apply last_last.
Qed.

Lemma raw_counts_ok (n : Z) (discont : list R) :
  nondecreasing discont ->
  sections_ok discont
    (map (fun s => py_round (IZR n * (snd s - fst s))) (sections discont)).
Proof.
  induction discont as [|d0 discont IH]; intros H; [exact I|].
  destruct discont as [|d1 rest]; [exact I|].
  destruct H as [Hle Hrest].
  change (sections (d0 :: d1 :: rest))
    with ((d0, d1) :: sections (d1 :: rest)).
  cbn [map sections_ok hd_error tl fst snd]. split; [exact Hle|]. split.
  - intros m Hm Hm0. injection Hm as <-.
    destruct (Rle_lt_or_eq_dec d0 d1 Hle) as [Hlt | ->]; [exact Hlt|].
    exfalso. apply Hm0.
    replace (IZR n * (d1 - d1)) with (IZR 0) by (simpl; ring).
    apply py_round_IZR.
  - apply IH. exact Hrest.
Qed.

Lemma num_control_pts_ok (p : params) :
  (forall y, In y (clustering p) -> 0 <= y <= 1) ->
  sections_ok (discontinuities p) (num_control_pts (N p) (discontinuities p)).
Proof.
  intros H. destruct (discontinuities_nondecreasing p H)
    as (Hn & d1 & rest & Hd & Hd1 & _).
  pose proof (raw_counts_ok (N p) _ Hn) as Hraw.
  unfold num_control_pts. cbv zeta.
  destruct (_ =? 0)%Z; [exact Hraw|].
  rewrite Hd in *.
  change (sections (0 :: d1 :: rest))
    with ((0, d1) :: sections (d1 :: rest)) in *.
  cbn [map] in *. destruct Hraw as (Hle & _ & Hrest).
  split; [exact Hle|]. split; [intros; exact Hd1 | exact Hrest].
Qed.

Lemma alternating_bounds (prev : R) (ns cs : list R) :
  alternating prev ns cs ->
  forall x, In x ns \/ In x cs -> prev < x <= List.last ns prev.
Proof.
  revert prev cs. induction ns as [|n ns IH]; intros prev [|c cs] H x Hx;
    try contradiction; [destruct Hx as [[] | []]|].
  destruct H as (H1 & H2 & H3). rewrite last_cons_default.
  pose proof (alternating_last_le n ns cs H3) as Hl.
  destruct Hx as [[<- | Hx] | [<- | Hx]]; try lra.
  - specialize (IH n cs H3 x (or_introl Hx)). lra.
  - specialize (IH n cs H3 x (or_intror Hx)). lra.
Qed.

Lemma cosine_loop_warned (secs : list (R * R)) :
  forall (counts : list Z) (acc g : grid),
    cosine_loop secs counts acc = Value g ->
    (length (warned acc) <= length (warned g))%nat.
Proof.
  induction secs as [|[lo hi] secs IH]; intros counts acc g Hg.
  - simpl in Hg. injection Hg as <-. lia.
  - destruct counts as [|n counts]; [simpl in Hg; injection Hg as <-; lia|].
    cbn [cosine_loop] in Hg.
    destruct (n =? 0)%Z.
    + apply IH in Hg. cbn [warned] in Hg. rewrite length_app in Hg.
      simpl in Hg. lia.
    + destruct (n <? 0)%Z; [discriminate|]. apply IH in Hg. exact Hg.
Qed.

(** Without a skipped section the last node is the last discontinuity. *)
Lemma cosine_loop_reaches_tip (rest : list R) :
  forall (d0 : R) (counts : list Z) (acc g : grid) (n0 : R) (ns : list R),
    length (sections (d0 :: rest)) = length counts ->
    node_span_locs acc = n0 :: ns ->
    List.last ns n0 = d0 ->
    cosine_loop (sections (d0 :: rest)) counts acc = Value g ->
    length (warned g) = length (warned acc) ->
    List.last (node_span_locs g) 0 = List.last rest d0.
Proof.
  induction rest as [|d1 rest IH]; intros d0 counts acc g n0 ns Hlen Hn Hl Hg Hw.
  - simpl in Hg. injection Hg as <-. rewrite Hn, last_cons_default. exact Hl.
  - change (sections (d0 :: d1 :: rest))
      with ((d0, d1) :: sections (d1 :: rest)) in Hg, Hlen.
    destruct counts as [|n counts]; [discriminate|].
    rewrite (last_cons_default d1 d0 rest). cbn [cosine_loop] in Hg.
    destruct (Z.eqb_spec n 0) as [-> | Hn0].
    + apply cosine_loop_warned in Hg. cbn [warned] in Hg.
      rewrite length_app in Hg. simpl in Hg. lia.
    + destruct (Z.ltb_spec n 0) as [|Hpos]; [discriminate|].
      assert (Hne : (0 < Z.to_nat n)%nat) by lia.
      pose proof (section_nodes_length d0 d1 (Z.to_nat n)) as Hsl.
      destruct (section_nodes d0 d1 (Z.to_nat n)) as [|x xs] eqn:Ex;
        [simpl in Hsl; lia|].
      apply (IH d1 counts _ g n0 (ns ++ x :: xs)) in Hg; auto.
      * cbn [node_span_locs]. rewrite Hn. reflexivity.
      * rewrite last_app_cons, <- Ex.
        rewrite (section_nodes_map d0 d1 _ Hne).
        destruct (Z.to_nat n) as [|m]; [lia|]. rewrite last_map_seq.
        replace (node_theta (S m) (1 + m)) with PI;
          [apply span_location_PI|].
        unfold node_theta. change (1 + m)%nat with (S m).
        assert (0 < INR (S m)) by (apply lt_0_INR; lia). field. lra.
Qed.

(** The arrays in root-to-tip order: those of a left segment are stored
    reversed. *)
Definition root_to_tip (p : params) (l : list R) : list R :=
  if String.eqb (side p) "left" then rev l else l.

(** The shape of the nodes of a cosine-clustered grid *)
Lemma cosine_grid_shape (p : params) (g : grid) :
  distribution p = Name "cosine_cluster" ->
  (forall x, In x (clustering p) -> 0 <= x <= 1) ->
  _initialize_params p = Value g ->
  exists ns,
    root_to_tip p (node_span_locs g) = 0 :: ns /\
    alternating 0 ns (root_to_tip p (cp_span_locs g)) /\
    List.last ns 0 <= 1 /\
    (warned g = [] -> List.last (0 :: ns) 0 = 1).
Proof.
  intros Hd Hin. unfold _initialize_params. rewrite Hd. cbv zeta.
  rewrite String.eqb_refl.
  destruct (cosine_loop _ _ _) as [g0|e] eqn:Hloop; [|discriminate].
  intros Hg.
  assert (Hrt : root_to_tip p (node_span_locs g) = node_span_locs g0 /\
                root_to_tip p (cp_span_locs g) = cp_span_locs g0 /\
                warned g = warned g0).
  { unfold root_to_tip. destruct (String.eqb (side p) "left");
      injection Hg as <-; cbn [node_span_locs cp_span_locs warned];
      rewrite ?rev_involutive; auto. }
  destruct Hrt as (-> & -> & ->). clear Hg g.
  destruct (discontinuities_nondecreasing p Hin)
    as (_ & d1 & rest & Hdis & _ & Hlast).
  pose proof (num_control_pts_ok p Hin) as Hok.
  pose proof (sections_length p) as Hlen.
  rewrite Hdis in Hloop, Hok, Hlen. rewrite decimal_0 in Hloop.
  destruct (cosine_loop_alternating (d1 :: rest) 0 _ (Build_grid [0] [] [])
              g0 0 [] eq_refl I (Rle_refl 0) Hok Hloop)
    as (ns' & Hns & Halt & Hle).
  rewrite Hlast in Hle.
  exists ns'. split; [exact Hns|]. split; [exact Halt|]. split; [exact Hle|].
  intros Hw. rewrite <- Hns, <- Hlast.
  apply (cosine_loop_reaches_tip (d1 :: rest) 0 _ (Build_grid [0] [] [])
           g0 0 [] Hlen eq_refl eq_refl Hloop).
  rewrite Hw. reflexivity.
Qed.

(** X20.  With all cluster points (the flap edges and the user's) within
    the span fractions 0 to 1, a cosine-clustered grid that is built
    starts at the root node 0, every control point lies strictly between
    its two neighbouring nodes, nodes and control points rise strictly
    from root to tip without leaving the span, and the last node is the
    tip unless a section was skipped with a warning.  A left segment
    stores the same arrays tip first. *)
Theorem cosine_cluster_interleaved (p : params) (g : grid) :
  distribution p = Name "cosine_cluster" ->
  (forall x, In x (clustering p) -> 0 <= x <= 1) ->
  _initialize_params p = Value g ->
  let nodes := root_to_tip p (node_span_locs g) in
  let cps := root_to_tip p (cp_span_locs g) in
  hd 1 nodes = 0 /\
  interleaved nodes cps /\
  (forall x, In x (tl nodes) \/ In x cps -> 0 < x <= 1) /\
  (warned g = [] -> List.last nodes 0 = 1).
Proof.
  intros Hd Hin Hg. cbv zeta.
  destruct (cosine_grid_shape p g Hd Hin Hg)
    as (ns & Hns & Halt & Hle & Hlast).
  rewrite Hns. cbn [hd tl]. split; [reflexivity|].
  split; [apply alternating_interleaved, Halt|]. split.
  - intros x Hx. pose proof (alternating_bounds 0 ns _ Halt x Hx). lra.
  - exact Hlast.
Qed.

End GridDiscontinuities.

Section GridLinearAndUser.

Import WingSegment.

Lemma nth_map_seq (f : nat -> R) (n : nat) :
  forall (s k : nat) (d : R),
    (k < n)%nat -> nth k (map f (seq s n)) d = f (s + k)%nat.
Proof.
  induction n as [|n IH]; intros s k d Hk; [lia|].
  destruct k as [|k]; simpl; [f_equal; lia|].
  rewrite IH by lia. f_equal. lia.
Qed.

Lemma linspace_nth (start stop : R) (num k : nat) :
  (k < num)%nat ->
  nth k (linspace start stop num) 0
  = start + INR k * ((stop - start) / INR (num - 1)).
Proof.
  intros Hk. unfold linspace. rewrite nth_map_seq by exact Hk. reflexivity.
Qed.

(** What is stored for a grid located from root to tip *)
Definition side_stored (p : params) (g : grid) : grid :=
  if String.eqb (side p) "left"
  then {| node_span_locs := rev (node_span_locs g);
          cp_span_locs := rev (cp_span_locs g); warned := warned g |}
  else g.

Lemma side_stored_root_to_tip (p : params) (g : grid) :
  root_to_tip p (node_span_locs (side_stored p g)) = node_span_locs g /\
  root_to_tip p (cp_span_locs (side_stored p g)) = cp_span_locs g.
Proof.
  unfold root_to_tip, side_stored.
  destruct (String.eqb (side p) "left"); cbn [node_span_locs cp_span_locs];
    rewrite ?rev_involutive; auto.
Qed.

(** X21.  Linear spacing puts node [k] at [k/N] and control point [k] at
    [(2k+1)/(2N)], the middle of its panel, for a positive [N]; [N = 0]
    ends in the [ZeroDivisionError] of [1/(2*N)] and a negative [N] in
    the [ValueError] of [np.linspace]. *)
Theorem linear_spacing (p : params) :
  distribution p = Name "linear" ->
  ((N p < 0)%Z -> _initialize_params p = Raises ValueError) /\
  (N p = 0%Z -> _initialize_params p = Raises ZeroDivisionError) /\
  ((0 < N p)%Z ->
   exists g,
     _initialize_params p = Value g /\
     let nodes := root_to_tip p (node_span_locs g) in
     let cps := root_to_tip p (cp_span_locs g) in
     Z.of_nat (length nodes) = (N p + 1)%Z /\
     Z.of_nat (length cps) = N p /\
     (forall k, (Z.of_nat k <= N p)%Z -> nth k nodes 0 = INR k / IZR (N p)) /\
     (forall k, (Z.of_nat k < N p)%Z ->
                nth k cps 0 = (2 * INR k + 1) / (2 * IZR (N p)) /\
                nth k cps 0 = (nth k nodes 0 + nth (S k) nodes 0) / 2)).
Proof.
  intros Hd. unfold _initialize_params. rewrite Hd. cbv zeta.
  cbn [String.eqb Ascii.eqb Bool.eqb].
  split; [|split].
  - intros Hn. destruct (Z.ltb_spec (N p + 1) 0); [reflexivity|].
    destruct (Z.eqb_spec (N p) 0); [lia|].
    destruct (Z.ltb_spec (N p) 0); [reflexivity | lia].
  - intros ->. reflexivity.
  - intros Hn. destruct (Z.ltb_spec (N p + 1) 0); [lia|].
    destruct (Z.eqb_spec (N p) 0); [lia|].
    destruct (Z.ltb_spec (N p) 0); [lia|].
    exists (side_stored p
              {| node_span_locs := linspace 0.0 1.0 (Z.to_nat (N p + 1));
                 cp_span_locs :=
                   linspace (1 / (2 * IZR (N p)))
                     (1.0 - 1 / (2 * IZR (N p))) (Z.to_nat (N p));
                 warned := [] |}).
    split; [unfold side_stored; destruct (String.eqb (side p) "left");
            reflexivity|].
    cbv zeta.
    rewrite (proj1 (side_stored_root_to_tip p _)),
      (proj2 (side_stored_root_to_tip p _)).
    cbn [node_span_locs cp_span_locs].
    rewrite !linspace_length.
    assert (HN : INR (Z.to_nat (N p)) = IZR (N p))
      by (rewrite INR_IZR_INZ, Z2Nat.id by lia; reflexivity).
    assert (HN0 : 0 < IZR (N p)) by (apply IZR_lt; lia).
    assert (Hnode : forall k, (Z.of_nat k <= N p)%Z ->
              nth k (linspace 0.0 1.0 (Z.to_nat (N p + 1))) 0
              = INR k / IZR (N p)).
    { intros k Hk. rewrite linspace_nth by lia.
      replace (Z.to_nat (N p + 1) - 1)%nat with (Z.to_nat (N p)) by lia.
      rewrite HN, decimal_0, decimal_1. field. lra. }
    split; [lia|]. split; [lia|]. split; [exact Hnode|].
    intros k Hk.
    assert (Hcp : nth k (linspace (1 / (2 * IZR (N p)))
                           (1.0 - 1 / (2 * IZR (N p))) (Z.to_nat (N p))) 0
                  = (2 * INR k + 1) / (2 * IZR (N p))).
    { rewrite linspace_nth by lia. rewrite decimal_1.
      destruct (Z.eq_dec (N p) 1%Z) as [E | E].
      - rewrite E. replace k with 0%nat by lia. simpl.
        rewrite Rmult_0_l. field.
      - assert (Hm : INR (Z.to_nat (N p) - 1) = IZR (N p) - 1).
        { rewrite minus_INR by lia. rewrite HN. simpl. ring. }
        rewrite Hm.
        assert (2 <= IZR (N p)) by (apply IZR_le; lia).
        field. split; lra. }
    split; [exact Hcp|]. rewrite Hcp, !Hnode by lia.
    rewrite S_INR. field. lra.
Qed.

(** The test of the user's list, as a proposition *)
Definition strictly_increasing (l : list R) : Prop :=
  forall k, (S k < length l)%nat -> nth k l 0 < nth (S k) l 0.

Lemma increasing_spec (l : list R) :
  increasing l = true <-> strictly_increasing l.
Proof.
  unfold strictly_increasing. induction l as [|x l IH]; simpl.
  - split; [intros _ k Hk; lia | reflexivity].
  - destruct l as [|y l].
    + split; [intros _ k Hk; simpl in Hk; lia | reflexivity].
    + rewrite andb_true_iff, Rltb_true, IH. split.
      * intros [Hxy Hl] [|k] Hk; [exact Hxy|]. apply Hl. simpl in *. lia.
      * intros H. split; [apply (H 0%nat); simpl; lia|].
        intros k Hk. apply (H (S k)). simpl in *. lia.
Qed.

(** A strictly increasing list of odd length, split into its even and
    odd places *)
Lemma evens_odds_alternating (n : nat) :
  forall (x0 : R) (l : list R),
    length l = (2 * n)%nat ->
    increasing (x0 :: l) = true ->
    exists ns, evens (x0 :: l) = x0 :: ns /\ length ns = n /\
               alternating x0 ns (odds (x0 :: l)) /\
               List.last ns x0 = List.last l x0.
Proof.
  induction n as [|n IH]; intros x0 l Hl Hinc.
  - destruct l; [|discriminate]. exists []. simpl. auto.
  - destruct l as [|c0 [|x1 l]]; try (simpl in Hl; lia).
    cbn [increasing] in Hinc.
    apply andb_true_iff in Hinc as [H0 Hinc].
    pose proof Hinc as Hinc'.
    apply andb_true_iff in Hinc as [H1 _].
    apply Rltb_true in H0, H1.
    destruct (IH x1 l) as (ns & He & Hn & Ha & Hlast);
      [simpl in Hl; lia | |].
    { cbn [increasing]. destruct l; [reflexivity|].
      apply andb_true_iff in Hinc' as [_ Hinc']. exact Hinc'. }
    exists (x1 :: ns). unfold odds in *. cbn [tl] in *.
    change (evens (x0 :: c0 :: x1 :: l)) with (x0 :: evens (x1 :: l)).
    change (evens (c0 :: x1 :: l)) with (c0 :: evens l).
    rewrite He. split; [reflexivity|]. split; [simpl; lia|]. split.
    + split; [exact H0|]. split; [exact H1 | exact Ha].
    + rewrite !last_cons_default. rewrite <- Hlast.
      destruct ns; reflexivity.
Qed.

(** X22.  A list given as the distribution is accepted exactly when it
    has [2N+1] entries, starts at 0, ends at 1 and rises strictly; its
    entries are then taken alternately as nodes and control points, so
    there are [N+1] nodes from 0 to 1 and each of the [N] control points
    lies strictly between its two nodes. *)
Theorem user_distribution (p : params) (l : list R) :
  distribution p = Spans l ->
  ((exists g, _initialize_params p = Value g) <->
   (Z.of_nat (length l) = (N p * 2 + 1)%Z /\ hd 0 l = 0 /\
    List.last l 0 = 1 /\ strictly_increasing l)) /\
  (forall g,
     _initialize_params p = Value g ->
     let nodes := root_to_tip p (node_span_locs g) in
     let cps := root_to_tip p (cp_span_locs g) in
     nodes = evens l /\ cps = odds l /\
     Z.of_nat (length cps) = N p /\
     hd 1 nodes = 0 /\ List.last nodes 0 = 1 /\
     interleaved nodes cps).
Proof.
  intros Hd. unfold _initialize_params. rewrite Hd. cbv zeta.
  unfold Reqb. rewrite decimal_0, decimal_1.
  destruct (Z.eqb_spec (Z.of_nat (length l)) (N p * 2 + 1)) as [Hlen | Hlen];
    cbn [negb]; [|split; [split; [intros [g Hg]; discriminate | tauto]
                         | intros g Hg; discriminate]].
  destruct (Req_dec_T (hd 0 l) 0) as [Hhd | Hhd]; cbn [negb orb];
    [|split; [split; [intros [g Hg]; discriminate | tauto]
             | intros g Hg; discriminate]].
  destruct (Req_dec_T (List.last l 0) 1) as [Hlast | Hlast]; cbn [negb];
    [|split; [split; [intros [g Hg]; discriminate | tauto]
             | intros g Hg; discriminate]].
  destruct (increasing l) eqn:Hinc; cbn [negb];
    [|split; [split; [intros [g Hg]; discriminate|]
             | intros g Hg; discriminate]].
  - split.
    + split; [|intros _; destruct (String.eqb (side p) "left"); eauto].
      intros _. split; [exact Hlen|]. split; [exact Hhd|].
      split; [exact Hlast|]. apply increasing_spec, Hinc.
    + intros g Hg.
      assert (Hrt : root_to_tip p (node_span_locs g) = evens l /\
                    root_to_tip p (cp_span_locs g) = odds l).
      { unfold root_to_tip. destruct (String.eqb (side p) "left");
          injection Hg as <-; cbn [node_span_locs cp_span_locs];
          rewrite ?rev_involutive; auto. }
      destruct Hrt as [-> ->].
      destruct l as [|x0 l']; [simpl in Hlen; lia|].
      simpl in Hhd. subst x0.
      destruct (evens_odds_alternating (Z.to_nat (N p)) 0 l')
        as (ns & He & Hn & Ha & Hl); [simpl in Hlen; lia | exact Hinc|].
      rewrite He. split; [reflexivity|]. split; [reflexivity|].
      pose proof (alternating_interleaved 0 ns _ Ha) as Hi.
      split; [destruct Hi as [Hi _]; simpl in Hi; simpl in Hlen; lia|].
      split; [reflexivity|]. split; [|exact Hi].
      rewrite last_cons_default, Hl, <- Hlast.
      symmetry. apply last_cons_default.
  - intros (_ & _ & _ & Hs). apply increasing_spec in Hs. congruence.
Qed.

End GridLinearAndUser.

(** *** The panel areas add up to the planform area *)

Section PanelAreas.

Import WingSegment.

Definition sum_R (l : list R) : R := fold_right Rplus 0 l.

(** A quantity of two adjacent nodes, along a list of nodes *)
Definition panels (f : R -> R -> R) (nodes : list R) : list R :=
  map (fun s => f (fst s) (snd s)) (combine nodes (tl nodes)).

Lemma panels_cons (f : R -> R -> R) (x y : R) (l : list R) :
  panels f (x :: y :: l) = f x y :: panels f (y :: l).
Proof. reflexivity. Qed.

Lemma panels_snoc (f : R -> R -> R) (l : list R) :
  forall (x a : R),
    sum_R (panels f ((x :: l) ++ [a]))
    = sum_R (panels f (x :: l)) + f (List.last l x) a.
Proof.
  induction l as [|y l IH]; intros x a.
  - simpl. ring.
  - change (((x :: y :: l) ++ [a])) with (x :: (y :: l) ++ [a]).
    change ((y :: l) ++ [a]) with (y :: (l ++ [a])).
    rewrite panels_cons.
    change (y :: (l ++ [a])) with ((y :: l) ++ [a]).
    rewrite panels_cons, last_cons_default. cbn [sum_R fold_right].
    fold (sum_R (panels f ((y :: l) ++ [a]))).
    fold (sum_R (panels f (y :: l))).
    rewrite IH. ring.
Qed.

Lemma panels_rev (f : R -> R -> R) (l : list R) :
  (forall x y, f x y = f y x) ->
  sum_R (panels f (rev l)) = sum_R (panels f l).
Proof.
  intros Hsym. induction l as [|x l IH]; [reflexivity|].
  destruct l as [|y l]; [reflexivity|].
  change (rev (x :: y :: l)) with (rev (y :: l) ++ [x]).
  destruct (rev (y :: l)) as [|z zs] eqn:E.
  { apply (f_equal (@length R)) in E. rewrite length_rev in E.
    discriminate. }
  rewrite panels_snoc, IH, panels_cons. cbn [sum_R fold_right].
  fold (sum_R (panels f (y :: l))).
  assert (Hl : List.last zs z = y).
  { rewrite <- (last_cons_default z 0 zs), <- E.
    change (rev (y :: l)) with (rev l ++ [y]). apply last_last. }
  rewrite Hl, (Hsym y x). ring.
Qed.

Variable get_chord : R -> R.
Variable b : R.

(** The area of the panel between two nodes *)
Definition panel_area (x y : R) : R :=
  Rabs (y - x) * b * ((get_chord y + get_chord x) / 2).

Lemma dS_panels (nodes : list R) :
  dS get_chord b nodes = panels panel_area nodes.
Proof.
  unfold dS, _get_cp_avg_chord_lengths, panels.
  induction nodes as [|x nodes IH]; [reflexivity|].
  destruct nodes as [|y nodes]; [reflexivity|].
  cbn [tl combine map fst snd] in *. f_equal. exact IH.
Qed.

Lemma panel_area_sym (x y : R) : panel_area x y = panel_area y x.
Proof.
  unfold panel_area. rewrite (Rabs_minus_sym y x). unfold Rdiv. ring.
Qed.

Variables c_root c_tip : R.
Hypothesis chord_linear :
  forall s, get_chord s = c_root + (c_tip - c_root) * s.

(** The planform area per unit semispan from the root to [s] *)
Definition area_to (s : R) : R := c_root * s + (c_tip - c_root) * (s * s) / 2.

Lemma panels_sum (nodes : list R) :
  nondecreasing nodes ->
  sum_R (panels panel_area nodes)
  = b * (area_to (List.last nodes 0) - area_to (hd 0 nodes)).
Proof.
  induction nodes as [|x nodes IH]; intros Hn;
    [unfold panels, sum_R; simpl; ring|].
  destruct nodes as [|y nodes]; [unfold panels, sum_R; simpl; ring|].
  destruct Hn as [Hxy Hn]. rewrite panels_cons. cbn [sum_R fold_right].
  fold (sum_R (panels panel_area (y :: nodes))).
  rewrite (IH Hn), (last_cons_default x 0 (y :: nodes)).
  rewrite (last_default_irrelevant nodes y x 0). cbn [hd].
  unfold panel_area, area_to. rewrite Rabs_pos_eq by lra.
  rewrite !chord_linear. field.
Qed.

End PanelAreas.

Section GridShape.

Import WingSegment.

Lemma alternating_nondecreasing (prev : R) (ns cs : list R) :
  alternating prev ns cs -> nondecreasing (prev :: ns).
Proof.
  revert prev cs. induction ns as [|n ns IH]; intros prev [|c cs] H;
    try contradiction; [exact I|].
  destruct H as (H1 & H2 & H3). split; [lra | apply (IH n cs H3)].
Qed.

Lemma map_seq_nondecreasing (f : nat -> R) (n : nat) :
  forall s, (forall k, (s <= k)%nat -> f k <= f (S k)) ->
            nondecreasing (map f (seq s n)).
Proof.
  induction n as [|n IH]; intros s H; [exact I|].
  destruct n as [|n]; [exact I|].
  change (seq s (S (S n))) with (s :: seq (S s) (S n)).
  rewrite map_cons.
  change (map f (seq (S s) (S n))) with (f (S s) :: map f (seq (S (S s)) n)).
  split; [apply H; lia|].
  change (f (S s) :: map f (seq (S (S s)) n)) with (map f (seq (S s) (S n))).
  apply IH. intros k Hk. apply H. lia.
Qed.

Variable get_chord : R -> R.
Variable b : R.
Variables c_root c_tip : R.

(** X23.  For a chord that varies linearly from [c_root] to [c_tip], the
    section areas [dS] of a cosine-clustered grid that was built without
    a warning, from cluster points within the span fractions 0 to 1, add
    up to the planform area [b*(c_root + c_tip)/2] of the segment, on
    either side; with a chord and a semispan that are not negative no
    section area is negative. *)
Theorem panel_areas_sum (p : params) (g : grid) :
  (forall s, get_chord s = c_root + (c_tip - c_root) * s) ->
  distribution p = Name "cosine_cluster" ->
  (forall x, In x (clustering p) -> 0 <= x <= 1) ->
  _initialize_params p = Value g ->
  warned g = [] ->
  sum_R (dS get_chord b (node_span_locs g)) = b * (c_root + c_tip) / 2 /\
  (0 <= b -> (forall s, 0 <= get_chord s) ->
   forall x, In x (dS get_chord b (node_span_locs g)) -> 0 <= x).
Proof.
  intros Hchord Hd Hin Hg Hw. split.
  - destruct (cosine_grid_shape p g Hd Hin Hg)
      as (ns & Hns & Halt & _ & Hlast).
    specialize (Hlast Hw).
    assert (Hsum : sum_R (dS get_chord b (root_to_tip p (node_span_locs g)))
                   = b * (c_root + c_tip) / 2).
    { rewrite Hns, dS_panels.
      rewrite (panels_sum get_chord b c_root c_tip Hchord)
        by (apply (alternating_nondecreasing 0 ns _ Halt)).
      rewrite Hlast. cbn [hd]. unfold area_to. field. }
    unfold root_to_tip in Hsum.
    destruct (String.eqb (side p) "left"); [|exact Hsum].
    rewrite dS_panels in Hsum.
    rewrite panels_rev in Hsum by apply panel_area_sym.
    rewrite dS_panels. exact Hsum.
  - intros Hb Hc x Hx. rewrite dS_panels in Hx. unfold panels in Hx.
    apply in_map_iff in Hx as ([u v] & <- & _). cbn [fst snd].
    unfold panel_area.
    pose proof (Rabs_pos (v - u)). pose proof (Hc u). pose proof (Hc v).
    apply Rmult_le_pos; [apply Rmult_le_pos; assumption | lra].
Qed.

End GridShape.

(** *** The cluster points become nodes *)

Section ClusterNodes.

Import WingSegment.

Lemma section_nodes_hi (lo hi : R) (n : nat) :
  (0 < n)%nat -> In hi (section_nodes lo hi n).
Proof.
  intros Hn. rewrite (section_nodes_map lo hi n Hn).
  apply in_map_iff. exists n. split; [|apply in_seq; lia].
  replace (node_theta n n) with PI; [apply span_location_PI|].
  unfold node_theta. assert (0 < INR n) by (apply lt_0_INR; lia).
  field. lra.
Qed.

(** Without a skipped section the loop keeps the nodes it has and adds
    the far end of every section. *)
Lemma cosine_loop_nodes (secs : list (R * R)) :
  forall (counts : list Z) (acc g : grid),
    length secs = length counts ->
    cosine_loop secs counts acc = Value g ->
    length (warned g) = length (warned acc) ->
    (forall x, In x (node_span_locs acc) -> In x (node_span_locs g)) /\
    (forall lo hi, In (lo, hi) secs -> In hi (node_span_locs g)).
Proof.
  induction secs as [|[lo hi] secs IH]; intros counts acc g Hlen Hg Hw.
  - simpl in Hg. injection Hg as <-. split; [auto | intros lo hi []].
  - destruct counts as [|n counts]; [discriminate|].
    cbn [cosine_loop] in Hg.
    destruct (Z.eqb_spec n 0) as [-> | Hn0].
    + apply cosine_loop_warned in Hg. cbn [warned] in Hg.
      rewrite length_app in Hg. simpl in Hg. lia.
    + destruct (Z.ltb_spec n 0) as [|Hpos]; [discriminate|].
      apply IH in Hg; [|simpl in Hlen; lia | exact Hw].
      cbn [node_span_locs] in Hg. destruct Hg as [Hkeep Hfar]. split.
      * intros x Hx. apply Hkeep, in_or_app. left. exact Hx.
      * intros lo' hi' [E | Hin]; [|apply (Hfar lo' hi' Hin)].
        injection E as <- <-. apply Hkeep, in_or_app. right.
        apply section_nodes_hi. lia.
Qed.

Lemma sections_far_end (l : list R) (x : R) :
  In x (tl l) -> exists lo, In (lo, x) (sections l).
Proof.
  unfold sections. induction l as [|a l IH]; intros Hx; [destruct Hx|].
  destruct l as [|b l]; [destruct Hx|].
  cbn [tl] in *. destruct Hx as [<- | Hx].
  - exists a. left. reflexivity.
  - destruct (IH Hx) as [lo Hlo]. exists lo. right. exact Hlo.
Qed.

Lemma clustering_discontinuities (p : params) (x : R) :
  In x (clustering p) -> In x (discontinuities p).
Proof.
  intros Hx. unfold discontinuities. cbv zeta.
  destruct (Req_dec_T x 0.0) as [-> | H0]; [left; reflexivity|].
  right. apply in_or_app.
  destruct (Req_dec_T x 1.0) as [-> | H1]; [right; left; reflexivity|].
  left. apply sort_In. apply filter_In. split.
  - apply filter_In. split; [exact Hx|]. unfold Reqb.
    destruct (Req_dec_T x 1.0); [contradiction | reflexivity].
  - unfold Reqb. destruct (Req_dec_T x 0.0); [contradiction | reflexivity].
Qed.

(** Rounding away from a half *)
Lemma py_round_down (z : Z) (x : R) :
  IZR z <= x < IZR z + 1/2 -> py_round x = z.
Proof.
  intros H.
  destruct (Int_part_frac_part_spec x z (x - IZR z)) as [Hi Hf];
    [lra | ring|].
  unfold py_round. rewrite <- Hf, <- Hi.
  destruct (Rlt_dec (x - IZR z) (1 / 2)); [reflexivity | lra].
Qed.

Lemma py_round_up (z : Z) (x : R) :
  IZR z + 1/2 < x < IZR z + 1 -> py_round x = (z + 1)%Z.
Proof.
  intros H.
  destruct (Int_part_frac_part_spec x z (x - IZR z)) as [Hi Hf];
    [lra | ring|].
  unfold py_round. rewrite <- Hf, <- Hi.
  destruct (Rlt_dec (x - IZR z) (1 / 2)); [lra|].
  destruct (Rlt_dec (1 / 2) (x - IZR z)); [reflexivity | lra].
Qed.

Lemma insert_sorted_le (x y : R) (l : list R) :
  x <= y -> insert_sorted x (y :: l) = x :: y :: l.
Proof.
  intros H. simpl. destruct (Rle_dec x y); [reflexivity | contradiction].
Qed.

(** X30.  In a cosine-clustered grid that is built without a warning,
    every cluster point, flap edge or point of the user, is a node of
    the grid.  Nothing keeps the points within the span: a cluster point
    below 0 or above 1 becomes a node just the same. *)
Theorem cluster_points_are_nodes (p : params) (g : grid) (x : R) :
  distribution p = Name "cosine_cluster" ->
  In x (clustering p) ->
  _initialize_params p = Value g ->
  warned g = [] ->
  In x (node_span_locs g).
Proof.
  intros Hd Hx. unfold _initialize_params. rewrite Hd. cbv zeta.
  rewrite String.eqb_refl.
  destruct (cosine_loop _ _ _) as [g0|e] eqn:Hloop; [|discriminate].
  intros Hg Hw.
  assert (Hg0 : In x (node_span_locs g0)).
  { assert (Hw0 : warned g0 = []).
    { destruct (String.eqb (side p) "left"); injection Hg as <-; exact Hw. }
    destruct (cosine_loop_nodes _ _ _ _ (sections_length p) Hloop)
      as [Hkeep Hfar]; [rewrite Hw0; reflexivity|].
    pose proof (clustering_discontinuities p x Hx) as Hdis.
    assert (Hhead : exists rest, discontinuities p = 0.0 :: rest)
      by (unfold discontinuities; eexists; reflexivity).
    destruct Hhead as [rest Hrest]. rewrite Hrest in Hdis, Hfar.
    destruct Hdis as [<- | Hdis].
    - apply Hkeep. left. reflexivity.
    - destruct (sections_far_end (0.0 :: rest) x Hdis) as [lo Hlo].
      apply (Hfar lo x Hlo). }
  destruct (String.eqb (side p) "left"); injection Hg as <-;
    [apply -> in_rev|]; exact Hg0.
Qed.

End ClusterNodes.

(** *** Blending the airfoils along the span *)

Section AirfoilBlend.

Import WingSegment.

(** In a list along which [mask] never comes back once it has failed,
    the entries that pass are the first [count mask l]. *)
Lemma count_prefix (mask : R -> bool) (l : list R) :
  (forall i j, (i <= j < length l)%nat ->
               mask (nth j l 0) = true -> mask (nth i l 0) = true) ->
  forall k, (k < length l)%nat ->
            ((k < count mask l)%nat <-> mask (nth k l 0) = true).
Proof.
  unfold count. induction l as [|c cs IH]; intros Hm k Hk; [simpl in Hk; lia|].
  assert (Hm' : forall i j, (i <= j < length cs)%nat ->
                            mask (nth j cs 0) = true ->
                            mask (nth i cs 0) = true).
  { intros i j Hij. apply (Hm (S i) (S j)). simpl. lia. }
  cbn [List.filter]. destruct (mask c) eqn:Hc.
  - destruct k as [|k]; cbn [length nth]; [split; [auto | lia]|].
    rewrite <- (IH Hm' k) by (simpl in Hk; lia). lia.
  - assert (Hnone : List.filter mask cs = []).
    { destruct (List.filter mask cs) as [|y ys] eqn:E; [reflexivity|].
      assert (Hy : In y (List.filter mask cs)) by (rewrite E; left; reflexivity).
      apply filter_In in Hy as [Hy Hmy].
      destruct (In_nth cs y 0 Hy) as (j & Hj & Hnth).
      specialize (Hm 0%nat (S j)). cbn [nth length] in Hm.
      rewrite Hnth in Hm. rewrite Hm in Hc by (auto; lia). discriminate. }
    rewrite Hnone. cbn [length]. split; [lia|]. intros Hk'.
    specialize (Hm 0%nat k). cbn [nth] in Hm.
    rewrite Hm in Hc by (auto; lia). discriminate.
Qed.

Lemma nondecreasing_nth (l : list R) :
  nondecreasing l ->
  forall i j, (i <= j < length l)%nat -> nth i l 0 <= nth j l 0.
Proof.
  induction l as [|x l IH]; intros Hl i j Hij; [simpl in Hij; lia|].
  destruct j as [|j]; [replace i with 0%nat by lia; lra|].
  destruct i as [|i].
  - cbn [nth]. apply (nondecreasing_head x l Hl). apply nth_In.
    simpl in Hij. lia.
  - cbn [nth]. apply IH; [destruct l; [exact I | apply Hl]|].
    simpl in Hij. lia.
Qed.

Lemma strictly_increasing_nth (l : list R) :
  strictly_increasing l ->
  forall i j, (i < j < length l)%nat -> nth i l 0 < nth j l 0.
Proof.
  intros Hl i j Hij. induction j as [|j IH]; [lia|].
  destruct (Nat.eq_dec i j) as [-> | Hne]; [apply Hl; lia|].
  apply Rlt_trans with (nth j l 0); [apply IH; lia | apply Hl; lia].
Qed.

(** The control points below a span, along an ascending list *)
Lemma count_less (cps : list R) (s : R) (k : nat) :
  nondecreasing cps -> (k < length cps)%nat ->
  ((k < count (fun c => Rltb c s) cps)%nat <-> nth k cps 0 < s).
Proof.
  intros Hc Hk. rewrite <- Rltb_true. apply count_prefix; [|exact Hk].
  intros i j Hij Hj. apply Rltb_true in Hj. apply Rltb_true.
  pose proof (nondecreasing_nth cps Hc i j Hij). lra.
Qed.

(** The control points above a span, along a descending list *)
Lemma count_greater (cps : list R) (s : R) (k : nat) :
  nondecreasing (rev cps) -> (k < length cps)%nat ->
  ((k < count (fun c => Rltb s c) cps)%nat <-> s < nth k cps 0).
Proof.
  intros Hc Hk. rewrite <- Rltb_true. apply count_prefix; [|exact Hk].
  intros i j Hij Hj. apply Rltb_true in Hj. apply Rltb_true.
  assert (Hle : nth j cps 0 <= nth i cps 0).
  { assert (Hn : forall n, (n < length cps)%nat ->
                nth n cps 0 = nth (length cps - S n) (rev cps) 0).
    { intros n Hn. rewrite <- (rev_involutive cps) at 1.
      rewrite rev_nth by (rewrite length_rev; exact Hn).
      rewrite length_rev. reflexivity. }
    rewrite (Hn i), (Hn j) by lia.
    apply nondecreasing_nth; [exact Hc|]. rewrite length_rev. lia. }
  lra.
Qed.

Lemma slices_right_nth (cps : list R) (spans : list R) :
  forall (n0 j : nat),
    (j < length spans)%nat ->
    nth j (slices_right n0 spans cps) (0%nat, 0%nat)
    = (match j with
       | O => n0
       | S j' => count (fun c => Rltb c (nth j' spans 0)) cps
       end,
       count (fun c => Rltb c (nth j spans 0)) cps).
Proof.
  induction spans as [|s spans IH]; intros n0 j Hj; [simpl in Hj; lia|].
  destruct j as [|j]; [reflexivity|]. cbn [slices_right nth].
  rewrite IH by (simpl in Hj; lia). destruct j; reflexivity.
Qed.

Lemma slices_left_nth (cps : list R) (spans : list R) :
  forall (n0 j : nat),
    (j < length spans)%nat ->
    nth j (slices_left n0 spans cps) (0%nat, 0%nat)
    = (count (fun c => Rltb (nth j spans 0) c) cps,
       match j with
       | O => n0
       | S j' => count (fun c => Rltb (nth j' spans 0) c) cps
       end).
Proof.
  induction spans as [|s spans IH]; intros n0 j Hj; [simpl in Hj; lia|].
  destruct j as [|j]; [reflexivity|]. cbn [slices_left nth].
  rewrite IH by (simpl in Hj; lia). destruct j; reflexivity.
Qed.

Lemma slices_right_length (cps spans : list R) (n0 : nat) :
  length (slices_right n0 spans cps) = length spans.
Proof.
  revert n0. induction spans as [|s spans IH]; intros n0; [reflexivity|].
  simpl. rewrite IH. reflexivity.
Qed.

Lemma slices_left_length (cps spans : list R) (n0 : nat) :
  length (slices_left n0 spans cps) = length spans.
Proof.
  revert n0. induction spans as [|s spans IH]; intros n0; [reflexivity|].
  simpl. rewrite IH. reflexivity.
Qed.

Variable airfoil_coef : nat -> nat -> R.

Lemma assign_keeps (coefs : nat -> nat -> R) (sl : nat * nat) (j k c : nat) :
  coefs k c = airfoil_coef c k ->
  assign airfoil_coef coefs sl j k c = airfoil_coef c k.
Proof.
  intros H. unfold assign. destruct (in_slice sl k); [|exact H].
  destruct (Nat.eqb_spec c j) as [-> | _]; [reflexivity | exact H].
Qed.

Lemma fill_coefs_keeps (slices : list (nat * nat)) (k c : nat) :
  forall (j : nat) (coefs : nat -> nat -> R),
    coefs k c = airfoil_coef c k ->
    fill_coefs airfoil_coef j slices coefs k c = airfoil_coef c k.
Proof.
  induction slices as [|sl slices IH]; intros j coefs H; [exact H|].
  apply IH. apply assign_keeps, assign_keeps, H.
Qed.

Lemma fill_coefs_assigned (slices : list (nat * nat)) (k c : nat) :
  forall (j0 i : nat) (coefs : nat -> nat -> R),
    (i < length slices)%nat ->
    in_slice (nth i slices (0%nat, 0%nat)) k = true ->
    c = (j0 + i)%nat \/ c = S (j0 + i) ->
    fill_coefs airfoil_coef j0 slices coefs k c = airfoil_coef c k.
Proof.
  induction slices as [|sl slices IH]; intros j0 i coefs Hi Hin Hc;
    [simpl in Hi; lia|].
  destruct i as [|i].
  - cbn [nth] in Hin. cbn [fill_coefs]. apply fill_coefs_keeps.
    rewrite Nat.add_0_r in Hc. unfold assign. rewrite Hin. cbn [andb].
    destruct Hc as [-> | ->].
    + destruct (Nat.eqb_spec j0 (S j0)); [lia|].
      rewrite Nat.eqb_refl. reflexivity.
    + rewrite Nat.eqb_refl. reflexivity.
  - cbn [fill_coefs]. apply (IH (S j0) i); [simpl in Hi; lia | exact Hin | lia].
Qed.

(** Where a control point falls among the airfoil spans *)
Lemma searchsorted_bracket (spans : list R) (x : R) :
  strictly_increasing spans ->
  let q := searchsorted spans x in
  (q <= length spans)%nat /\
  (forall i, (i < q)%nat -> nth i spans 0 < x) /\
  (forall i, (q <= i < length spans)%nat -> x <= nth i spans 0).
Proof.
  intros Hs. cbv zeta.
  assert (Hmono : forall i j, (i <= j < length spans)%nat ->
            Rltb (nth j spans 0) x = true -> Rltb (nth i spans 0) x = true).
  { intros i j Hij Hj. apply Rltb_true in Hj. apply Rltb_true.
    destruct (Nat.eq_dec i j) as [-> | Hne]; [exact Hj|].
    pose proof (strictly_increasing_nth spans Hs i j ltac:(lia)). lra. }
  pose proof (count_prefix (fun s => Rltb s x) spans Hmono) as Hc.
  cbv beta in Hc.
  unfold searchsorted. split; [|split].
  - unfold count. apply filter_length_le.
  - intros i Hi.
    assert (Hil : (i < length spans)%nat).
    { unfold count in Hi. pose proof (filter_length_le
        (fun x0 => Rltb x0 x) spans). lia. }
    apply Rltb_true, Hc; assumption.
  - intros i Hi. destruct (Rlt_dec (nth i spans 0) x) as [Hlt|Hge]; [|lra].
    apply Rltb_true in Hlt. apply Hc in Hlt; lia.
Qed.

Lemma all_some_map (f : nat -> R -> option R) (g : nat -> R) (xs : list R) :
  forall start,
    (forall i, (i < length xs)%nat ->
               f (start + i)%nat (nth i xs 0) = Some (g (start + i)%nat)) ->
    all_some (map (fun ix => f (fst ix) (snd ix))
                  (combine (seq start (length xs)) xs))
    = Some (map g (seq start (length xs))).
Proof.
  induction xs as [|x xs IH]; intros start H; [reflexivity|].
  cbn [length seq combine map all_some fst snd].
  pose proof (H 0%nat ltac:(simpl; lia)) as H0. rewrite Nat.add_0_r in H0.
  cbn [nth] in H0. rewrite H0.
  rewrite (IH (S start)); [reflexivity|].
  intros i Hi. specialize (H (S i) ltac:(simpl; lia)).
  cbn [nth] in H. rewrite <- Nat.add_succ_comm in H. exact H.
Qed.

(** The blend the interpolation is meant to give at control point [k] *)
Definition blend (spans cps : list R) (k : nat) : R :=
  let x := nth k cps 0 in
  let j := (searchsorted spans x - 1)%nat in
  let d := (x - nth j spans 0) / (nth (j + 1) spans 0 - nth j spans 0) in
  (1 - d) * airfoil_coef j k + d * airfoil_coef (j + 1) k.

(** The segment's control points run root to tip on the right and tip to
    root on the left, and none lies beyond the last airfoil. *)
Definition cps_covered (segment_side : string) (spans cps : list R) : Prop :=
  if String.eqb segment_side "right"
  then nondecreasing cps /\ forall x, In x cps -> x < List.last spans 0
  else nondecreasing (rev cps) /\ forall x, In x cps -> x <= List.last spans 0.

Lemma last_nth (l : list R) :
  l <> [] -> List.last l 0 = nth (length l - 1) l 0.
Proof.
  intros Hl. destruct l as [|x l]; [contradiction|].
  clear Hl. revert x. induction l as [|y l IH]; intros x; [reflexivity|].
  change (List.last (y :: l) 0 = nth (length l) (y :: l) 0).
  rewrite (IH y). simpl. rewrite Nat.sub_0_r. reflexivity.
Qed.

Lemma interpolate_at_blend (segment_side : string) (spans cps : list R)
    (k : nat) :
  strictly_increasing spans -> (2 <= length spans)%nat ->
  cps_covered segment_side spans cps -> (k < length cps)%nat ->
  interpolate_at spans
    (fill_coefs airfoil_coef 0
       (_airfoil_slices segment_side (AirfoilDistribution spans) cps)
       (fun _ _ => 0)) k (nth k cps 0)
  = Some (blend spans cps k).
Proof.
  intros Hs Hlen Hcov Hk. unfold interpolate_at, blend. cbv zeta.
  set (x := nth k cps 0). set (q := searchsorted spans x).
  destruct (searchsorted_bracket spans x Hs) as (Hq & Hbelow & Habove).
  fold q in Hq, Hbelow, Habove.
  assert (Hlast : List.last spans 0 = nth (length spans - 1) spans 0)
    by (apply last_nth; destruct spans; [simpl in Hlen; lia | discriminate]).
  assert (Hx : In x cps) by (apply nth_In; exact Hk).
  (* the control point is not beyond the last span *)
  assert (Hq1 : (q - 1 + 1 < length spans)%nat).
  { assert (x <= List.last spans 0).
    { unfold cps_covered in Hcov.
      destruct (String.eqb segment_side "right");
        destruct Hcov as [_ Hc]; specialize (Hc x Hx); lra. }
    destruct (Nat.eq_dec q (length spans)) as [E|E]; [|lia].
    specialize (Hbelow (length spans - 1)%nat ltac:(lia)). lra. }
  set (j := (q - 1)%nat) in *.
  rewrite (nth_error_nth' spans 0) by lia.
  rewrite (nth_error_nth' spans 0) by lia.
  f_equal.
  set (coefs := fill_coefs airfoil_coef 0 _ _).
  set (slices := _airfoil_slices segment_side (AirfoilDistribution spans) cps)
    in *.
  assert (Hsl : length slices = (length spans - 1)%nat).
  { assert (Htlen : length (tl spans) = (length spans - 1)%nat)
      by (destruct spans; simpl; lia).
    unfold slices, _airfoil_slices.
    destruct (String.eqb segment_side "right");
      rewrite ?slices_right_length, ?slices_left_length; exact Htlen. }
  assert (Htl : forall i, nth i (tl spans) 0 = nth (S i) spans 0)
    by (intros i; destruct spans; [destruct i|]; reflexivity).
  assert (Hgap : nth j spans 0 < nth (j + 1) spans 0)
    by (apply strictly_increasing_nth; [exact Hs | lia]).
  (* either the control point is in the slice of airfoils j and j+1, or
     it sits on span j+1 and is in the next slice *)
  assert (Hcase :
    (coefs k j = airfoil_coef j k /\ coefs k (j + 1)%nat = airfoil_coef (j + 1) k)
    \/ (x = nth (j + 1) spans 0 /\
        coefs k (j + 1)%nat = airfoil_coef (j + 1) k)).
  { unfold cps_covered in Hcov. unfold slices, _airfoil_slices in *.
    destruct (String.eqb segment_side "right").
    - destruct Hcov as [Hnd Hlt].
      assert (Hup : x <= nth (j + 1) spans 0) by (apply Habove; lia).
      destruct (Rle_lt_or_eq_dec _ _ Hup) as [Hlt1 | Heq].
      + left.
        assert (Hin : in_slice (nth j (slices_right 0 (tl spans) cps)
                                  (0%nat, 0%nat)) k = true).
        { rewrite slices_right_nth by (rewrite <- Hsl, slices_right_length in *;
                                       lia).
          unfold in_slice. cbn [fst snd]. apply andb_true_iff. split.
          - apply Nat.leb_le. destruct j as [|j'] eqn:Ej; [lia|].
            rewrite Htl.
            destruct (le_lt_dec
                        (count (fun c => Rltb c (nth (S j') spans 0)) cps) k)
              as [Hle | Hgt]; [exact Hle|].
            apply (count_less cps _ k Hnd Hk) in Hgt. fold x in Hgt.
            assert (nth (S j') spans 0 < x) by (apply Hbelow; lia). lra.
          - apply Nat.ltb_lt. rewrite Htl.
            apply (count_less cps _ k Hnd Hk). fold x.
            replace (S j) with (j + 1)%nat by lia. exact Hlt1. }
        split; apply (fill_coefs_assigned _ k _ 0 j);
          rewrite ?Hsl; try exact Hin; try lia.
      + right. split; [exact Heq|].
        assert (Hnext : (j + 1 < length spans - 1)%nat).
        { destruct (Nat.eq_dec (j + 1)%nat (length spans - 1)%nat) as [E|E]; [|lia].
          specialize (Hlt x Hx). rewrite Hlast, <- E in Hlt. lra. }
        assert (Hin : in_slice (nth (j + 1) (slices_right 0 (tl spans) cps)
                                  (0%nat, 0%nat)) k = true).
        { rewrite slices_right_nth
            by (rewrite <- Hsl, slices_right_length in *; lia).
          unfold in_slice. cbn [fst snd]. apply andb_true_iff.
          replace (j + 1)%nat with (S j) by lia. rewrite !Htl. split.
          - apply Nat.leb_le.
            destruct (le_lt_dec
                        (count (fun c => Rltb c (nth (S j) spans 0)) cps) k)
              as [Hle | Hgt]; [exact Hle|].
            apply (count_less cps _ k Hnd Hk) in Hgt. fold x in Hgt.
            replace (S j) with (j + 1)%nat in Hgt by lia. lra.
          - apply Nat.ltb_lt. apply (count_less cps _ k Hnd Hk). fold x.
            rewrite Heq. replace (j + 1)%nat with (S j) by lia.
            apply strictly_increasing_nth; [exact Hs | lia]. }
        apply (fill_coefs_assigned _ k _ 0 (j + 1));
          rewrite ?Hsl; try exact Hin; lia.
    - destruct Hcov as [Hnd Hle]. left.
      assert (Hup : x <= nth (j + 1) spans 0) by (apply Habove; lia).
      assert (Hin : in_slice (nth j (slices_left (length cps) (tl spans) cps)
                                (0%nat, 0%nat)) k = true).
      { rewrite slices_left_nth
          by (rewrite <- Hsl, slices_left_length in *; lia).
        unfold in_slice. cbn [fst snd]. apply andb_true_iff. split.
        - apply Nat.leb_le. rewrite Htl.
          destruct (le_lt_dec
                      (count (fun c => Rltb (nth (S j) spans 0) c) cps) k)
            as [Hle' | Hgt]; [exact Hle'|].
          apply (count_greater cps _ k Hnd Hk) in Hgt. fold x in Hgt.
          replace (S j) with (j + 1)%nat in Hgt by lia. lra.
        - apply Nat.ltb_lt. destruct j as [|j'] eqn:Ej; [exact Hk|].
          rewrite Htl. apply (count_greater cps _ k Hnd Hk). fold x.
          apply Hbelow. lia. }
      split; apply (fill_coefs_assigned _ k _ 0 j);
        rewrite ?Hsl; try exact Hin; try lia. }
  destruct Hcase as [[H1 H2] | [Heq H2]].
  - rewrite H1, H2. reflexivity.
  - rewrite H2.
    assert (Hd : (x - nth j spans 0) / (nth (j + 1) spans 0 - nth j spans 0)
                 = 1) by (rewrite Heq; field; lra).
    rewrite Hd. ring.
Qed.

(** X27.  On a segment with several airfoils at strictly ascending span
    locations, whose control points run root to tip on the right and tip
    to root on the left and do not lie beyond the last airfoil (on the
    right, not on it either), the coefficient of every control point is
    the linear blend, along the span, of the two airfoils that bracket
    it, both evaluated at that control point: no entry is taken from the
    zeros the table starts with.  From the first airfoil on, the blend
    is an interpolation, its weight between 0 and 1. *)
Theorem airfoil_interpolation (segment_side : string) (spans cps : list R) :
  strictly_increasing spans -> (2 <= length spans)%nat ->
  cps_covered segment_side spans cps ->
  exists coefs,
    _get_control_point_coef airfoil_coef segment_side
      (AirfoilDistribution spans) cps = Some coefs /\
    length coefs = length cps /\
    forall k, (k < length cps)%nat ->
      let x := nth k cps 0 in
      let j := (searchsorted spans x - 1)%nat in
      nth k coefs 0 = blend spans cps k /\
      (nth 0 spans 0 <= x ->
       nth j spans 0 <= x <= nth (j + 1) spans 0 /\
       0 <= (x - nth j spans 0) / (nth (j + 1) spans 0 - nth j spans 0) <= 1).
Proof.
  intros Hs Hlen Hcov.
  exists (map (blend spans cps) (seq 0 (length cps))).
  split; [|split].
  - unfold _get_control_point_coef, _airfoil_interpolator. cbv zeta.
    cbn [_num_airfoils _airfoil_spans].
    destruct (Nat.eqb_spec (length spans) 1) as [E|_]; [lia|].
    apply (all_some_map _ (blend spans cps) cps 0). intros i Hi.
    apply interpolate_at_blend; assumption.
  - rewrite length_map, length_seq. reflexivity.
  - intros k Hk. cbv zeta. split.
    + rewrite (nth_map_seq (blend spans cps) (length cps) 0 k 0 Hk).
      reflexivity.
    + intros H0.
      set (x := nth k cps 0) in *. set (q := searchsorted spans x).
      destruct (searchsorted_bracket spans x Hs) as (Hq & Hbelow & Habove).
      fold q in Hq, Hbelow, Habove.
      assert (Hx : In x cps) by (apply nth_In; exact Hk).
      assert (Hlast : List.last spans 0 = nth (length spans - 1) spans 0)
        by (apply last_nth; destruct spans;
            [simpl in Hlen; lia | discriminate]).
      assert (Hq1 : (q - 1 + 1 < length spans)%nat).
      { assert (x <= List.last spans 0).
        { unfold cps_covered in Hcov.
          destruct (String.eqb segment_side "right");
            destruct Hcov as [_ Hc]; specialize (Hc x Hx); lra. }
        destruct (Nat.eq_dec q (length spans)) as [E|E]; [|lia].
        specialize (Hbelow (length spans - 1)%nat ltac:(lia)). lra. }
      assert (Hlo : nth (q - 1) spans 0 <= x).
      { destruct q as [|q']; [exact H0|].
        left. apply Hbelow. lia. }
      assert (Hhi : x <= nth (q - 1 + 1) spans 0) by (apply Habove; lia).
      assert (Hgap : nth (q - 1) spans 0 < nth (q - 1 + 1) spans 0)
        by (apply strictly_increasing_nth; [exact Hs | lia]).
      split; [split; assumption|]. split.
      * apply Rmult_le_pos; [lra | left; apply Rinv_0_lt_compat; lra].
      * apply (Rmult_le_reg_r (nth (q - 1 + 1) spans 0 - nth (q - 1) spans 0));
          [lra|]. unfold Rdiv. rewrite Rmult_assoc, Rinv_l by lra. lra.
Qed.

Lemma all_some_none (f : nat -> R -> option R) (xs : list R) :
  forall start i,
    (i < length xs)%nat -> f (start + i)%nat (nth i xs 0) = None ->
    all_some (map (fun ix => f (fst ix) (snd ix))
                  (combine (seq start (length xs)) xs)) = None.
Proof.
  induction xs as [|x xs IH]; intros start i Hi H; [simpl in Hi; lia|].
  cbn [length seq combine map all_some fst snd].
  destruct i as [|i].
  - rewrite Nat.add_0_r in H. cbn [nth] in H. rewrite H. reflexivity.
  - destruct (f start x); [|reflexivity].
    rewrite (IH (S start) i); [reflexivity | simpl in Hi; lia |].
    cbn [nth] in H. rewrite <- Nat.add_succ_comm in H. exact H.
Qed.

(** X28.  With several airfoils at strictly ascending span locations, a
    single control point beyond the last airfoil makes the whole
    evaluation fail with the [IndexError] of the interpolation, on
    either side and whatever the order of the control points: the
    coefficients are not extrapolated past the last airfoil. *)
Theorem airfoil_beyond_last_span (segment_side : string)
    (spans cps : list R) (x : R) :
  strictly_increasing spans -> (2 <= length spans)%nat ->
  In x cps -> List.last spans 0 < x ->
  _get_control_point_coef airfoil_coef segment_side
    (AirfoilDistribution spans) cps = None.
Proof.
  intros Hs Hlen Hx Hbeyond.
  destruct (In_nth cps x 0 Hx) as (k & Hk & Hnth).
  unfold _get_control_point_coef, _airfoil_interpolator. cbv zeta.
  cbn [_num_airfoils _airfoil_spans].
  destruct (Nat.eqb_spec (length spans) 1) as [E|_]; [lia|].
  apply (all_some_none _ cps 0 k Hk). cbn [Nat.add]. rewrite Hnth.
  unfold interpolate_at. cbv zeta.
  destruct (searchsorted_bracket spans x Hs) as (Hq & _ & Habove).
  assert (Hlast : List.last spans 0 = nth (length spans - 1) spans 0)
    by (apply last_nth; destruct spans; [simpl in Hlen; lia | discriminate]).
  assert (Hall : searchsorted spans x = length spans).
  { destruct (Nat.eq_dec (searchsorted spans x) (length spans)) as [E|E];
      [exact E|].
    specialize (Habove (length spans - 1)%nat ltac:(lia)). lra. }
  rewrite Hall.
  rewrite (proj2 (nth_error_None spans (length spans - 1 + 1))) by lia.
  destruct (nth_error spans (length spans - 1)); reflexivity.
Qed.

Lemma fill_coefs_untouched (slices : list (nat * nat)) (k c : nat) :
  forall (j : nat) (coefs : nat -> nat -> R),
    (forall i, (i < length slices)%nat ->
               in_slice (nth i slices (0%nat, 0%nat)) k = false) ->
    fill_coefs airfoil_coef j slices coefs k c = coefs k c.
Proof.
  induction slices as [|sl slices IH]; intros j coefs H; [reflexivity|].
  cbn [fill_coefs]. rewrite IH.
  - pose proof (H 0%nat ltac:(simpl; lia)) as H0. cbn [nth] in H0.
    unfold assign. rewrite H0. reflexivity.
  - intros i Hi. apply (H (S i)). simpl. lia.
Qed.

(** X29.  On the right side a control point that sits exactly on the
    last airfoil's span location belongs to no slice, so neither airfoil
    is evaluated there, and the interpolation, whose weight is 1 on the
    last airfoil, returns the 0 the table was started with, whatever the
    airfoils' coefficients are. *)
Theorem airfoil_at_last_span (spans cps : list R) :
  strictly_increasing spans -> (2 <= length spans)%nat ->
  nondecreasing cps ->
  (forall x, In x cps -> x <= List.last spans 0) ->
  exists coefs,
    _get_control_point_coef airfoil_coef "right"
      (AirfoilDistribution spans) cps = Some coefs /\
    forall k, (k < length cps)%nat ->
              nth k cps 0 = List.last spans 0 -> nth k coefs 0 = 0.
Proof.
  intros Hs Hlen Hnd Hle.
  set (vals := fill_coefs airfoil_coef 0
                 (_airfoil_slices "right" (AirfoilDistribution spans) cps)
                 (fun _ _ => 0)).
  set (g := fun k : nat =>
              let x := nth k cps 0 in
              let j := (searchsorted spans x - 1)%nat in
              let d := (x - nth j spans 0)
                       / (nth (j + 1) spans 0 - nth j spans 0) in
              (1 - d) * vals k j + d * vals k (j + 1)%nat).
  assert (Hlast : List.last spans 0 = nth (length spans - 1) spans 0)
    by (apply last_nth; destruct spans; [simpl in Hlen; lia | discriminate]).
  exists (map g (seq 0 (length cps))). split.
  - unfold _get_control_point_coef, _airfoil_interpolator. cbv zeta.
    cbn [_num_airfoils _airfoil_spans].
    destruct (Nat.eqb_spec (length spans) 1) as [E|_]; [lia|].
    fold vals. apply (all_some_map _ g cps 0). intros i Hi.
    cbn [Nat.add]. unfold interpolate_at, g. cbv zeta.
    set (x := nth i cps 0).
    destruct (searchsorted_bracket spans x Hs) as (Hq & Hbelow & _).
    assert (Hq1 : (searchsorted spans x - 1 + 1 < length spans)%nat).
    { pose proof (Hle x (nth_In cps 0 Hi)) as Hxl.
      destruct (Nat.eq_dec (searchsorted spans x) (length spans)) as [E|E];
        [|lia].
      specialize (Hbelow (length spans - 1)%nat ltac:(lia)). lra. }
    rewrite (nth_error_nth' spans 0) by lia.
    rewrite (nth_error_nth' spans 0) by lia. reflexivity.
  - intros k Hk Hx.
    rewrite (nth_map_seq g (length cps) 0 k 0 Hk). cbn [Nat.add].
    unfold g. cbv zeta. rewrite Hx.
    destruct (searchsorted_bracket spans (List.last spans 0) Hs)
      as (Hq & Hbelow & Habove).
    set (q := searchsorted spans (List.last spans 0)) in *.
    assert (Hqn : q = (length spans - 1)%nat).
    { destruct (lt_eq_lt_dec q (length spans - 1)%nat) as [[Hlt | E] | Hgt];
        [|exact E|].
      - specialize (Habove q ltac:(lia)).
        pose proof (strictly_increasing_nth spans Hs q (length spans - 1)
                      ltac:(lia)). lra.
      - specialize (Hbelow (length spans - 1)%nat ltac:(lia)). lra. }
    rewrite Hqn.
    replace (length spans - 1 - 1 + 1)%nat with (length spans - 1)%nat by lia.
    assert (Hgap : nth (length spans - 1 - 1) spans 0
                   < nth (length spans - 1) spans 0)
      by (apply strictly_increasing_nth; [exact Hs | lia]).
    assert (Hzero : vals k (length spans - 1)%nat = 0).
    { unfold vals. apply fill_coefs_untouched. intros i Hi.
      unfold _airfoil_slices in *. cbn [String.eqb Ascii.eqb Bool.eqb] in *.
      rewrite slices_right_length in Hi.
      rewrite slices_right_nth by exact Hi.
      unfold in_slice. cbn [fst snd]. apply andb_false_iff. right.
      apply Nat.ltb_ge.
      destruct (le_lt_dec
                  (count (fun c => Rltb c (nth i (tl spans) 0)) cps) k)
        as [Hok | Hgt]; [exact Hok|].
      apply (count_less cps _ k Hnd Hk) in Hgt. rewrite Hx, Hlast in Hgt.
      assert (Htl : nth i (tl spans) 0 = nth (S i) spans 0)
        by (destruct spans; [destruct i|]; reflexivity).
      assert (Htlen : length (tl spans) = (length spans - 1)%nat)
        by (destruct spans; simpl; lia).
      rewrite Htl in Hgt.
      destruct (Nat.eq_dec (S i) (length spans - 1)%nat) as [E|E].
      + rewrite E in Hgt. lra.
      + pose proof (strictly_increasing_nth spans Hs (S i) (length spans - 1)
                      ltac:(lia)). lra. }
    rewrite Hzero, Hlast. field. lra.
Qed.

End AirfoilBlend.
(** * [Scene.target_CL]: the angle of attack for a lift coefficient

    The method sets the angle of attack of the one aircraft, solves the
    scene and reads the total lift coefficient; that is one function
    [solve_CL] of the angle of attack here, which returns the coefficient
    or raises what [solve_forces] or the look-up in its result raises.
    Storing and restoring the state of the aircraft and writing the
    result to a file are left out. *)

Module TargetCL.

Inductive error : Type :=
  | IOError (message : string)
  | MaxIterationError (routine : string) (residual : R)
  | SolveError (e : exn).
      (* an exception of [solve_forces(...)[name]["total"]["CL"]] *)

(** How the method ends.  [DividedByZero] stands for the update
    [(CL_target-CL)/CLa] with a slope [CLa] of zero: [inf] or [nan]
    with NumPy's floats, a [ZeroDivisionError] with Python's, and
    either way outside the real numbers of this model. *)
Inductive returned (A : Type) : Type :=
  | Value (a : A)
  | Raises (e : error)
  | DividedByZero.

Arguments Value {A} a.
Arguments Raises {A} e.
Arguments DividedByZero {A}.

(** The keyword arguments the iteration reads *)
Record kwargs : Type := {
  CL : R;                  (* "CL" *)
  max_iterations : Z;      (* default 100 *)
  relaxation : R           (* default 1.0 *)
}.

Section WithSolver.

(** [airplane_object.set_aerodynamic_state(alpha=alpha)] followed by
    [self.solve_forces(dimensional=False)[aircraft_name]["total"]["CL"]] *)
Variable solve_CL : R -> outcome R.

Variable kw : kwargs.

(** The [while res>1e-10] loop; [None] only when [fuel] runs out. *)
Fixpoint iterate (fuel : nat) (i : Z) (alpha CL_now res : R)
  : option (returned R) :=
  if Rgt_dec res 1e-10
  then
    match fuel with
    | O => None
    | S fuel' =>
        match solve_CL (alpha + 0.005) with
        | Raise e => Some (Raises (SolveError e))
        | Return CL_fwd =>
            match solve_CL (alpha - 0.005) with
            | Raise e => Some (Raises (SolveError e))
            | Return CL_bwd =>
                let CLa := (CL_fwd - CL_bwd) / 0.01 in
                if Req_dec_T CLa 0 then Some DividedByZero
                else
                  let alpha :=
                    alpha + (CL kw - CL_now) / CLa * relaxation kw in
                  match solve_CL alpha with
                  | Raise e => Some (Raises (SolveError e))
                  | Return CL_now =>
                      let res := Rabs (CL_now - CL kw) in
                      let i := (i + 1)%Z in
                      if (i =? max_iterations kw)%Z
                      then Some (Raises (MaxIterationError "target_CL" res))
                      else iterate fuel' i alpha CL_now res
                  end
            end
        end
    end
  else Some (Value alpha).

(** [aircraft_names] is [list(self._airplanes.keys())];
    [has_constant_wind] tells whether [self._constant_wind] exists. *)
Definition target_CL (aircraft_names : list string) (has_constant_wind : bool)
    (fuel : nat) : option (returned R) :=
  if negb (length aircraft_names =? 1)%nat
  then Some (Raises (IOError
         "target_CL() may not be used when there is more than one aircraft in the scene."))
  else if negb has_constant_wind
  then Some (Raises (IOError
         "target_CL() may not be used when the wind is not constant."))
  else
    let alpha := 0.0 in
    match solve_CL alpha with
    | Raise e => Some (Raises (SolveError e))
    | Return CL_now => iterate fuel 0%Z alpha CL_now (Rabs (CL_now - CL kw))
    end.

End WithSolver.

End TargetCL.

Section TargetCLFacts.

Import TargetCL.

Variable solve_CL : R -> outcome R.
Variable kw : kwargs.

Lemma iterate_converged (fuel : nat) (i : Z) (alpha CL_now res : R) :
  res <= 1e-10 ->
  iterate solve_CL kw fuel i alpha CL_now res = Some (Value alpha).
Proof.
  intros H. destruct fuel; simpl;
    (destruct (Rgt_dec res 1e-10) as [Hgt | _]; [lra | reflexivity]).
Qed.

(** What a run of the loop ends with *)
Definition iterate_ok (i : Z) (r : returned R) : Prop :=
  match r with
  | Value alpha =>
      exists CL_now, solve_CL alpha = Return CL_now /\
                     Rabs (CL_now - CL kw) <= 1e-10
  | Raises (MaxIterationError routine res) =>
      routine = "target_CL"%string /\ (i < max_iterations kw)%Z
  | Raises (SolveError e) => exists alpha, solve_CL alpha = Raise e
  | Raises (IOError _) => False
  | DividedByZero =>
      exists alpha CL_fwd CL_bwd,
        solve_CL (alpha + 0.005) = Return CL_fwd /\
        solve_CL (alpha - 0.005) = Return CL_bwd /\
        CL_fwd = CL_bwd
  end.

Lemma zero_slope (CL_fwd CL_bwd : R) :
  (CL_fwd - CL_bwd) / 0.01 = 0 -> CL_fwd = CL_bwd.
Proof.
  intros H. unfold Rdiv in H.
  apply Rmult_integral in H as [H | H]; [lra|].
  exfalso. revert H. apply Rinv_neq_0_compat. unfold Q2R. simpl. lra.
Qed.

Lemma iterate_sound (fuel : nat) :
  forall (i : Z) (alpha CL_now : R) (r : returned R),
    solve_CL alpha = Return CL_now ->
    iterate solve_CL kw fuel i alpha CL_now (Rabs (CL_now - CL kw)) = Some r ->
    iterate_ok i r.
Proof.
  induction fuel as [|fuel IH]; intros i alpha CL_now r Ha Hr.
  - simpl in Hr. destruct (Rgt_dec _ _) as [|Hle]; [discriminate|].
    injection Hr as <-. simpl. exists CL_now. split; [exact Ha | lra].
  - cbn [iterate] in Hr. cbv zeta in Hr.
    destruct (Rgt_dec _ _) as [Hgt|Hle].
    + destruct (solve_CL (alpha + 0.005)) as [CL_fwd|e] eqn:Hf;
        [|injection Hr as <-; simpl; eauto].
      destruct (solve_CL (alpha - 0.005)) as [CL_bwd|e] eqn:Hb;
        [|injection Hr as <-; simpl; eauto].
      destruct (Req_dec_T _ 0) as [Hz|Hnz].
      * injection Hr as <-. simpl. exists alpha, CL_fwd, CL_bwd.
        split; [exact Hf|]. split; [exact Hb|]. apply zero_slope, Hz.
      * match type of Hr with
        | context [solve_CL ?x] =>
            destruct (solve_CL x) as [CL_new|e] eqn:Hn
        end; [|injection Hr as <-; simpl; eauto].
        destruct (Z.eqb_spec (i + 1) (max_iterations kw)) as [E|E].
        -- injection Hr as <-. simpl. split; [reflexivity | lia].
        -- apply (IH _ _ _ _ Hn) in Hr. unfold iterate_ok in *.
           destruct r as [a|[m|routine res|e]|]; auto.
           destruct Hr as [Hr1 Hr2]. split; [exact Hr1 | lia].
    + injection Hr as <-. simpl. exists CL_now. split; [exact Ha | lra].
Qed.

Lemma iterate_total (fuel : nat) :
  forall (i : Z) (alpha CL_now res : R),
    (i < max_iterations kw)%Z ->
    (max_iterations kw <= i + Z.of_nat fuel)%Z ->
    exists r, iterate solve_CL kw fuel i alpha CL_now res = Some r.
Proof.
  induction fuel as [|fuel IH]; intros i alpha CL_now res Hi Hf; [lia|].
  cbn [iterate]. cbv zeta. destruct (Rgt_dec res 1e-10); [|eauto].
  destruct (solve_CL (alpha + 0.005)); [|eauto].
  destruct (solve_CL (alpha - 0.005)); [|eauto].
  destruct (Req_dec_T _ 0); [eauto|].
  destruct (solve_CL _); [|eauto].
  destruct (Z.eqb_spec (i + 1) (max_iterations kw)) as [E|E]; [eauto|].
  apply IH; lia.
Qed.

Lemma iterate_never_limit (fuel : nat) :
  forall (i : Z) (alpha CL_now res : R) (routine : string) (e : R),
    (max_iterations kw <= i)%Z ->
    iterate solve_CL kw fuel i alpha CL_now res
    <> Some (Raises (MaxIterationError routine e)).
Proof.
  induction fuel as [|fuel IH]; intros i alpha CL_now res routine e Hi;
    cbn [iterate]; cbv zeta;
    (destruct (Rgt_dec res 1e-10); [|discriminate]); [discriminate|].
  destruct (solve_CL (alpha + 0.005)); [|discriminate].
  destruct (solve_CL (alpha - 0.005)); [|discriminate].
  destruct (Req_dec_T _ 0); [discriminate|].
  destruct (solve_CL _); [|discriminate].
  destruct (Z.eqb_spec (i + 1) (max_iterations kw)) as [E|E]; [lia|].
  apply IH. lia.
Qed.

(** X24.  With [max_iterations] at least 1, the iteration of
    [target_CL] ends within that many passes.  When it returns an angle
    of attack, the solve at that angle gave a lift coefficient within
    [1e-10] of the target; the max-iteration error names the routine; an
    [IOError] means a scene that has not exactly one aircraft or has no
    constant wind; an exception of one of the solves is let through as
    it is; and the update is left undone only where the central
    difference of the lift is zero, which it would divide by.  With
    [max_iterations] of 0 or less the limit is never hit, so nothing
    bounds the passes. *)
Theorem target_CL_ends (aircraft_names : list string)
    (has_constant_wind : bool) :
  ((1 <= max_iterations kw)%Z ->
   exists r,
     target_CL solve_CL kw aircraft_names has_constant_wind
       (Z.to_nat (max_iterations kw)) = Some r /\
     match r with
     | Value alpha =>
         exists CL_now, solve_CL alpha = Return CL_now /\
                        Rabs (CL_now - CL kw) <= 1e-10
     | Raises (MaxIterationError routine _) => routine = "target_CL"%string
     | Raises (IOError _) =>
         length aircraft_names <> 1%nat \/ has_constant_wind = false
     | Raises (SolveError e) => exists alpha, solve_CL alpha = Raise e
     | DividedByZero =>
         exists alpha CL_fwd CL_bwd,
           solve_CL (alpha + 0.005) = Return CL_fwd /\
           solve_CL (alpha - 0.005) = Return CL_bwd /\
           CL_fwd = CL_bwd
     end) /\
  ((max_iterations kw <= 0)%Z ->
   forall fuel routine e,
     target_CL solve_CL kw aircraft_names has_constant_wind fuel
     <> Some (Raises (MaxIterationError routine e))).
Proof.
  unfold target_CL. split.
  - intros Hm.
    destruct (Nat.eqb_spec (length aircraft_names) 1) as [Hn|Hn]; cbn [negb];
      [|eexists; split; [reflexivity | left; exact Hn]].
    destruct has_constant_wind; cbn [negb];
      [|eexists; split; [reflexivity | right; reflexivity]].
    cbv zeta.
    destruct (solve_CL 0.0) as [CL0|e] eqn:H0;
      [|eexists; split; [reflexivity | exists 0.0; exact H0]].
    destruct (iterate_total (Z.to_nat (max_iterations kw)) 0 0.0
                CL0 (Rabs (CL0 - CL kw)))
      as [r Hr]; [lia | lia|].
    exists r. split; [exact Hr|].
    apply (iterate_sound _ _ _ _ _ H0) in Hr. unfold iterate_ok in Hr.
    destruct r as [a|[m|routine res|e]|];
      [exact Hr | contradiction | apply Hr | exact Hr | exact Hr].
  - intros Hm fuel routine e.
    destruct (negb _); [discriminate|].
    destruct (negb _); [discriminate|].
    cbv zeta. destruct (solve_CL 0.0); [|discriminate].
    apply iterate_never_limit. lia.
Qed.

(** X25.  For a lift coefficient that is linear in the angle of attack,
    [a*alpha + c] with [a] not zero, and a relaxation factor of 1, the
    central difference is the exact slope and one pass lands on the
    target: [target_CL] returns [(CL - c)/a].  It returns 0 without a
    pass when the lift at zero angle of attack is already within
    [1e-10], and with [max_iterations = 1] the one pass raises the
    max-iteration error although its residual is zero. *)
Theorem target_CL_linear_lift (a c : R) (aircraft_name : string)
    (fuel : nat) :
  (forall alpha, solve_CL alpha = Return (a * alpha + c)) ->
  a <> 0 ->
  relaxation kw = 1 ->
  let run := target_CL solve_CL kw [aircraft_name] true (S (S fuel)) in
  (Rabs (c - CL kw) <= 1e-10 -> run = Some (Value 0)) /\
  (Rabs (c - CL kw) > 1e-10 -> max_iterations kw <> 1%Z ->
   run = Some (Value ((CL kw - c) / a))) /\
  (Rabs (c - CL kw) > 1e-10 -> max_iterations kw = 1%Z ->
   run = Some (Raises (MaxIterationError "target_CL" 0))).
Proof.
  intros Hlin Ha Hrelax. cbv zeta. unfold target_CL.
  cbn [length Nat.eqb negb]. cbv zeta.
  assert (H0 : (0.0 : R) = 0) by (unfold Q2R; simpl; lra).
  rewrite H0, Hlin.
  replace (a * 0 + c) with c by ring.
  assert (Hslope : (a * (0 + 0.005) + c - (a * (0 - 0.005) + c)) / 0.01 = a)
    by (unfold Q2R; simpl; field).
  assert (Hstep : 0 + (CL kw - c) / a * relaxation kw = (CL kw - c) / a)
    by (rewrite Hrelax; field; exact Ha).
  assert (Hres : Rabs (a * ((CL kw - c) / a) + c - CL kw) = 0).
  { replace (a * ((CL kw - c) / a) + c - CL kw) with 0 by (field; exact Ha).
    apply Rabs_R0. }
  assert (Htol : 0 <= 1e-10) by (unfold Q2R; simpl; lra).
  assert (Hpass : forall fuel',
    iterate solve_CL kw (S fuel') 0 0 c (Rabs (c - CL kw)) =
    if Rgt_dec (Rabs (c - CL kw)) 1e-10
    then if (0 + 1 =? max_iterations kw)%Z
         then Some (Raises (MaxIterationError "target_CL" 0))
         else iterate solve_CL kw fuel' (0 + 1) ((CL kw - c) / a)
                (a * ((CL kw - c) / a) + c) 0
    else Some (Value 0)).
  { intros fuel'. cbn [iterate]. cbv zeta.
    destruct (Rgt_dec _ _) as [_|_]; [|reflexivity].
    rewrite !Hlin, Hslope.
    destruct (Req_dec_T a 0) as [Hz|_]; [contradiction|].
    rewrite !Hstep, Hres. reflexivity. }
  rewrite Hpass.
  split; [|split].
  - intros Hle. destruct (Rgt_dec _ _) as [Hgt|_]; [lra | reflexivity].
  - intros Hgt Hm.
    destruct (Rgt_dec _ _) as [_|Hn]; [|contradiction].
    destruct (Z.eqb_spec (0 + 1) (max_iterations kw)) as [E|_];
      [exfalso; apply Hm; lia|].
    apply iterate_converged. exact Htol.
  - intros Hgt Hm.
    destruct (Rgt_dec _ _) as [_|Hn]; [|contradiction].
    rewrite Hm. reflexivity.
Qed.

End TargetCLFacts.

(** * The atmosphere getters of [Scene._load_params]

    [_initialize_density_getter], [_initialize_viscosity_getter] and
    [_initialize_sos_getter] turn one value of the ["atmosphere"]
    dictionary, as [import_value] hands it over, into a function of the
    position.  The standard atmosphere, [np.interp] and scipy's
    [LinearNDInterpolator] are parameters. *)

Module Atmosphere.

(** What [import_value] hands over: a float, a string, a two-dimensional
    array with its number of columns, or anything else *)
Inductive value : Type :=
  | Float (x : R)
  | Str (s : string)
  | Array (columns : nat) (rows : list (list R))
  | Other.

(** The two [IOError]s of the getters, by what they report, and the
    [UnboundLocalError] of [return getter] when no branch defined it *)
Inductive error : Type :=
  | NotAllowableProfile (name : string)
      (* IOError: ... is not an allowable profile name. *)
  | ImproperlySpecified
      (* IOError: Density improperly specified as ... *)
  | UnboundLocalError.

Inductive returned (A : Type) : Type :=
  | Value (a : A)
  | Raises (e : error).

Arguments Value {A} a.
Arguments Raises {A} e.

Section WithCollaborators.

(** [self._std_atmos.rho], [.nu] and [.a], functions of the altitude *)
Variables std_rho std_nu std_a : R -> R.

(** [np.interp(x, data[:,0], data[:,1])] and the call of a
    [LinearNDInterpolator] built from the rows *)
Variable interp : R -> list (list R) -> R.
Variable field_interp : list (list R) -> vec3 -> R.

Definition _initialize_density_getter (rho : value) : returned (vec3 -> R) :=
  match rho with
  | Float x => Value (fun _ => x)
  | Str s =>
      if String.eqb s "standard"
      then Value (fun position => std_rho (- vz position))
      else Raises (NotAllowableProfile s)
  | Array columns rows =>
      if (columns =? 2)%nat
      then Value (fun position => interp (- vz position) rows)
      else if (columns =? 4)%nat
           then Value (field_interp rows)
           else Raises UnboundLocalError
  | Other => Raises ImproperlySpecified
  end.

Definition _initialize_viscosity_getter (nu : value)
  : returned (vec3 -> R) :=
  match nu with
  | Float x => Value (fun _ => x)
  | Str s =>
      if String.eqb s "standard"
      then Value (fun position => std_nu (- vz position))
      else Raises (NotAllowableProfile s)
  | _ => Raises UnboundLocalError
  end.

Definition _initialize_sos_getter (a : value) : returned (vec3 -> R) :=
  match a with
  | Float x => Value (fun _ => x)
  | Str s =>
      if String.eqb s "standard"
      then Value (fun position => std_a (- vz position))
      else Raises (NotAllowableProfile s)
  | _ => Raises UnboundLocalError
  end.

End WithCollaborators.

End Atmosphere.

Section AtmosphereFacts.

Import Atmosphere.

Variables std_rho std_nu std_a : R -> R.
Variable interp : R -> list (list R) -> R.
Variable field_interp : list (list R) -> vec3 -> R.

Local Abbreviation density := (_initialize_density_getter std_rho interp field_interp).
Local Abbreviation viscosity := (_initialize_viscosity_getter std_nu).
Local Abbreviation sos := (_initialize_sos_getter std_a).

(** X26.  The viscosity and speed-of-sound getters are built exactly for
    a float or the name ["standard"]; density is built for these and
    also for an array of two or four columns.  A float gives the same
    value at every position and ["standard"] a value that depends on the
    position through its z-coordinate only.  Any other name is an
    [IOError]; an array, the profile that density takes, makes the
    viscosity and speed-of-sound getters fail with [UnboundLocalError],
    as an array of another width does for density. *)
Theorem atmosphere_getters (v : value) :
  let simple := (exists x, v = Float x) \/ v = Str "standard" in
  ((exists get, viscosity v = Value get) <-> simple) /\
  ((exists get, sos v = Value get) <-> simple) /\
  ((exists get, density v = Value get) <->
   simple \/ exists rows, v = Array 2 rows \/ v = Array 4 rows) /\
  (forall x get, v = Float x ->
     (density v = Value get \/ viscosity v = Value get \/ sos v = Value get) ->
     forall position, get position = x) /\
  (forall get, v = Str "standard" ->
     (density v = Value get \/ viscosity v = Value get \/ sos v = Value get) ->
     forall p q, vz p = vz q -> get p = get q) /\
  (forall columns rows, v = Array columns rows ->
     viscosity v = Raises UnboundLocalError /\
     sos v = Raises UnboundLocalError /\
     (columns <> 2%nat -> columns <> 4%nat ->
      density v = Raises UnboundLocalError)) /\
  (forall s, v = Str s -> s <> "standard" ->
     density v = Raises (NotAllowableProfile s) /\
     viscosity v = Raises (NotAllowableProfile s) /\
     sos v = Raises (NotAllowableProfile s)).
Proof.
  cbv zeta. split; [|split; [|split; [|split; [|split; [|split]]]]].
  - destruct v as [x|s|n rows|]; cbn; split;
      try (intros [get H]; discriminate);
      try (intros [[x' H] | H]; discriminate); eauto.
    + destruct (String.eqb_spec s "standard") as [->|Hs];
        [auto | intros [get H]; discriminate].
    + intros [[x H] | H]; [discriminate|]. injection H as ->. cbn. eauto.
  - destruct v as [x|s|n rows|]; cbn; split;
      try (intros [get H]; discriminate);
      try (intros [[x' H] | H]; discriminate); eauto.
    + destruct (String.eqb_spec s "standard") as [->|Hs];
        [auto | intros [get H]; discriminate].
    + intros [[x H] | H]; [discriminate|]. injection H as ->. cbn. eauto.
  - destruct v as [x|s|n rows|]; cbn; split;
      try (intros [get H]; discriminate); eauto.
    + destruct (String.eqb_spec s "standard") as [->|Hs];
        [auto | intros [get H]; discriminate].
    + intros [[[x H] | H] | [rows [H | H]]]; try discriminate.
      injection H as ->. cbn. eauto.
    + destruct (Nat.eqb_spec n 2) as [->|H2]; [eauto|].
      destruct (Nat.eqb_spec n 4) as [->|H4]; [eauto|].
      intros [get H]; discriminate.
    + intros [[[x H] | H] | [rows' [H | H]]]; try discriminate;
        injection H as -> ->; cbn; eauto.
    + intros [[[x H] | H] | [rows' [H | H]]]; discriminate.
  - intros x get -> [H | [H | H]] position; cbn in H; injection H as <-;
      reflexivity.
  - intros get -> [H | [H | H]] p q Hz; cbn in H; injection H as <-;
      rewrite Hz; reflexivity.
  - intros columns rows ->. cbn. split; [reflexivity|].
    split; [reflexivity|]. intros H2 H4.
    destruct (Nat.eqb_spec columns 2); [contradiction|].
    destruct (Nat.eqb_spec columns 4); [contradiction | reflexivity].
  - intros s -> Hs. cbn. apply String.eqb_neq in Hs. rewrite Hs. auto.
Qed.

End AtmosphereFacts.

(** * Instances of the properties above *)

Module ExtraExamples.

(** The default parameters with another solver type *)
Definition with_solver_type (t : string) : Config :=
  {| _solver_type := t; _solver_convergence := 1e-10;
     _solver_relaxation := 1.0; _max_solver_iterations := 100;
     _use_swept_sections := true; _use_total_velocity := true;
     _use_in_plane := true; _match_machup_pro := false;
     _impingement_threshold := 1e-10; has_FS := false;
     FS_biplane_boundary := false; submergence := 0;
     use_wave_corrections := false |}.

Definition scene_with_solver (t : string) : SceneOps.Scene unit :=
  ExampleScenes.scene_of (with_solver_type t) ExampleScenes.one_plane
    Examples.hook_geometry Examples.wake_along_x SceneOps.zeros_aero.

Definition quiet : SolveKwargs :=
  {| initial_guess := "linear"; verbose := false |}.

(** A second wing, of two control points *)
Definition tail : Airplane.t :=
  ExampleScenes.constant_section_plane "tail" 2 0 1 1 0.

(** One panel, cosine clustered, and one listed by the user *)
Definition one_panel : WingSegment.params :=
  {| WingSegment.N := 1;
     WingSegment.distribution := WingSegment.Name "cosine_cluster";
     WingSegment.flap_edge_cluster := true;
     WingSegment.extra_discont := [];
     WingSegment.flap_dict := None;
     WingSegment.side := "right" |}.

Definition one_panel_grid : WingSegment.grid :=
  {| WingSegment.node_span_locs :=
       [0.0] ++ WingSegment.section_nodes 0.0 1.0 1;
     WingSegment.cp_span_locs := [] ++ WingSegment.section_cps 0.0 1.0 1;
     WingSegment.warned := [] |}.

Definition two_panels (d : WingSegment.distribution_spec)
  : WingSegment.params :=
  {| WingSegment.N := 2; WingSegment.distribution := d;
     WingSegment.flap_edge_cluster := true;
     WingSegment.extra_discont := [];
     WingSegment.flap_dict := None;
     WingSegment.side := "left" |}.

Lemma one_panel_built :
  WingSegment._initialize_params one_panel = WingSegment.Value one_panel_grid.
Proof.
  unfold WingSegment._initialize_params. cbn [WingSegment.distribution one_panel].
  cbv zeta. rewrite String.eqb_refl.
  assert (Hc : WingSegment.num_control_pts (WingSegment.N one_panel)
                 (WingSegment.discontinuities one_panel) = [1%Z]).
  { unfold WingSegment.num_control_pts, WingSegment.discontinuities,
      WingSegment.clustering.
    cbn [one_panel WingSegment.flap_edge_cluster WingSegment.flap_dict
         WingSegment.extra_discont WingSegment.N app List.filter
         WingSegment.sort fold_right WingSegment.sections tl combine map
         fst snd].
    cbv zeta.
    replace (IZR 1 * (1.0 - 0.0)) with (IZR 1)
      by (rewrite decimal_0, decimal_1; ring).
    rewrite py_round_IZR. reflexivity. }
  rewrite Hc.
  unfold WingSegment.discontinuities, WingSegment.clustering.
  cbn [one_panel WingSegment.flap_edge_cluster WingSegment.flap_dict
       WingSegment.extra_discont app List.filter WingSegment.sort
       fold_right WingSegment.sections tl combine WingSegment.cosine_loop
       Z.eqb Z.ltb Z.compare WingSegment.node_span_locs
       WingSegment.cp_span_locs WingSegment.warned WingSegment.side].
  reflexivity.
Qed.

Lemma one_panel_clustering (x : R) :
  In x (WingSegment.clustering one_panel) -> 0 <= x <= 1.
Proof. intros []. Qed.

(** Two panels on a left segment, cosine clustered about a cluster point
    of the user at mid span *)
Definition clustered : WingSegment.params :=
  {| WingSegment.N := 2;
     WingSegment.distribution := WingSegment.Name "cosine_cluster";
     WingSegment.flap_edge_cluster := true;
     WingSegment.extra_discont := [1/2];
     WingSegment.flap_dict := None;
     WingSegment.side := "left" |}.

Definition clustered_grid : WingSegment.grid :=
  {| WingSegment.node_span_locs :=
       rev (([0.0] ++ WingSegment.section_nodes 0.0 (1/2) 1)
            ++ WingSegment.section_nodes (1/2) 1.0 1);
     WingSegment.cp_span_locs :=
       rev (([] ++ WingSegment.section_cps 0.0 (1/2) 1)
            ++ WingSegment.section_cps (1/2) 1.0 1);
     WingSegment.warned := [] |}.

Lemma Reqb_false (x y : R) : x <> y -> WingSegment.Reqb x y = false.
Proof.
  intros H. unfold WingSegment.Reqb.
  destruct (Req_dec_T x y); [contradiction | reflexivity].
Qed.

Lemma clustered_discontinuities :
  WingSegment.discontinuities clustered = [0.0; 1/2; 1.0].
Proof.
  unfold WingSegment.discontinuities, WingSegment.clustering.
  cbn [clustered WingSegment.flap_edge_cluster WingSegment.flap_dict
       WingSegment.extra_discont app List.filter].
  rewrite (Reqb_false (1/2) 1.0) by (rewrite decimal_1; lra).
  cbn [negb List.filter].
  rewrite (Reqb_false (1/2) 0.0) by (rewrite decimal_0; lra).
  reflexivity.
Qed.

Lemma clustered_built :
  WingSegment._initialize_params clustered = WingSegment.Value clustered_grid.
Proof.
  unfold WingSegment._initialize_params.
  cbn [WingSegment.distribution clustered]. cbv zeta.
  rewrite String.eqb_refl, clustered_discontinuities.
  assert (Hc : WingSegment.num_control_pts (WingSegment.N clustered)
                 [0.0; 1/2; 1.0] = [1%Z; 1%Z]).
  { unfold WingSegment.num_control_pts.
    cbn [clustered WingSegment.N WingSegment.sections tl combine map
         fst snd].
    cbv zeta.
    replace (IZR 2 * (1 / 2 - 0.0)) with (IZR 1)
      by (rewrite decimal_0; lra).
    replace (IZR 2 * (1.0 - 1 / 2)) with (IZR 1)
      by (rewrite decimal_1; lra).
    rewrite py_round_IZR. reflexivity. }
  rewrite Hc.
  cbn [WingSegment.sections tl combine WingSegment.cosine_loop
       Z.eqb Z.ltb Z.compare WingSegment.node_span_locs
       WingSegment.cp_span_locs WingSegment.warned WingSegment.side
       clustered].
  reflexivity.
Qed.

Lemma clustered_clustering (x : R) :
  In x (WingSegment.clustering clustered) -> 0 <= x <= 1.
Proof. intros [<- | []]. lra. Qed.

(** Four panels with three cluster points of the user, the first of
    them below the root *)
Definition off_span : WingSegment.params :=
  {| WingSegment.N := 4;
     WingSegment.distribution := WingSegment.Name "cosine_cluster";
     WingSegment.flap_edge_cluster := true;
     WingSegment.extra_discont := [- (1/10); 27/100; 64/100];
     WingSegment.flap_dict := None;
     WingSegment.side := "right" |}.

Definition off_span_grid : WingSegment.grid :=
  {| WingSegment.node_span_locs :=
       (((([0.0] ++ WingSegment.section_nodes 0.0 (- (1/10)) 1)
          ++ WingSegment.section_nodes (- (1/10)) (27/100) 1)
         ++ WingSegment.section_nodes (27/100) (64/100) 1)
        ++ WingSegment.section_nodes (64/100) 1.0 1);
     WingSegment.cp_span_locs :=
       (((([] ++ WingSegment.section_cps 0.0 (- (1/10)) 1)
          ++ WingSegment.section_cps (- (1/10)) (27/100) 1)
         ++ WingSegment.section_cps (27/100) (64/100) 1)
        ++ WingSegment.section_cps (64/100) 1.0 1);
     WingSegment.warned := [] |}.

Lemma off_span_discontinuities :
  WingSegment.discontinuities off_span
  = [0.0; - (1/10); 27/100; 64/100; 1.0].
Proof.
  unfold WingSegment.discontinuities, WingSegment.clustering.
  cbn [off_span WingSegment.flap_edge_cluster WingSegment.flap_dict
       WingSegment.extra_discont app List.filter].
  rewrite (Reqb_false (- (1/10)) 1.0), (Reqb_false (27/100) 1.0),
    (Reqb_false (64/100) 1.0) by (rewrite decimal_1; lra).
  cbn [negb List.filter].
  rewrite (Reqb_false (- (1/10)) 0.0), (Reqb_false (27/100) 0.0),
    (Reqb_false (64/100) 0.0) by (rewrite decimal_0; lra).
  cbn [negb]. unfold WingSegment.sort. cbn [fold_right].
  change (WingSegment.insert_sorted (64/100) []) with [64/100].
  rewrite !insert_sorted_le by lra. reflexivity.
Qed.

Lemma off_span_built :
  WingSegment._initialize_params off_span = WingSegment.Value off_span_grid.
Proof.
  unfold WingSegment._initialize_params.
  cbn [WingSegment.distribution off_span]. cbv zeta.
  rewrite String.eqb_refl, off_span_discontinuities.
  assert (Hc : WingSegment.num_control_pts (WingSegment.N off_span)
                 [0.0; - (1/10); 27/100; 64/100; 1.0]
               = [1%Z; 1%Z; 1%Z; 1%Z]).
  { unfold WingSegment.num_control_pts.
    cbn [off_span WingSegment.N WingSegment.sections tl combine map
         fst snd].
    cbv zeta. rewrite decimal_0, decimal_1.
    rewrite (py_round_up (-1) (IZR 4 * (- (1/10) - 0))) by (simpl; lra).
    rewrite (py_round_down 1 (IZR 4 * (27/100 - - (1/10)))) by (simpl; lra).
    rewrite (py_round_down 1 (IZR 4 * (64/100 - 27/100))) by (simpl; lra).
    rewrite (py_round_down 1 (IZR 4 * (1 - 64/100))) by (simpl; lra).
    reflexivity. }
  rewrite Hc.
  cbn [WingSegment.sections tl combine WingSegment.cosine_loop
       Z.eqb Z.ltb Z.compare WingSegment.node_span_locs
       WingSegment.cp_span_locs WingSegment.warned WingSegment.side
       off_span].
  reflexivity.
Qed.

(** A lift coefficient of twice the angle of attack, from solves that
    all return *)
Definition linear_lift (alpha : R) : outcome R := Return (2 * alpha + 0).

End ExtraExamples.

Lemma solve_forces_results_witness :
  exists r0,
    SceneOps.solve_circulation unit solve_1x1 (fun _ => 0) (fun _ => 0)
      StalledScene.fsolve StalledScene.fill_freestream
      (SceneOps.with_FM unit StalledScene.scene
         (SceneOps.forces unit StalledScene.scene) (Some tt))
      StalledScene.kw = Some r0 /\
    SceneOps._FM unit (SceneOps.r_scene r0) = Some tt.
Proof.
  assert (H : SceneOps._num_aircraft unit StalledScene.scene <> 0%Z)
    by (cbn; discriminate).
  destruct (solve_forces_results unit tt StalledScene.build_FM solve_1x1
              (fun _ => 0) (fun _ => 0) StalledScene.fsolve
              StalledScene.fill_freestream StalledScene.fill_unswept
              StalledScene.scene StalledScene.kw H) as (r0 & Hr & HFM & _).
  exists r0. split; assumption.
Defined.


Lemma scipy_without_fallback_witness :
  exists r,
    SceneOps.solve_circulation unit solve_1x1 (fun _ => 0) (fun _ => 0)
      StalledScene.fsolve StalledScene.fill_freestream
      (ExtraExamples.scene_with_solver "scipy_fsolve") ExtraExamples.quiet
    = Some r.
Proof.
  destruct (scipy_without_fallback unit solve_1x1 (fun _ => 0) (fun _ => 0)
              StalledScene.fsolve StalledScene.fill_freestream
              (ExtraExamples.scene_with_solver "scipy_fsolve")
              ExtraExamples.quiet eq_refl) as [_ H].
  eexists. apply H. reflexivity.
Defined.

Lemma add_remove_round_trip_witness :
  let s := ExtraExamples.scene_with_solver "linear" in
  let s1 := SceneOps.r_scene
              (SceneOps.add_aircraft unit StalledScene.fill_geometry s
                 "tail" ExtraExamples.tail) in
  SceneOps._airplanes unit
    (SceneOps.r_scene
       (SceneOps.remove_aircraft unit StalledScene.fill_geometry s1 "tail"))
  = SceneOps._airplanes unit s.
Proof.
  cbv zeta.
  apply (add_remove_round_trip unit StalledScene.fill_geometry
           (ExtraExamples.scene_with_solver "linear") "tail"
           ExtraExamples.tail).
  reflexivity.
Defined.

Lemma add_aircraft_existing_name_witness :
  let s := ExtraExamples.scene_with_solver "linear" in
  let s1 := SceneOps.r_scene
              (SceneOps.add_aircraft unit StalledScene.fill_geometry s
                 "wing" ExtraExamples.tail) in
  length (SceneOps._airplanes unit s1) = length (SceneOps._airplanes unit s) /\
  SceneOps._num_aircraft unit s1 = (SceneOps._num_aircraft unit s + 1)%Z.
Proof.
  cbv zeta.
  destruct (add_aircraft_existing_name unit StalledScene.fill_geometry
              (ExtraExamples.scene_with_solver "linear") "wing"
              (ExampleScenes.constant_section_plane "wing" 1 0 1 1 0)
              ExtraExamples.tail eq_refl) as (_ & Hl & Hc & _).
  split; assumption.
Defined.

Lemma store_aircraft_properties_layout_witness :
  _dS (_store_aircraft_properties Examples.default_config
         ([SolverExample.plane] ++ ExtraExamples.tail :: []))
      (total_N [SolverExample.plane] + 1)
  = Airplane.dS ExtraExamples.tail 1.
Proof.
  refine (proj1 (store_aircraft_properties_layout Examples.default_config
                   [SolverExample.plane] [] ExtraExamples.tail 1 _)).
  cbn. lia.
Defined.

Lemma get_CL_limited_witness :
  exists CL,
    Airfoil.get_CL AirfoilExample.limited_airfoil [1; 0; 0; 0; 0]
    = Airfoil.Value CL /\ Rabs CL <= 6/5.
Proof.
  destruct (get_CL_limited AirfoilExample.limited_airfoil eq_refl (6/5)
              1 0 0 0 0 [] eq_refl) as (CL & H1 & H2 & _); [lra|].
  exists CL. split; assumption.
Defined.

Lemma get_CL_monotone_witness :
  exists CL1 CL2,
    Airfoil.get_CL AirfoilExample.limited_airfoil [0; 0; 0; 0; 0]
    = Airfoil.Value CL1 /\
    Airfoil.get_CL AirfoilExample.limited_airfoil [1; 0; 0; 0; 0]
    = Airfoil.Value CL2 /\
    CL1 <= CL2.
Proof.
  destruct (get_CL_monotone AirfoilExample.limited_airfoil eq_refl
              0 1 0 0 0 0 []) as (CL1 & CL2 & H1 & H2 & H3 & _).
  - cbn. pose proof PI_RGT_0. lra.
  - cbn. lra.
  - lra.
  - exists CL1, CL2. repeat split; assumption.
Defined.

Lemma get_CD_flap_witness :
  exists CD,
    Airfoil.get_CD AirfoilExample.limited_airfoil [0; 0; 0; 1; 1]
    = Airfoil.Value CD /\
    Airfoil.get_CD AirfoilExample.limited_airfoil [0; 0; 0; 0; -1]
    = Airfoil.Value CD.
Proof.
  destruct (get_CD_flap AirfoilExample.limited_airfoil eq_refl
              0 0 0 1 0 1 [] []) as (CD & CD0 & H1 & H2 & _).
  exists CD. split; assumption.
Defined.

Lemma getters_need_five_inputs_witness :
  Airfoil.get_CL AirfoilExample.limited_airfoil [0; 0; 0]
  = Airfoil.Raises Airfoil.IndexError.
Proof.
  apply (getters_need_five_inputs AirfoilExample.limited_airfoil eq_refl
           [0; 0; 0]).
  simpl. lia.
Defined.

Lemma cosine_cluster_counts_witness :
  Z.of_nat (length (WingSegment.cp_span_locs ExtraExamples.one_panel_grid))
  = 1%Z.
Proof.
  apply (cosine_cluster_counts ExtraExamples.one_panel
           ExtraExamples.one_panel_grid eq_refl
           ExtraExamples.one_panel_built).
Defined.

Lemma cosine_cluster_interleaved_witness :
  interleaved
    (root_to_tip ExtraExamples.clustered
       (WingSegment.node_span_locs ExtraExamples.clustered_grid))
    (root_to_tip ExtraExamples.clustered
       (WingSegment.cp_span_locs ExtraExamples.clustered_grid)).
Proof.
  apply (cosine_cluster_interleaved ExtraExamples.clustered
           ExtraExamples.clustered_grid eq_refl
           ExtraExamples.clustered_clustering
           ExtraExamples.clustered_built).
Defined.

Lemma linear_spacing_witness :
  exists g,
    WingSegment._initialize_params
      (ExtraExamples.two_panels (WingSegment.Name "linear"))
    = WingSegment.Value g.
Proof.
  destruct (linear_spacing
              (ExtraExamples.two_panels (WingSegment.Name "linear")) eq_refl)
    as (_ & _ & H).
  destruct H as (g & Hg & _); [cbn; lia|]. exists g. exact Hg.
Defined.

Lemma user_distribution_witness :
  exists g,
    WingSegment._initialize_params
      (ExtraExamples.two_panels (WingSegment.Spans [0; 1/4; 1/2; 3/4; 1]))
    = WingSegment.Value g.
Proof.
  apply (user_distribution
           (ExtraExamples.two_panels (WingSegment.Spans [0; 1/4; 1/2; 3/4; 1]))
           [0; 1/4; 1/2; 3/4; 1] eq_refl).
  split; [reflexivity|]. split; [reflexivity|]. split; [reflexivity|].
  intros [|[|[|[|k]]]] Hk; simpl in *; try lra; lia.
Defined.

Lemma panel_areas_sum_witness :
  sum_R (WingSegment.dS (fun s => 2 + (1 - 2) * s) 3
           (WingSegment.node_span_locs ExtraExamples.clustered_grid))
  = 3 * (2 + 1) / 2.
Proof.
  apply (panel_areas_sum (fun s => 2 + (1 - 2) * s) 3 2 1
           ExtraExamples.clustered ExtraExamples.clustered_grid
           (fun s => eq_refl) eq_refl ExtraExamples.clustered_clustering
           ExtraExamples.clustered_built eq_refl).
Defined.

Lemma target_CL_ends_witness :
  exists r,
    TargetCL.target_CL ExtraExamples.linear_lift
      {| TargetCL.CL := 1; TargetCL.max_iterations := 2;
         TargetCL.relaxation := 1 |} ["wing"] true 2
    = Some r.
Proof.
  destruct (target_CL_ends ExtraExamples.linear_lift
              {| TargetCL.CL := 1; TargetCL.max_iterations := 2;
                 TargetCL.relaxation := 1 |} ["wing"] true) as [H _].
  destruct H as (r & Hr & _); [cbn; lia|]. exists r. exact Hr.
Defined.

Lemma target_CL_linear_lift_witness :
  TargetCL.target_CL ExtraExamples.linear_lift
    {| TargetCL.CL := 1; TargetCL.max_iterations := 1;
       TargetCL.relaxation := 1 |} ["wing"] true 2
  = Some (TargetCL.Raises (TargetCL.MaxIterationError "target_CL" 0)).
Proof.
  apply (target_CL_linear_lift ExtraExamples.linear_lift
           {| TargetCL.CL := 1; TargetCL.max_iterations := 1;
              TargetCL.relaxation := 1 |} 2 0 "wing" 0
           (fun alpha => eq_refl)).
  - lra.
  - reflexivity.
  - cbn [TargetCL.CL]. replace (0 - 1) with (- (1)) by ring.
    rewrite Rabs_Ropp, Rabs_R1. unfold Q2R. simpl. lra.
  - reflexivity.
Defined.

Lemma cluster_points_are_nodes_witness :
  - (1/10) < 0 /\
  In (- (1/10)) (WingSegment.node_span_locs ExtraExamples.off_span_grid).
Proof.
  split; [lra|].
  apply (cluster_points_are_nodes ExtraExamples.off_span
           ExtraExamples.off_span_grid (- (1/10)) eq_refl).
  - left. reflexivity.
  - exact ExtraExamples.off_span_built.
  - reflexivity.
Defined.

Lemma airfoil_interpolation_witness :
  exists coefs,
    WingSegment._get_control_point_coef (fun j _ => INR j) "right"
      (WingSegment.AirfoilDistribution [0; 1]) [1/2] = Some coefs.
Proof.
  destruct (airfoil_interpolation (fun j _ => INR j) "right" [0; 1] [1/2])
    as (coefs & H & _).
  - intros [|k] Hk; simpl in *; [lra | lia].
  - simpl. lia.
  - change (nondecreasing [1/2] /\
            forall x, In x [1/2] -> x < List.last [0; 1] 0).
    split; [exact I|]. intros x [<- | []]. simpl. lra.
  - exists coefs. exact H.
Defined.

Lemma airfoil_beyond_last_span_witness :
  WingSegment._get_control_point_coef (fun j _ => INR j) "left"
    (WingSegment.AirfoilDistribution [0; 1]) [2; 1/2] = None.
Proof.
  apply (airfoil_beyond_last_span (fun j _ => INR j) "left" [0; 1] [2; 1/2] 2).
  - intros [|k] Hk; simpl in *; [lra | lia].
  - simpl. lia.
  - left. reflexivity.
  - simpl. lra.
Defined.

Lemma airfoil_at_last_span_witness :
  exists coefs,
    WingSegment._get_control_point_coef (fun _ _ => 1) "right"
      (WingSegment.AirfoilDistribution [0; 1]) [1/2; 1] = Some coefs /\
    nth 1 coefs 0 = 0.
Proof.
  destruct (airfoil_at_last_span (fun _ _ => 1) [0; 1] [1/2; 1])
    as (coefs & H & Hz).
  - intros [|k] Hk; simpl in *; [lra | lia].
  - simpl. lia.
  - simpl. split; [lra | exact I].
  - intros x [<- | [<- | []]]; simpl; lra.
  - exists coefs. split; [exact H|]. apply Hz; [simpl; lia | reflexivity].
Defined.
